(** * networkViz: hierarchical filtering and layer explosion (src/js/nv.js)

    A shallow embedding of the node hierarchy ([Node], [NodesTree]), the
    filters ([Filter], [qFilter], [rFilter], [FilterGroup]) and the explosion
    engine of [Visual], followed by the properties proved about them.

    JavaScript objects that the program mutates in place live in one record,
    [World]; every method that reads or writes them is a computation in the
    state-and-exception monad [M], whose state survives a thrown exception
    exactly as the JavaScript heap does. *)

From Stdlib Require Import ZArith String List Ascii Bool Lia Sorted.
From Stdlib Require Import DecimalString DecimalZ Decimal.
From stdpp Require Import gmap strings list fin_maps sorting.

Set Warnings "-register-all".

Open Scope Z_scope.
Open Scope string_scope.
Open Scope list_scope.

(** ** JavaScript strings: [split], [join], number printing *)

(** [s.split(c)] for a one-character separator: never empty, [""] for [""]. *)
Fixpoint split (c : ascii) (s : string) : list string :=
  match s with
  | EmptyString => [EmptyString]
  | String a s' =>
      if Ascii.eqb a c then EmptyString :: split c s'
      else match split c s' with
           | [] => [String a EmptyString]
           | w :: ws => String a w :: ws
           end
  end.

(** [l.join(sep)]. *)
Fixpoint join (sep : string) (l : list string) : string :=
  match l with
  | [] => EmptyString
  | [x] => x
  | x :: xs => x ++ sep ++ join sep xs
  end.

(** [a.pop()] read as an expression: the last element, [undefined] when empty
    (never the case after [split]). *)
Definition pop (l : list string) : string := List.last l EmptyString.

Definition underscore : ascii := "_"%char.

(** [nodeName.split('_').pop()]. *)
Definition shortName (nodeName : string) : string := pop (split underscore nodeName).

(** Does the character occur in the string? *)
Fixpoint occurs (c : ascii) (s : string) : bool :=
  match s with
  | EmptyString => false
  | String a s' => Ascii.eqb a c || occurs c s'
  end.

(** Number-to-string conversion of an integer index, as in [3 + '_' + 5]. *)
Definition showZ (z : Z) : string := NilZero.string_of_int (Z.to_int z).

(** ** JavaScript values, dictionaries, completions *)

(** Attribute values met in the node and link records.  Numbers are integers
    here; [VUndefined] is what a missing property reads as. *)
Inductive value :=
| VUndefined
| VNumber (z : Z)
| VString (s : string).

(** A JavaScript object used as a dictionary, in [for ... in] order.  Keys are
    unique: assignment overwrites in place or appends. *)
Definition dict (K V : Type) := list (K * V).

Fixpoint dict_get {K V} `{EqDecision K} (k : K) (d : dict K V) : option V :=
  match d with
  | [] => None
  | (k', v) :: d' => if decide (k = k') then Some v else dict_get k d'
  end.

Fixpoint dict_set {K V} `{EqDecision K} (k : K) (v : V) (d : dict K V) : dict K V :=
  match d with
  | [] => [(k, v)]
  | (k', v') :: d' =>
      if decide (k = k') then (k', v) :: d' else (k', v') :: dict_set k v d'
  end.

(** In-place change of the value stored under a key. *)
Fixpoint dict_alter {K V} `{EqDecision K} (f : V → V) (k : K) (d : dict K V) : dict K V :=
  match d with
  | [] => []
  | (k', v) :: d' =>
      if decide (k = k') then (k', f v) :: d' else (k', v) :: dict_alter f k d'
  end.

Definition dict_keys {K V} (d : dict K V) : list K := map fst d.
Definition dict_values {K V} (d : dict K V) : list V := map snd d.

(** Array read [l[i]] with a number that may be negative or out of range. *)
Definition at_index {A} (l : list A) (i : Z) : option A :=
  if decide (0 ≤ i)%Z then l !! Z.to_nat i else None.

(** Exceptions the modelled code can raise. [RangeError] is the engine's
    "maximum call stack size exceeded". *)
Inductive exn := TypeError | RangeError.

Inductive res (A : Type) :=
| Ok (a : A)
| Throw (e : exn).
Arguments Ok {A} a.
Arguments Throw {A} e.

(** ** The hierarchy: [Node] *)

(** The JSON description [nodes_tree] the hierarchy is built from.  A missing
    [filtered] reads as [undefined], which every test in the program treats
    like [false]; a missing [filteredBy] compares equal to [null]. *)
Inductive TreeObj := mkTreeObj {
  obj_index : option Z;
  obj_nodeName : string;
  obj_filtered : bool;
  obj_filteredBy : option string;
  obj_children : option (list TreeObj)
}.

(** A tree node.  [children] is [null] ([None]) for a leaf, otherwise the
    dictionary from short name to child.  The [parent] back-reference of the
    source is the position in the tree: nodes are addressed by the list of
    keys leading to them from the root (see [ref]). *)
Inductive Node := mkNode {
  index : option Z;
  nodeName : string;
  filtered : bool;
  filteredBy : option string;
  children : option (dict string Node);
  numChildren : nat
}.

(** [new Node(obj, parent)]. *)
Fixpoint Node_new (obj : TreeObj) : Node :=
  match obj_children obj with
  | Some cs =>
      mkNode (obj_index obj) (shortName (obj_nodeName obj))
        (obj_filtered obj) (obj_filteredBy obj)
        (Some (fold_left
                 (fun acc c => dict_set (shortName (obj_nodeName c)) (Node_new c) acc)
                 cs []))
        (length cs)
  | None =>
      mkNode (obj_index obj) (shortName (obj_nodeName obj))
        (obj_filtered obj) (obj_filteredBy obj) None 0
  end.

Definition set_filtered (b : bool) (n : Node) : Node :=
  mkNode (index n) (nodeName n) b (filteredBy n) (children n) (numChildren n).

Definition set_filteredBy (l : option string) (n : Node) : Node :=
  mkNode (index n) (nodeName n) (filtered n) l (children n) (numChildren n).

Definition set_children (cs : option (dict string Node)) (n : Node) : Node :=
  mkNode (index n) (nodeName n) (filtered n) (filteredBy n) cs (numChildren n).

(** [Node.prototype.areChildrenFilteredOut]: [for ... in] over [null] runs
    zero times, so a leaf answers [true]. *)
Definition areChildrenFilteredOut (n : Node) : bool :=
  match children n with
  | None => true
  | Some cs => forallb (fun kc => filtered (snd kc)) cs
  end.

(** [Node.prototype.filterOut] and [filterIn]. *)
Definition filterOut (n : Node) : Node :=
  if negb (filtered n) then set_filtered true n else n.

Definition filterIn (n : Node) : Node :=
  if filtered n then set_filtered false n else n.

(** [Node.prototype.hasChildren]. *)
Definition hasChildren (n : Node) : bool :=
  match children n with Some _ => true | None => false end.

(** [Node.prototype.markNode] (with the filter's label) and [unmarkNode]. *)
Definition markNode (label : string) (n : Node) : Node := set_filteredBy (Some label) n.
Definition unmarkNode (n : Node) : Node := set_filteredBy None n.

(** A reference to a tree node: the keys on the way down from the root. *)
Definition ref := list string.

Fixpoint deref (n : Node) (r : ref) : option Node :=
  match r with
  | [] => Some n
  | k :: r' =>
      match children n with
      | None => None
      | Some cs =>
          match dict_get k cs with
          | None => None
          | Some c => deref c r'
          end
      end
  end.

(** In-place mutation of the node a reference points to. *)
Fixpoint update_at (r : ref) (f : Node → Node) (n : Node) : Node :=
  match r with
  | [] => f n
  | k :: r' =>
      match children n with
      | None => n
      | Some cs => set_children (Some (dict_alter (update_at r' f) k cs)) n
      end
  end.

(** The reference of the parent object. *)
Definition parent (r : ref) : ref := removelast r.

(** [NodesTree.prototype.filterOutRecursive] on the object [node]: every
    child whose label is [null] is filtered out, labelled, and entered. *)
Fixpoint filterOutRecursive (label : string) (node : Node) : Node :=
  match children node with
  | None => node
  | Some cs =>
      set_children
        (Some (map (fun kc : string * Node =>
                      let (k, c) := kc in
                      match filteredBy c with
                      | None =>
                          (k, set_children
                                (children (filterOutRecursive label c))
                                (markNode label (filterOut c)))
                      | Some _ => (k, c)
                      end) cs))
        node
  end.

(** [NodesTree.prototype.filterInRecursive]: every child labelled by this
    filter is filtered in, unlabelled, and entered. *)
Fixpoint filterInRecursive (label : string) (node : Node) : Node :=
  match children node with
  | None => node
  | Some cs =>
      set_children
        (Some (map (fun kc : string * Node =>
                      let (k, c) := kc in
                      if decide (filteredBy c = Some label) then
                        (k, set_children
                              (children (filterInRecursive label c))
                              (unmarkNode (filterIn c)))
                      else (k, c)) cs))
        node
  end.

(** ** Records of [nv.nodesList] and [nv.linksList] *)

(** An element of [nv.nodesList].  [elt_neighbors] maps the index of an
    adjacent node to the index of the link record that joins them.  The
    attribute [hover], which only the drawing code reads, is left out. *)
Record NodeElt := mkNodeElt {
  elt_nodeName : string;
  elt_type : string;
  elt_neighbors : dict Z nat;
  elt_show : bool;
  elt_exploded : bool;
  elt_attrs : dict string value
}.

(** An element of [nv.linksList] or of [newCrossLinks]. *)
Record Link := mkLink {
  source : Z;
  target : Z;
  link_type : string;
  link_filtered : bool;
  link_filteredBy : option string;
  link_attrs : dict string value
}.

(** [nv.layerOrder]. *)
Definition layerOrder (t : string) : option Z :=
  if decide (t = "router") then Some 0
  else if decide (t = "router_pop") then Some 1
  else if decide (t = "pop_router") then Some 1
  else if decide (t = "pop") then Some 2
  else if decide (t = "router_metro") then Some 2
  else if decide (t = "metro_router") then Some 2
  else if decide (t = "pop_metro") then Some 3
  else if decide (t = "metro_pop") then Some 3
  else if decide (t = "metro") then Some 4
  else None.

(** ** Filters *)

Inductive FilterTypes := QUANT | REGEX.

(** A [qFilter] or an [rFilter].  [includeNeighbors] records which of the two
    [isNodeInbound] methods [toggleIncludeNeighbors] has installed. *)
Record Filter := mkFilter {
  filterType : FilterTypes;
  attribute : string;
  layer : string;
  lower : value;
  upper : value;
  regex_pattern : string;
  includeNeighbors : bool
}.

(** [this.label = this.layer + '_' + this.attribute]. *)
Definition label (F : Filter) : string := layer F ++ "_" ++ attribute F.

(** [qFilter.prototype.updateBounds], [rFilter.prototype.updatePattern],
    [rFilter.prototype.toggleIncludeNeighbors]. *)
Definition updateBounds (new_lower new_upper : value) (F : Filter) : Filter :=
  mkFilter (filterType F) (attribute F) (layer F) new_lower new_upper
    (regex_pattern F) (includeNeighbors F).

Definition updatePattern (new_pattern : string) (F : Filter) : Filter :=
  mkFilter (filterType F) (attribute F) (layer F) (lower F) (upper F)
    new_pattern (includeNeighbors F).

Definition toggleIncludeNeighbors (b : bool) (F : Filter) : Filter :=
  mkFilter (filterType F) (attribute F) (layer F) (lower F) (upper F)
    (regex_pattern F) b.

(** ** The mutable world *)

(** Everything under [nv] that the modelled methods read or write.  A link
    record is referred to by its position in [linksList ++ newCrossLinks];
    the sorted snapshots of [FilterGroup] hold positions in [nodesList] and
    [linksList], since they alias the same objects.  [console] and [alerts]
    collect what [console.log] and [alert] were given. *)
Record World := mkWorld {
  nodesTree : Node;
  nodesList : list NodeElt;
  linksList : list Link;
  numLinks : nat;
  crossLinksDict : gmap string nat;
  newCrossLinks : list Link;
  currentLayer : option string;
  layer_sorted_nodes : list nat;
  layer_sorted_links : list nat;
  layerSortedLinksLength : nat;
  console : list string;
  alerts : list string
}.

Definition set_nodesTree (t : Node) (w : World) : World :=
  mkWorld t (nodesList w) (linksList w) (numLinks w) (crossLinksDict w)
    (newCrossLinks w) (currentLayer w) (layer_sorted_nodes w)
    (layer_sorted_links w) (layerSortedLinksLength w) (console w) (alerts w).

Definition set_nodesList (l : list NodeElt) (w : World) : World :=
  mkWorld (nodesTree w) l (linksList w) (numLinks w) (crossLinksDict w)
    (newCrossLinks w) (currentLayer w) (layer_sorted_nodes w)
    (layer_sorted_links w) (layerSortedLinksLength w) (console w) (alerts w).

Definition set_linksList (l : list Link) (w : World) : World :=
  mkWorld (nodesTree w) (nodesList w) l (numLinks w) (crossLinksDict w)
    (newCrossLinks w) (currentLayer w) (layer_sorted_nodes w)
    (layer_sorted_links w) (layerSortedLinksLength w) (console w) (alerts w).

Definition set_numLinks (n : nat) (w : World) : World :=
  mkWorld (nodesTree w) (nodesList w) (linksList w) n (crossLinksDict w)
    (newCrossLinks w) (currentLayer w) (layer_sorted_nodes w)
    (layer_sorted_links w) (layerSortedLinksLength w) (console w) (alerts w).

Definition set_crossLinksDict (d : gmap string nat) (w : World) : World :=
  mkWorld (nodesTree w) (nodesList w) (linksList w) (numLinks w) d
    (newCrossLinks w) (currentLayer w) (layer_sorted_nodes w)
    (layer_sorted_links w) (layerSortedLinksLength w) (console w) (alerts w).

Definition set_newCrossLinks (l : list Link) (w : World) : World :=
  mkWorld (nodesTree w) (nodesList w) (linksList w) (numLinks w)
    (crossLinksDict w) l (currentLayer w) (layer_sorted_nodes w)
    (layer_sorted_links w) (layerSortedLinksLength w) (console w) (alerts w).

Definition set_currentLayer (c : option string) (w : World) : World :=
  mkWorld (nodesTree w) (nodesList w) (linksList w) (numLinks w)
    (crossLinksDict w) (newCrossLinks w) c (layer_sorted_nodes w)
    (layer_sorted_links w) (layerSortedLinksLength w) (console w) (alerts w).

Definition set_layer_sorted_nodes (l : list nat) (w : World) : World :=
  mkWorld (nodesTree w) (nodesList w) (linksList w) (numLinks w)
    (crossLinksDict w) (newCrossLinks w) (currentLayer w) l
    (layer_sorted_links w) (layerSortedLinksLength w) (console w) (alerts w).

Definition set_layer_sorted_links (l : list nat) (n : nat) (w : World) : World :=
  mkWorld (nodesTree w) (nodesList w) (linksList w) (numLinks w)
    (crossLinksDict w) (newCrossLinks w) (currentLayer w)
    (layer_sorted_nodes w) l n (console w) (alerts w).

Definition set_console (c : list string) (w : World) : World :=
  mkWorld (nodesTree w) (nodesList w) (linksList w) (numLinks w)
    (crossLinksDict w) (newCrossLinks w) (currentLayer w)
    (layer_sorted_nodes w) (layer_sorted_links w) (layerSortedLinksLength w)
    c (alerts w).

Definition set_alerts (a : list string) (w : World) : World :=
  mkWorld (nodesTree w) (nodesList w) (linksList w) (numLinks w)
    (crossLinksDict w) (newCrossLinks w) (currentLayer w)
    (layer_sorted_nodes w) (layer_sorted_links w) (layerSortedLinksLength w)
    (console w) a.

(** [nv.numNodes]: set once to the length of [nodesList], which never grows. *)
Definition numNodes (w : World) : nat := length (nodesList w).

(** ** The monad of methods *)

Definition M (A : Type) : Type := World → res A * World.

Definition ret {A} (a : A) : M A := fun w => (Ok a, w).

Definition bind {A B} (m : M A) (k : A → M B) : M B :=
  fun w =>
    match m w with
    | (Ok a, w') => k a w'
    | (Throw e, w') => (Throw e, w')
    end.

Definition throw {A} (e : exn) : M A := fun w => (Throw e, w).
Definition gets {A} (f : World → A) : M A := fun w => (Ok (f w), w).
Definition modify (f : World → World) : M unit := fun w => (Ok tt, f w).

Notation "'let*' x ':=' m 'in' k" := (bind m (fun x => k))
  (at level 10, x name, m at level 100, k at level 200).
Notation "m1 ';;' m2" := (bind m1 (fun _ => m2))
  (at level 100, m2 at level 200, right associativity).

(** A [for] loop over a snapshot of the things iterated. *)
Fixpoint forEach {A} (l : list A) (body : A → M unit) : M unit :=
  match l with
  | [] => ret tt
  | x :: l' => body x ;; forEach l' body
  end.

(** Reading a property of something that may be [undefined] or [null]. *)
Definition defined {A} (x : option A) : M A :=
  match x with
  | Some a => ret a
  | None => throw TypeError
  end.

Definition alert (msg : string) : M unit :=
  modify (fun w => set_alerts (alerts w ++ [msg]) w).

Definition console_log (msg : string) : M unit :=
  modify (fun w => set_console (console w ++ [msg]) w).

(** ** [NodesTree] *)

(** [x.children[k]] for a node reference [x] that may be [undefined], looked
    up among the children themselves; [child_proto] adds the members every
    object inherits. *)
Definition child (x : option ref) (k : string) : M (option ref) :=
  let* r := defined x in
  let* n := gets (fun w => deref (nodesTree w) r) in
  let* n := defined n in
  let* cs := defined (children n) in
  match dict_get k cs with
  | Some _ => ret (Some (r ++ [k]))
  | None => ret None
  end.

(** [NodesTree.prototype.getNodeByName]: the reference found, or [undefined]. *)
Definition getNodeByName (name : string) : M (option ref) :=
  match split underscore name with
  | [a0] => child (Some []) a0
  | [a0; a1] =>
      let* n0 := child (Some []) a0 in child n0 a1
  | [a0; a1; a2] =>
      let* n0 := child (Some []) a0 in
      let* n1 := child n0 a1 in child n1 a2
  | _ => alert "Incorrect nodeName" ;; ret None
  end.

(** The object behind a reference that may be [undefined]. *)
Definition node_at (x : option ref) : M Node :=
  let* r := defined x in
  let* n := gets (fun w => deref (nodesTree w) r) in
  defined n.

Definition elt_at (i : Z) : M NodeElt :=
  let* e := gets (fun w => at_index (nodesList w) i) in defined e.

(** [NodesTree.prototype.getNodeByIndex]. *)
Definition getNodeByIndex (nodeIndex : Z) : M (option ref) :=
  let* e := elt_at nodeIndex in getNodeByName (elt_nodeName e).

(** The inner loop of [getLinkChildren], over the neighbors of one source:
    the positions of the links to a target in the hash whose type differs
    from the type of [link]. *)
Fixpoint linkChildren_from (link : Link) (targetNodeIndices : list Z) (ns : dict Z nat)
  : M (list nat) :=
  match ns with
  | [] => ret []
  | (tgt, li) :: ns' =>
      let* childLink := gets (fun w => linksList w !! li) in
      let* childLink := defined childLink in
      let* rest := linkChildren_from link targetNodeIndices ns' in
      if bool_decide (tgt ∈ targetNodeIndices)
         && negb (bool_decide (link_type childLink = link_type link))
      then ret (li :: rest) else ret rest
  end.

(** The outer loop of [getLinkChildren], over the source and its children. *)
Fixpoint linkChildren_scan (link : Link) (targetNodeIndices : list Z)
    (sourceNodeIndices : list (option Z)) : M (list nat) :=
  match sourceNodeIndices with
  | [] => ret []
  | src :: srcs' =>
      let* src := defined src in
      let* e := elt_at src in
      let* here := linkChildren_from link targetNodeIndices (elt_neighbors e) in
      let* rest := linkChildren_scan link targetNodeIndices srcs' in
      ret (here ++ rest)
  end.

(** [NodesTree.prototype.getLinkChildren]: the positions of the child links
    of [link], in the order they are pushed.  A child without index would add
    the key ["undefined"] to the hash, which no neighbor key equals, and
    [undefined] to the source list, which makes [nv.nodesList[source]] fail. *)
Definition getLinkChildren (link : Link) : M (list nat) :=
  let* s := getNodeByIndex (source link) in
  let* sn := node_at s in
  let* t := getNodeByIndex (target link) in
  let* tn := node_at t in
  let sourceNodeChildren := default [] (children sn) in
  let targetNodeChildren := default [] (children tn) in
  let targetNodeIndices : list Z :=
    target link :: omap (fun kc => index (snd kc)) targetNodeChildren in
  let sourceNodeIndices : list (option Z) :=
    Some (source link) :: map (fun kc => index (snd kc)) sourceNodeChildren in
  linkChildren_scan link targetNodeIndices sourceNodeIndices.

(** [NodesTree.prototype.areLinkChildrenFilteredOut]. *)
Definition areLinkChildrenFilteredOut (link : Link) : M bool :=
  let* linkChildren := getLinkChildren link in
  let* ls := gets linksList in
  ret (forallb (fun li => match ls !! li with
                          | Some l => link_filtered l
                          | None => true
                          end) linkChildren).

(** ** [Filter], [qFilter], [rFilter] *)

Section Filters.

(** The two services of the JavaScript engine the predicates rely on:
    [ToNumber] of a string ([None] is [NaN]) and the [RegExp] constructor
    ([None] when it throws a [SyntaxError], otherwise the [test] method of
    the compiled expression on a string). *)
Variable StringToNumber : string → option Z.
Variable RegExp : string → option (string → bool).

Definition ToNumber (v : value) : option Z :=
  match v with
  | VUndefined => None
  | VNumber z => Some z
  | VString s => StringToNumber s
  end.

Definition ToString (v : value) : string :=
  match v with
  | VUndefined => "undefined"
  | VNumber z => showZ z
  | VString s => s
  end.

(** The relational operator [a < b]: strings compare as strings, anything
    else as numbers, and a comparison with [NaN] is false. *)
Definition js_lt (a b : value) : bool :=
  match a, b with
  | VString x, VString y => String.ltb x y
  | _, _ =>
      match ToNumber a, ToNumber b with
      | Some x, Some y => bool_decide (x < y)%Z
      | _, _ => false
      end
  end.

(** [qFilter.prototype.isInbound]. *)
Definition qFilter_isInbound (F : Filter) (attr : value) : bool :=
  if js_lt (upper F) attr || js_lt attr (lower F) then false else true.

(** [rFilter.prototype.isInbound]: the [catch] logs and goes on with [re]
    still [undefined]. *)
Definition rFilter_isInbound (F : Filter) (attr : value) : M bool :=
  let* re :=
    match RegExp (regex_pattern F) with
    | Some re => ret (Some re)
    | None => console_log "SyntaxError: Invalid regular expression" ;; ret None
    end in
  let* re := defined re in
  ret (re (ToString attr)).

Definition isInbound (F : Filter) (attr : value) : M bool :=
  match filterType F with
  | QUANT => ret (qFilter_isInbound F attr)
  | REGEX => rFilter_isInbound F attr
  end.

(** An own property of a node record, read by name. *)
Definition elt_property (e : NodeElt) (property : string) : option value :=
  if decide (property = "nodeName") then Some (VString (elt_nodeName e))
  else if decide (property = "type") then Some (VString (elt_type e))
  else dict_get property (elt_attrs e).

(** [Node.prototype.getProperty]. *)
Definition getProperty (node : Node) (property : string) : M value :=
  match index node with
  | Some i =>
      if decide (0 ≤ i)%Z then
        let* e := elt_at i in
        ret (default VUndefined (elt_property e property))
      else ret VUndefined
  | None => ret VUndefined
  end.

(** [Filter.prototype.isNodeInbound]. *)
Definition Filter_isNodeInbound (F : Filter) (node : Node) : M bool :=
  let* attr := getProperty node (attribute F) in
  isInbound F attr.

(** [rFilter.prototype.isNodeInboundIncludeNeighbors]. *)
Definition isNodeInboundIncludeNeighbors (F : Filter) (node : Node) : M bool :=
  let* attr := getProperty node (attribute F) in
  let* nodeValid := isInbound F attr in
  if nodeValid then ret true
  else
    let* i := defined (index node) in
    let* e := elt_at i in
    (fix over (ns : list Z) : M bool :=
       match ns with
       | [] => ret false
       | each :: ns' =>
           let* n := elt_at each in
           let* neighborValid :=
             isInbound F (default VUndefined (elt_property n (attribute F))) in
           if neighborValid then ret true else over ns'
       end) (dict_keys (elt_neighbors e)).

(** [this.isNodeInbound(node)], whichever method is installed. *)
Definition isNodeInbound (F : Filter) (node : Node) : M bool :=
  if includeNeighbors F then isNodeInboundIncludeNeighbors F node
  else Filter_isNodeInbound F node.

(** An own property of a link record, read by name. *)
Definition link_property (l : Link) (property : string) : value :=
  if decide (property = "source") then VNumber (source l)
  else if decide (property = "target") then VNumber (target l)
  else if decide (property = "type") then VString (link_type l)
  else default VUndefined (dict_get property (link_attrs l)).

(** [Filter.prototype.isLinkInbound]. *)
Definition isLinkInbound (F : Filter) (link : Link) : M bool :=
  isInbound F (link_property link (attribute F)).

(** *** [FilterGroup] *)

(** [FilterGroup.sortByLayerFunction]; [None] is [NaN]. *)
Definition sortByLayerFunction (a b : string) : option Z :=
  match layerOrder a, layerOrder b with
  | Some x, Some y => Some (x - y)%Z
  | _, _ => None
  end.

(** [Array.prototype.sort] with a comparator, as a stable insertion sort:
    an element moves behind those the comparator puts strictly before it. *)
Fixpoint sort_insert {A} (cmp : A → A → option Z) (x : A) (l : list A) : list A :=
  match l with
  | [] => [x]
  | y :: l' =>
      match cmp x y with
      | Some d => if decide (0 < d)%Z then y :: sort_insert cmp x l' else x :: l
      | None => x :: l
      end
  end.

Definition sort {A} (cmp : A → A → option Z) (l : list A) : list A :=
  foldr (sort_insert cmp) [] l.

(** The sorted snapshot of an array, as positions in that array. *)
Definition layer_sorted {A} (type_of : A → string) (l : list A) : list nat :=
  sort (fun i j =>
          match l !! i, l !! j with
          | Some a, Some b => sortByLayerFunction (type_of a) (type_of b)
          | _, _ => None
          end) (seq 0 (length l)).

(** The part of the [FilterGroup] constructor that takes the snapshots. *)
Definition FilterGroup_new : M unit :=
  modify (fun w => set_layer_sorted_nodes (layer_sorted elt_type (nodesList w)) w) ;;
  modify (fun w => set_layer_sorted_links (layer_sorted link_type (linksList w))
                     (length (linksList w)) w).

(** [FilterGroup.prototype.getSubArray]: [undefined] when no element has the
    layer. *)
Fixpoint getSubArray {A} (type_of : A → option string) (array : list A) (layer : string)
  : option (list A) :=
  match array with
  | [] => None
  | x :: array' =>
      if decide (type_of x = Some layer) then Some array
      else getSubArray type_of array' layer
  end.

(** [FilterGroup.prototype.getSubArrayOfSortedNodes]. *)
Definition getSubArrayOfSortedNodes (layer : string) : M (option (list nat)) :=
  gets (fun w =>
          getSubArray (fun i => elt_type <$> nodesList w !! i)
            (layer_sorted_nodes w) layer).

(** [FilterGroup.prototype.getSubArrayOfSortedLinks]. *)
Definition getSubArrayOfSortedLinks (layer : string) : M (option (list nat)) :=
  let* n := gets numLinks in
  let* cached := gets layerSortedLinksLength in
  (if decide (cached < n)%nat then
     modify (fun w => set_layer_sorted_links
                        (layer_sorted link_type (linksList w)) (numLinks w) w)
   else ret tt) ;;
  gets (fun w =>
          getSubArray (fun i => link_type <$> linksList w !! i)
            (layer_sorted_links w) layer).

(** *** The filtering algorithm *)

(** The branch of [filterNodes] for a node of the filter's own layer. *)
Definition filterNodes_target (F : Filter) (x : option ref) : M unit :=
  let* node := node_at x in
  let* r := defined x in
  let* out :=
    (if negb (filtered node) then
       let* inbound := isNodeInbound F node in
       ret (negb inbound && bool_decide (filteredBy node = None))
     else ret false) in
  if out then
    modify (fun w => set_nodesTree
      (update_at r (fun n =>
         let n := markNode (label F) (filterOut n) in
         if hasChildren n then filterOutRecursive (label F) n else n)
         (nodesTree w)) w)
  else
    let* back :=
      (if filtered node then
         let* inbound := isNodeInbound F node in
         ret (inbound && bool_decide (filteredBy node = Some (label F)))
       else ret false) in
    if back then
      modify (fun w => set_nodesTree
        (update_at r (fun n =>
           let n := unmarkNode (filterIn n) in
           if hasChildren n then filterInRecursive (label F) n else n)
           (nodesTree w)) w)
    else ret tt.

(** The branch of [filterNodes] for a node of another (coarser) layer. *)
Definition filterNodes_ancestor (F : Filter) (x : option ref) : M unit :=
  let* node := node_at x in
  let* r := defined x in
  if negb (filtered node) && areChildrenFilteredOut node then
    modify (fun w => set_nodesTree
      (update_at r (fun n => markNode (label F) (filterOut n)) (nodesTree w)) w)
  else if filtered node && negb (areChildrenFilteredOut node) then
    modify (fun w => set_nodesTree
      (update_at r (fun n => unmarkNode (filterIn n)) (nodesTree w)) w)
  else ret tt.

(** One turn of the loop of [filterNodes], on [sub_array[i]]. *)
Definition filterNodes_body (F : Filter) (i : nat) : M unit :=
  let* e := gets (fun w => nodesList w !! i) in
  let* e := defined e in
  let* x := getNodeByName (elt_nodeName e) in
  if decide (elt_type e = layer F) then filterNodes_target F x
  else filterNodes_ancestor F x.

(** [Filter.prototype.filterNodes]. *)
Definition filterNodes (F : Filter) : M unit :=
  let* sub_array := getSubArrayOfSortedNodes (layer F) in
  let* sub_array := defined sub_array in
  forEach sub_array (filterNodes_body F).

(** Assignment to the two filter fields of the link at a position. *)
Definition set_link_filter (li : nat) (b : bool) (by_ : option string) : M unit :=
  modify (fun w => set_linksList
    (alter (fun l => mkLink (source l) (target l) (link_type l) b by_ (link_attrs l))
       li (linksList w)) w).

(** One turn of the loop of [filterLinks]. *)
Definition filterLinks_body (F : Filter) (li : nat) : M unit :=
  let* link := gets (fun w => linksList w !! li) in
  let* link := defined link in
  if decide (link_type link = layer F) then
    let* out :=
      (if negb (link_filtered link) then
         let* inbound := isLinkInbound F link in
         ret (negb inbound && bool_decide (link_filteredBy link = None))
       else ret false) in
    if out then set_link_filter li true (Some (label F))
    else
      let* back :=
        (if link_filtered link then
           let* inbound := isLinkInbound F link in
           ret (inbound && bool_decide (link_filteredBy link = Some (label F)))
         else ret false) in
      if back then set_link_filter li false None else ret tt
  else
    let* out :=
      (if negb (link_filtered link) then areLinkChildrenFilteredOut link
       else ret false) in
    if out then set_link_filter li true (Some (label F))
    else
      let* back :=
        (if link_filtered link then
           let* all := areLinkChildrenFilteredOut link in ret (negb all)
         else ret false) in
      if back then set_link_filter li false None else ret tt.

(** [Filter.prototype.filterLinks]. *)
Definition filterLinks (F : Filter) : M unit :=
  let* sub_array := getSubArrayOfSortedLinks (layer F) in
  let* sub_array := defined sub_array in
  forEach sub_array (filterLinks_body F).

(** [FilterGroup.prototype.filterNodes] and [filterLinks] on the filter
    registered for a layer and attribute: the input updates the filter, which
    is then applied and handed back. *)
Definition parse_input (F : Filter) (input : string) : Filter :=
  match filterType F with
  | QUANT =>
      let vals := split ";"%char input in
      updateBounds (from_option VString VUndefined (vals !! 0%nat))
                   (from_option VString VUndefined (vals !! 1%nat)) F
  | REGEX => updatePattern input F
  end.

Definition FilterGroup_filterNodes (F : Filter) (input : string) : M Filter :=
  let cur_filter := parse_input F input in
  filterNodes cur_filter ;; ret cur_filter.

Definition FilterGroup_filterLinks (F : Filter) (input : string) : M Filter :=
  let cur_filter := parse_input F input in
  filterLinks cur_filter ;; ret cur_filter.

End Filters.

(** ** [Visual]: crosslinks and explosion *)

(** The key [a + '_' + b] of the crosslink dictionary. *)
Definition cl_key (a b : Z) : string := showZ a ++ "_" ++ showZ b.

(** [nv.nodesList[i].neighbors[j] = li]. *)
Definition set_neighbor (i j : Z) (li : nat) : M unit :=
  modify (fun w => set_nodesList
    (alter (fun e => mkNodeElt (elt_nodeName e) (elt_type e)
                       (dict_set j li (elt_neighbors e))
                       (elt_show e) (elt_exploded e) (elt_attrs e))
       (Z.to_nat i) (nodesList w)) w).

(** [Visual.prototype.buildCrosslinks_]. *)
Definition buildCrosslinks_ (mainIndex neighborIndex : Z) : M unit :=
  let* e1 := elt_at mainIndex in
  let* e2 := elt_at neighborIndex in
  let type1 := elt_type e1 in
  let type2 := elt_type e2 in
  let crossLink1 := mkLink mainIndex neighborIndex (type1 ++ "_" ++ type2) false None [] in
  let* n1 := gets numLinks in
  set_neighbor mainIndex neighborIndex n1 ;;
  modify (fun w => set_numLinks (S (numLinks w)) w) ;;
  let crossLink2 := mkLink neighborIndex mainIndex (link_type crossLink1) false None [] in
  let* n2 := gets numLinks in
  set_neighbor neighborIndex mainIndex n2 ;;
  modify (fun w => set_numLinks (S (numLinks w)) w) ;;
  modify (fun w => set_newCrossLinks (newCrossLinks w ++ [crossLink1]) w) ;;
  modify (fun w => set_newCrossLinks (newCrossLinks w ++ [crossLink2]) w) ;;
  let cl_key1 := cl_key mainIndex neighborIndex in
  let cl_key2 := cl_key neighborIndex mainIndex in
  modify (fun w => set_crossLinksDict (<[cl_key1 := n1]> (crossLinksDict w)) w) ;;
  modify (fun w => set_crossLinksDict (<[cl_key2 := n2]> (crossLinksDict w)) w).

(** [testkey in nv.crossLinksDict]. *)
Definition in_crossLinksDict (testkey : string) : M bool :=
  gets (fun w => bool_decide (is_Some (crossLinksDict w !! testkey))).

(** [Visual.prototype.buildUpCrosslinks].  [depth] is the room left on the
    call stack. *)
Fixpoint buildUpCrosslinks (depth : nat) (mainIndex neighborIndex : Z) : M unit :=
  match depth with
  | O => throw RangeError
  | S depth =>
      let testkey := cl_key mainIndex neighborIndex in
      let* e1 := elt_at mainIndex in
      let* e2 := elt_at neighborIndex in
      let isSameType := bool_decide (elt_type e1 = elt_type e2) in
      let* cached := in_crossLinksDict testkey in
      if negb cached && negb isSameType then
        buildCrosslinks_ mainIndex neighborIndex ;;
        let* e := elt_at neighborIndex in
        let* neighbor_node := getNodeByName (elt_nodeName e) in
        let* r := defined neighbor_node in
        let* p := node_at (Some (parent r)) in
        match index p with
        | Some new_neighborIndex => buildUpCrosslinks depth mainIndex new_neighborIndex
        | None => ret tt
        end
      else ret tt
  end.

(** [Visual.prototype.buildDownCrosslinks].  A child without index is passed
    on as [undefined]. *)
Fixpoint buildDownCrosslinks (depth : nat) (mainIndex : Z) (neighborIndex : option Z)
  : M unit :=
  match depth with
  | O => throw RangeError
  | S depth =>
      let* e1 := elt_at mainIndex in
      let* neighborIndex := defined neighborIndex in
      let testkey := cl_key mainIndex neighborIndex in
      let* e2 := elt_at neighborIndex in
      let isSameType := bool_decide (elt_type e1 = elt_type e2) in
      let* cached := in_crossLinksDict testkey in
      if elt_show e2 && negb cached && negb isSameType then
        buildCrosslinks_ mainIndex neighborIndex
      else if negb (elt_show e2) then
        let* neighbor_node := getNodeByName (elt_nodeName e2) in
        let* n := node_at neighbor_node in
        match children n with
        | Some cs =>
            forEach (dict_values cs)
              (fun c => buildDownCrosslinks depth mainIndex (index c))
        | None => ret tt
        end
      else ret tt
  end.

(** Assignment to [show] and [exploded] of a node record. *)
Definition set_show (i : Z) (b : bool) : M unit :=
  elt_at i ;;
  modify (fun w => set_nodesList
    (alter (fun e => mkNodeElt (elt_nodeName e) (elt_type e) (elt_neighbors e)
                       b (elt_exploded e) (elt_attrs e))
       (Z.to_nat i) (nodesList w)) w).

Definition set_exploded (i : Z) (b : bool) : M unit :=
  elt_at i ;;
  modify (fun w => set_nodesList
    (alter (fun e => mkNodeElt (elt_nodeName e) (elt_type e) (elt_neighbors e)
                       (elt_show e) b (elt_attrs e))
       (Z.to_nat i) (nodesList w)) w).

(** [Visual.prototype.renderLinks]: the new crosslinks join [nv.linksList].
    What is handed to the drawing library is not part of the model. *)
Definition renderLinks : M unit :=
  modify (fun w => set_linksList (linksList w ++ newCrossLinks w) w) ;;
  modify (set_newCrossLinks []).

(** The body of the inner loop of [explodeNode], for one neighbor of the
    exploded node. *)
Definition explodeNode_links (depth : nat) (child_index neighbor : Z) : M unit :=
  buildUpCrosslinks depth child_index neighbor ;;
  buildDownCrosslinks depth child_index (Some neighbor).

(** The body of the outer loop of [explodeNode], for one child [c] of the
    node of the record at [i]. *)
Definition explodeNode_child (depth : nat) (i : Z) (c : Node) : M unit :=
  let* child_index := defined (index c) in
  set_show child_index true ;;
  set_exploded child_index true ;;
  let* elt := elt_at i in
  forEach (dict_keys (elt_neighbors elt)) (explodeNode_links depth child_index).

(** [Visual.prototype.explodeNode] on the record [nv.nodesList[i]].  The
    final call of the drawing library has no effect on the state. *)
Definition explodeNode (depth : nat) (i : Z) : M unit :=
  let* elt := elt_at i in
  let* x := getNodeByName (elt_nodeName elt) in
  let* node := node_at x in
  (match children node with
   | Some cs =>
       set_show i false ;;
       set_exploded i true ;;
       forEach (dict_values cs) (explodeNode_child depth i)
   | None => ret tt
   end) ;;
  renderLinks.

(** [Visual.prototype.renderNodes]. *)
Definition renderNodes_body (resetExplosions : bool) (i : nat) : M unit :=
  let* elt := elt_at (Z.of_nat i) in
  let* x := getNodeByName (elt_nodeName elt) in
  (if resetExplosions then set_exploded (Z.of_nat i) false else ret tt) ;;
  let* node := node_at x in
  let* elt := elt_at (Z.of_nat i) in
  let* cur := gets currentLayer in
  if filtered node then set_show (Z.of_nat i) false
  else if bool_decide (Some (elt_type elt) = cur) && negb (elt_exploded elt) then
    set_show (Z.of_nat i) true
  else if negb (bool_decide (Some (elt_type elt) = cur)) && negb (elt_exploded elt) then
    set_show (Z.of_nat i) false
  else ret tt.

Definition renderNodes (resetExplosions : bool) : M unit :=
  let* n := gets numNodes in
  forEach (seq 0 n) (renderNodes_body resetExplosions).

(** [Visual.prototype.setCurrentLayer]. *)
Definition setCurrentLayer (layer : string) : M unit :=
  modify (set_currentLayer (Some layer)) ;;
  renderNodes true.
(** ** Pure readings of the tree, used to state and prove the properties *)

(** What [child] answers, as a function of the tree alone. *)
Definition child_of (t : Node) (x : option ref) (k : string) : res (option ref) :=
  match x with
  | None => Throw TypeError
  | Some r =>
      match deref t r with
      | None => Throw TypeError
      | Some n =>
          match children n with
          | None => Throw TypeError
          | Some cs =>
              match dict_get k cs with
              | Some _ => Ok (Some (r ++ [k]))
              | None => Ok None
              end
          end
      end
  end.

(** What [getNodeByName] answers, as a function of the tree alone. *)
Definition resolve (t : Node) (name : string) : res (option ref) :=
  match split underscore name with
  | [a0] => child_of t (Some []) a0
  | [a0; a1] =>
      match child_of t (Some []) a0 with
      | Ok n0 => child_of t n0 a1
      | Throw e => Throw e
      end
  | [a0; a1; a2] =>
      match child_of t (Some []) a0 with
      | Ok n0 =>
          match child_of t n0 a1 with
          | Ok n1 => child_of t n1 a2
          | Throw e => Throw e
          end
      | Throw e => Throw e
      end
  | _ => Ok None
  end.

(** The postcondition [Q] holds of the result and final world of [m]. *)
Definition post {A} (m : M A) (w : World) (Q : res A → World → Prop) : Prop :=
  Q (fst (m w)) (snd (m w)).


(** Every node strictly below [n] on the way down [r] has no label: the
    nodes [filterOutRecursive] enters. *)
Fixpoint unowned_path (n : Node) (r : ref) : bool :=
  match r with
  | [] => true
  | k :: r' =>
      match children n with
      | None => false
      | Some cs =>
          match dict_get k cs with
          | None => false
          | Some c => bool_decide (filteredBy c = None) && unowned_path c r'
          end
      end
  end.

(** A three-level hierarchy used in the examples: metros [A] and [B], pops
    [A_p1], [A_p2], [B_p1] and four routers. *)
Definition leafObj (i : Z) (name : string) : TreeObj :=
  mkTreeObj (Some i) name false None None.

Definition innerObj (i : Z) (name : string) (cs : list TreeObj) : TreeObj :=
  mkTreeObj (Some i) name false None (Some cs).

Definition ex_nodes_tree : TreeObj :=
  mkTreeObj None "master" false None (Some [
    innerObj 0 "A" [ innerObj 2 "A_p1" [leafObj 5 "A_p1_r1"; leafObj 6 "A_p1_r2"];
                     innerObj 3 "A_p2" [leafObj 7 "A_p2_r1"] ];
    innerObj 1 "B" [ innerObj 4 "B_p1" [leafObj 8 "B_p1_r1"] ] ]).

Definition ex_tree : Node := Node_new ex_nodes_tree.

(** The same hierarchy read from a description in which the pop [A_p1] is
    already filtered out and labelled by a filter ["pop_capacity"], while its
    routers carry no label. *)
Definition ex_nodes_tree_owned_pop : TreeObj :=
  mkTreeObj None "master" false None (Some [
    innerObj 0 "A" [ mkTreeObj (Some 2) "A_p1" true (Some "pop_capacity")
                       (Some [leafObj 5 "A_p1_r1"; leafObj 6 "A_p1_r2"]);
                     innerObj 3 "A_p2" [leafObj 7 "A_p2_r1"] ];
    innerObj 1 "B" [ innerObj 4 "B_p1" [leafObj 8 "B_p1_r1"] ] ]).

Definition ex_tree_owned_pop : Node := Node_new ex_nodes_tree_owned_pop.

(** The [nodeName] fields met on the way down a reference, and the name they
    spell when joined again. *)
Fixpoint nodeNames (n : Node) (r : ref) : list string :=
  match r with
  | [] => []
  | k :: r' =>
      match children n with
      | None => []
      | Some cs =>
          match dict_get k cs with
          | None => []
          | Some c => nodeName c :: nodeNames c r'
          end
      end
  end.

Definition fullName (t : Node) (r : ref) : string := join "_" (nodeNames t r).

(** Every node strictly below [n] on the way down [r] carries [label]: the
    nodes [filterInRecursive] enters. *)
Fixpoint labelled_path (label : string) (n : Node) (r : ref) : bool :=
  match r with
  | [] => true
  | k :: r' =>
      match children n with
      | None => false
      | Some cs =>
          match dict_get k cs with
          | None => false
          | Some c => bool_decide (filteredBy c = Some label) && labelled_path label c r'
          end
      end
  end.

(** The shape of a tree: which references exist, and which of the nodes
    there have a [children] dictionary.  Filtering never changes it. *)
Definition shape_of (t : Node) (r : ref) : option bool := hasChildren <$> deref t r.

Definition same_shape (t t' : Node) : Prop := ∀ r, shape_of t r = shape_of t' r.

(** ** Example data *)

(** Stand-ins for the engine services in the examples: decimal integer
    literals convert to numbers; a pattern is a literal that matches where it
    occurs, except that one with an opening parenthesis (as in ["("], an
    unterminated group) is rejected by the constructor. *)
Definition ex_StringToNumber (s : string) : option Z :=
  Z.of_int <$> NilZero.int_of_string s.

Fixpoint contains (p s : string) : bool :=
  String.prefix p s ||
  match s with
  | EmptyString => false
  | String _ s' => contains p s'
  end.

Definition ex_RegExp (p : string) : option (string → bool) :=
  if occurs "("%char p then None else Some (contains p).

(** Node records of the example hierarchy, in the order of their indices:
    two metros, three pops, four routers; every link in both directions. *)
Definition ex_elt (name type : string) (nb : dict Z nat) (util cap : Z) : NodeElt :=
  mkNodeElt name type nb true false
    [("utilization", VNumber util); ("capacity", VNumber cap)].

Definition ex_nodesList : list NodeElt :=
  [ ex_elt "A" "metro" [(1, 0%nat)] 5 5;
    ex_elt "B" "metro" [(0, 1%nat)] 5 5;
    ex_elt "A_p1" "pop" [(3, 2%nat)] 5 5;
    ex_elt "A_p2" "pop" [(2, 3%nat); (4, 4%nat)] 5 5;
    ex_elt "B_p1" "pop" [(3, 5%nat)] 5 5;
    ex_elt "A_p1_r1" "router" [(6, 6%nat)] 2 1;
    ex_elt "A_p1_r2" "router" [(5, 7%nat); (7, 8%nat)] 8 9;
    ex_elt "A_p2_r1" "router" [(6, 9%nat); (8, 10%nat)] 3 7;
    ex_elt "B_p1_r1" "router" [(7, 11%nat)] 4 6 ].

Definition ex_link (s t : Z) (type : string) (util : Z) : Link :=
  mkLink s t type false None [("utilization", VNumber util)].

Definition ex_linksList : list Link :=
  [ ex_link 0 1 "metro" 1; ex_link 1 0 "metro" 1;
    ex_link 2 3 "pop" 1; ex_link 3 2 "pop" 1;
    ex_link 3 4 "pop" 1; ex_link 4 3 "pop" 1;
    ex_link 5 6 "router" 2; ex_link 6 5 "router" 2;
    ex_link 6 7 "router" 8; ex_link 7 6 "router" 8;
    ex_link 7 8 "router" 3; ex_link 8 7 "router" 3 ].

(** The world after [nv.nodesTree], the two lists and the [FilterGroup] have
    been set up. *)
Definition ex_world : World :=
  snd (FilterGroup_new
         (mkWorld ex_tree ex_nodesList ex_linksList 12 ∅ [] None [] [] 0 [] [])).

(** Range filters on two router attributes and the router name filter. *)
Definition ex_utilFilter (lo hi : Z) : Filter :=
  mkFilter QUANT "utilization" "router" (VNumber lo) (VNumber hi) "" false.

Definition ex_capFilter (lo hi : Z) : Filter :=
  mkFilter QUANT "capacity" "router" (VNumber lo) (VNumber hi) "" false.

Definition ex_nameFilter (pattern : string) : Filter :=
  mkFilter REGEX "nodeName" "router" VUndefined VUndefined pattern false.

(** ** Vocabulary for the filtering properties *)

(** A method keeps the relation [P] between the world it starts in and the
    world it leaves, however it ends. *)
Definition preserves {A} (P : World → World → Prop) (m : M A) : Prop :=
  ∀ w, post m w (fun _ w' => P w w').

(** The hierarchy is the same object graph with the same state. *)
Definition tree_kept (w w' : World) : Prop := nodesTree w' = nodesTree w.

(** Everything [filterNodes] reads besides the hierarchy is unchanged. *)
Definition lists_kept (w w' : World) : Prop :=
  nodesList w' = nodesList w ∧ layer_sorted_nodes w' = layer_sorted_nodes w.

(** The two mutations of the target branch of [filterNodes], and the two of
    the ancestor branch, as functions on the node they are applied to. *)
Definition target_out (label : string) (n : Node) : Node :=
  let n := markNode label (filterOut n) in
  if hasChildren n then filterOutRecursive label n else n.

Definition target_in (label : string) (n : Node) : Node :=
  let n := unmarkNode (filterIn n) in
  if hasChildren n then filterInRecursive label n else n.

Definition ancestor_out (label : string) (n : Node) : Node := markNode label (filterOut n).
Definition ancestor_in (n : Node) : Node := unmarkNode (filterIn n).

(** The ancestor branch as a function on the hierarchy. *)
Definition ancestor_update (label : string) (r : ref) (t : Node) : Node :=
  match deref t r with
  | Some node =>
      if negb (filtered node) && areChildrenFilteredOut node then
        update_at r (ancestor_out label) t
      else if filtered node && negb (areChildrenFilteredOut node) then
        update_at r ancestor_in t
      else t
  | None => t
  end.

(** The node records that the ancestor branch of a pass of [F] handles: those
    in the window of the sorted snapshot whose layer is not the filter's. *)
Definition ancestor_records (F : Filter) (w : World) : list NodeElt :=
  match getSubArray (fun i => elt_type <$> nodesList w !! i)
          (layer_sorted_nodes w) (layer F) with
  | Some sub =>
      filter (fun e => elt_type e ≠ layer F) (omap (fun i => nodesList w !! i) sub)
  | None => []
  end.

(** Two passes on the example world: the capacity filter with bounds [5..10]
    takes router [r1] of pop [A_p1]; then the utilization filter with bounds
    [0..5] takes its other router [r2], and with it the pop. *)
Definition ex_world_cap : World :=
  snd (filterNodes ex_StringToNumber ex_RegExp (ex_capFilter 5 10) ex_world).

Definition ex_world_cap_util : World :=
  snd (filterNodes ex_StringToNumber ex_RegExp (ex_utilFilter 0 5) ex_world_cap).

(** The depth at which the nodes of a layer sit in the hierarchy, which is
    also the number of segments of their names. *)
Definition layer_depth (t : string) : option nat :=
  if decide (t = "metro") then Some 1%nat
  else if decide (t = "pop") then Some 2%nat
  else if decide (t = "router") then Some 3%nat
  else None.

(** The layers of the node records are well formed: each record is a
    router, a pop or a metro and its name has as many segments as its layer
    is deep. *)
Definition wf_layers (w : World) : Prop :=
  Forall (fun e => layer_depth (elt_type e)
                   = Some (length (split underscore (elt_nodeName e))))
    (nodesList w).

(** The node records are well formed: their layers are, and the sorted
    snapshot is the one the [FilterGroup] constructor took. *)
Definition wf_nodes (w : World) : Prop :=
  wf_layers w ∧ layer_sorted_nodes w = layer_sorted elt_type (nodesList w).

(** The place of a node record in the layer order (0 when it has none). *)
Definition rank (l : list NodeElt) (i : nat) : Z :=
  default 0%Z (l !! i ≫= fun e => layerOrder (elt_type e)).

(** Bottom-up consistency of the node a record names. *)
Definition bottom_up (t : Node) (e : NodeElt) : Prop :=
  ∃ r A, resolve t (elt_nodeName e) = Ok (Some r) ∧ deref t r = Some A ∧
         (filtered A = true ↔
          ∀ cs kc, children A = Some cs → kc ∈ cs → filtered (snd kc) = true).

(** The state of the loop of [filterNodes] after the records [pre] of the
    window: the lists and the shape are those of the start, and every
    record of another layer than the filter's handled so far names a node
    that is filtered exactly when all its children are. *)
Definition bottom_up_so_far (F : Filter) (w : World) (pre : list nat) (w1 : World) : Prop :=
  lists_kept w w1 ∧ same_shape (nodesTree w) (nodesTree w1) ∧
  ∀ i e, i ∈ pre → nodesList w !! i = Some e → elt_type e ≠ layer F →
    ∃ r A, resolve (nodesTree w1) (elt_nodeName e) = Ok (Some r) ∧
           deref (nodesTree w1) r = Some A ∧
           filtered A = areChildrenFilteredOut A.


(** ** Vocabulary for the crosslink properties *)

(** Every link record there is, in the order of their positions: those in
    [nv.linksList] followed by the new crosslinks not yet appended to it. *)
Definition all_links (w : World) : list Link := linksList w ++ newCrossLinks w.

(** The crosslink records are the link records from position [n0] on, [n0]
    being the number of links the application started with.  The invariant
    of the crosslink dictionary: [numLinks] counts all records; the
    dictionary and the crosslink records correspond one to one, each record
    being registered under the key of its own source and target; and both
    directions of a pair are registered together. *)
Definition crosslink_inv (n0 : nat) (w : World) : Prop :=
  numLinks w = length (all_links w) ∧
  (n0 ≤ numLinks w)%nat ∧
  (∀ key id, crossLinksDict w !! key = Some id →
     ∃ l, all_links w !! id = Some l ∧ (n0 ≤ id)%nat ∧
          key = cl_key (source l) (target l)) ∧
  (∀ id l, (n0 ≤ id)%nat → all_links w !! id = Some l →
     crossLinksDict w !! cl_key (source l) (target l) = Some id) ∧
  (∀ a b, is_Some (crossLinksDict w !! cl_key a b) →
          is_Some (crossLinksDict w !! cl_key b a)).

(** From a world that satisfies the invariant: the invariant is kept, and
    link records and dictionary entries are only ever added. *)
Definition crosslinks_grow (n0 : nat) (w w' : World) : Prop :=
  crosslink_inv n0 w →
  crosslink_inv n0 w' ∧
  all_links w `prefix_of` all_links w' ∧
  crossLinksDict w ⊆ crossLinksDict w'.

(** The two records [buildCrosslinks_] creates. *)
Definition crossLink1 (w : World) (a b : Z) : option Link :=
  e1 ← at_index (nodesList w) a;
  e2 ← at_index (nodesList w) b;
  Some (mkLink a b (elt_type e1 ++ "_" ++ elt_type e2) false None []).

Definition crossLink2 (w : World) (a b : Z) : option Link :=
  (fun l => mkLink b a (link_type l) false None []) <$> crossLink1 w a b.

(** What the user does to the display: explode a node, or pick a layer. *)
Inductive action :=
| Explode (i : Z)
| SetCurrentLayer (layer : string).

Definition perform (depth : nat) (a : action) : M unit :=
  match a with
  | Explode i => explodeNode depth i
  | SetCurrentLayer layer => setCurrentLayer layer
  end.

(** The world after a sequence of actions; an action that ends with an
    exception leaves the world as it was at that moment. *)
Definition run (depth : nat) (acts : list action) (w : World) : World :=
  fold_left (fun w a => snd (perform depth a w)) acts w.

(** The neighbor entry [buildCrosslinks_] writes into a node record. *)
Definition add_neighbor (j : Z) (li : nat) (e : NodeElt) : NodeElt :=
  mkNodeElt (elt_nodeName e) (elt_type e) (dict_set j li (elt_neighbors e))
    (elt_show e) (elt_exploded e) (elt_attrs e).

(** The world [buildCrosslinks_] leaves when both node records exist. *)
Definition after_buildCrosslinks (a b : Z) (l1 l2 : Link) (w : World) : World :=
  mkWorld (nodesTree w)
    (alter (add_neighbor a (S (numLinks w))) (Z.to_nat b)
       (alter (add_neighbor b (numLinks w)) (Z.to_nat a) (nodesList w)))
    (linksList w) (S (S (numLinks w)))
    (<[cl_key b a := S (numLinks w)]>
       (<[cl_key a b := numLinks w]> (crossLinksDict w)))
    ((newCrossLinks w ++ [l1]) ++ [l2])
    (currentLayer w) (layer_sorted_nodes w) (layer_sorted_links w)
    (layerSortedLinksLength w) (console w) (alerts w).

(** A session on the example world: the pop [B_p1] is exploded, then the
    metro [A], twice, then the pop layer is selected and [A_p1] exploded. *)
Definition ex_session : list action :=
  [Explode 4; Explode 0; Explode 0; SetCurrentLayer "pop"; Explode 2].

(** The example world as [nv.init] leaves it: the metro layer is shown. *)
Definition ex_world_metro : World := snd (setCurrentLayer "metro" ex_world).

(** The example after the pop [B_p1] has been exploded: its router [8] got
    crosslinks to the pop [A_p2] and to the metro [A]. *)
Definition ex_world_exploded_pop : World := snd (explodeNode 10 4 ex_world_metro).

(** ** Vocabulary for the idempotence of explosion *)

(** The indices a node record is adjacent to. *)
Definition nb_keys (e : NodeElt) : list Z := dict_keys (elt_neighbors e).

(** How the record at index [j] may differ after steps of an explosion whose
    children have the indices [C]: name and type stay; [show] and
    [exploded] stay or, for a child, are true; neighbor entries are only
    added, and to a record that is not a child only entries for children. *)
Definition elt_ext (C : list Z) (j : Z) (e e' : NodeElt) : Prop :=
  elt_nodeName e' = elt_nodeName e ∧ elt_type e' = elt_type e ∧
  (elt_show e' = elt_show e ∨ (j ∈ C ∧ elt_show e' = true)) ∧
  (elt_exploded e' = elt_exploded e ∨ (j ∈ C ∧ elt_exploded e' = true)) ∧
  (∀ k, k ∈ nb_keys e → k ∈ nb_keys e') ∧
  (j ∉ C → ∀ k, k ∈ nb_keys e' → k ∈ nb_keys e ∨ k ∈ C).

Definition world_ext (C : list Z) (w w' : World) : Prop :=
  nodesTree w' = nodesTree w ∧
  (∀ j, match at_index (nodesList w) j, at_index (nodesList w') j with
        | Some e, Some e' => elt_ext C j e e'
        | None, None => True
        | _, _ => False
        end) ∧
  (∀ k, is_Some (crossLinksDict w !! k) → is_Some (crossLinksDict w' !! k)).

(** [buildUpCrosslinks] for [(c, N)] has nothing to do: the pair is cached
    or the two nodes have the same type. *)
Definition up_quiet (w : World) (c N : Z) : Prop :=
  ∃ e1 e2, at_index (nodesList w) c = Some e1 ∧ at_index (nodesList w) N = Some e2 ∧
    (is_Some (crossLinksDict w !! cl_key c N) ∨ elt_type e1 = elt_type e2).

(** [buildDownCrosslinks] for [(c, N)] has nothing to do, down to the nodes
    shown below [N]. *)
Fixpoint down_quiet (depth : nat) (w : World) (c : Z) (N : option Z) : Prop :=
  match depth with
  | O => False
  | S depth =>
      ∃ e1 n e2,
        at_index (nodesList w) c = Some e1 ∧ N = Some n ∧
        at_index (nodesList w) n = Some e2 ∧
        if elt_show e2 then
          is_Some (crossLinksDict w !! cl_key c n) ∨ elt_type e1 = elt_type e2
        else
          ∃ r nd, resolve (nodesTree w) (elt_nodeName e2) = Ok (Some r) ∧
                  deref (nodesTree w) r = Some nd ∧
                  match children nd with
                  | Some cs =>
                      Forall (fun ch => down_quiet depth w c (index ch)) (dict_values cs)
                  | None => True
                  end
  end.

(** The indices of the children in a dictionary of children. *)
Definition child_indices (cs : dict string Node) : list Z :=
  omap index (dict_values cs).

(** The records at the indices [C] exist and have one type. *)
Definition same_typed (C : list Z) (w : World) : Prop :=
  ∀ j j', j ∈ C → j' ∈ C →
    ∃ e e', at_index (nodesList w) j = Some e ∧ at_index (nodesList w) j' = Some e' ∧
            elt_type e = elt_type e'.

(** The record at [i] is shown and marked as exploded. *)
Definition shown_exploded (w : World) (i : Z) : Prop :=
  ∃ e, at_index (nodesList w) i = Some e ∧ elt_show e = true ∧ elt_exploded e = true.

(** Indices and names agree: the record at the index of a child carries the
    path of that child as its name. *)
Definition wf_index (w : World) : Prop :=
  ∀ r n cs k ch j,
    deref (nodesTree w) r = Some n → children n = Some cs → (k, ch) ∈ cs →
    index ch = Some j →
    ∃ e, at_index (nodesList w) j = Some e ∧
         split underscore (elt_nodeName e) = r ++ [k].

(** [wf_index] as a check of the hierarchy below the node [n] at [r]. *)
Fixpoint wf_index_from (l : list NodeElt) (r : ref) (n : Node) : bool :=
  match children n with
  | None => true
  | Some cs =>
      forallb (fun kc : string * Node =>
                 let (k, ch) := kc in
                 match index ch with
                 | None => true
                 | Some j =>
                     match at_index l j with
                     | Some e =>
                         bool_decide (split underscore (elt_nodeName e) = r ++ [k])
                     | None => false
                     end
                 end && wf_index_from l (r ++ [k]) ch) cs
  end.

(** Nothing is left to build between the child [c] and the neighbors [K]. *)
Definition settled (depth : nat) (w : World) (c : Z) (K : list Z) : Prop :=
  ∀ N, N ∈ K → up_quiet w c N ∧ down_quiet depth w c (Some N).

(** ** Vocabulary for further properties of the hierarchy *)

(** Below [n], following children without label, no node is filtered and no
    child met carries [label]: the part of the hierarchy that
    [filterOutRecursive] would enter is untouched by any filter. *)
Fixpoint fresh_below (label : string) (n : Node) : bool :=
  match children n with
  | None => true
  | Some cs =>
      forallb (fun kc : string * Node =>
                 let (k, c) := kc in
                 match filteredBy c with
                 | None => negb (filtered c) && fresh_below label c
                 | Some l => negb (bool_decide (l = label))
                 end) cs
  end.

(** The place in [nv.layerOrder] of the element at position [i] of an array
    of typed records (0 when there is none). *)
Definition order_at {A} (type_of : A → string) (l : list A) (i : nat) : Z :=
  default 0%Z (l !! i ≫= fun a => layerOrder (type_of a)).

(** The cache of the sorted links is current: no crosslink is waiting to be
    appended, [numLinks] is the length of [nv.linksList], the cached length
    does not exceed it, and when they agree the snapshot holds every
    position of [nv.linksList] once. *)
Definition links_cache_current (w : World) : Prop :=
  numLinks w = length (linksList w) ∧ newCrossLinks w = [] ∧
  (layerSortedLinksLength w ≤ numLinks w)%nat ∧
  (layerSortedLinksLength w = numLinks w →
   layer_sorted_links w ≡ₚ seq 0 (length (linksList w))).

(** What no explosion changes of a node record: name, type and the data
    attributes. *)
Definition elt_static (e e' : NodeElt) : Prop :=
  elt_nodeName e' = elt_nodeName e ∧ elt_type e' = elt_type e ∧
  elt_attrs e' = elt_attrs e.

(** What the explosion engine leaves alone: the hierarchy with all filter
    state, the current layer, the sorted snapshots and the console; the
    node records keep their places, names, types and attributes; the link
    records there are stay where they are, and [numLinks] moves with their
    number. *)
Definition explosion_frame (w w' : World) : Prop :=
  nodesTree w' = nodesTree w ∧ currentLayer w' = currentLayer w ∧
  layer_sorted_nodes w' = layer_sorted_nodes w ∧
  layer_sorted_links w' = layer_sorted_links w ∧
  layerSortedLinksLength w' = layerSortedLinksLength w ∧
  console w' = console w ∧
  Forall2 elt_static (nodesList w) (nodesList w') ∧
  all_links w `prefix_of` all_links w' ∧
  (numLinks w' + length (all_links w) = numLinks w + length (all_links w'))%nat.


(** The neighbor tables point at link records: the entry for [b] in the
    table of the record at [a] is the position of a link from [a] to [b]. *)
Definition neighbors_linked (w : World) : Prop :=
  ∀ a e b li,
    at_index (nodesList w) a = Some e → dict_get b (elt_neighbors e) = Some li →
    ∃ l, all_links w !! li = Some l ∧ source l = a ∧ target l = b.

(** Every crosslink (a link record from position [n0] on) joins two node
    records of different types and is typed by the two, in the order in
    which the pair was built. *)
Definition crosslinks_typed (n0 : nat) (w : World) : Prop :=
  ∀ id l, (n0 ≤ id)%nat → all_links w !! id = Some l →
    ∃ e1 e2,
      at_index (nodesList w) (source l) = Some e1 ∧
      at_index (nodesList w) (target l) = Some e2 ∧
      elt_type e1 ≠ elt_type e2 ∧
      (link_type l = (elt_type e1 ++ "_" ++ elt_type e2)%string ∨
       link_type l = (elt_type e2 ++ "_" ++ elt_type e1)%string).

(** The three invariants of the link records together, and what it means
    for a step to keep them. *)
Definition links_inv (n0 : nat) (w : World) : Prop :=
  crosslink_inv n0 w ∧ neighbors_linked w ∧ crosslinks_typed n0 w.

Definition keeps_links_inv (n0 : nat) (w w' : World) : Prop :=
  links_inv n0 w → links_inv n0 w'.

(** [neighbors_linked] as a check of the node records from index [a] on. *)
Fixpoint neighbors_linked_from (links : list Link) (a : nat) (l : list NodeElt) : bool :=
  match l with
  | [] => true
  | e :: l' =>
      forallb (fun bl : Z * nat =>
                 match links !! snd bl with
                 | Some lk =>
                     bool_decide (source lk = Z.of_nat a) &&
                     bool_decide (target lk = fst bl)
                 | None => false
                 end) (elt_neighbors e)
      && neighbors_linked_from links (S a) l'
  end.

(** ** Vocabulary for the predicates of the filters *)

Section Predicates.

Variable StringToNumber : string → option Z.
Variable RegExp : string → option (string → bool).

(** What [isInbound] answers for a value, when it answers: a range filter
    always does; a pattern filter does when its pattern compiles. *)
Definition inbound_value (F : Filter) (v : value) : option bool :=
  match filterType F with
  | QUANT => Some (qFilter_isInbound StringToNumber F v)
  | REGEX => (fun re => re (ToString v)) <$> RegExp (regex_pattern F)
  end.

(** The value of the filter's attribute in the record at [k], and whether
    the filter accepts it. *)
Definition attribute_at (F : Filter) (w : World) (k : Z) : value :=
  match at_index (nodesList w) k with
  | Some e => default VUndefined (elt_property e (attribute F))
  | None => VUndefined
  end.

Definition accepts (F : Filter) (w : World) (k : Z) : bool :=
  default false (inbound_value F (attribute_at F w k)).

End Predicates.

(** ** Vocabulary for the link filters *)

(** What no filter changes of a link record. *)
Definition link_static (l l' : Link) : Prop :=
  source l' = source l ∧ target l' = target l ∧ link_type l' = link_type l ∧
  link_attrs l' = link_attrs l.

(** What a pass of a link filter leaves alone: everything but the filter
    state of the link records, the sorted snapshot of the links and the
    console. *)
Definition links_refiltered (w w' : World) : Prop :=
  nodesTree w' = nodesTree w ∧ nodesList w' = nodesList w ∧
  numLinks w' = numLinks w ∧ crossLinksDict w' = crossLinksDict w ∧
  newCrossLinks w' = newCrossLinks w ∧ currentLayer w' = currentLayer w ∧
  layer_sorted_nodes w' = layer_sorted_nodes w ∧
  Forall2 link_static (linksList w) (linksList w').

(** The link records at all positions but [x] are kept. *)
Definition links_kept_but (x : nat) (w w' : World) : Prop :=
  ∀ j, j ≠ x → linksList w' !! j = linksList w !! j.

Section LinkPredicates.

Variable StringToNumber : string → option Z.
Variable RegExp : string → option (string → bool).

(** Whether the filter accepts the value of its attribute in a link. *)
Definition link_accepts (F : Filter) (l : Link) : bool :=
  default false
    (inbound_value StringToNumber RegExp F (link_property l (attribute F))).

End LinkPredicates.

(** The filter state a pass of [F] gives a record it decides on: filtered
    and labelled by [F] when [F] rejects it, unfiltered and without label
    when [F] accepts it. *)
Definition settled_flags (F : Filter) (accepted : bool) (filtered' : bool)
    (filteredBy' : option string) : Prop :=
  filtered' = negb accepted ∧
  filteredBy' = if accepted then None else Some (label F).

(** The filter state of a record a pass of [F] may decide on: unfiltered
    without label, or filtered and labelled by [F]. *)
Definition decidable_flags (F : Filter) (filtered0 : bool) (filteredBy0 : option string)
  : Prop :=
  (filtered0 = false ∧ filteredBy0 = None) ∨
  (filtered0 = true ∧ filteredBy0 = Some (label F)).

Section NodePredicates.

Variable StringToNumber : string → option Z.
Variable RegExp : string → option (string → bool).

(** Whether the filter accepts the node whose record is at [j], by the
    method [toggleIncludeNeighbors] has installed. *)
Definition node_accepts (F : Filter) (w : World) (j : Z) : bool :=
  accepts StringToNumber RegExp F w j ||
  (includeNeighbors F &&
   existsb (accepts StringToNumber RegExp F w)
     (match at_index (nodesList w) j with
      | Some e => nb_keys e
      | None => []
      end)).

End NodePredicates.

(** ** [InteractionControl]: the state vector *)

(** [s.substr(1)] and [s.slice(0, -1)]. *)
Definition substr_1 (s : string) : string :=
  match s with
  | EmptyString => EmptyString
  | String _ s' => s'
  end.

Fixpoint slice_0_m1 (s : string) : string :=
  match s with
  | EmptyString => EmptyString
  | String a s' =>
      match s' with
      | EmptyString => EmptyString
      | String _ _ => String a (slice_0_m1 s')
      end
  end.

(** String concatenation with something that may be [undefined]. *)
Definition ToString_opt (s : option string) : string := default "undefined" s.

(** [InteractionControl.prototype.saveState], given the three filters the
    registry holds. *)
Definition saveState (utilFilter capFilter routerNameFilter : Filter) : M string :=
  let* cur := gets currentLayer in
  let stateVector : dict string string :=
    [ ("currentLayer", ToString_opt cur);
      ("utilFilter",
       (ToString (lower utilFilter) ++ ";" ++ ToString (upper utilFilter))%string);
      ("capFilter",
       (ToString (lower capFilter) ++ ";" ++ ToString (upper capFilter))%string);
      ("routerNameFilter", regex_pattern routerNameFilter) ] in
  let stateVectorString :=
    fold_left (fun acc st => (acc ++ fst st ++ "=" ++ snd st ++ "&")%string)
      stateVector "?" in
  ret (slice_0_m1 stateVectorString).

(** [stateVector[key] = v] on the plain object [readState] fills, for a [v]
    that is a string or [undefined]: the key [__proto__] reaches the setter
    every object inherits, which ignores such a value, so no entry is made. *)
Definition state_set (key : string) (v : option string)
    (stateVector : dict string (option string)) : dict string (option string) :=
  if decide (key = "__proto__") then stateVector else dict_set key v stateVector.

(** [InteractionControl.prototype.readState]: the entries of the object read
    back, in the order they were made, a value being [undefined] when its
    piece has no ['=']. *)
Definition readState (stateVectorString : string) : dict string (option string) :=
  fold_left
    (fun stateVector preState =>
       match split "="%char preState with
       | key :: rest => state_set key (head rest) stateVector
       | [] => stateVector
       end)
    (split "&"%char (substr_1 stateVectorString)) [].


(** The filter state of a node of the filter's layer on which neither
    branch of [filterNodes] acts, when the filter answers [inbound] for it. *)
Definition at_rest (F : Filter) (inbound : bool) (n : Node) : Prop :=
  negb (filtered n) && negb inbound && bool_decide (filteredBy n = None) = false ∧
  filtered n && inbound && bool_decide (filteredBy n = Some (label F)) = false.

(** The state of the loop of [filterNodes] after the records [pre]: every
    one of them exists and names a node, and those of the filter's layer
    name a node at rest. *)
Definition rest_so_far (StringToNumber : string → option Z)
    (RegExp : string → option (string → bool))
    (F : Filter) (w : World) (pre : list nat) (s : World) : Prop :=
  lists_kept w s ∧ same_shape (nodesTree w) (nodesTree s) ∧
  ∀ y, y ∈ pre →
    ∃ ey ry, nodesList w !! y = Some ey ∧
      resolve (nodesTree w) (elt_nodeName ey) = Ok (Some ry) ∧
      (elt_type ey = layer F →
       ∃ xs b, deref (nodesTree s) ry = Some xs ∧
               isNodeInbound StringToNumber RegExp F xs s = (Ok b, s) ∧ at_rest F b xs).

(** The loop of the [Node] constructor over the listed children: each is
    filed under a key, in a dictionary that starts as [acc]. *)
Definition dict_build {A V} (f : A → string) (g : A → V) (cs : list A)
    (acc : dict string V) : dict string V :=
  fold_left (fun acc c => dict_set (f c) (g c) acc) cs acc.

(** ** Reads through the prototype chain *)

(** What the read [x.children[k]] can give.  The dictionary [children] is a
    plain object, so a key that is no child may still name a member that
    every object inherits from [Object.prototype], such as [constructor] or
    [toString]; that member is then the value read. *)
Inductive lookup :=
| Own (r : ref)
| Inherited (k : string)
| Missing.

Section Prototype.

(** Whether [Object.prototype] has a member of this name. *)
Variable inherited : string → bool.

(** [x.children[k]] with the inherited members.  An inherited member has no
    property [children], so the read from it throws like the read from
    [undefined]. *)
Definition child_proto (x : lookup) (k : string) : M lookup :=
  match x with
  | Own r =>
      let* n := gets (fun w => deref (nodesTree w) r) in
      let* n := defined n in
      let* cs := defined (children n) in
      match dict_get k cs with
      | Some _ => ret (Own (r ++ [k]))
      | None => if inherited k then ret (Inherited k) else ret Missing
      end
  | Inherited _ => throw TypeError
  | Missing => throw TypeError
  end.

(** [NodesTree.prototype.getNodeByName] with the inherited members: what the
    method returns for any string. *)
Definition getNodeByName_proto (name : string) : M lookup :=
  match split underscore name with
  | [a0] => child_proto (Own []) a0
  | [a0; a1] =>
      let* n0 := child_proto (Own []) a0 in child_proto n0 a1
  | [a0; a1; a2] =>
      let* n0 := child_proto (Own []) a0 in
      let* n1 := child_proto n0 a1 in child_proto n1 a2
  | _ => alert "Incorrect nodeName" ;; ret Missing
  end.

End Prototype.

(** What [getNodeByName] makes of a read: a child is referred to, and
    anything else counts as [undefined]. *)
Definition own_ref (x : lookup) : option ref :=
  match x with
  | Own r => Some r
  | Inherited _ | Missing => None
  end.

(** The members of [Object.prototype]. *)
Definition ex_inherited (k : string) : bool :=
  bool_decide (k ∈ ["constructor"; "hasOwnProperty"; "isPrototypeOf";
                    "propertyIsEnumerable"; "toLocaleString"; "toString"; "valueOf";
                    "__proto__"; "__defineGetter__"; "__defineSetter__";
                    "__lookupGetter__"; "__lookupSetter__"]).

(** ** The upward climb of [buildUpCrosslinks] *)

(** Where the climb ends: at a neighbor whose pair with the child is cached,
    at a neighbor of the type of the child, or below a parent without index
    (the hierarchy root, which no node record stands for). *)
Inductive stop :=
| AtCached (neighborIndex : Z)
| AtSameType (neighborIndex : Z)
| AtNoIndex (p : ref).

(** The calls of [buildUpCrosslinks] for the child [mainIndex], from the
    neighbor [neighborIndex] upwards, without the call stack: the neighbors
    for which a crosslink pair is created, in this order, where the climb
    ends, and the world it leaves. *)
Inductive climb (mainIndex : Z) : Z → World → list Z → stop → World → Prop :=
| climb_cached neighborIndex w e1 e2 :
    at_index (nodesList w) mainIndex = Some e1 →
    at_index (nodesList w) neighborIndex = Some e2 →
    is_Some (crossLinksDict w !! cl_key mainIndex neighborIndex) →
    climb mainIndex neighborIndex w [] (AtCached neighborIndex) w
| climb_same_type neighborIndex w e1 e2 :
    at_index (nodesList w) mainIndex = Some e1 →
    at_index (nodesList w) neighborIndex = Some e2 →
    crossLinksDict w !! cl_key mainIndex neighborIndex = None →
    elt_type e1 = elt_type e2 →
    climb mainIndex neighborIndex w [] (AtSameType neighborIndex) w
| climb_top neighborIndex w e1 e2 l1 l2 r p :
    at_index (nodesList w) mainIndex = Some e1 →
    at_index (nodesList w) neighborIndex = Some e2 →
    crossLinksDict w !! cl_key mainIndex neighborIndex = None →
    elt_type e1 ≠ elt_type e2 →
    crossLink1 w mainIndex neighborIndex = Some l1 →
    crossLink2 w mainIndex neighborIndex = Some l2 →
    resolve (nodesTree w) (elt_nodeName e2) = Ok (Some r) →
    deref (nodesTree w) (parent r) = Some p →
    index p = None →
    climb mainIndex neighborIndex w [neighborIndex] (AtNoIndex (parent r))
      (after_buildCrosslinks mainIndex neighborIndex l1 l2 w)
| climb_up neighborIndex w e1 e2 l1 l2 r p new_neighborIndex created why w' :
    at_index (nodesList w) mainIndex = Some e1 →
    at_index (nodesList w) neighborIndex = Some e2 →
    crossLinksDict w !! cl_key mainIndex neighborIndex = None →
    elt_type e1 ≠ elt_type e2 →
    crossLink1 w mainIndex neighborIndex = Some l1 →
    crossLink2 w mainIndex neighborIndex = Some l2 →
    resolve (nodesTree w) (elt_nodeName e2) = Ok (Some r) →
    deref (nodesTree w) (parent r) = Some p →
    index p = Some new_neighborIndex →
    climb mainIndex new_neighborIndex
      (after_buildCrosslinks mainIndex neighborIndex l1 l2 w) created why w' →
    climb mainIndex neighborIndex w (neighborIndex :: created) why w'.
(** * Properties *)

(** ** The monad *)

Lemma bind_ret {A B} (a : A) (k : A → M B) w : bind (ret a) k w = k a w.
Proof. done. Qed.

Lemma bind_gets {A B} (f : World → A) (k : A → M B) w : bind (gets f) k w = k (f w) w.
Proof. done. Qed.


Lemma bind_throw {A B} e (k : A → M B) w : bind (throw e) k w = (Throw e, w).
Proof. done. Qed.

Lemma bind_defined {A B} (x : option A) (k : A → M B) w :
  bind (defined x) k w = match x with Some a => k a w | None => (Throw TypeError, w) end.
Proof. by destruct x. Qed.

Lemma bind_Ok {A B} (m : M A) (k : A → M B) w a w' :
  m w = (Ok a, w') → bind m k w = k a w'.
Proof. unfold bind. by intros ->. Qed.

Lemma bind_Throw {A B} (m : M A) (k : A → M B) w e w' :
  m w = (Throw e, w') → bind m k w = (Throw e, w').
Proof. unfold bind. by intros ->. Qed.

Lemma bind_assoc {A B C} (m : M A) (k : A → M B) (h : B → M C) w :
  bind (bind m k) h w = bind m (fun a => bind (k a) h) w.
Proof. unfold bind. by destruct (m w) as [[a|e] w']. Qed.

Lemma post_ret {A} (a : A) w Q : Q (Ok a) w → post (ret a) w Q.
Proof. done. Qed.

Lemma post_throw {A} e w (Q : res A → World → Prop) : Q (Throw e) w → post (throw e) w Q.
Proof. done. Qed.

Lemma post_gets {A} (f : World → A) w Q : Q (Ok (f w)) w → post (gets f) w Q.
Proof. done. Qed.

Lemma post_modify f w Q : Q (Ok tt) (f w) → post (modify f) w Q.
Proof. done. Qed.

Lemma post_bind {A B} (m : M A) (k : A → M B) w Q :
  post m w (fun r w' =>
    match r with
    | Ok a => post (k a) w' Q
    | Throw e => Q (Throw e) w'
    end) →
  post (bind m k) w Q.
Proof.
  unfold post, bind. destruct (m w) as [[a|e] w']; simpl; auto.
Qed.

Lemma post_mono {A} (m : M A) w (Q Q' : res A → World → Prop) :
  post m w Q → (∀ r w', Q r w' → Q' r w') → post m w Q'.
Proof. unfold post. auto. Qed.

Lemma post_defined {A} (x : option A) w Q :
  match x with Some a => Q (Ok a) w | None => Q (Throw TypeError) w end →
  post (defined x) w Q.
Proof. destruct x; done. Qed.

Lemma post_run {A} (m : M A) w r w' Q : post m w Q → m w = (r, w') → Q r w'.
Proof. unfold post. intros H E. by rewrite E in H. Qed.

(** A loop keeps what every turn keeps, however it ends. *)
Lemma forEach_invariant {A} (I : World → Prop) (l : list A) body :
  (∀ x w, x ∈ l → I w → post (body x) w (fun _ w' => I w')) →
  ∀ w, I w → post (forEach l body) w (fun _ w' => I w').
Proof.
  induction l as [|x l IH]; intros Hb w Hw; simpl.
  - by apply post_ret.
  - apply post_bind. eapply post_mono.
    + apply Hb; [by left | done].
    + intros [[]|e] w' Hw'; [|done].
      apply IH; [|done]. intros y w0 Hy. apply Hb. by right.
Qed.

(** A loop that ends normally has run every turn normally, in order. *)
Lemma forEach_Ok_ind {A} (P : list A → World → Prop) (l : list A) body w w' :
  P [] w →
  (∀ pre x suf w1 w2,
      l = pre ++ x :: suf → P pre w1 → body x w1 = (Ok tt, w2) → P (pre ++ [x]) w2) →
  forEach l body w = (Ok tt, w') →
  P l w'.
Proof.
  intros H0 Hstep.
  assert (G : ∀ suf pre w1, l = pre ++ suf → P pre w1 →
                forEach suf body w1 = (Ok tt, w') → P l w').
  { induction suf as [|x suf IH]; intros pre w1 El Hp Hrun.
    - simpl in Hrun. unfold ret in Hrun. rewrite app_nil_r in El.
      inversion Hrun; by subst.
    - simpl in Hrun. unfold bind in Hrun.
      destruct (body x w1) as [[[]|e] w2] eqn:Eb; [|done].
      apply (IH (pre ++ [x]) w2); [|by eapply Hstep|done].
      by rewrite <- app_assoc. }
  intros Hrun. by apply (G l [] w).
Qed.

(** ** Reading the tree *)

Lemma split_nonempty c s : split c s ≠ [].
Proof.
  destruct s as [|a s]; simpl; [done|].
  destruct (Ascii.eqb a c); [done|]. by destruct (split c s).
Qed.

Lemma child_spec x k w : child x k w = (child_of (nodesTree w) x k, w).
Proof.
  unfold child, child_of, bind, defined, gets, ret, throw.
  destruct x as [r|]; [|done].
  destruct (deref (nodesTree w) r) as [n|]; [|done].
  destruct (children n) as [cs|]; [|done].
  by destruct (dict_get k cs).
Qed.

Lemma getNodeByName_spec name w :
  ∃ w', getNodeByName name w = (resolve (nodesTree w) name, w') ∧
        nodesTree w' = nodesTree w ∧ nodesList w' = nodesList w ∧
        linksList w' = linksList w ∧ numLinks w' = numLinks w ∧
        crossLinksDict w' = crossLinksDict w ∧ newCrossLinks w' = newCrossLinks w ∧
        currentLayer w' = currentLayer w ∧
        layer_sorted_nodes w' = layer_sorted_nodes w ∧
        layer_sorted_links w' = layer_sorted_links w ∧
        layerSortedLinksLength w' = layerSortedLinksLength w ∧
        console w' = console w ∧
        (length (split underscore name) ≤ 3 → w' = w)%nat.
Proof.
  unfold getNodeByName, resolve.
  destruct (split underscore name) as [|a0 [|a1 [|a2 [|a3 l]]]] eqn:E.
  - by destruct (split_nonempty underscore name).
  - exists w. rewrite child_spec. done.
  - exists w. unfold bind. rewrite child_spec.
    destruct (child_of _ _ a0); [|done]. by rewrite child_spec.
  - exists w. unfold bind. rewrite child_spec.
    destruct (child_of _ _ a0); [|done]. rewrite child_spec.
    destruct (child_of _ _ a1); [|done]. by rewrite child_spec.
  - eexists; split; [done|]. simpl. repeat split; lia.
Qed.

(** ** [renderNodes] *)


Lemma elt_at_spec i w :
  elt_at i w = (match at_index (nodesList w) i with
                | Some e => Ok e
                | None => Throw TypeError
                end, w).
Proof.
  unfold elt_at, bind, gets, defined. by destruct (at_index (nodesList w) i).
Qed.

Lemma node_at_spec x w :
  node_at x w = (match x with
                 | Some r => match deref (nodesTree w) r with
                             | Some n => Ok n
                             | None => Throw TypeError
                             end
                 | None => Throw TypeError
                 end, w).
Proof.
  unfold node_at, bind, gets, defined, throw, ret. destruct x as [r|]; [|done].
  by destruct (deref (nodesTree w) r).
Qed.




(** ** Dictionaries and references *)

Lemma dict_get_map {K V} `{EqDecision K} (h : K * V → K * V) (k : K) (d : dict K V) :
  (∀ kc, fst (h kc) = fst kc) →
  dict_get k (map h d) = (fun v => snd (h (k, v))) <$> dict_get k d.
Proof.
  intros Hh. induction d as [|[k' v] d IH]; simpl; [done|].
  specialize (Hh (k', v)) as Hk. destruct (h (k', v)) as [k'' v''] eqn:E.
  simpl in Hk. subst k''. destruct (decide (k = k')) as [->|]; [|done].
  simpl. by rewrite E.
Qed.

Lemma dict_get_alter {K V} `{EqDecision K} (f : V → V) (k k' : K) (d : dict K V) :
  dict_get k' (dict_alter f k d) =
  if decide (k = k') then f <$> dict_get k' d else dict_get k' d.
Proof.
  induction d as [|[k0 v] d IH]; simpl; [by case_decide|].
  destruct (decide (k = k0)) as [->|Hne]; simpl.
  - destruct (decide (k' = k0)) as [->|]; [by rewrite decide_True|].
    by rewrite decide_False.
  - destruct (decide (k' = k0)) as [->|]; [by rewrite decide_False|done].
Qed.

Lemma deref_app n r p :
  deref n (r ++ p) = match deref n r with Some m => deref m p | None => None end.
Proof.
  revert n. induction r as [|k r IH]; intros n; simpl; [done|].
  destruct (children n) as [cs|]; [|done]. by destruct (dict_get k cs).
Qed.

(** Below the root of a subtree only its [children] matter. *)
Lemma deref_children n n' r :
  r ≠ [] → children n = children n' → deref n r = deref n' r.
Proof. destruct r; [done|]. simpl. by intros _ ->. Qed.

(** ** [filterOutRecursive] *)

Lemma filterOutRecursive_children label n :
  children (filterOutRecursive label n) =
  map (fun kc : string * Node =>
         match filteredBy (snd kc) with
         | None => (fst kc, set_children (children (filterOutRecursive label (snd kc)))
                              (markNode label (filterOut (snd kc))))
         | Some _ => kc
         end) <$> children n.
Proof.
  destruct n as [i nm f fb [cs|] nc]; simpl; [|done].
  f_equal. apply map_ext. by intros [k c]; simpl; destruct (filteredBy c).
Qed.

Lemma filtered_filterOut n : filtered (filterOut n) = true.
Proof. unfold filterOut. by destruct (filtered n) eqn:E. Qed.

Lemma filterOutRecursive_deref_full label r : ∀ n,
  r ≠ [] →
  deref (filterOutRecursive label n) r =
  (fun d => if unowned_path n r
            then set_children (children (filterOutRecursive label d))
                   (markNode label (filterOut d))
            else d) <$> deref n r.
Proof.
  induction r as [|k r IH]; intros n Hr; [done|].
  simpl. pose proof (filterOutRecursive_children label n) as Hc.
  destruct (children n) as [cs|] eqn:Ecs;
    destruct (children (filterOutRecursive label n)) as [cs'|]; try done.
  simpl in Hc. injection Hc as ->.
  rewrite dict_get_map; [|by intros [k' c']; simpl; destruct (filteredBy c')].
  destruct (dict_get k cs) as [c|] eqn:Ec; [|done]. simpl.
  destruct (filteredBy c) eqn:Efb; simpl.
  - by destruct (deref c r).
  - destruct r as [|k' r']; [done|].
    rewrite (deref_children _ (filterOutRecursive label c)) by done.
    by apply IH.
Qed.

Lemma filterOutRecursive_deref label r n d :
  r ≠ [] →
  deref n r = Some d →
  if unowned_path n r
  then ∃ d', deref (filterOutRecursive label n) r = Some d' ∧
             filtered d' = true ∧ filteredBy d' = Some label
  else deref (filterOutRecursive label n) r = Some d.
Proof.
  intros Hr Hd. rewrite filterOutRecursive_deref_full, Hd by done. simpl.
  destruct (unowned_path n r); [|done].
  eexists; split; [done|]. split; [|done]. apply filtered_filterOut.
Qed.

(** C7, as the code has it.  After [filterOutRecursive] on a node [N] for the
    filter labelled [label], a descendant reached from [N] through unlabelled
    nodes only (itself included) is filtered and carries [label]; any other
    descendant, labelled itself or lying below a labelled one, is the object
    it was, so it keeps its [filtered] and [filteredBy]. *)
Theorem filterOutRecursive_marks_unowned_chain label (N : Node) (r : ref) (d : Node) :
  r ≠ [] →
  deref N r = Some d →
  (unowned_path N r = true →
     ∃ d', deref (filterOutRecursive label N) r = Some d' ∧
           filtered d' = true ∧ filteredBy d' = Some label) ∧
  (unowned_path N r = false →
     deref (filterOutRecursive label N) r = Some d).
Proof.
  intros Hr Hd. pose proof (filterOutRecursive_deref label r N d Hr Hd) as H.
  split; intros E; by rewrite E in H.
Qed.

Lemma filterOutRecursive_marks_unowned_chain_witness :
  ["A"; "p2"; "r1"] ≠ [] ∧
  (∃ d', deref (filterOutRecursive "metro_load" ex_tree) ["A"; "p2"; "r1"] = Some d' ∧
         filtered d' = true ∧ filteredBy d' = Some "metro_load").
Proof.
  split; [done|].
  refine (proj1 (filterOutRecursive_marks_unowned_chain "metro_load" ex_tree
                   ["A"; "p2"; "r1"]
                   (mkNode (Some 7) "r1" false None None 0) _ _) _);
    [done | vm_compute; reflexivity | vm_compute; reflexivity].
Defined.

(** C7 as stated fails: a router that has no label but lies below a pop that
    another filter has taken is not entered, so it stays unfiltered and
    unlabelled. *)
Lemma filterOutRecursive_skips_below_owned :
  let N := ex_tree_owned_pop in
  let r := ["A"; "p1"; "r1"] in
  ∃ d d', deref N r = Some d ∧ filteredBy d = None ∧
          deref (filterOutRecursive "metro_load" N) r = Some d' ∧
          filtered d' = false ∧ filteredBy d' = None.
Proof.
  exists (mkNode (Some 5) "r1" false None None 0),
         (mkNode (Some 5) "r1" false None None 0).
  vm_compute. repeat split; reflexivity.
Qed.

(** ** [filterInRecursive] *)

Lemma filterInRecursive_children label n :
  children (filterInRecursive label n) =
  map (fun kc : string * Node =>
         if decide (filteredBy (snd kc) = Some label)
         then (fst kc, set_children (children (filterInRecursive label (snd kc)))
                         (unmarkNode (filterIn (snd kc))))
         else kc) <$> children n.
Proof.
  destruct n as [i nm f fb [cs|] nc]; simpl; [|done].
  f_equal. apply map_ext. by intros [k c]; simpl; case_decide.
Qed.

Lemma filterInRecursive_deref_full label r : ∀ n,
  r ≠ [] →
  deref (filterInRecursive label n) r =
  (fun d => if labelled_path label n r
            then set_children (children (filterInRecursive label d))
                   (unmarkNode (filterIn d))
            else d) <$> deref n r.
Proof.
  induction r as [|k r IH]; intros n Hr; [done|].
  simpl. pose proof (filterInRecursive_children label n) as Hc.
  destruct (children n) as [cs|] eqn:Ecs;
    destruct (children (filterInRecursive label n)) as [cs'|]; try done.
  simpl in Hc. injection Hc as ->.
  rewrite dict_get_map; [|by intros [k' c']; simpl; case_decide].
  destruct (dict_get k cs) as [c|] eqn:Ec; [|done]. simpl.
  destruct (decide (filteredBy c = Some label)) as [Efb|Efb]; simpl.
  - rewrite bool_decide_eq_true_2 by done. simpl.
    destruct r as [|k' r']; [done|].
    rewrite (deref_children _ (filterInRecursive label c)) by done.
    by apply IH.
  - rewrite bool_decide_eq_false_2 by done. simpl. by destruct (deref c r).
Qed.

(** The last node of a path that [filterOutRecursive] or [filterInRecursive]
    goes all the way down has no label, respectively the filter's label. *)
Lemma unowned_path_end n r d :
  r ≠ [] → deref n r = Some d → unowned_path n r = true → filteredBy d = None.
Proof.
  revert n. induction r as [|k r IH]; intros n Hr; [done|]. simpl.
  destruct (children n) as [cs|]; [|done].
  destruct (dict_get k cs) as [c|]; [|done].
  intros Hd [H1 H2]%andb_prop. destruct r as [|k' r'].
  - simpl in Hd. injection Hd as <-. by apply bool_decide_eq_true in H1.
  - by apply (IH c).
Qed.

Lemma labelled_path_end label n r d :
  r ≠ [] → deref n r = Some d → labelled_path label n r = true →
  filteredBy d = Some label.
Proof.
  revert n. induction r as [|k r IH]; intros n Hr; [done|]. simpl.
  destruct (children n) as [cs|]; [|done].
  destruct (dict_get k cs) as [c|]; [|done].
  intros Hd [H1 H2]%andb_prop. destruct r as [|k' r'].
  - simpl in Hd. injection Hd as <-. by apply bool_decide_eq_true in H1.
  - by apply (IH c).
Qed.

(** ** Mutation at a reference *)

Lemma update_at_fields r f n :
  r ≠ [] →
  index (update_at r f n) = index n ∧ nodeName (update_at r f n) = nodeName n ∧
  filtered (update_at r f n) = filtered n ∧
  filteredBy (update_at r f n) = filteredBy n ∧
  hasChildren (update_at r f n) = hasChildren n.
Proof.
  destruct r as [|k r]; [done|]. intros _. simpl. unfold hasChildren.
  destruct (children n) eqn:E; simpl; by rewrite ?E.
Qed.

(** Looking at a node on the way down to the mutated one. *)
Lemma deref_update_at_above q p f : ∀ t,
  deref (update_at (q ++ p) f t) q = update_at p f <$> deref t q.
Proof.
  induction q as [|k q IH]; intros t; simpl; [done|].
  destruct (children t) as [cs|] eqn:E; simpl; [|by rewrite E].
  rewrite dict_get_alter, decide_True by done.
  destruct (dict_get k cs) as [c|]; [|done]. simpl. apply IH.
Qed.

(** Looking at or below the mutated node. *)
Lemma deref_update_at_below r p f t n :
  deref t r = Some n →
  deref (update_at r f t) (r ++ p) = deref (f n) p.
Proof.
  intros Hn. rewrite deref_app.
  pose proof (deref_update_at_above r [] f t) as H. rewrite app_nil_r in H.
  by rewrite H, Hn.
Qed.

(** Looking elsewhere. *)
Lemma deref_update_at_disjoint r f : ∀ q t,
  ¬ r `prefix_of` q → ¬ q `prefix_of` r →
  deref (update_at r f t) q = deref t q.
Proof.
  induction r as [|k r IH]; intros q t Hrq Hqr.
  - destruct Hrq. apply prefix_nil.
  - destruct q as [|k' q]; [destruct Hqr; apply prefix_nil|].
    simpl. destruct (children t) as [cs|] eqn:E; simpl; [|by rewrite E].
    rewrite dict_get_alter. case_decide as Hk; [subst k'|done].
    destruct (dict_get k cs) as [c|]; [|done]. simpl. apply IH.
    + intros H. apply Hrq. by apply prefix_cons.
    + intros H. apply Hqr. by apply prefix_cons.
Qed.

(** A node that is not at or below the mutated one keeps its own fields. *)
Lemma deref_update_at_fields r f q t n :
  ¬ r `prefix_of` q →
  deref t q = Some n →
  ∃ n', deref (update_at r f t) q = Some n' ∧
        index n' = index n ∧ filtered n' = filtered n ∧
        filteredBy n' = filteredBy n ∧ hasChildren n' = hasChildren n.
Proof.
  intros Hrq Hn. destruct (decide (q `prefix_of` r)) as [[p ->]|Hqr].
  - rewrite deref_update_at_above, Hn. simpl. eexists; split; [done|].
    assert (p ≠ []) by (intros ->; apply Hrq; by rewrite app_nil_r).
    by destruct (update_at_fields p f n) as (? & ? & ? & ? & ?).
  - rewrite deref_update_at_disjoint by done. by exists n.
Qed.

(** *** Shape *)

Lemma same_shape_refl t : same_shape t t.
Proof. done. Qed.

Lemma same_shape_trans t1 t2 t3 : same_shape t1 t2 → same_shape t2 t3 → same_shape t1 t3.
Proof. intros H1 H2 r. by rewrite H1. Qed.

Lemma shape_of_app t r p :
  shape_of t (r ++ p) = match deref t r with Some n => shape_of n p | None => None end.
Proof. unfold shape_of. rewrite deref_app. by destruct (deref t r). Qed.

Lemma same_shape_children n n' :
  children n = children n' → same_shape n n'.
Proof.
  intros H r. unfold shape_of. destruct r as [|k r].
  - simpl. unfold hasChildren. by rewrite H.
  - by rewrite (deref_children n n').
Qed.

Lemma same_shape_filterOutRecursive label n : same_shape n (filterOutRecursive label n).
Proof.
  intros r. unfold shape_of. destruct r as [|k r].
  - simpl. unfold hasChildren. rewrite filterOutRecursive_children.
    by destruct (children n).
  - rewrite filterOutRecursive_deref_full by done.
    generalize (unowned_path n (k :: r)). intros b.
    destruct (deref n (k :: r)) as [d|]; [|done]. simpl.
    destruct b; [|done]. simpl. unfold hasChildren. simpl.
    rewrite filterOutRecursive_children. by destruct (children d).
Qed.

Lemma same_shape_filterInRecursive label n : same_shape n (filterInRecursive label n).
Proof.
  intros r. unfold shape_of. destruct r as [|k r].
  - simpl. unfold hasChildren. rewrite filterInRecursive_children.
    by destruct (children n).
  - rewrite filterInRecursive_deref_full by done.
    generalize (labelled_path label n (k :: r)). intros b.
    destruct (deref n (k :: r)) as [d|]; [|done]. simpl.
    destruct b; [|done]. simpl. unfold hasChildren. simpl.
    rewrite filterInRecursive_children. by destruct (children d).
Qed.

Lemma same_shape_update_at r f t :
  (∀ n, same_shape n (f n)) → same_shape t (update_at r f t).
Proof.
  intros Hf q. destruct (deref t r) as [n|] eqn:En.
  - destruct (decide (r `prefix_of` q)) as [[p ->]|Hrq].
    + unfold shape_of at 2. rewrite (deref_update_at_below _ _ _ _ _ En).
      rewrite shape_of_app, En. apply Hf.
    + unfold shape_of. destruct (deref t q) as [m|] eqn:Em.
      * destruct (deref_update_at_fields r f q t m Hrq Em) as (m' & -> & _ & _ & _ & H).
        simpl. by rewrite H.
      * destruct (decide (q `prefix_of` r)) as [[p ->]|Hqr].
        -- by rewrite deref_update_at_above, Em.
        -- by rewrite deref_update_at_disjoint, Em.
  - (* the reference does not exist: nothing is touched on the way *)
    unfold shape_of. destruct (decide (q `prefix_of` r)) as [[p ->]|Hqr].
    + rewrite deref_update_at_above. destruct (deref t q) as [m|] eqn:Em; [|done].
      simpl. f_equal. destruct p as [|k p].
      * rewrite app_nil_r in En. congruence.
      * by destruct (update_at_fields (k :: p) f m) as (? & ? & ? & ? & ?).
    + destruct (decide (r `prefix_of` q)) as [[p ->]|Hrq].
      * rewrite !deref_app, En.
        pose proof (deref_update_at_above r [] f t) as H. rewrite app_nil_r in H.
        by rewrite H, En.
      * by rewrite deref_update_at_disjoint.
Qed.

(** [getNodeByName] only looks at the shape. *)
Lemma child_of_shape t t' x k : same_shape t t' → child_of t x k = child_of t' x k.
Proof.
  intros H. destruct x as [r|]; [|done]. unfold child_of.
  pose proof (H r) as Hr. pose proof (H (r ++ [k])) as Hk.
  rewrite !shape_of_app in Hk. unfold shape_of in Hr, Hk.
  destruct (deref t r) as [n|], (deref t' r) as [n'|]; try done.
  simpl in Hr, Hk. injection Hr as Hr. unfold hasChildren in Hr.
  destruct (children n) as [cs|], (children n') as [cs'|]; try done.
  by destruct (dict_get k cs), (dict_get k cs').
Qed.

Lemma resolve_shape t t' name : same_shape t t' → resolve t name = resolve t' name.
Proof.
  intros H. unfold resolve.
  destruct (split underscore name) as [|a0 [|a1 [|a2 [|a3 l]]]]; try done.
  - by apply child_of_shape.
  - rewrite (child_of_shape t t' _ a0 H). destruct (child_of t' _ a0); [|done].
    by apply child_of_shape.
  - rewrite (child_of_shape t t' _ a0 H). destruct (child_of t' _ a0); [|done].
    rewrite (child_of_shape t t' _ a1 H). destruct (child_of t' _ a1); [|done].
    by apply child_of_shape.
Qed.

(** ** Names: [split], [join] and [getNodeByName] *)

Lemma split_no_sep c x : occurs c x = false → split c x = [x].
Proof.
  induction x as [|a x IH]; simpl; [done|].
  destruct (Ascii.eqb a c); [done|]. simpl. intros H. by rewrite IH.
Qed.

Lemma split_app_sep c x s :
  occurs c x = false → split c (x ++ String c s)%string = x :: split c s.
Proof.
  induction x as [|a x IH]; simpl.
  - by rewrite Ascii.eqb_refl.
  - destruct (Ascii.eqb a c); [done|]. simpl. intros H. by rewrite IH.
Qed.

Lemma split_join c l :
  l ≠ [] →
  Forall (fun x => occurs c x = false) l →
  split c (join (String c EmptyString) l) = l.
Proof.
  induction l as [|x l IH]; [done|]. intros _ Hl.
  apply Forall_cons in Hl as [Hx Hl]. destruct l as [|y l].
  - simpl. by apply split_no_sep.
  - change (join (String c "") (x :: y :: l))
      with (x ++ String c (join (String c "") (y :: l)))%string.
    rewrite split_app_sep by done. f_equal. by apply IH.
Qed.

Lemma split_parts c s : Forall (fun x => occurs c x = false) (split c s).
Proof.
  induction s as [|a s IH]; simpl.
  - by constructor.
  - destruct (Ascii.eqb a c) eqn:E.
    + by constructor.
    + destruct (split c s) as [|w ws];
        [constructor; [simpl; by rewrite E | constructor]|].
      apply Forall_cons in IH as [Hw Hws]. constructor; [|done].
      simpl. by rewrite E.
Qed.

Lemma shortName_no_underscore s : occurs underscore (shortName s) = false.
Proof.
  unfold shortName, pop. pose proof (split_parts underscore s) as H.
  induction (split underscore s) as [|x [|y l] IH]; [done| |].
  - by apply Forall_cons in H as [H _].
  - apply Forall_cons in H as [_ H]. by apply IH.
Qed.

Lemma dict_get_set {K V} `{EqDecision K} (k k' : K) (v : V) (d : dict K V) :
  dict_get k' (dict_set k v d) = if decide (k' = k) then Some v else dict_get k' d.
Proof.
  induction d as [|[k0 v0] d IH]; simpl.
  - done.
  - destruct (decide (k = k0)) as [->|Hne]; simpl.
    + by destruct (decide (k' = k0)).
    + destruct (decide (k' = k0)) as [->|]; [by rewrite decide_False|done].
Qed.

Lemma nodeName_Node_new obj : nodeName (Node_new obj) = shortName (obj_nodeName obj).
Proof. destruct obj as [i nm f fb [cs|]]; done. Qed.

(** The children of a constructed node are constructed from the described
    children, each under its short name. *)
Lemma Node_new_child obj cs k c :
  children (Node_new obj) = Some cs →
  dict_get k cs = Some c →
  ∃ o, c = Node_new o ∧ k = shortName (obj_nodeName o).
Proof.
  destruct obj as [i nm f fb [os|]]; [|done]. simpl. intros [= <-].
  assert (G : ∀ os acc,
    dict_get k (fold_left
      (fun acc c0 => dict_set (shortName (obj_nodeName c0)) (Node_new c0) acc) os acc)
      = Some c →
    (∃ o, c = Node_new o ∧ k = shortName (obj_nodeName o)) ∨ dict_get k acc = Some c).
  { clear. induction os as [|o os IH]; intros acc; simpl; [by right|].
    intros H. apply IH in H as [H|H]; [by left|].
    rewrite dict_get_set in H. case_decide; [|by right].
    left. exists o. by inversion H. }
  intros H. by apply G in H as [H|H].
Qed.

(** In a hierarchy built by the constructor every node sits under its own
    [nodeName], which contains no underscore. *)
Lemma Node_new_names r : ∀ obj n,
  deref (Node_new obj) r = Some n →
  nodeNames (Node_new obj) r = r ∧ Forall (fun k => occurs underscore k = false) r.
Proof.
  induction r as [|k r IH]; intros obj n; simpl; [done|].
  destruct (children (Node_new obj)) as [cs|] eqn:Ecs; [|done].
  destruct (dict_get k cs) as [c|] eqn:Ec; [|done].
  destruct (Node_new_child _ _ _ _ Ecs Ec) as (o & -> & ->).
  intros H. apply IH in H as [H1 H2]. rewrite H1, nodeName_Node_new.
  split; [done|]. constructor; [apply shortName_no_underscore|done].
Qed.

Lemma resolve_outcome t name :
  let segs := split underscore name in
  (length segs ≤ 3)%nat →
  resolve t name =
    match deref t segs with
    | Some _ => Ok (Some segs)
    | None =>
        match deref t (removelast segs) with
        | Some p => if hasChildren p then Ok None else Throw TypeError
        | None => Throw TypeError
        end
    end.
Proof.
  intros segs. subst segs. unfold resolve.
  pose proof (split_nonempty underscore name) as Hne.
  destruct (split underscore name) as [|a0 [|a1 [|a2 [|a3 l]]]]; [done|..];
    intros Hlen; [| | |simpl in Hlen; lia];
    unfold child_of, hasChildren; simpl;
    repeat (case_match; simplify_eq/=; try done).
Qed.

(** What [getNodeByName] does, for every name and world: more than three
    segments give an alert and [undefined]; otherwise the world is untouched
    and the answer is the node at the path of the segments when it exists,
    [undefined] when only the last segment is missing under a node that has
    children, and a [TypeError] in every other case. *)
Lemma getNodeByName_outcome name (w : World) :
  let segs := split underscore name in
  let t := nodesTree w in
  getNodeByName name w =
    if decide (length segs ≤ 3)%nat then
      (match deref t segs with
       | Some _ => Ok (Some segs)
       | None =>
           match deref t (removelast segs) with
           | Some p => if hasChildren p then Ok None else Throw TypeError
           | None => Throw TypeError
           end
       end, w)
    else (Ok None, set_alerts (alerts w ++ ["Incorrect nodeName"]) w).
Proof.
  intros segs t. subst segs t.
  destruct (decide _) as [Hlen|Hlen].
  - destruct (getNodeByName_spec name w) as (w' & -> & H). 
    rewrite resolve_outcome by done. f_equal. by apply H.
  - unfold getNodeByName.
    destruct (split underscore name) as [|a0 [|a1 [|a2 [|a3 l]]]];
      simpl in Hlen; try lia. done.
Qed.

(** ** The outcomes of [getNodeByName] *)

(** What [getNodeByName] returns for every name and world, with the members
    every object inherits. *)
Lemma getNodeByName_proto_outcome inherited name (w : World) :
  let segs := split underscore name in
  let t := nodesTree w in
  getNodeByName_proto inherited name w =
    if decide (length segs ≤ 3)%nat then
      (match deref t segs with
       | Some _ => Ok (Own segs)
       | None =>
           match deref t (removelast segs) with
           | Some p =>
               if hasChildren p then
                 Ok (if inherited (default "" (last segs))
                     then Inherited (default "" (last segs)) else Missing)
               else Throw TypeError
           | None => Throw TypeError
           end
       end, w)
    else (Ok Missing, set_alerts (alerts w ++ ["Incorrect nodeName"]) w).
Proof.
  intros segs t. subst segs t. unfold getNodeByName_proto.
  pose proof (split_nonempty underscore name) as Hne.
  destruct (split underscore name) as [|a0 [|a1 [|a2 [|a3 l]]]]; [done|..].
  all: try (rewrite decide_True by (simpl; lia)).
  4: by rewrite decide_False by (simpl; lia).
  all: unfold child_proto, hasChildren, bind, gets, defined, ret, throw; simpl;
    repeat (case_match; simplify_eq/=; try done).
Qed.

(** [getNodeByName], which looks among the children only, answers as the
    method does except where the method finds an inherited member: there it
    answers [undefined]. *)
Lemma getNodeByName_own_keys inherited name (w : World) :
  getNodeByName name w =
    (match fst (getNodeByName_proto inherited name w) with
     | Ok x => Ok (own_ref x)
     | Throw e => Throw e
     end, snd (getNodeByName_proto inherited name w)).
Proof.
  rewrite getNodeByName_outcome, getNodeByName_proto_outcome. cbv zeta.
  case_decide; simpl; [|done].
  repeat (case_match; simplify_eq/=; try done).
Qed.

(** C4, as the code has it.  For every name and world, [getNodeByName] splits
    the name at underscores.  With more than three segments it alerts
    ["Incorrect nodeName"] and returns [undefined]; no error reaches the
    caller.  With one to three segments it leaves the world as it is and
    returns the node at the path of the segments when that path exists.
    When only the last segment is no child of a node that has children, it
    returns [undefined], or the member of that name which every object
    inherits, if there is one.  It throws a [TypeError] otherwise (an
    earlier segment is no child, or the node to descend from is a leaf).
    The hierarchy and the node records are never changed. *)
Theorem getNodeByName_outcomes (inherited : string → bool) name (w : World) :
  let segs := split underscore name in
  let t := nodesTree w in
  getNodeByName_proto inherited name w =
    (if decide (length segs ≤ 3)%nat then
       (match deref t segs with
        | Some _ => Ok (Own segs)
        | None =>
            match deref t (removelast segs) with
            | Some p =>
                if hasChildren p then
                  Ok (if inherited (default "" (last segs))
                      then Inherited (default "" (last segs)) else Missing)
                else Throw TypeError
            | None => Throw TypeError
            end
        end, w)
     else (Ok Missing, set_alerts (alerts w ++ ["Incorrect nodeName"]) w)) ∧
  nodesTree (snd (getNodeByName_proto inherited name w)) = nodesTree w ∧
  nodesList (snd (getNodeByName_proto inherited name w)) = nodesList w.
Proof.
  intros segs t. split; [apply getNodeByName_proto_outcome|].
  rewrite getNodeByName_proto_outcome. cbv zeta. by case_decide.
Qed.

(** C4 as stated fails: a name of four segments, and a name whose last
    segment is unknown, make [getNodeByName] return [undefined] normally,
    and a last segment that names an inherited member makes it return that
    member: no error is raised for the caller. *)
Lemma getNodeByName_returns_undefined :
  fst (getNodeByName_proto ex_inherited "A_p1_r1_x" ex_world) = Ok Missing ∧
  fst (getNodeByName_proto ex_inherited "A_p9" ex_world) = Ok Missing ∧
  fst (getNodeByName_proto ex_inherited "A_toString" ex_world)
    = Ok (Inherited "toString") ∧
  ¬ (∀ name (w : World),
       (3 < length (split underscore name))%nat →
       ∃ e, fst (getNodeByName_proto ex_inherited name w) = Throw e).
Proof.
  split; [by vm_compute|]. split; [by vm_compute|]. split; [by vm_compute|].
  intros H. destruct (H "A_p1_r1_x" ex_world) as [e He]; [vm_compute; lia|].
  vm_compute in He. discriminate.
Qed.

(** C9. In a hierarchy built by the [Node] constructor, take any node one to
    three levels below the root and the name generated for it by joining the
    keys on its path with underscores: [getNodeByName] on that name returns
    this very node, and the name reconstructed from the [nodeName] fields on
    the way to the returned node is the generated name again. *)
Theorem getNodeByName_round_trip (obj : TreeObj) (w : World) (r : ref) (n : Node) :
  nodesTree w = Node_new obj →
  deref (nodesTree w) r = Some n →
  (1 ≤ length r ≤ 3)%nat →
  fst (getNodeByName (join "_" r) w) = Ok (Some r) ∧
  fullName (nodesTree w) r = join "_" r.
Proof.
  intros Ht Hd Hlen. rewrite Ht in Hd |- *.
  destruct (Node_new_names r obj n Hd) as [Hn Hu].
  assert (Hs : split underscore (join "_" r) = r).
  { apply split_join; [|done]. destruct r; simpl in Hlen; [lia|done]. }
  split.
  - rewrite getNodeByName_outcome. cbv zeta. rewrite Hs, Ht, Hd.
    by rewrite decide_True by lia.
  - unfold fullName. by rewrite Hn.
Qed.

Lemma getNodeByName_round_trip_witness :
  fst (getNodeByName (join "_" ["A"; "p1"; "r2"]) ex_world) = Ok (Some ["A"; "p1"; "r2"]) ∧
  fullName (nodesTree ex_world) ["A"; "p1"; "r2"] = join "_" ["A"; "p1"; "r2"].
Proof.
  apply (getNodeByName_round_trip ex_nodes_tree ex_world ["A"; "p1"; "r2"]
           (mkNode (Some 6) "r2" false None None 0)).
  - vm_compute; reflexivity.
  - vm_compute; reflexivity.
  - simpl; lia.
Defined.

(** ** The pattern filter with an invalid pattern *)

Section InvalidPattern.

Variable StringToNumber : string → option Z.
Variable RegExp : string → option (string → bool).

Lemma rFilter_isInbound_invalid F attr w :
  RegExp (regex_pattern F) = None →
  rFilter_isInbound RegExp F attr w =
    (Throw TypeError,
     set_console (console w ++ ["SyntaxError: Invalid regular expression"]) w).
Proof. intros H. unfold rFilter_isInbound, bind. by rewrite H. Qed.

Lemma getProperty_world node property w :
  snd (getProperty node property w) = w.
Proof.
  unfold getProperty. destruct (index node) as [i|]; [|done].
  case_decide; [|done]. unfold bind. rewrite elt_at_spec.
  by destruct (at_index (nodesList w) i).
Qed.

Lemma isNodeInbound_invalid F node w :
  filterType F = REGEX →
  RegExp (regex_pattern F) = None →
  ∃ w', isNodeInbound StringToNumber RegExp F node w = (Throw TypeError, w') ∧
        nodesTree w' = nodesTree w.
Proof.
  intros Ht Hp.
  assert (G : ∀ k : bool → M bool, ∃ w',
    (let* attr := getProperty node (attribute F) in
     let* v := isInbound StringToNumber RegExp F attr in k v) w = (Throw TypeError, w') ∧
    nodesTree w' = nodesTree w).
  { intros k. unfold bind at 1.
    pose proof (getProperty_world node (attribute F) w) as Hw.
    destruct (getProperty node (attribute F) w) as [[attr|e] w0] eqn:Eg;
      simpl in Hw; subst w0.
    - unfold bind, isInbound. rewrite Ht, rFilter_isInbound_invalid by done.
      by eexists.
    - assert (e = TypeError) as ->; [|by eexists].
      unfold getProperty in Eg. destruct (index node); [|done].
      case_decide; [|done]. unfold bind in Eg. rewrite elt_at_spec in Eg.
      destruct (at_index _ _); by inversion Eg. }
  unfold isNodeInbound. destruct (includeNeighbors F).
  - apply G.
  - unfold Filter_isNodeInbound.
    destruct (G ret) as (w' & H & Hw). exists w'. split; [|done].
    rewrite <- H. unfold bind. destruct (getProperty _ _ _) as [[?|?] ?]; [|done].
    by destruct (isInbound _ _ _ _ _) as [[?|?] ?].
Qed.

(** C5, what the code does.  When the pattern of a pattern filter does not
    compile, [isInbound] logs the error and then throws a [TypeError] (it
    calls [test] on [undefined]); [filterNodes] therefore always ends with
    that [TypeError] reaching its caller, and the hierarchy is as before. *)
Theorem filterNodes_invalid_pattern_throws (F : Filter) (w : World) :
  filterType F = REGEX →
  RegExp (regex_pattern F) = None →
  (∀ attr w0, rFilter_isInbound RegExp F attr w0 =
     (Throw TypeError,
      set_console (console w0 ++ ["SyntaxError: Invalid regular expression"]) w0)) ∧
  ∃ w', filterNodes StringToNumber RegExp F w = (Throw TypeError, w') ∧
        nodesTree w' = nodesTree w.
Proof.
  intros Ht Hp. split; [intros; by apply rFilter_isInbound_invalid|].
  unfold filterNodes, getSubArrayOfSortedNodes. rewrite bind_gets, bind_defined.
  destruct (getSubArray _ _ _) as [sub|] eqn:Es; [|by eexists].
  assert (Hsub : ∃ i rest, sub = i :: rest ∧
            elt_type <$> nodesList w !! i = Some (layer F)).
  { clear -Es. induction (layer_sorted_nodes w) as [|i l IH]; [done|].
    simpl in Es. case_decide; [|by apply IH]. inversion Es. by eexists _, _. }
  destruct Hsub as (i & rest & -> & Hi). simpl.
  assert (G : ∃ w', filterNodes_body StringToNumber RegExp F i w = (Throw TypeError, w') ∧
                    nodesTree w' = nodesTree w).
  2:{ destruct G as (w' & G & ?). exists w'. by rewrite (bind_Throw _ _ _ _ _ G). }
  unfold filterNodes_body. rewrite bind_gets, bind_defined.
  destruct (nodesList w !! i) as [e|]; [|by simpl in Hi]. simpl in Hi. injection Hi as Hty.
  destruct (getNodeByName_spec (elt_nodeName e) w) as (wa & Hga & Hta & _).
  assert (Hres : ∀ x, resolve (nodesTree w) (elt_nodeName e) = Throw x → x = TypeError).
  { intros x. unfold resolve, child_of. simpl.
    repeat (case_match; simplify_eq/=; try done); congruence. }
  destruct (resolve _ _) as [x|ex] eqn:Er.
  2:{ rewrite (bind_Throw _ _ _ _ _ Hga), (Hres ex eq_refl). by eexists. }
  rewrite (bind_Ok _ _ _ _ _ Hga), decide_True by done.
  unfold filterNodes_target. rewrite <- Hta.
  destruct x as [r|]; [|by eexists].
  pose proof (node_at_spec (Some r) wa) as Hn.
  simpl in Hn. destruct (deref (nodesTree wa) r) as [node|] eqn:En.
  2:{ rewrite (bind_Throw _ _ _ _ _ Hn). by eexists. }
  rewrite (bind_Ok _ _ _ _ _ Hn), bind_defined.
  destruct (isNodeInbound_invalid F node wa Ht Hp) as (wb & Hb & Htb).
  destruct (filtered node); simpl.
  - rewrite bind_ret, bind_assoc, (bind_Throw _ _ _ _ _ Hb). by exists wb.
  - rewrite bind_assoc, (bind_Throw _ _ _ _ _ Hb). by exists wb.
Qed.

End InvalidPattern.

Lemma filterNodes_invalid_pattern_throws_witness :
  ∃ w', filterNodes ex_StringToNumber ex_RegExp (ex_nameFilter "(") ex_world
          = (Throw TypeError, w') ∧
        nodesTree w' = nodesTree ex_world.
Proof.
  apply (filterNodes_invalid_pattern_throws ex_StringToNumber ex_RegExp
           (ex_nameFilter "(") ex_world); reflexivity.
Defined.

(** ** Frames *)

Lemma preserves_ret {A} P (a : A) : (∀ w, P w w) → preserves P (ret a).
Proof. intros H w. apply H. Qed.

Lemma preserves_throw {A} P e : (∀ w, P w w) → preserves P (throw e : M A).
Proof. intros H w. apply H. Qed.

Lemma preserves_gets {A} P (f : World → A) : (∀ w, P w w) → preserves P (gets f).
Proof. intros H w. apply H. Qed.

Lemma preserves_defined {A} P (x : option A) : (∀ w, P w w) → preserves P (defined x).
Proof. intros H w. destruct x; apply H. Qed.

Lemma preserves_modify P f : (∀ w, P w (f w)) → preserves P (modify f).
Proof. intros H w. apply H. Qed.

Lemma preserves_bind {A B} P (m : M A) (k : A → M B) :
  (∀ w1 w2 w3, P w1 w2 → P w2 w3 → P w1 w3) →
  preserves P m → (∀ a, preserves P (k a)) → preserves P (bind m k).
Proof.
  intros Htr Hm Hk w. apply post_bind. eapply post_mono; [apply Hm|].
  intros [a|e] w1 H1; [|done]. eapply post_mono; [apply Hk|].
  intros r w2 H2. by eapply Htr.
Qed.

Lemma preserves_forEach {A} P (l : list A) body :
  (∀ w, P w w) → (∀ w1 w2 w3, P w1 w2 → P w2 w3 → P w1 w3) →
  (∀ x, preserves P (body x)) → preserves P (forEach l body).
Proof.
  intros Hr Htr Hb. induction l as [|x l IH]; simpl.
  - by apply preserves_ret.
  - apply preserves_bind; auto.
Qed.

Lemma preserves_if {A} P (b : bool) (m1 m2 : M A) :
  preserves P m1 → preserves P m2 → preserves P (if b then m1 else m2).
Proof. by destruct b. Qed.

Lemma tree_kept_refl w : tree_kept w w.
Proof. done. Qed.

Lemma tree_kept_trans w1 w2 w3 : tree_kept w1 w2 → tree_kept w2 w3 → tree_kept w1 w3.
Proof. unfold tree_kept. congruence. Qed.

Lemma lists_kept_refl w : lists_kept w w.
Proof. done. Qed.

Lemma lists_kept_trans w1 w2 w3 : lists_kept w1 w2 → lists_kept w2 w3 → lists_kept w1 w3.
Proof. unfold lists_kept. intros [] []. split; congruence. Qed.

(** Proves that a method built from the primitives keeps a relation that is
    reflexive and transitive; [leaf] closes the goals of the [modify]s, and
    hypotheses about the methods called are used as they are. *)
Ltac frame_using refl trans leaf :=
  repeat first
    [ assumption
    | match goal with
      | H : ∀ _, preserves _ _ |- _ => apply H
      | H : ∀ _ _, preserves _ _ |- _ => apply H
      | H : ∀ _ _ _, preserves _ _ |- _ => apply H
      end
    | apply preserves_ret; exact refl
    | apply preserves_throw; exact refl
    | apply preserves_gets; exact refl
    | apply preserves_defined; exact refl
    | apply preserves_modify; intros ?; leaf
    | apply preserves_bind; [exact trans | | intros ?]
    | apply preserves_forEach; [exact refl | exact trans | intros ?]
    | apply preserves_if
    | progress (cbv zeta)
    | match goal with
      | |- preserves _ (match ?x with _ => _ end) => destruct x
      end ].

Ltac frame_with refl trans := frame_using refl trans ltac:(done).

Lemma getNodeByName_tree name : preserves tree_kept (getNodeByName name).
Proof.
  intros w. unfold post.
  by destruct (getNodeByName_spec name w) as (w' & -> & Ht & _).
Qed.

Lemma getNodeByName_lists name : preserves lists_kept (getNodeByName name).
Proof.
  intros w. unfold post.
  destruct (getNodeByName_spec name w)
    as (w' & -> & _ & ? & _ & _ & _ & _ & _ & ? & _). by split.
Qed.

Lemma node_at_keeps P x : (∀ w, P w w) → preserves P (node_at x).
Proof. intros H w. unfold post. rewrite node_at_spec. apply H. Qed.

Lemma elt_at_keeps P i : (∀ w, P w w) → preserves P (elt_at i).
Proof. intros H w. unfold post. rewrite elt_at_spec. apply H. Qed.

Section FilterSteps.

Variable StringToNumber : string → option Z.
Variable RegExp : string → option (string → bool).

Lemma isInbound_keeps P F attr :
  (∀ w, P w w) → (∀ w c, P w (set_console c w)) →
  preserves P (isInbound StringToNumber RegExp F attr).
Proof.
  intros Hr Hc w. unfold post, isInbound. destruct (filterType F); [apply Hr|].
  unfold rFilter_isInbound, bind, console_log, modify.
  destruct (RegExp (regex_pattern F)); simpl; [apply Hr|apply Hc].
Qed.

Lemma getProperty_keeps P node property :
  (∀ w, P w w) → preserves P (getProperty node property).
Proof. intros H w. unfold post. rewrite getProperty_world. apply H. Qed.

Lemma isNodeInbound_keeps P F node :
  (∀ w, P w w) → (∀ w1 w2 w3, P w1 w2 → P w2 w3 → P w1 w3) →
  (∀ w c, P w (set_console c w)) →
  preserves P (isNodeInbound StringToNumber RegExp F node).
Proof.
  intros Hr Htr Hc. unfold isNodeInbound.
  assert (Hi : ∀ attr, preserves P (isInbound StringToNumber RegExp F attr))
    by (intros; by apply isInbound_keeps).
  assert (Hg : ∀ p, preserves P (getProperty node p))
    by (intros; by apply getProperty_keeps).
  assert (He : ∀ i, preserves P (elt_at i)) by (intros; by apply elt_at_keeps).
  destruct (includeNeighbors F).
  - unfold isNodeInboundIncludeNeighbors.
    apply preserves_bind; [done|apply Hg|intros attr].
    apply preserves_bind; [done|apply Hi|intros [|]]; [by apply preserves_ret|].
    apply preserves_bind; [done|by apply preserves_defined|intros i].
    apply preserves_bind; [done|apply He|intros e].
    induction (dict_keys (elt_neighbors e)) as [|each ns IH]; [by apply preserves_ret|].
    apply preserves_bind; [done|apply He|intros n].
    apply preserves_bind; [done|apply Hi|intros [|]]; [by apply preserves_ret|apply IH].
  - unfold Filter_isNodeInbound. apply preserves_bind; [done|apply Hg|intros attr]. apply Hi.
Qed.

Lemma isNodeInbound_tree F node :
  preserves tree_kept (isNodeInbound StringToNumber RegExp F node).
Proof. apply isNodeInbound_keeps; [done|apply tree_kept_trans|done]. Qed.

Lemma isNodeInbound_lists F node :
  preserves lists_kept (isNodeInbound StringToNumber RegExp F node).
Proof. apply isNodeInbound_keeps; [done|apply lists_kept_trans|done]. Qed.

(** What the target branch can do to the hierarchy. *)
Lemma filterNodes_target_spec F x w :
  post (filterNodes_target StringToNumber RegExp F x) w (fun _ w' =>
    lists_kept w w' ∧
    (nodesTree w' = nodesTree w ∨
     ∃ r node, x = Some r ∧ deref (nodesTree w) r = Some node ∧
       ((filtered node = false ∧ filteredBy node = None ∧
         nodesTree w' = update_at r (target_out (label F)) (nodesTree w)) ∨
        (filtered node = true ∧ filteredBy node = Some (label F) ∧
         nodesTree w' = update_at r (target_in (label F)) (nodesTree w))))).
Proof.
  unfold filterNodes_target. apply post_bind. unfold post at 1.
  rewrite node_at_spec. destruct x as [r|]; simpl; [|by split; [|left]].
  destruct (deref (nodesTree w) r) as [node|] eqn:En; simpl; [|by split; [|left]].
  apply post_bind, post_ret. apply post_bind.
  assert (Hin : ∀ (k : bool → M bool) Q,
    (∀ b w1, lists_kept w w1 → tree_kept w w1 → post (k b) w1 Q) →
    (∀ e w1, lists_kept w w1 → tree_kept w w1 → Q (Throw e) w1) →
    post (bind (isNodeInbound StringToNumber RegExp F node) k) w Q).
  { intros k Q Hk He. apply post_bind.
    pose proof (isNodeInbound_tree F node w) as H1.
    pose proof (isNodeInbound_lists F node w) as H2. unfold post in *.
    destruct (isNodeInbound _ _ _ _ w) as [[b|e] w1]; simpl in *; auto. }
  destruct (filtered node) eqn:Ef; simpl.
  - apply post_ret. apply post_bind, Hin.
    2:{ intros e w1 Hl Ht. split; [done|by left]. }
    intros b w1 Hl Ht. apply post_ret.
    destruct (b && bool_decide (filteredBy node = Some (label F))) eqn:Eb.
    + apply andb_prop in Eb as [_ Eb%bool_decide_eq_true].
      apply post_modify. simpl. split; [done|]. right. exists r, node.
      rewrite Ht. repeat split; try done. right. done.
    + apply post_ret. split; [done|by left].
  - apply Hin.
    2:{ intros e w1 Hl Ht. split; [done|by left]. }
    intros b w1 Hl Ht. apply post_ret.
    destruct (negb b && bool_decide (filteredBy node = None)) eqn:Eb.
    + apply andb_prop in Eb as [_ Eb%bool_decide_eq_true].
      apply post_modify. simpl. split; [done|]. right. exists r, node.
      rewrite Ht. repeat split; try done. left. done.
    + apply post_bind, post_ret, post_ret. split; [done|by left].
Qed.

End FilterSteps.

(** What the ancestor branch does. *)
Lemma filterNodes_ancestor_spec F x w :
  post (filterNodes_ancestor F x) w (fun res w' =>
    lists_kept w w' ∧
    match res with
    | Ok _ => ∃ r, x = Some r ∧ is_Some (deref (nodesTree w) r) ∧
                   nodesTree w' = ancestor_update (label F) r (nodesTree w)
    | Throw _ => nodesTree w' = nodesTree w
    end).
Proof.
  unfold filterNodes_ancestor. apply post_bind. unfold post at 1.
  rewrite node_at_spec. destruct x as [r|]; simpl; [|done].
  destruct (deref (nodesTree w) r) as [node|] eqn:En; simpl; [|done].
  apply post_bind, post_ret.
  assert (Hfin : ∀ w', lists_kept w w' →
            nodesTree w' = ancestor_update (label F) r (nodesTree w) →
            lists_kept w w' ∧ ∃ r0, Some r = Some r0 ∧
              is_Some (deref (nodesTree w) r0) ∧
              nodesTree w' = ancestor_update (label F) r0 (nodesTree w)).
  { intros w' Hl Ht. split; [done|]. exists r. rewrite En. eauto. }
  unfold ancestor_update in Hfin. rewrite En in Hfin.
  destruct (negb (filtered node) && areChildrenFilteredOut node).
  { apply post_modify. by apply Hfin. }
  destruct (filtered node && negb (areChildrenFilteredOut node)).
  { apply post_modify. by apply Hfin. }
  apply post_ret. by apply Hfin.
Qed.

(** ** Ownership *)

Lemma same_shape_target_out label n : same_shape n (target_out label n).
Proof.
  unfold target_out. set (m := markNode label (filterOut n)).
  assert (Hm : same_shape n m).
  { apply same_shape_children. subst m. unfold filterOut. by destruct (filtered n). }
  destruct (hasChildren m); [|done].
  eapply same_shape_trans; [done|apply same_shape_filterOutRecursive].
Qed.

Lemma same_shape_target_in label n : same_shape n (target_in label n).
Proof.
  unfold target_in. set (m := unmarkNode (filterIn n)).
  assert (Hm : same_shape n m).
  { apply same_shape_children. subst m. unfold filterIn. by destruct (filtered n). }
  destruct (hasChildren m); [|done].
  eapply same_shape_trans; [done|apply same_shape_filterInRecursive].
Qed.

Lemma same_shape_ancestor_out label n : same_shape n (ancestor_out label n).
Proof.
  apply same_shape_children. unfold ancestor_out, filterOut. by destruct (filtered n).
Qed.

Lemma same_shape_ancestor_in n : same_shape n (ancestor_in n).
Proof.
  apply same_shape_children. unfold ancestor_in, filterIn. by destruct (filtered n).
Qed.

Lemma same_shape_ancestor_update label r t : same_shape t (ancestor_update label r t).
Proof.
  unfold ancestor_update. destruct (deref t r) as [node|]; [|done].
  destruct (_ && _); [apply same_shape_update_at, same_shape_ancestor_out|].
  destruct (_ && _); [apply same_shape_update_at, same_shape_ancestor_in|done].
Qed.

Lemma children_filterOut_mark label n :
  children (markNode label (filterOut n)) = children n.
Proof. unfold filterOut. by destruct (filtered n). Qed.

Lemma children_filterIn_unmark n : children (unmarkNode (filterIn n)) = children n.
Proof. unfold filterIn. by destruct (filtered n). Qed.

(** Below the node it is applied to, [target_out] is [filterOutRecursive]
    and [target_in] is [filterInRecursive]. *)
Lemma deref_target_out label n p :
  p ≠ [] → deref (target_out label n) p = deref (filterOutRecursive label n) p.
Proof.
  intros Hp. unfold target_out. set (m := markNode label (filterOut n)).
  assert (Hc : children m = children n) by apply children_filterOut_mark.
  assert (Hd : deref (filterOutRecursive label m) p = deref (filterOutRecursive label n) p).
  { apply deref_children; [done|]. by rewrite !filterOutRecursive_children, Hc. }
  unfold hasChildren. destruct (children m) as [cs|] eqn:Em; [done|].
  rewrite <- Hd. apply deref_children; [done|].
  by rewrite filterOutRecursive_children, Em.
Qed.

Lemma deref_target_in label n p :
  p ≠ [] → deref (target_in label n) p = deref (filterInRecursive label n) p.
Proof.
  intros Hp. unfold target_in. set (m := unmarkNode (filterIn n)).
  assert (Hc : children m = children n) by apply children_filterIn_unmark.
  assert (Hd : deref (filterInRecursive label m) p = deref (filterInRecursive label n) p).
  { apply deref_children; [done|]. by rewrite !filterInRecursive_children, Hc. }
  unfold hasChildren. destruct (children m) as [cs|] eqn:Em; [done|].
  rewrite <- Hd. apply deref_children; [done|].
  by rewrite filterInRecursive_children, Em.
Qed.

(** The two mutations of the target branch leave alone what they do not own:
    a node that stays filtered unless it carries the filter's label, and a
    node labelled by another filter keeps label and state. *)
Lemma target_update_other label r t node q N (b : bool) :
  deref t r = Some node →
  (if b then filtered node = false ∧ filteredBy node = None
   else filtered node = true ∧ filteredBy node = Some label) →
  deref t q = Some N →
  let t' := update_at r (if b then target_out label else target_in label) t in
  ∃ N', deref t' q = Some N' ∧
        (filtered N = true → filteredBy N ≠ Some label → filtered N' = true) ∧
        (∀ l', filteredBy N = Some l' → l' ≠ label →
               filtered N' = filtered N ∧ filteredBy N' = filteredBy N).
Proof.
  intros Hr Hnode HN t'. subst t'.
  destruct (decide (r `prefix_of` q)) as [[p ->]|Hrq].
  - rewrite (deref_update_at_below _ _ _ _ _ Hr).
    rewrite deref_app, Hr in HN. destruct p as [|k p].
    + simpl in HN. injection HN as <-. destruct b; destruct Hnode as [Hf Hb].
      * eexists; split; [done|]. split; [congruence|]. intros l'. congruence.
      * eexists; split; [done|]. split; [congruence|]. intros l'. congruence.
    + destruct b.
      * rewrite deref_target_out, filterOutRecursive_deref_full, HN by done.
        cbn [fmap option_fmap option_map].
        destruct (unowned_path node (k :: p)) eqn:Eu; [|by exists N].
        eexists; split; [done|]. simpl. rewrite filtered_filterOut.
        split; [done|]. intros l' Hl'.
        by rewrite (unowned_path_end node (k :: p) N ltac:(done) HN Eu) in Hl'.
      * rewrite deref_target_in, filterInRecursive_deref_full, HN by done.
        cbn [fmap option_fmap option_map].
        destruct (labelled_path label node (k :: p)) eqn:Eu; [|by exists N].
        pose proof (labelled_path_end label node (k :: p) N ltac:(done) HN Eu) as Hlab.
        eexists; split; [done|]. split; [done|]. intros l'. congruence.
  - destruct (deref_update_at_fields r (if b then target_out label else target_in label)
                q t N Hrq HN) as (N' & -> & _ & Hf & Hb & _).
    exists N'. split; [done|]. rewrite Hf, Hb. done.
Qed.

(** The ancestor branch changes nothing but the two fields of the node it is
    applied to. *)
Lemma ancestor_update_other label r t q N :
  q ≠ r →
  deref t q = Some N →
  ∃ N', deref (ancestor_update label r t) q = Some N' ∧
        filtered N' = filtered N ∧ filteredBy N' = filteredBy N ∧
        (¬ q `prefix_of` r → N' = N).
Proof.
  intros Hqr HN. unfold ancestor_update.
  destruct (deref t r) as [node|] eqn:Er; [|by exists N].
  assert (G : ∀ f, (∀ n, children (f n) = children n) →
            ∃ N', deref (update_at r f t) q = Some N' ∧
                  filtered N' = filtered N ∧ filteredBy N' = filteredBy N ∧
                  (¬ q `prefix_of` r → N' = N)).
  { intros f Hf. destruct (decide (r `prefix_of` q)) as [[p ->]|Hrq].
    - rewrite (deref_update_at_below _ _ _ _ _ Er).
      rewrite deref_app, Er in HN. destruct p as [|k p].
      + by rewrite app_nil_r in Hqr.
      + rewrite (deref_children _ node) by done. by exists N.
    - destruct (decide (q `prefix_of` r)) as [Hp|Hp].
      + destruct (deref_update_at_fields r f q t N Hrq HN) as (N' & -> & _ & ? & ? & _).
        by exists N'.
      + rewrite deref_update_at_disjoint by done. by exists N. }
  destruct (_ && _); [apply G; intros; apply children_filterOut_mark|].
  destruct (_ && _); [apply G; intros; apply children_filterIn_unmark|by exists N].
Qed.

Lemma elem_of_ancestor_records F w sub i e :
  getSubArray (fun i => elt_type <$> nodesList w !! i)
    (layer_sorted_nodes w) (layer F) = Some sub →
  i ∈ sub → nodesList w !! i = Some e → elt_type e ≠ layer F →
  e ∈ ancestor_records F w.
Proof.
  intros Hs Hi He Ht. unfold ancestor_records. rewrite Hs.
  apply list_elem_of_filter. split; [done|].
  apply list_elem_of_omap. by exists i.
Qed.

Section Ownership.

Variable StringToNumber : string → option Z.
Variable RegExp : string → option (string → bool).

(** One turn of the loop of [filterNodes] keeps the state of a node that
    another filter owns and that the ancestor branch does not handle. *)
Lemma filterNodes_body_owner F w0 sub q N l' :
  getSubArray (fun i => elt_type <$> nodesList w0 !! i)
    (layer_sorted_nodes w0) (layer F) = Some sub →
  filteredBy N = Some l' → l' ≠ label F →
  (∀ e, e ∈ ancestor_records F w0 →
        resolve (nodesTree w0) (elt_nodeName e) ≠ Ok (Some q)) →
  let I := fun w => lists_kept w0 w ∧ same_shape (nodesTree w0) (nodesTree w) ∧
             ∃ N', deref (nodesTree w) q = Some N' ∧
                   filtered N' = filtered N ∧ filteredBy N' = filteredBy N in
  ∀ i w, i ∈ sub → I w →
    post (filterNodes_body StringToNumber RegExp F i) w (fun _ w' => I w').
Proof.
  intros Hsub Hown Hne Hanc I i w Hi (Hl & Hsh & N' & HN' & Hf & Hb).
  unfold filterNodes_body. apply post_bind, post_gets.
  destruct Hl as [Hl1 Hl2]. rewrite Hl1.
  destruct (nodesList w0 !! i) as [e|] eqn:Ee; [|by repeat split; eauto].
  apply post_bind, post_ret, post_bind. unfold post at 1.
  destruct (getNodeByName_spec (elt_nodeName e) w)
    as (wa & -> & Hta & Hla & _ & _ & _ & _ & _ & Hsa & _).
  simpl. rewrite <- (resolve_shape _ _ _ Hsh).
  assert (Ia : I wa).
  { split; [split; congruence|]. rewrite Hta. eauto. }
  destruct (resolve (nodesTree w0) (elt_nodeName e)) as [x|ex] eqn:Er; [|done].
  case_decide as Hty.
  - eapply post_mono; [apply filterNodes_target_spec|].
    intros res w' [Hl' Ht']. simpl in Ht'.
    split; [eapply lists_kept_trans; [apply Ia|done]|].
    destruct Ht' as [Ht'|(r & node & -> & Hr & Ht')].
    { rewrite Ht', Hta. eauto. }
    rewrite Hta in Hr, Ht'.
    assert (G : ∀ b : bool,
      (if b then filtered node = false ∧ filteredBy node = None
       else filtered node = true ∧ filteredBy node = Some (label F)) →
      nodesTree w' = update_at r (if b then target_out (label F) else target_in (label F))
                       (nodesTree w) →
      same_shape (nodesTree w0) (nodesTree w') ∧
      ∃ N'', deref (nodesTree w') q = Some N'' ∧
             filtered N'' = filtered N ∧ filteredBy N'' = filteredBy N).
    { intros b Hb' ->. split.
      - eapply same_shape_trans; [done|]. apply same_shape_update_at.
        destruct b; [apply same_shape_target_out|apply same_shape_target_in].
      - destruct (target_update_other (label F) r (nodesTree w) node q N' b Hr Hb' HN')
          as (N'' & HN'' & _ & Hk).
        exists N''. split; [done|]. rewrite <- Hf, <- Hb.
        apply (Hk l'); congruence. }
    destruct Ht' as [(? & ? & Ht')|(? & ? & Ht')];
      [by apply (G true)|by apply (G false)].
  - eapply post_mono; [apply filterNodes_ancestor_spec|].
    intros res w' [Hl' Ht'].
    split; [eapply lists_kept_trans; [apply Ia|done]|].
    destruct res as [[]|ex]; [|rewrite Ht', Hta; eauto].
    destruct Ht' as (r & -> & _ & ->). rewrite Hta. split.
    + eapply same_shape_trans; [done|apply same_shape_ancestor_update].
    + assert (q ≠ r).
      { intros <-. by apply (Hanc e); [eapply elem_of_ancestor_records|]. }
      destruct (ancestor_update_other (label F) r (nodesTree w) q N' ltac:(done) HN')
        as (N'' & ? & ? & ? & _).
      exists N''. split; [done|]. split; congruence.
Qed.

Lemma filterNodes_owner F w q N l' :
  deref (nodesTree w) q = Some N →
  filteredBy N = Some l' → l' ≠ label F →
  (∀ e, e ∈ ancestor_records F w →
        resolve (nodesTree w) (elt_nodeName e) ≠ Ok (Some q)) →
  ∃ N', deref (nodesTree (snd (filterNodes StringToNumber RegExp F w))) q = Some N' ∧
        filtered N' = filtered N ∧ filteredBy N' = filteredBy N.
Proof.
  intros HN Hown Hne Hanc.
  change (post (filterNodes StringToNumber RegExp F) w (fun _ w' =>
            ∃ N', deref (nodesTree w') q = Some N' ∧
                  filtered N' = filtered N ∧ filteredBy N' = filteredBy N)).
  unfold filterNodes. apply post_bind, post_gets.
  destruct (getSubArray _ _ _) as [sub|] eqn:Hsub; [|by exists N].
  apply post_bind, post_ret. eapply post_mono.
  - apply (forEach_invariant (fun w' =>
      lists_kept w w' ∧ same_shape (nodesTree w) (nodesTree w') ∧
      ∃ N', deref (nodesTree w') q = Some N' ∧
            filtered N' = filtered N ∧ filteredBy N' = filteredBy N)).
    + intros i w1 Hi. by eapply (filterNodes_body_owner F w sub q N l').
    + repeat split; try done. by exists N.
  - by intros _ w' (_ & _ & H).
Qed.

(** A step of the target branch never turns a filtered node into an
    unfiltered one unless that node carries the filter's label. *)
Lemma filterNodes_target_filters_in_own F x w q N :
  deref (nodesTree w) q = Some N →
  filtered N = true → filteredBy N ≠ Some (label F) →
  ∃ N', deref (nodesTree (snd (filterNodes_target StringToNumber RegExp F x w))) q = Some N' ∧
        filtered N' = true.
Proof.
  intros HN Hf Hb.
  pose proof (filterNodes_target_spec StringToNumber RegExp F x w) as H.
  unfold post in H. destruct H as [_ [->|(r & node & -> & Hr & H)]]; [by exists N|].
  assert (G : ∀ b : bool,
    (if b then filtered node = false ∧ filteredBy node = None
     else filtered node = true ∧ filteredBy node = Some (label F)) →
    ∃ N', deref (update_at r (if b then target_out (label F) else target_in (label F))
                   (nodesTree w)) q = Some N' ∧ filtered N' = true).
  { intros b Hb'.
    destruct (target_update_other (label F) r (nodesTree w) node q N b Hr Hb' HN)
      as (N' & HN' & Hk & _). exists N'. split; [done|]. by apply Hk. }
  destruct H as [(? & ? & ->)|(? & ? & ->)]; [by apply (G true)|by apply (G false)].
Qed.

(** [filterLinks] does not touch the hierarchy. *)
Lemma filterLinks_tree F : preserves tree_kept (filterLinks StringToNumber RegExp F).
Proof.
  assert (Hin : ∀ attr, preserves tree_kept (isInbound StringToNumber RegExp F attr)).
  { intros. by apply isInbound_keeps. }
  assert (Hidx : ∀ i, preserves tree_kept (getNodeByIndex i)).
  { intros i. unfold getNodeByIndex.
    apply preserves_bind; [apply tree_kept_trans|by apply elt_at_keeps|intros e].
    apply getNodeByName_tree. }
  assert (Hfrom : ∀ link tis ns, preserves tree_kept (linkChildren_from link tis ns)).
  { intros link tis ns. induction ns as [|[tgt li] ns IHn]; simpl; [by apply preserves_ret|].
    frame_with tree_kept_refl tree_kept_trans. }
  assert (Hscan : ∀ link tis srcs, preserves tree_kept (linkChildren_scan link tis srcs)).
  { intros link tis srcs. induction srcs as [|src srcs IH]; simpl; [by apply preserves_ret|].
    apply preserves_bind; [apply tree_kept_trans|by apply preserves_defined|intros i].
    apply preserves_bind; [apply tree_kept_trans|by apply elt_at_keeps|intros e].
    apply preserves_bind; [apply tree_kept_trans|apply Hfrom|intros here].
    apply preserves_bind; [apply tree_kept_trans|apply IH|intros].
    by apply preserves_ret. }
  assert (Hch : ∀ link, preserves tree_kept (getLinkChildren link)).
  { intros link. unfold getLinkChildren.
    apply preserves_bind; [apply tree_kept_trans|apply Hidx|intros s].
    apply preserves_bind; [apply tree_kept_trans|by apply node_at_keeps|intros sn].
    apply preserves_bind; [apply tree_kept_trans|apply Hidx|intros t].
    apply preserves_bind; [apply tree_kept_trans|by apply node_at_keeps|intros tn].
    apply Hscan. }
  assert (Hall : ∀ link, preserves tree_kept (areLinkChildrenFilteredOut link)).
  { intros link. unfold areLinkChildrenFilteredOut.
    frame_with tree_kept_refl tree_kept_trans. }
  unfold filterLinks.
  apply preserves_bind; [apply tree_kept_trans| |intros sub].
  { unfold getSubArrayOfSortedLinks. frame_with tree_kept_refl tree_kept_trans. }
  apply preserves_bind; [apply tree_kept_trans|by apply preserves_defined|intros sub'].
  apply preserves_forEach; [done|apply tree_kept_trans|intros li].
  unfold filterLinks_body, isLinkInbound, set_link_filter.
  frame_with tree_kept_refl tree_kept_trans.
Qed.

(** C1, as the code has it.  Let [N] be a node of the hierarchy and [F] a
    filter.  (a) A step of the target branch of [F]'s [filterNodes] never
    turns [N] from filtered to unfiltered unless [N.filteredBy] is [F]'s
    label.  (b) If [N] is labelled by another filter and is not one of the
    nodes the ancestor branch of this pass handles (the records in the sorted
    window whose layer is not [F]'s), then a whole pass of [F]'s
    [filterNodes] leaves [N.filtered] and [N.filteredBy] as they were,
    however the pass ends.  (c) [filterLinks] never changes the hierarchy. *)
Theorem filter_ownership (F : Filter) (w : World) (q : ref) (N : Node) :
  deref (nodesTree w) q = Some N →
  (∀ x, filtered N = true → filteredBy N ≠ Some (label F) →
     ∃ N', deref (nodesTree (snd (filterNodes_target StringToNumber RegExp F x w))) q
             = Some N' ∧ filtered N' = true) ∧
  (∀ l', filteredBy N = Some l' → l' ≠ label F →
     (∀ e, e ∈ ancestor_records F w →
           resolve (nodesTree w) (elt_nodeName e) ≠ Ok (Some q)) →
     ∃ N', deref (nodesTree (snd (filterNodes StringToNumber RegExp F w))) q = Some N' ∧
           filtered N' = filtered N ∧ filteredBy N' = filteredBy N) ∧
  nodesTree (snd (filterLinks StringToNumber RegExp F w)) = nodesTree w.
Proof.
  intros HN. split; [|split].
  - intros x. by apply filterNodes_target_filters_in_own.
  - intros l'. by apply filterNodes_owner.
  - apply (filterLinks_tree F w).
Qed.

End Ownership.

Lemma filter_ownership_witness :
  ∃ N', deref (nodesTree (snd (filterNodes ex_StringToNumber ex_RegExp
                                  (ex_capFilter 0 10) ex_world_cap_util)))
          ["A"; "p1"; "r2"] = Some N' ∧
        filtered N' = true ∧ filteredBy N' = Some "router_utilization".
Proof.
  pose (N := mkNode (Some 6) "r2" true (Some "router_utilization") None 0).
  assert (HN : deref (nodesTree ex_world_cap_util) ["A"; "p1"; "r2"] = Some N)
    by (vm_compute; reflexivity).
  destruct (filter_ownership ex_StringToNumber ex_RegExp (ex_capFilter 0 10)
              ex_world_cap_util ["A"; "p1"; "r2"] N HN) as (_ & Hb & _).
  apply (Hb "router_utilization"); [reflexivity | vm_compute; discriminate |].
  intros e He.
  assert (Hall : Forall (fun e => resolve (nodesTree ex_world_cap_util) (elt_nodeName e)
                                    ≠ Ok (Some ["A"; "p1"; "r2"]))
                   (ancestor_records (ex_capFilter 0 10) ex_world_cap_util)).
  { vm_compute ancestor_records.
    repeat (constructor; [vm_compute; discriminate|]). constructor. }
  by apply (proj1 (Forall_forall _ _) Hall).
Defined.

(** C1 as stated fails.  In the example the pop [A_p1] is filtered out and
    labelled by the utilization filter; a later pass of the capacity filter,
    which has another label, filters in its own router [r1] and then, in the
    ancestor branch, filters the pop in as well. *)
Lemma filterNodes_releases_foreign_ancestor :
  let F1 := ex_utilFilter 0 5 in
  let F2 := ex_capFilter 0 10 in
  let pop1 := ["A"; "p1"] in
  ∃ N N',
    label F1 ≠ label F2 ∧
    deref (nodesTree ex_world_cap_util) pop1 = Some N ∧
    filtered N = true ∧ filteredBy N = Some (label F1) ∧
    filterNodes ex_StringToNumber ex_RegExp F2 ex_world_cap_util
      = (Ok tt, snd (filterNodes ex_StringToNumber ex_RegExp F2 ex_world_cap_util)) ∧
    deref (nodesTree (snd (filterNodes ex_StringToNumber ex_RegExp F2 ex_world_cap_util)))
      pop1 = Some N' ∧
    filtered N' = false.
Proof.
  intros F1 F2 pop1.
  eexists (mkNode (Some 2) "p1" true (Some "router_utilization") _ 2),
          (mkNode (Some 2) "p1" false None _ 2).
  split; [vm_compute; discriminate|].
  split; [vm_compute; reflexivity|].
  split; [reflexivity|]. split; [reflexivity|].
  split; [vm_compute; reflexivity|].
  split; [vm_compute; reflexivity|reflexivity].
Qed.

(** ** The sorted snapshot *)

Section Sort.

Context {A : Type} (cmp : A → A → option Z) (k : A → Z).

Lemma sort_insert_perm x l : sort_insert cmp x l ≡ₚ x :: l.
Proof.
  induction l as [|y l IH]; simpl; [done|].
  destruct (cmp x y) as [d|]; [|done]. case_decide; [|done].
  rewrite IH. apply Permutation_swap.
Qed.

Lemma sort_perm l : sort cmp l ≡ₚ l.
Proof.
  induction l as [|x l IH]; simpl; [done|].
  unfold sort in *. simpl. by rewrite sort_insert_perm, IH.
Qed.

Lemma sort_insert_sorted x l :
  (∀ y, y ∈ l → cmp x y = Some (k x - k y)%Z) →
  StronglySorted (fun a b => (k a ≤ k b)%Z) l →
  StronglySorted (fun a b => (k a ≤ k b)%Z) (sort_insert cmp x l).
Proof.
  intros Hc Hs. induction Hs as [|y l Hs IH Hy]; simpl.
  - by repeat constructor.
  - rewrite Hc by left. case_decide as Hd.
    + constructor.
      * apply IH. intros z Hz. apply Hc. by right.
      * apply Forall_forall. intros z Hz.
        rewrite sort_insert_perm in Hz. apply elem_of_cons in Hz as [->|Hz]; [lia|].
        by apply (proj1 (Forall_forall (fun b => (k y ≤ k b)%Z) _) Hy).
    + constructor; [by constructor|]. constructor; [lia|].
      apply Forall_forall. intros z Hz.
      pose proof (proj1 (Forall_forall (fun b => (k y ≤ k b)%Z) _) Hy z Hz) as Hyz.
      simpl in Hyz. lia.
Qed.

Lemma sort_sorted l :
  (∀ x y, x ∈ l → y ∈ l → cmp x y = Some (k x - k y)%Z) →
  StronglySorted (fun a b => (k a ≤ k b)%Z) (sort cmp l).
Proof.
  induction l as [|x l IH]; intros Hc; [constructor|].
  change (sort cmp (x :: l)) with (sort_insert cmp x (sort cmp l)).
  apply sort_insert_sorted.
  - intros y Hy. rewrite sort_perm in Hy. apply Hc; [by left|by right].
  - apply IH. intros y z Hy Hz. apply Hc; by right.
Qed.

End Sort.

Lemma layerOrder_depth t d :
  layer_depth t = Some d → layerOrder t = Some (6 - 2 * Z.of_nat d)%Z.
Proof.
  unfold layer_depth, layerOrder. repeat case_decide; subst; try done; by intros [= <-].
Qed.

Lemma layer_depth_rank_inj t t' d d' :
  layer_depth t = Some d → layer_depth t' = Some d' → d = d' → t = t'.
Proof. unfold layer_depth. repeat case_decide; subst; try done; congruence. Qed.

(** In a well-formed world the snapshot holds every position once, in
    ascending layer order. *)
Lemma layer_sorted_nodes_sorted w :
  wf_nodes w →
  StronglySorted (fun i j => (rank (nodesList w) i ≤ rank (nodesList w) j)%Z)
    (layer_sorted_nodes w) ∧
  layer_sorted_nodes w ≡ₚ seq 0 (length (nodesList w)).
Proof.
  intros [Hwf ->]. unfold layer_sorted. split; [|apply sort_perm].
  apply sort_sorted. intros i j Hi Hj.
  apply elem_of_seq in Hi, Hj.
  destruct (lookup_lt_is_Some_2 (nodesList w) i) as [a Ha]; [lia|].
  destruct (lookup_lt_is_Some_2 (nodesList w) j) as [b Hb]; [lia|].
  unfold rank. rewrite Ha, Hb. simpl.
  pose proof (proj1 (Forall_forall _ _) Hwf a (list_elem_of_lookup_2 _ _ _ Ha)) as Hda.
  pose proof (proj1 (Forall_forall _ _) Hwf b (list_elem_of_lookup_2 _ _ _ Hb)) as Hdb.
  unfold sortByLayerFunction.
  by rewrite (layerOrder_depth _ _ Hda), (layerOrder_depth _ _ Hdb).
Qed.

(** The window returned by [getSubArray] is a suffix that starts at the
    first element of the layer. *)
Lemma getSubArray_suffix {A} (type_of : A → option string) array layer sub :
  getSubArray type_of array layer = Some sub →
  ∃ pre x rest, array = pre ++ sub ∧ sub = x :: rest ∧ type_of x = Some layer.
Proof.
  induction array as [|x array IH]; [done|]. simpl. case_decide as Hx.
  - intros [= <-]. by exists [], x, array.
  - intros (pre & y & rest & -> & -> & Hy)%IH. by exists (x :: pre), y, rest.
Qed.

(** ** Bottom-up consistency *)

Lemma resolve_ref t name r :
  resolve t name = Ok (Some r) → r = split underscore name.
Proof.
  unfold resolve, child_of.
  destruct (split underscore name) as [|a0 [|a1 [|a2 [|a3 l]]]]; try done;
    simpl; intros H; repeat (case_match; simplify_eq/=); done.
Qed.

(** The ancestor branch makes the node it is applied to consistent with its
    children. *)
Lemma ancestor_update_establish label r t node :
  deref t r = Some node →
  ∃ A, deref (ancestor_update label r t) r = Some A ∧
       filtered A = areChildrenFilteredOut A.
Proof.
  intros Hr. unfold ancestor_update. rewrite Hr.
  pose proof (deref_update_at_below r [] (ancestor_out label) t node Hr) as Ho.
  pose proof (deref_update_at_below r [] ancestor_in t node Hr) as Hi.
  rewrite app_nil_r in Ho, Hi. simpl in Ho, Hi.
  destruct (filtered node) eqn:Ef, (areChildrenFilteredOut node) eqn:Ec; simpl.
  - exists node. split; [done|congruence].
  - rewrite Hi. eexists; split; [done|]. unfold ancestor_in, filterIn.
    rewrite Ef. simpl. unfold areChildrenFilteredOut in *. simpl. by rewrite Ec.
  - rewrite Ho. eexists; split; [done|]. unfold ancestor_out, filterOut.
    rewrite Ef. simpl. unfold areChildrenFilteredOut in *. simpl. by rewrite Ec.
  - exists node. split; [done|congruence].
Qed.

Lemma areChildrenFilteredOut_iff A :
  areChildrenFilteredOut A = true ↔
  ∀ cs kc, children A = Some cs → kc ∈ cs → filtered (snd kc) = true.
Proof.
  unfold areChildrenFilteredOut. destruct (children A) as [cs|].
  - rewrite forallb_forall. split.
    + intros H cs' kc [= <-] Hkc. apply H. by apply list_elem_of_In.
    + intros H kc Hkc. apply (H cs); [done|]. by apply list_elem_of_In.
  - split; [by intros _ cs kc|done].
Qed.

Section BottomUp.

Variable StringToNumber : string → option Z.
Variable RegExp : string → option (string → bool).

Lemma filterNodes_body_bottom_up F w sub pre x suf w1 w2 :
  Forall (fun e => layer_depth (elt_type e)
                   = Some (length (split underscore (elt_nodeName e)))) (nodesList w) →
  StronglySorted (fun i j => (rank (nodesList w) i ≤ rank (nodesList w) j)%Z) sub →
  (∃ i0 e0, head sub = Some i0 ∧ nodesList w !! i0 = Some e0 ∧ elt_type e0 = layer F) →
  sub = pre ++ x :: suf →
  bottom_up_so_far F w pre w1 →
  filterNodes_body StringToNumber RegExp F x w1 = (Ok tt, w2) →
  bottom_up_so_far F w (pre ++ [x]) w2.
Proof.
  intros Hwf Hsorted (i0 & e0 & Hhead & He0 & Hty0) Hsub ([Hl1 Hl2] & Hsh & Hpre) Hrun.
  unfold filterNodes_body in Hrun. rewrite bind_gets, bind_defined, Hl1 in Hrun.
  destruct (nodesList w !! x) as [ex|] eqn:Ex; [|done].
  destruct (getNodeByName_spec (elt_nodeName ex) w1)
    as (wa & Hga & Hta & Hla & _ & _ & _ & _ & _ & Hsa & _).
  rewrite <- (resolve_shape _ _ _ Hsh) in Hga.
  destruct (resolve (nodesTree w) (elt_nodeName ex)) as [xr|] eqn:Erx;
    [rewrite (bind_Ok _ _ _ _ _ Hga) in Hrun|by rewrite (bind_Throw _ _ _ _ _ Hga) in Hrun].
  (* ranks of the window *)
  assert (Hfrom0 : ∀ i, i ∈ sub →
            (rank (nodesList w) i0 ≤ rank (nodesList w) i)%Z).
  { intros i Hi. destruct sub as [|j rest]; [done|].
    simpl in Hhead. injection Hhead as ->.
    apply StronglySorted_cons in Hsorted as [H _].
    apply elem_of_cons in Hi as [->|Hi]; [lia|].
    by apply (proj1 (Forall_forall _ _) H). }
  assert (Hrank : ∀ i, i ∈ pre →
            (rank (nodesList w) i0 ≤ rank (nodesList w) i)%Z ∧
            (rank (nodesList w) i ≤ rank (nodesList w) x)%Z).
  { intros i Hi. split.
    - apply Hfrom0. rewrite Hsub. apply elem_of_app. by left.
    - rewrite Hsub in Hsorted.
      apply (StronglySorted_app_1_elem_of _ _ _ i x Hsorted); [done|by left]. }
  assert (Hrank0 : (rank (nodesList w) i0 ≤ rank (nodesList w) x)%Z).
  { apply Hfrom0. rewrite Hsub. apply elem_of_app. right. by left. }
  assert (Hdepth : ∀ i e, nodesList w !! i = Some e →
            rank (nodesList w) i
            = (6 - 2 * Z.of_nat (length (split underscore (elt_nodeName e))))%Z ∧
            layer_depth (elt_type e) = Some (length (split underscore (elt_nodeName e)))).
  { intros i e He.
    pose proof (proj1 (Forall_forall _ _) Hwf e (list_elem_of_lookup_2 _ _ _ He)) as Hd.
    unfold rank. rewrite He. simpl. by rewrite (layerOrder_depth _ _ Hd). }
  case_decide as Hty.
  - (* a node of the filter's layer: no other layer has been met yet *)
    pose proof (filterNodes_target_spec StringToNumber RegExp F xr wa) as Hspec.
    unfold post in Hspec. rewrite Hrun in Hspec. simpl in Hspec.
    destruct Hspec as [[Hl1' Hl2'] Ht'].
    split; [split; congruence|]. split.
    + destruct Ht' as [->|(r & node & -> & Hr & [(_ & _ & ->)|(_ & _ & ->)])];
        rewrite Hta; try done.
      * eapply same_shape_trans; [done|].
        apply same_shape_update_at, same_shape_target_out.
      * eapply same_shape_trans; [done|].
        apply same_shape_update_at, same_shape_target_in.
    + intros i e Hi He Hne. exfalso. apply Hne.
      apply elem_of_app in Hi as [Hi|Hi].
      * destruct (Hrank i Hi) as [H1 H2].
        destruct (Hdepth i e He) as [Hri Hdi].
        destruct (Hdepth x ex Ex) as [Hrx Hdx].
        destruct (Hdepth i0 e0 He0) as [Hr0 Hd0].
        rewrite <- Hty. apply (layer_depth_rank_inj _ _ _ _ Hdi Hdx).
        assert (length (split underscore (elt_nodeName e0))
                = length (split underscore (elt_nodeName ex))).
        { rewrite <- Hty0 in Hty. rewrite Hty in Hdx. congruence. }
        lia.
      * apply list_elem_of_singleton in Hi as ->. congruence.
  - (* a node of a coarser layer *)
    pose proof (filterNodes_ancestor_spec F xr wa) as Hspec.
    unfold post in Hspec. rewrite Hrun in Hspec. simpl in Hspec.
    destruct Hspec as [[Hl1' Hl2'] (r & -> & [node Hnode] & Ht')].
    rewrite Hta in Hnode, Ht'.
    assert (Hsh' : same_shape (nodesTree w) (nodesTree w2)).
    { rewrite Ht'. eapply same_shape_trans; [done|apply same_shape_ancestor_update]. }
    split; [split; congruence|]. split; [done|].
    assert (Hest : ∀ e, resolve (nodesTree w) (elt_nodeName e) = Ok (Some r) →
              ∃ r0 A, resolve (nodesTree w2) (elt_nodeName e) = Ok (Some r0) ∧
                      deref (nodesTree w2) r0 = Some A ∧
                      filtered A = areChildrenFilteredOut A).
    { intros e He. exists r. rewrite <- (resolve_shape _ _ _ Hsh'), Ht'.
      destruct (ancestor_update_establish (label F) r (nodesTree w1) node Hnode)
        as (A & HA & HfA). by exists A. }
    intros i e Hi He Hne. apply elem_of_app in Hi as [Hi|Hi].
    + destruct (Hpre i e Hi He Hne) as (ri & Ai & Hri & HAi & HfAi).
      rewrite <- (resolve_shape _ _ _ Hsh) in Hri.
      destruct (decide (ri = r)) as [->|Hrr]; [by apply Hest|].
      exists ri. rewrite <- (resolve_shape _ _ _ Hsh'), Ht'.
      destruct (ancestor_update_other (label F) r (nodesTree w1) ri Ai Hrr HAi)
        as (A' & HA' & _ & _ & Heq).
      exists A'. split; [done|]. split; [done|].
      rewrite Heq; [done|]. intros Hpref.
      destruct (Hrank i Hi) as [_ H2].
      destruct (Hdepth i e He) as [Hr1 _]. destruct (Hdepth x ex Ex) as [Hr2 _].
      apply resolve_ref in Hri, Erx. subst ri r.
      apply Hrr. destruct Hpref as [p Hp].
      assert (p = []) as ->.
      { apply (f_equal length) in Hp. rewrite length_app in Hp.
        destruct p; [done|]. simpl in Hp. lia. }
      by rewrite app_nil_r in Hp.
    + apply list_elem_of_singleton in Hi as ->.
      assert (e = ex) as -> by congruence. by apply Hest.
Qed.

Lemma filterNodes_bottom_up_so_far F w w' sub :
  wf_nodes w →
  getSubArray (fun i => elt_type <$> nodesList w !! i)
    (layer_sorted_nodes w) (layer F) = Some sub →
  filterNodes StringToNumber RegExp F w = (Ok tt, w') →
  bottom_up_so_far F w sub w'.
Proof.
  intros Hwf Hsub Hrun.
  destruct (layer_sorted_nodes_sorted w Hwf) as [Hsorted Hperm].
  destruct (getSubArray_suffix _ _ _ _ Hsub) as (pre0 & i0 & rest & Hs & -> & Hi0).
  unfold filterNodes, getSubArrayOfSortedNodes in Hrun.
  rewrite bind_gets, Hsub, bind_defined in Hrun.
  rewrite Hs in Hsorted. apply StronglySorted_app_1_r in Hsorted.
  destruct (nodesList w !! i0) as [e0|] eqn:He0; [|done]. injection Hi0 as Hi0.
  refine (forEach_Ok_ind (bottom_up_so_far F w) _ _ w w' _ _ Hrun).
  - repeat split; try done. intros i e Hi. by apply elem_of_nil in Hi.
  - intros pre x suf w1 w2 Hsplit Hpre Hbody.
    eapply filterNodes_body_bottom_up; try done; [apply Hwf|].
    by exists i0, e0.
Qed.

(** C2. In a world whose node records are well formed, after a call of
    [filterNodes] of a filter [F] has returned, every node record [e] whose
    layer is strictly coarser than the layer of [F] names a node [A] of the
    hierarchy such that [A.filtered] is true if and only if every direct
    child of [A] has [filtered] true; so [A] is filtered in exactly when one
    of its children is. *)
Theorem filterNodes_bottom_up (F : Filter) (w w' : World) (i : nat) (e : NodeElt) (o o' : Z) :
  wf_nodes w →
  filterNodes StringToNumber RegExp F w = (Ok tt, w') →
  nodesList w' !! i = Some e →
  layerOrder (layer F) = Some o → layerOrder (elt_type e) = Some o' → (o < o')%Z →
  bottom_up (nodesTree w') e.
Proof.
  intros Hwf Hrun He Ho Ho' Hlt.
  pose proof Hrun as Hrun'.
  unfold filterNodes, getSubArrayOfSortedNodes in Hrun'.
  rewrite bind_gets, bind_defined in Hrun'.
  destruct (getSubArray _ _ _) as [sub|] eqn:Hsub; [clear Hrun'|done].
  destruct (filterNodes_bottom_up_so_far F w w' sub Hwf Hsub Hrun)
    as ([Hl1 Hl2] & Hsh & Hall).
  rewrite Hl1 in He.
  assert (Hne : elt_type e ≠ layer F) by (intros Heq; rewrite Heq in Ho'; simplify_eq; lia).
  destruct (layer_sorted_nodes_sorted w Hwf) as [Hsorted Hperm].
  destruct (getSubArray_suffix _ _ _ _ Hsub) as (pre0 & i0 & rest & Hs & -> & Hi0).
  destruct (nodesList w !! i0) as [e0|] eqn:He0; [|done]. injection Hi0 as Hi0.
  assert (Hin : i ∈ i0 :: rest).
  { assert (Hi : i ∈ layer_sorted_nodes w).
    { rewrite Hperm. apply elem_of_seq. apply lookup_lt_Some in He. lia. }
    rewrite Hs in Hi. apply elem_of_app in Hi as [Hi|Hi]; [|done]. exfalso.
    rewrite Hs in Hsorted.
    assert (Hle : (rank (nodesList w) i ≤ rank (nodesList w) i0)%Z).
    { apply (StronglySorted_app_1_elem_of _ _ _ i i0 Hsorted); [done|by left]. }
    unfold rank in Hle. rewrite He, He0 in Hle. simpl in Hle.
    rewrite Hi0, Ho, Ho' in Hle. simpl in Hle. lia. }
  destruct (Hall i e Hin He Hne) as (r & A & Hr & HA & HfA).
  exists r, A. split; [done|]. split; [done|].
  rewrite HfA. apply areChildrenFilteredOut_iff.
Qed.

End BottomUp.

Lemma ex_world_wf : wf_nodes ex_world.
Proof.
  split; [|vm_compute; reflexivity].
  repeat (constructor; [vm_compute; reflexivity|]). constructor.
Qed.

Lemma filterNodes_bottom_up_witness :
  let w' := snd (filterNodes ex_StringToNumber ex_RegExp (ex_utilFilter 0 5) ex_world) in
  bottom_up (nodesTree w')
    (ex_elt "A_p1" "pop" [(3, 2%nat)] 5 5).
Proof.
  intros w'.
  apply (filterNodes_bottom_up ex_StringToNumber ex_RegExp (ex_utilFilter 0 5)
           ex_world w' 2%nat _ 0%Z 2%Z).
  - exact ex_world_wf.
  - vm_compute; reflexivity.
  - vm_compute; reflexivity.
  - reflexivity.
  - reflexivity.
  - lia.
Defined.

(** ** Crosslink keys *)

Lemma string_of_uint_no_underscore d :
  occurs underscore (NilEmpty.string_of_uint d) = false.
Proof. induction d; simpl; done. Qed.

Lemma showZ_no_underscore z : occurs underscore (showZ z) = false.
Proof.
  unfold showZ, NilZero.string_of_int, NilZero.string_of_uint.
  destruct (Z.to_int z) as [d|d]; destruct d; simpl; try done;
    apply string_of_uint_no_underscore.
Qed.

Lemma showZ_inj a b : showZ a = showZ b → a = b.
Proof.
  unfold showZ. intros H.
  assert (Hn : ∀ z, Z.to_int z ≠ Pos Nil ∧ Z.to_int z ≠ Neg Nil).
  { intros [|p|p]; simpl; split; try done; intros [= Hp];
      by apply (DecimalPos.Unsigned.to_uint_nonnil p). }
  apply (f_equal NilZero.int_of_string) in H.
  rewrite !NilZero.isi in H by apply Hn.
  injection H as H. apply (f_equal Z.of_int) in H. by rewrite !DecimalZ.of_to in H.
Qed.

(** The key determines the ordered pair of indices. *)
Lemma cl_key_inj a b a' b' : cl_key a b = cl_key a' b' → a = a' ∧ b = b'.
Proof.
  unfold cl_key. intros H.
  apply (f_equal (split underscore)) in H.
  change (showZ a ++ "_" ++ showZ b)%string
    with (showZ a ++ String underscore (showZ b))%string in H.
  change (showZ a' ++ "_" ++ showZ b')%string
    with (showZ a' ++ String underscore (showZ b'))%string in H.
  rewrite !split_app_sep, !split_no_sep in H by apply showZ_no_underscore.
  injection H as H1 H2. split; by apply showZ_inj.
Qed.

(** ** [buildCrosslinks_] *)

Lemma set_neighbor_spec i j li w :
  set_neighbor i j li w =
  (Ok tt, set_nodesList
     (alter (fun e => mkNodeElt (elt_nodeName e) (elt_type e)
                        (dict_set j li (elt_neighbors e))
                        (elt_show e) (elt_exploded e) (elt_attrs e))
        (Z.to_nat i) (nodesList w)) w).
Proof. done. Qed.

Lemma buildCrosslinks_run a b w :
  buildCrosslinks_ a b w =
  match crossLink1 w a b, crossLink2 w a b with
  | Some l1, Some l2 => (Ok tt, after_buildCrosslinks a b l1 l2 w)
  | _, _ => (Throw TypeError, w)
  end.
Proof.
  unfold buildCrosslinks_, crossLink2, crossLink1.
  unfold bind at 1. rewrite elt_at_spec.
  destruct (at_index (nodesList w) a) as [e1|]; [|done].
  unfold bind at 1. rewrite elt_at_spec.
  destruct (at_index (nodesList w) b) as [e2|]; done.
Qed.

(** What [buildCrosslinks_] does when it ends normally, and that it changes
    nothing when it does not. *)
Lemma buildCrosslinks_effect a b w :
  post (buildCrosslinks_ a b) w (fun r w' =>
    match r with
    | Ok _ =>
        ∃ l1 l2, crossLink1 w a b = Some l1 ∧ crossLink2 w a b = Some l2 ∧
          w' = after_buildCrosslinks a b l1 l2 w
    | Throw _ => w' = w
    end).
Proof.
  unfold post. rewrite buildCrosslinks_run.
  destruct (crossLink1 w a b) as [l1|]; [|done].
  destruct (crossLink2 w a b) as [l2|]; [|done].
  simpl. by exists l1, l2.
Qed.

Lemma cl_key_swap_ne a b : a ≠ b → cl_key a b ≠ cl_key b a.
Proof. intros Hab H. by apply cl_key_inj in H as [? _]. Qed.

Lemma crosslinks_grow_refl n0 w : crosslinks_grow n0 w w.
Proof. done. Qed.

Lemma crosslinks_grow_trans n0 w1 w2 w3 :
  crosslinks_grow n0 w1 w2 → crosslinks_grow n0 w2 w3 → crosslinks_grow n0 w1 w3.
Proof.
  intros H12 H23 I1. destruct (H12 I1) as (I2 & H2 & H3).
  destruct (H23 I2) as (I3 & H5 & H6). split; [done|]. split; by etrans.
Qed.

(** A world that differs only outside the link records and the dictionary. *)
Lemma crosslinks_grow_same n0 w w' :
  linksList w' = linksList w → newCrossLinks w' = newCrossLinks w →
  numLinks w' = numLinks w → crossLinksDict w' = crossLinksDict w →
  crosslinks_grow n0 w w'.
Proof.
  intros H1 H2 H3 H4. unfold crosslinks_grow, crosslink_inv, all_links.
  by rewrite H1, H2, H3, H4.
Qed.

(** Creating a pair that is not cached, between two different nodes, keeps
    the invariant. *)
Lemma buildCrosslinks_grow n0 a b w :
  crossLinksDict w !! cl_key a b = None → a ≠ b →
  post (buildCrosslinks_ a b) w (fun _ w' => crosslinks_grow n0 w w').
Proof.
  intros Hfresh Hab. eapply post_mono; [apply buildCrosslinks_effect|].
  intros [[]|e] w'; [|by intros ->].
  intros (l1 & l2 & Hl1 & Hl2 & ->).
  assert (Hll : linksList (after_buildCrosslinks a b l1 l2 w) = linksList w) by done.
  assert (Hn : numLinks (after_buildCrosslinks a b l1 l2 w) = S (S (numLinks w))) by done.
  assert (Hncl : newCrossLinks (after_buildCrosslinks a b l1 l2 w)
                 = newCrossLinks w ++ [l1; l2]) by (simpl; by rewrite <- app_assoc).
  assert (Hd : crossLinksDict (after_buildCrosslinks a b l1 l2 w)
               = <[cl_key b a := S (numLinks w)]>
                   (<[cl_key a b := numLinks w]> (crossLinksDict w))) by done.
  generalize dependent (after_buildCrosslinks a b l1 l2 w). intros w' Hll Hn Hncl Hd.
  assert (Hs1 : source l1 = a ∧ target l1 = b).
  { unfold crossLink1 in Hl1. destruct (at_index _ a); [|done].
    destruct (at_index _ b); [|done]. by injection Hl1 as <-. }
  assert (Hs2 : source l2 = b ∧ target l2 = a).
  { unfold crossLink2 in Hl2. destruct (crossLink1 w a b); [|done].
    by injection Hl2 as <-. }
  destruct Hs1 as [Hs1 Ht1], Hs2 as [Hs2 Ht2].
  assert (Hall : all_links w' = all_links w ++ [l1; l2]).
  { unfold all_links. by rewrite Hll, Hncl, app_assoc. }
  pose proof (cl_key_swap_ne a b Hab) as Hk.
  intros (I1 & I2 & I3 & I4 & I5).
  assert (Hfresh2 : crossLinksDict w !! cl_key b a = None).
  { destruct (crossLinksDict w !! cl_key b a) eqn:E; [|done].
    destruct (I5 b a) as [x Hx]; [by eexists|]. congruence. }
  split; [|split].
  - assert (Hat1 : all_links w' !! numLinks w = Some l1).
    { rewrite Hall, I1, lookup_app_r by lia. by rewrite Nat.sub_diag. }
    assert (Hat2 : all_links w' !! S (numLinks w) = Some l2).
    { rewrite Hall, I1, lookup_app_r by lia.
      by replace (S (length (all_links w)) - length (all_links w))%nat with 1%nat by lia. }
    unfold crosslink_inv. rewrite Hd, Hn. split_and!.
    + rewrite Hall, length_app, I1. simpl. lia.
    + lia.
    + intros key id. rewrite lookup_insert. case_decide as E1.
      { intros [= <-]. exists l2. rewrite Hs2, Ht2. split_and!; [done|lia|done]. }
      rewrite lookup_insert. case_decide as E2.
      { intros [= <-]. exists l1. rewrite Hs1, Ht1. split_and!; [done|lia|done]. }
      intros (l & Hl & ? & ?)%I3. exists l. split_and!; try done.
      rewrite Hall. by apply lookup_app_l_Some.
    + intros id l Hid Hl. rewrite Hall in Hl.
      apply lookup_app_Some in Hl as [Hl|[Hge Hl]].
      * pose proof (I4 id l Hid Hl) as Hdl.
        rewrite !lookup_insert_ne; [done|congruence|congruence].
      * rewrite <- I1 in Hl, Hge.
        destruct (id - numLinks w)%nat as [|[|k]] eqn:Ek; simpl in Hl; [| |done].
        -- injection Hl as <-. rewrite Hs1, Ht1.
           rewrite lookup_insert_ne by done. rewrite lookup_insert_eq. f_equal. lia.
        -- injection Hl as <-. rewrite Hs2, Ht2.
           rewrite lookup_insert_eq. f_equal. lia.
    + intros c d. rewrite !lookup_insert.
      destruct (decide (cl_key b a = cl_key c d)) as [E|E].
      { apply cl_key_inj in E as [<- <-]. intros _.
        rewrite decide_False by done. rewrite decide_True by done. by eexists. }
      destruct (decide (cl_key a b = cl_key c d)) as [E'|E'].
      { apply cl_key_inj in E' as [<- <-]. intros _.
        rewrite decide_True by done. by eexists. }
      intros H%I5. repeat case_decide; try done; by eexists.
  - rewrite Hall. by apply prefix_app_r.
  - rewrite Hd.
    etrans; [apply (insert_subseteq _ (cl_key a b) (numLinks w)); done|].
    apply insert_subseteq. by rewrite lookup_insert_ne.
Qed.

(** ** The crosslink invariant along the explosion engine *)

Section Grow.

Variable n0 : nat.

Local Abbreviation grow := (crosslinks_grow n0).

Ltac grow_frame :=
  frame_using (crosslinks_grow_refl n0) (crosslinks_grow_trans n0)
    ltac:(by apply crosslinks_grow_same).

Lemma getNodeByName_grow name : preserves grow (getNodeByName name).
Proof.
  intros w. unfold post.
  destruct (getNodeByName_spec name w)
    as (w' & -> & _ & _ & ? & ? & ? & ? & _). by apply crosslinks_grow_same.
Qed.

Lemma node_at_grow x : preserves grow (node_at x).
Proof. by apply node_at_keeps. Qed.

Lemma elt_at_grow i : preserves grow (elt_at i).
Proof. by apply elt_at_keeps. Qed.

Lemma set_show_grow i b : preserves grow (set_show i b).
Proof. pose proof elt_at_grow. unfold set_show. grow_frame. Qed.

Lemma set_exploded_grow i b : preserves grow (set_exploded i b).
Proof. pose proof elt_at_grow. unfold set_exploded. grow_frame. Qed.

Lemma renderLinks_grow : preserves grow renderLinks.
Proof.
  intros w. unfold post, renderLinks. simpl.
  unfold crosslinks_grow, crosslink_inv, all_links. simpl.
  by rewrite app_nil_r.
Qed.

(** The guard of both builders: the pair is not cached and the two node
    records have different types, hence different indices. *)
Lemma guarded_buildCrosslinks_grow a b e1 e2 w :
  at_index (nodesList w) a = Some e1 → at_index (nodesList w) b = Some e2 →
  bool_decide (is_Some (crossLinksDict w !! cl_key a b)) = false →
  bool_decide (elt_type e1 = elt_type e2) = false →
  post (buildCrosslinks_ a b) w (fun _ w' => grow w w').
Proof.
  intros H1 H2 Hc Ht. apply buildCrosslinks_grow.
  - apply bool_decide_eq_false in Hc. by apply eq_None_not_Some.
  - apply bool_decide_eq_false in Ht. intros <-. congruence.
Qed.

Lemma buildUpCrosslinks_grow depth : ∀ a b,
  preserves grow (buildUpCrosslinks depth a b).
Proof.
  induction depth as [|depth IH]; intros a b; [by apply preserves_throw|].
  pose proof getNodeByName_grow. pose proof node_at_grow. pose proof elt_at_grow.
  intros w. simpl. apply post_bind. unfold post at 1. rewrite elt_at_spec.
  destruct (at_index (nodesList w) a) as [e1|] eqn:E1; simpl; [|done].
  apply post_bind. unfold post at 1. rewrite elt_at_spec.
  destruct (at_index (nodesList w) b) as [e2|] eqn:E2; simpl; [|done].
  apply post_bind, post_gets.
  destruct (bool_decide (is_Some (crossLinksDict w !! cl_key a b))) eqn:Ec; simpl;
    [by apply post_ret|].
  destruct (bool_decide (elt_type e1 = elt_type e2)) eqn:Et; simpl;
    [by apply post_ret|].
  apply post_bind. eapply post_mono; [by eapply guarded_buildCrosslinks_grow|].
  intros [[]|e] w1 Hg; [|done]. eapply post_mono.
  - assert (Hrest : preserves grow
      (let* e := elt_at b in
       let* neighbor_node := getNodeByName (elt_nodeName e) in
       let* r := defined neighbor_node in
       let* p := node_at (Some (parent r)) in
       match index p with
       | Some new_neighborIndex => buildUpCrosslinks depth a new_neighborIndex
       | None => ret tt
       end)) by grow_frame.
    apply Hrest.
  - intros r w2 Hg2. by eapply crosslinks_grow_trans.
Qed.

Lemma buildDownCrosslinks_grow depth : ∀ a b,
  preserves grow (buildDownCrosslinks depth a b).
Proof.
  induction depth as [|depth IH]; intros a b; [by apply preserves_throw|].
  pose proof getNodeByName_grow. pose proof node_at_grow. pose proof elt_at_grow.
  intros w. simpl. apply post_bind. unfold post at 1. rewrite elt_at_spec.
  destruct (at_index (nodesList w) a) as [e1|] eqn:E1; simpl; [|done].
  destruct b as [b|]; [|done]. apply post_bind, post_ret.
  apply post_bind. unfold post at 1. rewrite elt_at_spec.
  destruct (at_index (nodesList w) b) as [e2|] eqn:E2; simpl; [|done].
  apply post_bind, post_gets.
  destruct (elt_show e2) eqn:Es; simpl.
  - destruct (bool_decide (is_Some (crossLinksDict w !! cl_key a b))) eqn:Ec; simpl;
      [by apply post_ret|].
    destruct (bool_decide (elt_type e1 = elt_type e2)) eqn:Et; simpl;
      [by apply post_ret|].
    by eapply guarded_buildCrosslinks_grow.
  - assert (Hrest : preserves grow
      (let* neighbor_node := getNodeByName (elt_nodeName e2) in
       let* n := node_at neighbor_node in
       match children n with
       | Some cs =>
           forEach (dict_values cs)
             (fun c => buildDownCrosslinks depth a (index c))
       | None => ret tt
       end)) by grow_frame.
    apply Hrest.
Qed.

Lemma explodeNode_grow depth i : preserves grow (explodeNode depth i).
Proof.
  pose proof getNodeByName_grow. pose proof node_at_grow. pose proof elt_at_grow.
  pose proof set_show_grow. pose proof set_exploded_grow.
  pose proof (buildUpCrosslinks_grow depth). pose proof (buildDownCrosslinks_grow depth).
  pose proof renderLinks_grow.
  unfold explodeNode, explodeNode_child, explodeNode_links. grow_frame.
Qed.

Lemma renderNodes_grow rs : preserves grow (renderNodes rs).
Proof.
  pose proof getNodeByName_grow. pose proof node_at_grow. pose proof elt_at_grow.
  pose proof set_show_grow. pose proof set_exploded_grow.
  unfold renderNodes, renderNodes_body. grow_frame.
Qed.

Lemma perform_grow depth a : preserves grow (perform depth a).
Proof.
  destruct a as [i|layer]; simpl; [apply explodeNode_grow|].
  pose proof renderNodes_grow. unfold setCurrentLayer. grow_frame.
Qed.

Lemma run_grow depth acts : ∀ w, grow w (run depth acts w).
Proof.
  induction acts as [|a acts IH]; intros w; simpl; [done|].
  eapply crosslinks_grow_trans; [apply (perform_grow depth a w)|apply IH].
Qed.

End Grow.

Lemma crosslink_inv_initial (w0 : World) :
  crossLinksDict w0 = ∅ → newCrossLinks w0 = [] →
  numLinks w0 = length (linksList w0) →
  crosslink_inv (length (linksList w0)) w0.
Proof.
  intros Hd Hn Hl. unfold crosslink_inv, all_links.
  rewrite Hd, Hn, Hl, app_nil_r. split_and!; try done.
  all: try (intros id l Hid Hl'; apply lookup_lt_Some in Hl'; lia).
  all: try (intros a b [x Hx]; by rewrite lookup_empty in Hx).
Qed.

(** C3. Start from a world without crosslinks and let the user explode nodes
    (and change the layer shown) in any order, failed attempts included.
    Then the crosslink records, those from position [n0] on, are unique per
    ordered pair: two of them with the same source and target are the same
    record.  Each is registered in [crossLinksDict] under the key of its
    pair, and stays so: after any further actions the record is still at its
    position and its key still leads to it. *)
Theorem crosslinks_unique_and_memoized (depth : nat) (acts more : list action)
    (w0 : World) :
  crossLinksDict w0 = ∅ → newCrossLinks w0 = [] →
  numLinks w0 = length (linksList w0) →
  let n0 := length (linksList w0) in
  let w := run depth acts w0 in
  let w' := run depth more w in
  (∀ id id' l l',
     (n0 ≤ id)%nat → (n0 ≤ id')%nat →
     all_links w !! id = Some l → all_links w !! id' = Some l' →
     source l = source l' → target l = target l' → id = id') ∧
  (∀ id l,
     (n0 ≤ id)%nat → all_links w !! id = Some l →
     crossLinksDict w !! cl_key (source l) (target l) = Some id ∧
     all_links w' !! id = Some l ∧
     crossLinksDict w' !! cl_key (source l) (target l) = Some id).
Proof.
  intros Hd Hn Hl n0 w w'.
  pose proof (crosslink_inv_initial w0 Hd Hn Hl) as I0.
  destruct (run_grow n0 depth acts w0 I0) as (I & _ & _). fold w in I.
  destruct (run_grow n0 depth more w I) as (I' & Hpre & Hsub). fold w' in I', Hpre, Hsub.
  destruct I as (I1 & I2 & I3 & I4 & I5). split.
  - intros id id' l l' Hid Hid' Hl1 Hl2 Hs Ht.
    pose proof (I4 id l Hid Hl1) as H1. pose proof (I4 id' l' Hid' Hl2) as H2.
    rewrite Hs, Ht in H1. congruence.
  - intros id l Hid Hl1. pose proof (I4 id l Hid Hl1) as H1.
    split; [done|]. split.
    + destruct Hpre as [k ->]. by apply lookup_app_l_Some.
    + by eapply lookup_weaken.
Qed.

Lemma crosslinks_unique_and_memoized_witness :
  let w := run 10 ex_session ex_world_metro in
  let l := mkLink 8 3 "router_pop" false None [] in
  all_links w !! 12%nat = Some l ∧
  crossLinksDict w !! cl_key 8 3 = Some 12%nat.
Proof.
  intros w l.
  assert (H1 : crossLinksDict ex_world_metro = ∅) by (vm_compute; reflexivity).
  assert (H2 : newCrossLinks ex_world_metro = []) by (vm_compute; reflexivity).
  assert (H3 : numLinks ex_world_metro = length (linksList ex_world_metro))
    by (vm_compute; reflexivity).
  assert (Hl : all_links w !! 12%nat = Some l) by (vm_compute; reflexivity).
  assert (Hid : (length (linksList ex_world_metro) ≤ 12)%nat) by (vm_compute; lia).
  destruct (crosslinks_unique_and_memoized 10 ex_session [] ex_world_metro H1 H2 H3)
    as [_ H].
  split; [exact Hl|]. exact (proj1 (H 12%nat l Hid Hl)).
Defined.

(** ** [buildUpCrosslinks] level by level *)

Lemma resolve_Some_length t name r :
  resolve t name = Ok (Some r) → (length (split underscore name) ≤ 3)%nat.
Proof.
  unfold resolve.
  destruct (split underscore name) as [|a0 [|a1 [|a2 [|a3 l]]]]; simpl; try lia; done.
Qed.

(** One level of [buildUpCrosslinks]. *)
Lemma buildUpCrosslinks_level (depth : nat) (mainIndex neighborIndex : Z)
    (w : World) (e1 e2 : NodeElt) :
  at_index (nodesList w) mainIndex = Some e1 →
  at_index (nodesList w) neighborIndex = Some e2 →
  ((is_Some (crossLinksDict w !! cl_key mainIndex neighborIndex) ∨
    elt_type e1 = elt_type e2) →
   buildUpCrosslinks (S depth) mainIndex neighborIndex w = (Ok tt, w)) ∧
  (crossLinksDict w !! cl_key mainIndex neighborIndex = None →
   elt_type e1 ≠ elt_type e2 →
   ∃ l1 l2,
     crossLink1 w mainIndex neighborIndex = Some l1 ∧
     crossLink2 w mainIndex neighborIndex = Some l2 ∧
     ∀ r p,
       resolve (nodesTree w) (elt_nodeName e2) = Ok (Some r) →
       deref (nodesTree w) (parent r) = Some p →
       buildUpCrosslinks (S depth) mainIndex neighborIndex w =
         match index p with
         | None =>
             (Ok tt, after_buildCrosslinks mainIndex neighborIndex l1 l2 w)
         | Some new_neighborIndex =>
             buildUpCrosslinks depth mainIndex new_neighborIndex
               (after_buildCrosslinks mainIndex neighborIndex l1 l2 w)
         end).
Proof.
  intros H1 H2.
  assert (Hstart : ∀ k : bool → M unit,
    (let* e1 := elt_at mainIndex in
     let* e2 := elt_at neighborIndex in
     let* cached := in_crossLinksDict (cl_key mainIndex neighborIndex) in
     k (negb cached && negb (bool_decide (elt_type e1 = elt_type e2)))) w
    = k (negb (bool_decide (is_Some (crossLinksDict w !! cl_key mainIndex neighborIndex)))
         && negb (bool_decide (elt_type e1 = elt_type e2))) w).
  { intros k. unfold bind at 1. rewrite elt_at_spec, H1.
    unfold bind at 1. by rewrite elt_at_spec, H2. }
  split.
  - intros Hstop. simpl.
    rewrite (Hstart (fun b => if b then _ else ret tt)).
    destruct Hstop as [Hc|Ht].
    + by rewrite (bool_decide_eq_true_2 _ Hc).
    + rewrite (bool_decide_eq_true_2 _ Ht). by rewrite andb_false_r.
  - intros Hc Ht.
    assert (Hl1 : ∃ l1, crossLink1 w mainIndex neighborIndex = Some l1).
    { unfold crossLink1. rewrite H1, H2. by eexists. }
    destruct Hl1 as [l1 Hl1].
    assert (Hl2 : ∃ l2, crossLink2 w mainIndex neighborIndex = Some l2).
    { unfold crossLink2. rewrite Hl1. by eexists. }
    destruct Hl2 as [l2 Hl2].
    exists l1, l2. split; [done|]. split; [done|]. intros r p Hr Hp. simpl.
    rewrite (Hstart (fun b => if b then _ else ret tt)).
    rewrite bool_decide_eq_false_2 by (by apply eq_None_not_Some).
    rewrite (bool_decide_eq_false_2 _ Ht). simpl.
    unfold bind at 1. rewrite buildCrosslinks_run, Hl1, Hl2.
    set (w1 := after_buildCrosslinks mainIndex neighborIndex l1 l2 w).
    assert (He : at_index (nodesList w1) neighborIndex = Some e2 ∨
                 ∃ e2', at_index (nodesList w1) neighborIndex = Some e2' ∧
                        elt_nodeName e2' = elt_nodeName e2).
    { right. subst w1. unfold at_index in *. simpl.
      case_decide; [|done].
      destruct (decide (Z.to_nat neighborIndex = Z.to_nat mainIndex)) as [E|E].
      - rewrite list_lookup_alter_eq, E, list_lookup_alter_eq.
        rewrite E in H2. rewrite H2. simpl. by eexists.
      - rewrite list_lookup_alter_eq, list_lookup_alter_ne by done.
        rewrite H2. simpl. by eexists. }
    assert (He' : ∃ e2', at_index (nodesList w1) neighborIndex = Some e2' ∧
                         elt_nodeName e2' = elt_nodeName e2)
      by (destruct He as [He|He]; [by exists e2|done]).
    destruct He' as (e2' & He2' & Hname).
    unfold bind at 1. rewrite elt_at_spec, He2'.
    unfold bind at 1.
    destruct (getNodeByName_spec (elt_nodeName e2') w1) as (wa & -> & _ & _ & _ & _ & _ & _ & _ & _ & _ & _ & _ & Hsame).
    rewrite Hname. change (nodesTree w1) with (nodesTree w). rewrite Hr.
    rewrite Hsame.
    2:{ rewrite Hname. by eapply resolve_Some_length. }
    rewrite bind_defined. unfold bind at 1. rewrite node_at_spec.
    change (nodesTree w1) with (nodesTree w). rewrite Hp.
    by destruct (index p).
Qed.

(** C8 as stated fails: the root and an existing crosslink are not the only
    places where the recursion stops.  After the pop [B_p1] was exploded, its
    router [8] is a neighbor of the metro [A]; building up from the pop
    [A_p1] (index 2) to that router creates the pair [(2, 8)] and then stops
    at the router's parent, the pop [B_p1] (index 4): it has the type of the
    child, is not the root, and no crosslink for [(2, 4)] existed or
    exists afterwards. *)
Lemma buildUpCrosslinks_stops_at_same_type :
  let w := ex_world_exploded_pop in
  let w' := snd (buildUpCrosslinks 10 2 8 w) in
  buildUpCrosslinks 10 2 8 w = (Ok tt, w') ∧
  crossLinksDict w !! cl_key 2 8 = None ∧
  is_Some (crossLinksDict w' !! cl_key 2 8) ∧
  (∃ p, deref (nodesTree w) (parent ["B"; "p1"; "r1"]) = Some p ∧ index p = Some 4) ∧
  crossLinksDict w !! cl_key 2 4 = None ∧
  crossLinksDict w' !! cl_key 2 4 = None.
Proof.
  intros w w'.
  split; [vm_compute; reflexivity|].
  split; [vm_compute; reflexivity|].
  split; [vm_compute; by eexists|].
  split; [eexists; split; vm_compute; reflexivity|].
  split; vm_compute; reflexivity.
Qed.

(** ** Extension of the world during an explosion *)

Lemma at_index_alter {A} (f : A → A) (a j : Z) (l : list A) :
  (0 ≤ a)%Z →
  at_index (alter f (Z.to_nat a) l) j =
  if decide (j = a) then f <$> at_index l j else at_index l j.
Proof.
  intros Ha. unfold at_index. case_decide as Hj0.
  - case_decide as Hja.
    + subst. by rewrite list_lookup_alter_eq.
    + rewrite list_lookup_alter_ne; [done|]. lia.
  - case_decide; [|done]. by subst.
Qed.

Lemma at_index_Some_nonneg {A} (l : list A) i x : at_index l i = Some x → (0 ≤ i)%Z.
Proof. unfold at_index. by case_decide. Qed.

Lemma elem_of_dict_keys_set {K V} `{EqDecision K} (k k' : K) (v : V) (d : dict K V) :
  k ∈ dict_keys (dict_set k' v d) ↔ k = k' ∨ k ∈ dict_keys d.
Proof.
  unfold dict_keys. induction d as [|[k0 v0] d IH]; simpl.
  - rewrite list_elem_of_singleton. split; [by left|]. intros [|H]; [done|].
    by apply elem_of_nil in H.
  - case_decide as E; simpl.
    + subst. rewrite !elem_of_cons. tauto.
    + rewrite !elem_of_cons, IH. tauto.
Qed.

Lemma elt_ext_refl C j e : elt_ext C j e e.
Proof. unfold elt_ext. split_and!; auto. Qed.

Lemma elt_ext_trans C j e1 e2 e3 :
  elt_ext C j e1 e2 → elt_ext C j e2 e3 → elt_ext C j e1 e3.
Proof.
  intros (N1 & T1 & F1 & X1 & K1 & G1) (N2 & T2 & F2 & X2 & K2 & G2).
  unfold elt_ext. split_and!; try congruence.
  - destruct F2 as [?|?]; [|by right].
    destruct F1 as [?|[? ?]]; [left; congruence|]. right. split; congruence.
  - destruct X2 as [?|?]; [|by right].
    destruct X1 as [?|[? ?]]; [left; congruence|]. right. split; congruence.
  - auto.
  - intros Hj k Hk. destruct (G2 Hj k Hk) as [H|H]; [|by right]. by apply G1.
Qed.

Lemma world_ext_refl C w : world_ext C w w.
Proof.
  split; [done|]. split; [|done]. intros j.
  destruct (at_index (nodesList w) j); [apply elt_ext_refl|done].
Qed.

Lemma world_ext_trans C w1 w2 w3 :
  world_ext C w1 w2 → world_ext C w2 w3 → world_ext C w1 w3.
Proof.
  intros (T1 & L1 & D1) (T2 & L2 & D2). split; [congruence|]. split; [|auto].
  intros j. specialize (L1 j). specialize (L2 j).
  destruct (at_index (nodesList w1) j), (at_index (nodesList w2) j),
    (at_index (nodesList w3) j); try done.
  by eapply elt_ext_trans.
Qed.

(** A world that differs only outside the hierarchy, the node records and
    the dictionary. *)
Lemma world_ext_same C w w' :
  nodesTree w' = nodesTree w → nodesList w' = nodesList w →
  crossLinksDict w' = crossLinksDict w → world_ext C w w'.
Proof.
  intros H1 H2 H3. split; [done|]. rewrite H2, H3. split; [|done].
  intros j. destruct (at_index (nodesList w) j); [apply elt_ext_refl|done].
Qed.

Lemma elt_ext_add_neighbor C j k li e :
  (j ∈ C ∨ k ∈ C) → elt_ext C j e (add_neighbor k li e).
Proof.
  intros Hjk. unfold elt_ext, add_neighbor, nb_keys. simpl. split_and!; auto.
  - intros k' Hk'. apply elem_of_dict_keys_set. by right.
  - intros Hj k' Hk'. apply elem_of_dict_keys_set in Hk' as [->|Hk']; [|by left].
    right. by destruct Hjk.
Qed.

(** [buildCrosslinks_] for a child extends the world. *)
Lemma buildCrosslinks_ext C c X :
  c ∈ C → preserves (world_ext C) (buildCrosslinks_ c X).
Proof.
  intros Hc w. eapply post_mono; [apply buildCrosslinks_effect|].
  intros [[]|e] w'; [|intros ->; apply world_ext_refl].
  intros (l1 & l2 & Hl1 & Hl2 & ->).
  assert (Hex : ∃ e1 e2, at_index (nodesList w) c = Some e1 ∧
                         at_index (nodesList w) X = Some e2).
  { unfold crossLink1 in Hl1. destruct (at_index _ c) as [e1|]; [|done].
    destruct (at_index _ X) as [e2|]; [|done]. by exists e1, e2. }
  destruct Hex as (e1 & e2 & He1 & He2).
  pose proof (at_index_Some_nonneg _ _ _ He1) as Hc0.
  pose proof (at_index_Some_nonneg _ _ _ He2) as HX0.
  split; [done|]. split.
  - intros j. simpl. rewrite !at_index_alter by done.
    destruct (at_index (nodesList w) j) as [e|] eqn:Ee; [|by repeat case_decide].
    repeat case_decide; simpl; subst.
    + eapply elt_ext_trans; apply elt_ext_add_neighbor; auto.
    + apply elt_ext_add_neighbor; auto.
    + apply elt_ext_add_neighbor; auto.
    + apply elt_ext_refl.
  - intros k [v Hv]. simpl. rewrite !lookup_insert. repeat case_decide; by eexists.
Qed.

Section Ext.

Variable C : list Z.

Local Abbreviation ext := (world_ext C).

Ltac ext_frame :=
  frame_using (world_ext_refl C) (world_ext_trans C)
    ltac:(by apply world_ext_same).

Lemma getNodeByName_ext name : preserves ext (getNodeByName name).
Proof.
  intros w. unfold post.
  destruct (getNodeByName_spec name w)
    as (w' & -> & ? & ? & _ & _ & ? & _). by apply world_ext_same.
Qed.

Lemma buildUpCrosslinks_ext depth c : c ∈ C → ∀ N,
  preserves ext (buildUpCrosslinks depth c N).
Proof.
  intros Hc. induction depth as [|depth IH]; intros N;
    [apply preserves_throw, world_ext_refl|].
  pose proof getNodeByName_ext. pose proof (buildCrosslinks_ext C c N Hc).
  assert (∀ x, preserves ext (node_at x)) by (intros; apply node_at_keeps, world_ext_refl).
  assert (∀ x, preserves ext (elt_at x)) by (intros; apply elt_at_keeps, world_ext_refl).
  simpl. unfold in_crossLinksDict. ext_frame.
Qed.

Lemma buildDownCrosslinks_ext depth c : c ∈ C → ∀ N,
  preserves ext (buildDownCrosslinks depth c N).
Proof.
  intros Hc. induction depth as [|depth IH]; intros N;
    [apply preserves_throw, world_ext_refl|].
  pose proof getNodeByName_ext.
  pose proof (fun X => buildCrosslinks_ext C c X Hc).
  assert (∀ x, preserves ext (node_at x)) by (intros; apply node_at_keeps, world_ext_refl).
  assert (∀ x, preserves ext (elt_at x)) by (intros; apply elt_at_keeps, world_ext_refl).
  simpl. unfold in_crossLinksDict. ext_frame.
Qed.

End Ext.

(** ** Builders that have nothing to do *)

Lemma elt_at_Some i w e : at_index (nodesList w) i = Some e → elt_at i w = (Ok e, w).
Proof. intros H. by rewrite elt_at_spec, H. Qed.

Lemma getNodeByName_Some name w r :
  resolve (nodesTree w) name = Ok (Some r) → getNodeByName name w = (Ok (Some r), w).
Proof.
  intros Hr. destruct (getNodeByName_spec name w) as (w' & -> & H).
  rewrite Hr. f_equal. apply H. by eapply resolve_Some_length.
Qed.

Lemma node_at_Some r w n :
  deref (nodesTree w) r = Some n → node_at (Some r) w = (Ok n, w).
Proof. intros H. by rewrite node_at_spec, H. Qed.

Lemma forEach_noop {A} (l : list A) body w :
  Forall (fun x => body x w = (Ok tt, w)) l → forEach l body w = (Ok tt, w).
Proof.
  induction 1 as [|x l Hx Hl IH]; simpl; [done|]. by rewrite (bind_Ok _ _ _ _ _ Hx).
Qed.

Lemma world_ext_elt C w w' j e :
  world_ext C w w' → at_index (nodesList w) j = Some e →
  ∃ e', at_index (nodesList w') j = Some e' ∧ elt_ext C j e e'.
Proof.
  intros (_ & H & _) He. specialize (H j). rewrite He in H.
  destruct (at_index (nodesList w') j) as [e'|]; [|done]. by exists e'.
Qed.

Lemma up_quiet_noop depth w c N :
  up_quiet w c N → buildUpCrosslinks (S depth) c N w = (Ok tt, w).
Proof.
  intros (e1 & e2 & H1 & H2 & H).
  by apply (proj1 (buildUpCrosslinks_level depth c N w e1 e2 H1 H2)).
Qed.

Lemma down_quiet_noop depth w c : ∀ N,
  down_quiet depth w c N → buildDownCrosslinks depth c N w = (Ok tt, w).
Proof.
  induction depth as [|depth IH]; intros N; [done|].
  intros (e1 & n & e2 & H1 & -> & H2 & H). simpl.
  rewrite (bind_Ok _ _ _ _ _ (elt_at_Some _ _ _ H1)), bind_ret.
  rewrite (bind_Ok _ _ _ _ _ (elt_at_Some _ _ _ H2)).
  unfold in_crossLinksDict. rewrite bind_gets.
  destruct (elt_show e2); simpl.
  - destruct H as [H|H].
    + by rewrite (bool_decide_eq_true_2 _ H).
    + rewrite (bool_decide_eq_true_2 _ H). by rewrite andb_false_r.
  - destruct H as (r & nd & Hr & Hnd & Hcs).
    rewrite (bind_Ok _ _ _ _ _ (getNodeByName_Some _ _ _ Hr)).
    rewrite (bind_Ok _ _ _ _ _ (node_at_Some _ _ _ Hnd)).
    destruct (children nd) as [cs|]; [|done].
    apply forEach_noop. eapply Forall_impl; [exact Hcs|]. intros ch. apply IH.
Qed.

Lemma up_quiet_mono C w w' c N :
  world_ext C w w' → up_quiet w c N → up_quiet w' c N.
Proof.
  intros Hext (e1 & e2 & H1 & H2 & H).
  destruct (world_ext_elt C w w' c e1 Hext H1) as (e1' & H1' & _ & T1 & _).
  destruct (world_ext_elt C w w' N e2 Hext H2) as (e2' & H2' & _ & T2 & _).
  exists e1', e2'. split; [done|]. split; [done|].
  destruct H as [H|H]; [left; by apply Hext|right; congruence].
Qed.

Lemma same_typed_ext C w w' :
  world_ext C w w' → same_typed C w → same_typed C w'.
Proof.
  intros Hext H j j' Hj Hj'. destruct (H j j' Hj Hj') as (e1 & e2 & H1 & H2 & Ht).
  destruct (world_ext_elt C w w' j e1 Hext H1) as (e1' & H1' & _ & T1 & _).
  destruct (world_ext_elt C w w' j' e2 Hext H2) as (e2' & H2' & _ & T2 & _).
  exists e1', e2'. split; [done|]. split; [done|congruence].
Qed.

Lemma down_quiet_mono C depth w w' c :
  world_ext C w w' → same_typed C w → c ∈ C → ∀ N,
  down_quiet depth w c N → down_quiet depth w' c N.
Proof.
  intros Hext Hty Hc. induction depth as [|depth IH]; intros N; [done|].
  intros (e1 & n & e2 & H1 & -> & H2 & H). simpl.
  destruct (world_ext_elt C w w' c e1 Hext H1) as (e1' & H1' & _ & T1 & _).
  destruct (world_ext_elt C w w' n e2 Hext H2) as (e2' & H2' & N2 & T2 & F2 & _).
  exists e1', n, e2'. split; [done|]. split; [done|]. split; [done|].
  assert (Hsame : n ∈ C → elt_type e1' = elt_type e2').
  { intros Hn. destruct (Hty c n Hc Hn) as (x & y & Hx & Hy & Txy). congruence. }
  destruct F2 as [Fs|(Hn & Fs)]; rewrite Fs.
  - destruct (elt_show e2).
    + destruct H as [H|H]; [left; by apply Hext|right; congruence].
    + destruct H as (r & nd & Hr & Hnd & Hcs). exists r, nd.
      destruct Hext as (Ht & _). rewrite Ht, N2. split; [done|]. split; [done|].
      destruct (children nd) as [cs|]; [|done].
      eapply Forall_impl; [exact Hcs|]. intros ch. apply IH.
  - right. by apply Hsame.
Qed.

(** ** Builders that have run have nothing left to do *)

Lemma bind_Ok_inv {A B} (m : M A) (k : A → M B) w b w' :
  bind m k w = (Ok b, w') → ∃ a w1, m w = (Ok a, w1) ∧ k a w1 = (Ok b, w').
Proof.
  unfold bind. destruct (m w) as [[a|e] w1]; [|done]. intros H. by exists a, w1.
Qed.

Lemma elt_at_Ok_inv i w e w' :
  elt_at i w = (Ok e, w') → w' = w ∧ at_index (nodesList w) i = Some e.
Proof.
  rewrite elt_at_spec. destruct (at_index (nodesList w) i); [|done].
  intros H. by simplify_eq.
Qed.

Lemma node_at_Ok_inv x w n w' :
  node_at x w = (Ok n, w') →
  w' = w ∧ ∃ r, x = Some r ∧ deref (nodesTree w) r = Some n.
Proof.
  rewrite node_at_spec. destruct x as [r|]; [|done].
  destruct (deref (nodesTree w) r) eqn:E; [|done].
  intros H. simplify_eq. split; [done|]. by exists r.
Qed.

(** A name found and then dereferenced: nothing was reported. *)
Lemma getNodeByName_node_at_inv name w x w1 n w' :
  getNodeByName name w = (Ok x, w1) → node_at x w1 = (Ok n, w') →
  w1 = w ∧ w' = w ∧
  ∃ r, x = Some r ∧ resolve (nodesTree w) name = Ok (Some r) ∧
       deref (nodesTree w) r = Some n.
Proof.
  intros Hg Hn. apply node_at_Ok_inv in Hn as (-> & r & -> & Hd).
  destruct (getNodeByName_spec name w) as (w2 & Hg' & Ht & _).
  rewrite Hg in Hg'. simplify_eq.
  assert (Hr : resolve (nodesTree w) name = Ok (Some r)) by congruence.
  rewrite (getNodeByName_Some _ _ _ Hr) in Hg. simplify_eq.
  split; [done|]. split; [done|]. by exists r.
Qed.

Ltac bind_inv H a w1 Ha := apply bind_Ok_inv in H as (a & w1 & Ha & H).

Lemma buildCrosslinks_Ok_inv c N w w' :
  buildCrosslinks_ c N w = (Ok tt, w') →
  is_Some (crossLinksDict w' !! cl_key c N).
Proof.
  intros H. pose proof (post_run _ _ _ _ _ (buildCrosslinks_effect c N w) H) as K.
  simpl in K. destruct K as (l1 & l2 & _ & _ & ->). simpl.
  rewrite lookup_insert. case_decide; [by eexists|].
  rewrite lookup_insert_eq. by eexists.
Qed.

Section Settle.

Variable C : list Z.

Lemma buildUpCrosslinks_settles depth c N w w' :
  c ∈ C → buildUpCrosslinks depth c N w = (Ok tt, w') → up_quiet w' c N.
Proof.
  intros Hc H.
  assert (Hext : world_ext C w w')
    by exact (post_run _ _ _ _ _ (buildUpCrosslinks_ext C depth c Hc N w) H).
  destruct depth as [|depth]; [done|]. simpl in H.
  bind_inv H e1 w1 H1. apply elt_at_Ok_inv in H1 as (-> & H1).
  bind_inv H e2 w1 H2. apply elt_at_Ok_inv in H2 as (-> & H2).
  unfold in_crossLinksDict in H. rewrite bind_gets in H.
  destruct (world_ext_elt C w w' c e1 Hext H1) as (e1' & H1' & _ & T1 & _).
  destruct (world_ext_elt C w w' N e2 Hext H2) as (e2' & H2' & _ & T2 & _).
  exists e1', e2'. split; [done|]. split; [done|].
  destruct (bool_decide (is_Some (crossLinksDict w !! cl_key c N))) eqn:Ec.
  { left. apply Hext. by apply bool_decide_eq_true in Ec. }
  destruct (bool_decide (elt_type e1 = elt_type e2)) eqn:Et.
  { right. apply bool_decide_eq_true in Et. congruence. }
  left. simpl in H.
  bind_inv H u w1 Hb. destruct u.
  pose proof (buildCrosslinks_Ok_inv _ _ _ _ Hb) as Hk.
  bind_inv H e w2 H3. apply elt_at_Ok_inv in H3 as (-> & H3).
  bind_inv H x w2 Hg.
  destruct (getNodeByName_spec (elt_nodeName e) w1)
    as (w3 & Hg' & _ & _ & _ & _ & Hd & _).
  rewrite Hg in Hg'. simplify_eq. rewrite <- Hd in Hk.
  rewrite bind_defined in H. destruct x as [r|]; [|done].
  bind_inv H p w4 Hp. apply node_at_Ok_inv in Hp as (-> & _).
  destruct (index p) as [n'|].
  - pose proof (post_run _ _ _ _ _ (buildUpCrosslinks_ext C depth c Hc n' w3) H) as K.
    destruct K as (_ & _ & K). by apply K.
  - unfold ret in H. by simplify_eq.
Qed.

Lemma buildDownCrosslinks_settles depth c :
  c ∈ C → ∀ N w w', same_typed C w →
  buildDownCrosslinks depth c N w = (Ok tt, w') → down_quiet depth w' c N.
Proof.
  intros Hc. induction depth as [|depth IH]; intros N w w' Hty H; [done|].
  assert (Hext : world_ext C w w')
    by exact (post_run _ _ _ _ _ (buildDownCrosslinks_ext C (S depth) c Hc N w) H).
  simpl in H.
  bind_inv H e1 w1 H1. apply elt_at_Ok_inv in H1 as (-> & H1).
  rewrite bind_defined in H. destruct N as [n|]; [|done].
  bind_inv H e2 w1 H2. apply elt_at_Ok_inv in H2 as (-> & H2).
  unfold in_crossLinksDict in H. rewrite bind_gets in H.
  destruct (world_ext_elt C w w' c e1 Hext H1) as (e1' & H1' & _ & T1 & _).
  destruct (world_ext_elt C w w' n e2 Hext H2) as (e2' & H2' & N2 & T2 & F2 & _).
  exists e1', n, e2'. split; [done|]. split; [done|]. split; [done|].
  assert (Hsame : n ∈ C → elt_type e1' = elt_type e2').
  { intros Hn. destruct (Hty c n Hc Hn) as (x & y & Hx & Hy & Txy). congruence. }
  destruct F2 as [Fs|(Hn & Fs)]; rewrite Fs; [|right; by apply Hsame].
  destruct (elt_show e2); simpl in H.
  - destruct (bool_decide (is_Some (crossLinksDict w !! cl_key c n))) eqn:Ec; simpl in H.
    { left. apply Hext. by apply bool_decide_eq_true in Ec. }
    destruct (bool_decide (elt_type e1 = elt_type e2)) eqn:Et; simpl in H.
    { right. apply bool_decide_eq_true in Et. congruence. }
    left. by eapply buildCrosslinks_Ok_inv.
  - bind_inv H x w1 Hg. bind_inv H nd w2 Hn.
    destruct (getNodeByName_node_at_inv _ _ _ _ _ _ Hg Hn) as (-> & -> & r & -> & Hr & Hd).
    exists r, nd. destruct Hext as (Ht & Hl & Hdict). rewrite Ht, N2.
    split; [done|]. split; [done|].
    destruct (children nd) as [cs|]; [|done].
    cut (world_ext C w w' ∧
         ∀ ch, ch ∈ dict_values cs → down_quiet depth w' c (index ch)).
    { intros [_ K]. by apply Forall_forall. }
    refine (forEach_Ok_ind
      (fun pre s => world_ext C w s ∧ ∀ ch, ch ∈ pre → down_quiet depth s c (index ch))
      _ _ _ _ _ _ H).
    + split; [apply world_ext_refl|]. intros ch Hch. by apply elem_of_nil in Hch.
    + intros pre ch suf s s' _ (Hs & Hpre) Hrun.
      assert (Hss : world_ext C s s')
        by exact (post_run _ _ _ _ _
                    (buildDownCrosslinks_ext C depth c Hc (index ch) s) Hrun).
      assert (Htys : same_typed C s) by by eapply same_typed_ext.
      split; [by eapply world_ext_trans|].
      intros ch' Hch'. apply elem_of_app in Hch' as [Hch'|Hch'].
      * eapply down_quiet_mono; eauto.
      * apply list_elem_of_singleton in Hch' as ->. by eapply IH.
Qed.

End Settle.

(** ** The flags of an explosion *)

Lemma alter_fixed {A} (f : A → A) (n : nat) (l : list A) x :
  l !! n = Some x → f x = x → alter f n l = l.
Proof.
  intros Hx Hf. apply list_eq. intros k. destruct (decide (k = n)) as [->|Hk].
  - rewrite list_lookup_alter_eq, Hx. simpl. by rewrite Hf.
  - by rewrite list_lookup_alter_ne.
Qed.

Lemma at_index_lookup {A} (l : list A) i x :
  at_index l i = Some x → l !! Z.to_nat i = Some x.
Proof. unfold at_index. by case_decide. Qed.

Lemma set_nodesList_same w : set_nodesList (nodesList w) w = w.
Proof. by destruct w. Qed.

(** Assigning the value a flag already has changes nothing. *)
Lemma set_show_noop i b w e :
  at_index (nodesList w) i = Some e → elt_show e = b → set_show i b w = (Ok tt, w).
Proof.
  intros He Hb. unfold set_show. rewrite (bind_Ok _ _ _ _ _ (elt_at_Some _ _ _ He)).
  unfold modify. f_equal.
  rewrite (alter_fixed _ _ _ e (at_index_lookup _ _ _ He)); [apply set_nodesList_same|].
  destruct e; simpl in *; by subst.
Qed.

Lemma set_exploded_noop i b w e :
  at_index (nodesList w) i = Some e → elt_exploded e = b →
  set_exploded i b w = (Ok tt, w).
Proof.
  intros He Hb. unfold set_exploded.
  rewrite (bind_Ok _ _ _ _ _ (elt_at_Some _ _ _ He)).
  unfold modify. f_equal.
  rewrite (alter_fixed _ _ _ e (at_index_lookup _ _ _ He)); [apply set_nodesList_same|].
  destruct e; simpl in *; by subst.
Qed.

(** What the two assignments leave: the record at [i] with the new flag,
    everything else as it was. *)
Lemma set_show_Ok_inv i b w w' :
  set_show i b w = (Ok tt, w') →
  nodesTree w' = nodesTree w ∧ crossLinksDict w' = crossLinksDict w ∧
  ∃ e, at_index (nodesList w) i = Some e ∧
    ∀ j, at_index (nodesList w') j =
         if decide (j = i)
         then Some (mkNodeElt (elt_nodeName e) (elt_type e) (elt_neighbors e)
                      b (elt_exploded e) (elt_attrs e))
         else at_index (nodesList w) j.
Proof.
  unfold set_show. intros H. bind_inv H e w1 He.
  apply elt_at_Ok_inv in He as (-> & He). unfold modify in H. simplify_eq.
  split; [done|]. split; [done|]. exists e. split; [done|]. intros j. simpl.
  rewrite at_index_alter by by eapply at_index_Some_nonneg.
  case_decide; [|done]. subst. by rewrite He.
Qed.

Lemma set_exploded_Ok_inv i b w w' :
  set_exploded i b w = (Ok tt, w') →
  nodesTree w' = nodesTree w ∧ crossLinksDict w' = crossLinksDict w ∧
  ∃ e, at_index (nodesList w) i = Some e ∧
    ∀ j, at_index (nodesList w') j =
         if decide (j = i)
         then Some (mkNodeElt (elt_nodeName e) (elt_type e) (elt_neighbors e)
                      (elt_show e) b (elt_attrs e))
         else at_index (nodesList w) j.
Proof.
  unfold set_exploded. intros H. bind_inv H e w1 He.
  apply elt_at_Ok_inv in He as (-> & He). unfold modify in H. simplify_eq.
  split; [done|]. split; [done|]. exists e. split; [done|]. intros j. simpl.
  rewrite at_index_alter by by eapply at_index_Some_nonneg.
  case_decide; [|done]. subst. by rewrite He.
Qed.

(** Showing a child and marking it as exploded extends the world. *)
Lemma set_show_child_ext C c w w' :
  c ∈ C → set_show c true w = (Ok tt, w') → world_ext C w w'.
Proof.
  intros Hc H. apply set_show_Ok_inv in H as (Ht & Hd & e & He & Hl).
  split; [done|]. split; [|by rewrite Hd]. intros j. rewrite Hl.
  case_decide as Hj; [subst; rewrite He|
    destruct (at_index (nodesList w) j); [apply elt_ext_refl|done]].
  unfold elt_ext, nb_keys. simpl. split_and!; auto.
Qed.

Lemma set_exploded_child_ext C c w w' :
  c ∈ C → set_exploded c true w = (Ok tt, w') → world_ext C w w'.
Proof.
  intros Hc H. apply set_exploded_Ok_inv in H as (Ht & Hd & e & He & Hl).
  split; [done|]. split; [|by rewrite Hd]. intros j. rewrite Hl.
  case_decide as Hj; [subst; rewrite He|
    destruct (at_index (nodesList w) j); [apply elt_ext_refl|done]].
  unfold elt_ext, nb_keys. simpl. split_and!; auto.
Qed.

Lemma shown_exploded_ext C w w' c :
  world_ext C w w' → shown_exploded w c → shown_exploded w' c.
Proof.
  intros Hext (e & He & Hs & Hx).
  destruct (world_ext_elt C w w' c e Hext He) as (e' & He' & _ & _ & F & X & _).
  exists e'. split; [done|]. split.
  - destruct F as [?|[_ ?]]; congruence.
  - destruct X as [?|[_ ?]]; congruence.
Qed.

Lemma renderLinks_noop w : newCrossLinks w = [] → renderLinks w = (Ok tt, w).
Proof.
  intros H. unfold renderLinks, bind, modify. f_equal.
  destruct w; simpl in *. subst. by rewrite app_nil_r.
Qed.

(** ** Well-formed hierarchies *)

Lemma elem_of_child_indices j cs :
  j ∈ child_indices cs ↔ ∃ k ch, (k, ch) ∈ cs ∧ index ch = Some j.
Proof.
  unfold child_indices, dict_values. rewrite list_elem_of_omap. split.
  - intros (ch & Hch & Hj). apply list_elem_of_In, in_map_iff in Hch as ([k ch'] & <- & Hin).
    exists k, ch'. split; [by apply list_elem_of_In|done].
  - intros (k & ch & Hin & Hj). exists ch. split; [|done].
    apply list_elem_of_In, in_map_iff. exists (k, ch). split; [done|].
    by apply list_elem_of_In.
Qed.

Lemma dict_get_elem_of {V} (k : string) (d : dict string V) v :
  dict_get k d = Some v → (k, v) ∈ d.
Proof.
  induction d as [|[k' v'] d IH]; simpl; [done|].
  case_decide as E; [intros [= ->]; subst; by left|]. intros Hg. right. by apply IH.
Qed.

Lemma wf_index_from_eq l r n :
  wf_index_from l r n =
  match children n with
  | None => true
  | Some cs =>
      forallb (fun kc : string * Node =>
                 let (k, ch) := kc in
                 match index ch with
                 | None => true
                 | Some j =>
                     match at_index l j with
                     | Some e =>
                         bool_decide (split underscore (elt_nodeName e) = r ++ [k])
                     | None => false
                     end
                 end && wf_index_from l (r ++ [k]) ch) cs
  end.
Proof. by destruct n. Qed.

(** The check is sound. *)
Lemma wf_index_from_sound l : ∀ r r0 n0 n cs k ch j,
  wf_index_from l r0 n0 = true →
  deref n0 r = Some n → children n = Some cs → (k, ch) ∈ cs → index ch = Some j →
  ∃ e, at_index l j = Some e ∧ split underscore (elt_nodeName e) = (r0 ++ r) ++ [k].
Proof.
  induction r as [|k0 r IH]; intros r0 n0 n cs k ch j Hwf Hd Hcs Hin Hj.
  - simpl in Hd. simplify_eq. rewrite wf_index_from_eq, Hcs in Hwf.
    rewrite forallb_forall in Hwf. apply list_elem_of_In in Hin.
    specialize (Hwf (k, ch) Hin). simpl in Hwf.
    rewrite Hj in Hwf. rewrite app_nil_r.
    apply andb_true_iff in Hwf as [Hwf _].
    destruct (at_index l j) as [e|]; [|done]. exists e. split; [done|].
    by apply bool_decide_eq_true in Hwf.
  - simpl in Hd. destruct (children n0) as [cs0|] eqn:Ecs0; [|done].
    destruct (dict_get k0 cs0) as [c|] eqn:Ec; [|done].
    rewrite wf_index_from_eq, Ecs0 in Hwf. rewrite forallb_forall in Hwf.
    apply dict_get_elem_of, list_elem_of_In in Ec.
    specialize (Hwf (k0, c) Ec). simpl in Hwf. apply andb_true_iff in Hwf as [_ Hc].
    destruct (IH (r0 ++ [k0]) c n cs k ch j Hc Hd Hcs Hin Hj) as (e & He & Hs).
    exists e. split; [done|]. rewrite Hs. f_equal. by rewrite <- app_assoc.
Qed.

Lemma wf_index_check w :
  wf_index_from (nodesList w) [] (nodesTree w) = true → wf_index w.
Proof.
  intros H r n cs k ch j Hd Hcs Hin Hj.
  by apply (wf_index_from_sound _ r [] (nodesTree w) n cs k ch j).
Qed.

(** In a well-formed world the children of the node of a record have
    records of one type, and the record is not among them. *)
Lemma wf_children w i e r node cs :
  wf_layers w → wf_index w →
  at_index (nodesList w) i = Some e →
  resolve (nodesTree w) (elt_nodeName e) = Ok (Some r) →
  deref (nodesTree w) r = Some node → children node = Some cs →
  same_typed (child_indices cs) w ∧ i ∉ child_indices cs.
Proof.
  intros Hl Hi He Hr Hd Hcs.
  assert (Hrec : ∀ j, j ∈ child_indices cs →
            ∃ ej, at_index (nodesList w) j = Some ej ∧
                  length (split underscore (elt_nodeName ej)) = S (length r) ∧
                  layer_depth (elt_type ej) = Some (S (length r))).
  { intros j Hj. apply elem_of_child_indices in Hj as (k & ch & Hin & Hj).
    destruct (Hi r node cs k ch j Hd Hcs Hin Hj) as (ej & Hej & Hs).
    exists ej. split; [done|].
    assert (Hlen : length (split underscore (elt_nodeName ej)) = S (length r))
      by (rewrite Hs, length_app; simpl; lia).
    split; [done|]. rewrite <- Hlen.
    unfold wf_layers in Hl. rewrite Forall_forall in Hl. apply Hl.
    eapply list_elem_of_lookup_2, at_index_lookup, Hej. }
  split.
  - intros j j' Hj Hj'. destruct (Hrec j Hj) as (e1 & H1 & _ & D1).
    destruct (Hrec j' Hj') as (e2 & H2 & _ & D2).
    exists e1, e2. split; [done|]. split; [done|].
    by eapply layer_depth_rank_inj.
  - intros Hj. destruct (Hrec i Hj) as (ei & Hei & Hlen & _).
    apply resolve_ref in Hr. simplify_eq. lia.
Qed.

(** ** Exploding a node a second time *)

Section Twice.

Variable C : list Z.
Variable depth : nat.

Lemma settled_mono w w' c K :
  world_ext C w w' → same_typed C w → c ∈ C →
  settled depth w c K → settled depth w' c K.
Proof.
  intros Hext Hty Hc H N HN. destruct (H N HN) as [Hu Hd]. split.
  - by eapply up_quiet_mono.
  - by eapply down_quiet_mono.
Qed.

(** The inner loop of [explodeNode], run to its end, leaves the child
    settled with every neighbor it went through. *)
Lemma explodeNode_links_settle c K w w' :
  c ∈ C → same_typed C w →
  forEach K (explodeNode_links depth c) w = (Ok tt, w') →
  world_ext C w w' ∧ settled depth w' c K.
Proof.
  intros Hc Hty.
  apply (forEach_Ok_ind (fun pre s => world_ext C w s ∧ settled depth s c pre)).
  - split; [apply world_ext_refl|]. intros N HN. by apply elem_of_nil in HN.
  - intros pre N suf s s' _ (Hs & Hpre) Hrun. unfold explodeNode_links in Hrun.
    bind_inv Hrun u s1 Hup. destruct u.
    assert (E1 : world_ext C s s1)
      by exact (post_run _ _ _ _ _ (buildUpCrosslinks_ext C depth c Hc N s) Hup).
    assert (E2 : world_ext C s1 s')
      by exact (post_run _ _ _ _ _
                  (buildDownCrosslinks_ext C depth c Hc (Some N) s1) Hrun).
    assert (Htys : same_typed C s) by by eapply same_typed_ext.
    assert (Htys1 : same_typed C s1) by by eapply same_typed_ext.
    split; [eapply world_ext_trans; [exact Hs|by eapply world_ext_trans]|].
    intros N' HN'. apply elem_of_app in HN' as [HN'|HN'].
    + apply (settled_mono s s' c pre); [by eapply world_ext_trans|done..].
    + apply list_elem_of_singleton in HN' as ->. split.
      * eapply up_quiet_mono; [exact E2|]. by eapply buildUpCrosslinks_settles.
      * by eapply buildDownCrosslinks_settles.
Qed.

(** One turn of the outer loop shows the child and settles it with the
    neighbors the exploded node had before the turn. *)
Lemma explodeNode_child_settle i ch w w' :
  (∀ j, index ch = Some j → j ∈ C) → same_typed C w →
  explodeNode_child depth i ch w = (Ok tt, w') →
  world_ext C w w' ∧
  ∃ c, index ch = Some c ∧ shown_exploded w' c ∧
       ∀ e, at_index (nodesList w) i = Some e → settled depth w' c (nb_keys e).
Proof.
  intros Hin Hty H. unfold explodeNode_child in H.
  rewrite bind_defined in H. destruct (index ch) as [c|]; [|done].
  assert (Hc : c ∈ C) by by apply Hin.
  bind_inv H u wa Hshow. destruct u. bind_inv H u wb Hexp. destruct u.
  bind_inv H eb wb' Heb. apply elt_at_Ok_inv in Heb as (-> & Heb).
  pose proof (set_show_child_ext C c w wa Hc Hshow) as Ea.
  pose proof (set_exploded_child_ext C c wa wb Hc Hexp) as Eb.
  assert (Eab : world_ext C w wb) by by eapply world_ext_trans.
  assert (Htyb : same_typed C wb) by by eapply same_typed_ext.
  destruct (explodeNode_links_settle c _ wb w' Hc Htyb H) as (Ebw & Hset).
  split; [by eapply world_ext_trans|].
  exists c. split; [done|]. split.
  - apply (shown_exploded_ext C wb w' c Ebw).
    apply set_show_Ok_inv in Hshow as (_ & _ & e & He & Hl).
    apply set_exploded_Ok_inv in Hexp as (_ & _ & e' & He' & Hl').
    rewrite Hl in He'. rewrite decide_True in He' by done. simplify_eq.
    eexists. split; [rewrite Hl'; by rewrite decide_True|done].
  - intros e He N HN. apply Hset.
    destruct (world_ext_elt C w wb i e Eab He) as (e' & He' & _ & _ & _ & _ & K & _).
    rewrite Heb in He'. simplify_eq. by apply K.
Qed.

(** The outer loop, run to its end. *)
Lemma explodeNode_children_settle i cs e w w' :
  C = child_indices cs → same_typed C w →
  at_index (nodesList w) i = Some e →
  forEach (dict_values cs) (explodeNode_child depth i) w = (Ok tt, w') →
  world_ext C w w' ∧
  ∀ ch, ch ∈ dict_values cs →
    ∃ c, index ch = Some c ∧ shown_exploded w' c ∧ settled depth w' c (nb_keys e).
Proof.
  intros HC Hty He.
  apply (forEach_Ok_ind (fun pre s => world_ext C w s ∧
           ∀ ch, ch ∈ pre →
             ∃ c, index ch = Some c ∧ shown_exploded s c ∧
                  settled depth s c (nb_keys e))).
  - split; [apply world_ext_refl|]. intros ch Hch. by apply elem_of_nil in Hch.
  - intros pre ch suf s s' Hl (Hs & Hpre) Hrun.
    assert (Hin : ∀ j, index ch = Some j → j ∈ C).
    { intros j Hj. rewrite HC. unfold child_indices. apply list_elem_of_omap.
      exists ch. split; [|done]. rewrite Hl. apply elem_of_app. right. by left. }
    assert (Htys : same_typed C s) by by eapply same_typed_ext.
    destruct (explodeNode_child_settle i ch s s' Hin Htys Hrun)
      as (Ess & c & Hc & Hsh & Hset).
    split; [by eapply world_ext_trans|].
    intros ch' Hch'. apply elem_of_app in Hch' as [Hch'|Hch'].
    + destruct (Hpre ch' Hch') as (c' & Hc' & Hsh' & Hset'). exists c'.
      split; [done|]. split; [by eapply shown_exploded_ext|].
      eapply settled_mono; eauto. rewrite HC. unfold child_indices.
      apply list_elem_of_omap. exists ch'. split; [|done].
      rewrite Hl. apply elem_of_app. by left.
    + apply list_elem_of_singleton in Hch' as ->. exists c.
      split; [done|]. split; [done|].
      destruct (world_ext_elt C w s i e Hs He) as (e' & He' & _ & _ & _ & _ & K & _).
      intros N HN. apply (Hset e' He'). by apply K.
Qed.

End Twice.

(** A child that is shown and settled with all neighbors of the exploded
    node: its turn of the outer loop changes nothing. *)
Lemma explodeNode_child_again depth i ch w c e :
  index ch = Some c → shown_exploded w c →
  at_index (nodesList w) i = Some e →
  settled (S depth) w c (nb_keys e) →
  explodeNode_child (S depth) i ch w = (Ok tt, w).
Proof.
  intros Hc (ec & Hec & Hs & Hx) He Hset. unfold explodeNode_child.
  rewrite bind_defined, Hc.
  rewrite (bind_Ok _ _ _ _ _ (set_show_noop _ _ _ _ Hec Hs)).
  rewrite (bind_Ok _ _ _ _ _ (set_exploded_noop _ _ _ _ Hec Hx)).
  rewrite (bind_Ok _ _ _ _ _ (elt_at_Some _ _ _ He)).
  apply forEach_noop, Forall_forall. intros N HN.
  destruct (Hset N HN) as [Hu Hd]. unfold explodeNode_links.
  rewrite (bind_Ok _ _ _ _ _ (up_quiet_noop depth _ _ _ Hu)).
  by apply down_quiet_noop.
Qed.

(** Between two shown children there is nothing to build. *)
Lemma settled_among_children C depth w c N :
  same_typed C w → c ∈ C → N ∈ C → shown_exploded w N →
  up_quiet w c N ∧ down_quiet (S depth) w c (Some N).
Proof.
  intros Hty Hc HN (eN & HeN & Hs & _).
  destruct (Hty c N Hc HN) as (e1 & e2 & H1 & H2 & Ht). simplify_eq. split.
  - exists e1, eN. auto.
  - exists e1, N, eN. split; [done|]. split; [done|]. split; [done|].
    rewrite Hs. by right.
Qed.

(** The start of an explosion: the record is hidden and marked. *)
Lemma explodeNode_flags_inv i w w' :
  (set_show i false ;; set_exploded i true) w = (Ok tt, w') →
  nodesTree w' = nodesTree w ∧ crossLinksDict w' = crossLinksDict w ∧
  ∃ e, at_index (nodesList w) i = Some e ∧
    ∀ j, at_index (nodesList w') j =
         if decide (j = i)
         then Some (mkNodeElt (elt_nodeName e) (elt_type e) (elt_neighbors e)
                      false true (elt_attrs e))
         else at_index (nodesList w) j.
Proof.
  intros H. bind_inv H u wa Hs. destruct u.
  apply set_show_Ok_inv in Hs as (Ht & Hd & e & He & Hl).
  apply set_exploded_Ok_inv in H as (Ht' & Hd' & e' & He' & Hl').
  rewrite Hl, decide_True in He' by done. simplify_eq.
  split; [congruence|]. split; [congruence|]. exists e. split; [done|].
  intros j. rewrite Hl', Hl. by case_decide.
Qed.

(** [explodeNode] once record and node are found. *)
Lemma explodeNode_run depth i w e r node :
  at_index (nodesList w) i = Some e →
  resolve (nodesTree w) (elt_nodeName e) = Ok (Some r) →
  deref (nodesTree w) r = Some node →
  explodeNode depth i w =
  ((match children node with
    | Some cs =>
        set_show i false ;; set_exploded i true ;;
        forEach (dict_values cs) (explodeNode_child depth i)
    | None => ret tt
    end) ;; renderLinks) w.
Proof.
  intros He Hr Hd. unfold explodeNode.
  rewrite (bind_Ok _ _ _ _ _ (elt_at_Some _ _ _ He)).
  rewrite (bind_Ok _ _ _ _ _ (getNodeByName_Some _ _ _ Hr)).
  by rewrite (bind_Ok _ _ _ _ _ (node_at_Some _ _ _ Hd)).
Qed.

Lemma explodeNode_Ok_inv depth i w w1 :
  explodeNode depth i w = (Ok tt, w1) →
  ∃ e r node, at_index (nodesList w) i = Some e ∧
    resolve (nodesTree w) (elt_nodeName e) = Ok (Some r) ∧
    deref (nodesTree w) r = Some node.
Proof.
  unfold explodeNode. intros H.
  bind_inv H e wa He. apply elt_at_Ok_inv in He as (-> & He).
  bind_inv H x wb Hg. bind_inv H node wc Hn.
  destruct (getNodeByName_node_at_inv _ _ _ _ _ _ Hg Hn) as (-> & -> & r & -> & Hr & Hd).
  by exists e, r, node.
Qed.

(** The loops of an explosion, run for the second time on a node whose
    children have records of one type and which is not its own child. *)
Lemma explodeNode_twice depth i w w1 e r node cs :
  at_index (nodesList w) i = Some e →
  resolve (nodesTree w) (elt_nodeName e) = Ok (Some r) →
  deref (nodesTree w) r = Some node → children node = Some cs →
  same_typed (child_indices cs) w → i ∉ child_indices cs →
  (set_show i false ;; set_exploded i true ;;
   forEach (dict_values cs) (explodeNode_child (S depth) i)) w = (Ok tt, w1) →
  explodeNode (S depth) i (snd (renderLinks w1)) = (Ok tt, snd (renderLinks w1)).
Proof.
  intros He Hr Hd Hcs Hty Hi H. set (C := child_indices cs) in *.
  rewrite <- bind_assoc in H. bind_inv H u s0 Hflags. destruct u.
  apply explodeNode_flags_inv in Hflags as (Ht0 & Hd0 & e' & He' & Hl0).
  simplify_eq.
  set (E0 := mkNodeElt (elt_nodeName e) (elt_type e) (elt_neighbors e)
               false true (elt_attrs e)) in *.
  assert (HE0 : at_index (nodesList s0) i = Some E0)
    by (rewrite Hl0; by rewrite decide_True).
  assert (Hty0 : same_typed C s0).
  { intros j j' Hj Hj'. rewrite !Hl0.
    rewrite !decide_False by (intros ->; contradiction). by apply Hty. }
  destruct (explodeNode_children_settle C (S depth) i cs E0 s0 w1 eq_refl Hty0 HE0 H)
    as (Hext & Hch).
  set (w2 := snd (renderLinks w1)).
  assert (Hext2 : world_ext C w1 w2) by by apply world_ext_same.
  assert (Hext02 : world_ext C s0 w2) by by eapply world_ext_trans.
  assert (Hty1 : same_typed C w1) by by eapply same_typed_ext.
  assert (Hty2 : same_typed C w2) by by eapply same_typed_ext.
  destruct (world_ext_elt C s0 w2 i E0 Hext02 HE0)
    as (E2 & HE2 & HN2 & _ & F2 & X2 & _ & G2).
  assert (Hs2 : elt_show E2 = false) by (by destruct F2 as [?|[? _]]).
  assert (Hx2 : elt_exploded E2 = true) by (by destruct X2 as [?|[? _]]).
  assert (Hin : ∀ ch j, ch ∈ dict_values cs → index ch = Some j → j ∈ C).
  { intros ch j Hin Hj. apply list_elem_of_omap. by exists ch. }
  assert (Ht2 : nodesTree w2 = nodesTree w) by (destruct Hext02; congruence).
  assert (Hr2 : resolve (nodesTree w2) (elt_nodeName E2) = Ok (Some r))
    by (rewrite Ht2, HN2; exact Hr).
  assert (Hd2 : deref (nodesTree w2) r = Some node) by (rewrite Ht2; exact Hd).
  rewrite (explodeNode_run (S depth) i w2 E2 r node HE2 Hr2 Hd2).
  rewrite Hcs.
  cut ((set_show i false ;; set_exploded i true ;;
        forEach (dict_values cs) (explodeNode_child (S depth) i)) w2 = (Ok tt, w2)).
  { intros K. rewrite (bind_Ok _ _ _ _ _ K). by apply renderLinks_noop. }
  rewrite (bind_Ok _ _ _ _ _ (set_show_noop _ _ _ _ HE2 Hs2)).
  rewrite (bind_Ok _ _ _ _ _ (set_exploded_noop _ _ _ _ HE2 Hx2)).
  apply forEach_noop, Forall_forall. intros ch Hin_ch.
  destruct (Hch ch Hin_ch) as (c & Hc & Hsh & Hset).
  apply (explodeNode_child_again depth i ch w2 c E2 Hc); [|done|].
  { exact (shown_exploded_ext C w1 w2 c Hext2 Hsh). }
  intros N HN. destruct (G2 Hi N HN) as [HN0|HNC].
  - apply (settled_mono C (S depth) w1 w2 c (nb_keys E0)); eauto.
  - apply (settled_among_children C); eauto.
    apply list_elem_of_omap in HNC as (ch' & Hin' & Hj').
    destruct (Hch ch' Hin') as (c' & Hc' & Hsh' & _). simplify_eq.
    exact (shown_exploded_ext C w1 w2 N Hext2 Hsh').
Qed.

(** Exploding a leaf only hands the pending crosslinks to the display. *)
Lemma explodeNode_leaf depth i w e r node :
  at_index (nodesList w) i = Some e →
  resolve (nodesTree w) (elt_nodeName e) = Ok (Some r) →
  deref (nodesTree w) r = Some node → children node = None →
  explodeNode depth i w = renderLinks w.
Proof.
  intros He Hr Hd Hcs. rewrite (explodeNode_run depth i w e r node He Hr Hd).
  by rewrite Hcs.
Qed.

(** C6.  Idempotence of explosion.  In a world whose node records are well
    formed (each record's layer is as deep as its name has segments, and the
    record at the index of a tree node carries the path of that node),
    whenever exploding the node record [i] completes, exploding it again
    completes and changes nothing at all: the flags [show] and [exploded] of
    every record, the neighbor tables, the list of links, [numLinks] and the
    crosslink dictionary are those the first explosion left.  And exploding
    a record whose tree node has no children completes and leaves the node
    records, the link records, [numLinks] and the dictionary as they were;
    nothing at all changes when no crosslinks of an aborted explosion were
    pending. *)
Theorem explodeNode_idempotent (depth : nat) (i : Z) (w : World) :
  wf_layers w → wf_index w →
  (∀ w1, explodeNode (S depth) i w = (Ok tt, w1) →
         explodeNode (S depth) i w1 = (Ok tt, w1)) ∧
  (∀ e r node,
     at_index (nodesList w) i = Some e →
     resolve (nodesTree w) (elt_nodeName e) = Ok (Some r) →
     deref (nodesTree w) r = Some node → children node = None →
     ∃ w', explodeNode depth i w = (Ok tt, w') ∧
           nodesTree w' = nodesTree w ∧ nodesList w' = nodesList w ∧
           all_links w' = all_links w ∧ numLinks w' = numLinks w ∧
           crossLinksDict w' = crossLinksDict w ∧
           (newCrossLinks w = [] → w' = w)).
Proof.
  intros Hl Hi. split.
  - intros w1 H.
    destruct (explodeNode_Ok_inv _ _ _ _ H) as (e & r & node & He & Hr & Hd).
    rewrite (explodeNode_run _ i w e r node He Hr Hd) in H.
    bind_inv H u s1 Hbody. destruct u.
    assert (Hw1 : w1 = snd (renderLinks s1)) by by rewrite H.
    destruct (children node) as [cs|] eqn:Hcs.
    + destruct (wf_children w i e r node cs Hl Hi He Hr Hd Hcs) as (Hty & Hni).
      rewrite Hw1. by apply (explodeNode_twice depth i w s1 e r node cs).
    + unfold ret in Hbody. injection Hbody as <-. subst w1.
      rewrite (explodeNode_leaf _ i (snd (renderLinks w)) e r node); try done.
      by apply renderLinks_noop.
  - intros e r node He Hr Hd Hcs. exists (snd (renderLinks w)).
    rewrite (explodeNode_leaf depth i w e r node He Hr Hd Hcs).
    split; [done|]. split; [done|]. split; [done|].
    split; [unfold all_links; simpl; by rewrite app_nil_r|].
    split; [done|]. split; [done|].
    intros Hn. pose proof (renderLinks_noop w Hn) as K. by rewrite K.
Qed.
(** The example world is well formed. *)
Lemma ex_world_metro_wf_layers : wf_layers ex_world_metro.
Proof.
  unfold wf_layers. apply (bool_decide_unpack _). vm_compute. exact I.
Qed.

Lemma ex_world_metro_wf_index : wf_index ex_world_metro.
Proof. apply wf_index_check. vm_compute. reflexivity. Qed.

(** The metro [A] of the example, exploded twice, and the router
    [A_p1_r1], a leaf, exploded. *)
Lemma explodeNode_idempotent_witness :
  (let w1 := snd (explodeNode 10 0 ex_world_metro) in
   explodeNode 10 0 w1 = (Ok tt, w1)) ∧
  explodeNode 10 5 ex_world_metro = (Ok tt, ex_world_metro).
Proof.
  split.
  - intros w1.
    assert (H : explodeNode 10 0 ex_world_metro = (Ok tt, w1))
      by (vm_compute; reflexivity).
    exact (proj1 (explodeNode_idempotent 9 0 ex_world_metro
                    ex_world_metro_wf_layers ex_world_metro_wf_index) w1 H).
  - pose (e := mkNodeElt "A_p1_r1" "router" [(6, 6%nat)] false false
                 [("utilization", VNumber 2); ("capacity", VNumber 1)]).
    pose (node := mkNode (Some 5) "r1" false None None 0).
    assert (He : at_index (nodesList ex_world_metro) 5 = Some e)
      by (vm_compute; reflexivity).
    assert (Hr : resolve (nodesTree ex_world_metro) (elt_nodeName e)
                 = Ok (Some ["A"; "p1"; "r1"])) by (vm_compute; reflexivity).
    assert (Hd : deref (nodesTree ex_world_metro) ["A"; "p1"; "r1"] = Some node)
      by (vm_compute; reflexivity).
    assert (Hn : newCrossLinks ex_world_metro = []) by (vm_compute; reflexivity).
    destruct (proj2 (explodeNode_idempotent 10 5 ex_world_metro
                       ex_world_metro_wf_layers ex_world_metro_wf_index)
                e ["A"; "p1"; "r1"] node He Hr Hd eq_refl)
      as (w' & Hrun & _ & _ & _ & _ & _ & Hsame).
    rewrite Hrun, (Hsame Hn). reflexivity.
Defined.

(** ** The climb of [buildUpCrosslinks] ends *)

Lemma wf_index_ext C w w' : world_ext C w w' → wf_index w → wf_index w'.
Proof.
  intros Hext Hwf r n cs k ch j Hd Hcs Hin Hj.
  pose proof Hext as (Ht & _ & _). rewrite Ht in Hd.
  destruct (Hwf r n cs k ch j Hd Hcs Hin Hj) as (e & He & Hs).
  destruct (world_ext_elt C w w' j e Hext He) as (e' & He' & Hn & _).
  exists e'. split; [done|]. by rewrite Hn.
Qed.

Lemma after_buildCrosslinks_ext a b l1 l2 w :
  crossLink1 w a b = Some l1 → crossLink2 w a b = Some l2 →
  world_ext [a] w (after_buildCrosslinks a b l1 l2 w).
Proof.
  intros H1 H2.
  pose proof (buildCrosslinks_ext [a] a b (list_elem_of_here a []) w) as K.
  unfold post in K. by rewrite buildCrosslinks_run, H1, H2 in K.
Qed.

Lemma deref_parent t r n :
  deref t r = Some n → ∃ p, deref t (parent r) = Some p.
Proof.
  destruct r as [|k r _] using rev_ind; [by exists n|].
  unfold parent. rewrite removelast_last, deref_app.
  destruct (deref t r) as [p|]; [by exists p|done].
Qed.

Lemma resolve_at t name r n :
  split underscore name = r → (length r ≤ 3)%nat → deref t r = Some n →
  resolve t name = Ok (Some r).
Proof.
  intros Hs Hl Hd. rewrite resolve_outcome by (by rewrite Hs). cbv zeta.
  by rewrite Hs, Hd.
Qed.

(** The record of a parent with an index, and what its name resolves to. *)
Lemma parent_record w r node p j :
  wf_index w → index (nodesTree w) = None →
  deref (nodesTree w) r = Some node → (length r ≤ 3)%nat →
  deref (nodesTree w) (parent r) = Some p → index p = Some j →
  ∃ e, at_index (nodesList w) j = Some e ∧
       resolve (nodesTree w) (elt_nodeName e) = Ok (Some (parent r)) ∧
       (S (length (parent r)) ≤ length r)%nat.
Proof.
  intros Hwf Hroot Hd Hlen Hp Hj.
  destruct r as [|k r _] using rev_ind.
  { simpl in Hp. injection Hp as <-. congruence. }
  unfold parent in *. rewrite removelast_last in *. rewrite length_app in *. simpl in *.
  destruct r as [|k' q _] using rev_ind.
  { simpl in Hp. injection Hp as <-. congruence. }
  rewrite deref_app in Hp. destruct (deref (nodesTree w) q) as [pp|] eqn:Epp; [|done].
  simpl in Hp. destruct (children pp) as [cs|] eqn:Ecs; [|done].
  destruct (dict_get k' cs) as [c|] eqn:Ec; [|done]. injection Hp as ->.
  destruct (Hwf q pp cs k' p j Epp Ecs (dict_get_elem_of _ _ _ Ec) Hj) as (e & He & Hs).
  exists e. split; [done|]. split; [|lia].
  apply resolve_at with p; [done|lia|].
  rewrite deref_app, Epp. simpl. by rewrite Ecs, Ec.
Qed.

(** A climb that ends below a parent without index has found that parent
    in the hierarchy. *)
Lemma climb_no_index m n w created why w' :
  climb m n w created why w' →
  ∀ p, why = AtNoIndex p →
    ∃ pn, deref (nodesTree w) p = Some pn ∧ index pn = None.
Proof.
  induction 1 as [| |n w e1 e2 l1 l2 r p0 H1 H2 Hc Ht Hl1 Hl2 Hr Hp Hi
                  |n w e1 e2 l1 l2 r p0 n' created why w' H1 H2 Hc Ht Hl1 Hl2 Hr Hp Hi
                     Hclimb IH]; intros p Hwhy; try discriminate.
  - injection Hwhy as <-. by exists p0.
  - exact (IH p Hwhy).
Qed.

(** C8, as the code has it.  Let indices and names agree, let the root have
    no index, and let [buildUpCrosslinks] be called for a child and a
    neighbor whose records exist, the neighbor standing for a node of the
    hierarchy.  Then the upward recursion ends: with room for as many calls
    as the neighbor is deep, it returns, and the result does not depend on
    the room left.  It has climbed from the neighbor parent by parent,
    creating a crosslink pair for each neighbor passed, and has stopped at an
    existing crosslink, at a node of the type of the child, or below a
    parent without index: the hierarchy root, when every node below the root
    has an index. *)
Theorem buildUpCrosslinks_climb_ends (mainIndex neighborIndex : Z) (w : World)
    (e1 e2 : NodeElt) (r : ref) (node : Node) :
  wf_index w → index (nodesTree w) = None →
  at_index (nodesList w) mainIndex = Some e1 →
  at_index (nodesList w) neighborIndex = Some e2 →
  resolve (nodesTree w) (elt_nodeName e2) = Ok (Some r) →
  deref (nodesTree w) r = Some node →
  ∃ created why w',
    climb mainIndex neighborIndex w created why w' ∧
    (length created ≤ length r)%nat ∧
    (∀ depth, (length r ≤ depth)%nat →
       buildUpCrosslinks depth mainIndex neighborIndex w = (Ok tt, w')) ∧
    ((∀ q nq, q ≠ [] → deref (nodesTree w) q = Some nq → is_Some (index nq)) →
     ∀ p, why = AtNoIndex p → p = []).
Proof.
  cut (∀ (k : nat) (mainIndex neighborIndex : Z) (w : World)
         (e1 e2 : NodeElt) (r : ref) (node : Node),
         wf_index w → index (nodesTree w) = None →
         at_index (nodesList w) mainIndex = Some e1 →
         at_index (nodesList w) neighborIndex = Some e2 →
         resolve (nodesTree w) (elt_nodeName e2) = Ok (Some r) →
         deref (nodesTree w) r = Some node →
         (length r ≤ k)%nat →
         ∃ created why w',
           climb mainIndex neighborIndex w created why w' ∧
           (length created ≤ length r)%nat ∧
           ∀ depth, (length r ≤ depth)%nat →
             buildUpCrosslinks depth mainIndex neighborIndex w = (Ok tt, w')).
  { intros G Hwf Hroot H1 H2 Hr Hd.
    destruct (G (length r) mainIndex neighborIndex w e1 e2 r node)
      as (created & why & w' & Hclimb & Hlen & Hrun); try done.
    exists created, why, w'. split; [done|]. split; [done|]. split; [done|].
    intros Hall p Hwhy.
    destruct (climb_no_index _ _ _ _ _ _ Hclimb p Hwhy) as (pn & Hpn & Hi).
    destruct (decide (p = [])) as [->|Hne]; [done|].
    destruct (Hall p pn Hne Hpn) as [j Hj]. congruence. }
  clear.
  induction k as [|k IH]; intros m n w e1 e2 r node Hwf Hroot H1 H2 Hr Hd Hk.
  { pose proof (resolve_ref _ _ _ Hr) as Er.
    pose proof (split_nonempty underscore (elt_nodeName e2)) as Hne.
    rewrite <- Er in Hne. destruct r; [done|simpl in Hk; lia]. }
  assert (Hpos : (1 ≤ length r)%nat).
  { pose proof (resolve_ref _ _ _ Hr) as Er.
    pose proof (split_nonempty underscore (elt_nodeName e2)) as Hne.
    rewrite <- Er in Hne. destruct r; [done|simpl; lia]. }
  pose proof (resolve_Some_length _ _ _ Hr) as Hlen3.
  rewrite <- (resolve_ref _ _ _ Hr) in Hlen3.
  destruct (crossLinksDict w !! cl_key m n) as [v|] eqn:Ec.
  { exists [], (AtCached n), w. split; [|split; [simpl; lia|]].
    - eapply climb_cached; [done|done|]. by rewrite Ec.
    - intros [|depth] Hdepth; [lia|].
      apply (proj1 (buildUpCrosslinks_level depth m n w e1 e2 H1 H2)).
      left. by rewrite Ec. }
  destruct (decide (elt_type e1 = elt_type e2)) as [Ety|Ety].
  { exists [], (AtSameType n), w. split; [|split; [simpl; lia|]].
    - by eapply climb_same_type.
    - intros [|depth] Hdepth; [lia|].
      apply (proj1 (buildUpCrosslinks_level depth m n w e1 e2 H1 H2)). by right. }
  destruct (proj2 (buildUpCrosslinks_level 0 m n w e1 e2 H1 H2) Ec Ety)
    as (l1 & l2 & Hl1 & Hl2 & _).
  destruct (deref_parent _ _ _ Hd) as [p Hp].
  assert (Hlevel : ∀ depth,
            buildUpCrosslinks (S depth) m n w =
            match index p with
            | None => (Ok tt, after_buildCrosslinks m n l1 l2 w)
            | Some new_neighborIndex =>
                buildUpCrosslinks depth m new_neighborIndex
                  (after_buildCrosslinks m n l1 l2 w)
            end).
  { intros depth.
    destruct (proj2 (buildUpCrosslinks_level depth m n w e1 e2 H1 H2) Ec Ety)
      as (l1' & l2' & Hl1' & Hl2' & Heq).
    rewrite Hl1 in Hl1'. rewrite Hl2 in Hl2'. injection Hl1' as <-. injection Hl2' as <-.
    exact (Heq r p Hr Hp). }
  destruct (index p) as [n'|] eqn:Ei.
  - set (w1 := after_buildCrosslinks m n l1 l2 w).
    pose proof (after_buildCrosslinks_ext m n l1 l2 w Hl1 Hl2) as Hext. fold w1 in Hext.
    destruct (parent_record w r node p n' Hwf Hroot Hd Hlen3 Hp Ei) as (e' & He' & Hr' & Hshort).
    destruct (world_ext_elt [m] w w1 m e1 Hext H1) as (e1' & H1' & _).
    destruct (world_ext_elt [m] w w1 n' e' Hext He') as (e'' & He'' & Hname & _).
    destruct (IH m n' w1 e1' e'' (parent r) p) as (created & why & w' & Hclimb & Hcl & Hrun);
      try done.
    + by eapply wf_index_ext.
    + by rewrite Hname.
    + lia.
    + exists (n :: created), why, w'. split; [|split; [simpl; lia|]].
      * by eapply (climb_up m n w e1 e2 l1 l2 r p n').
      * intros [|depth] Hdepth; [lia|]. rewrite Hlevel. apply Hrun. lia.
  - exists [n], (AtNoIndex (parent r)), (after_buildCrosslinks m n l1 l2 w).
    split; [|split; [simpl; lia|]].
    + by eapply (climb_top m n w e1 e2 l1 l2 r p).
    + intros [|depth] Hdepth; [lia|]. by rewrite Hlevel.
Qed.

(** From the router [A_p1_r1] (index 5) of the example and the pop [B_p1]
    (index 4): a pair is created for the pop, then for its parent, the metro
    [B] (index 1), whose parent is the root; two calls suffice. *)
Lemma buildUpCrosslinks_climb_ends_witness :
  ∃ created why w',
    climb 5 4 ex_world_metro created why w' ∧
    buildUpCrosslinks 2 5 4 ex_world_metro = (Ok tt, w') ∧
    crossLinksDict ex_world_metro !! cl_key 5 1 = None ∧
    is_Some (crossLinksDict w' !! cl_key 5 4) ∧
    is_Some (crossLinksDict w' !! cl_key 5 1).
Proof.
  pose (e1 := mkNodeElt "A_p1_r1" "router" [(6, 6%nat)] false false
                [("utilization", VNumber 2); ("capacity", VNumber 1)]).
  pose (e2 := mkNodeElt "B_p1" "pop" [(3, 5%nat)] false false
                [("utilization", VNumber 5); ("capacity", VNumber 5)]).
  pose (node := mkNode (Some 4) "p1" false None
                  (Some [("r1", mkNode (Some 8) "r1" false None None 0)]) 1).
  assert (Hroot : index (nodesTree ex_world_metro) = None) by (vm_compute; reflexivity).
  assert (H1 : at_index (nodesList ex_world_metro) 5 = Some e1)
    by (vm_compute; reflexivity).
  assert (H2 : at_index (nodesList ex_world_metro) 4 = Some e2)
    by (vm_compute; reflexivity).
  assert (Hr : resolve (nodesTree ex_world_metro) (elt_nodeName e2) = Ok (Some ["B"; "p1"]))
    by (vm_compute; reflexivity).
  assert (Hd : deref (nodesTree ex_world_metro) ["B"; "p1"] = Some node)
    by (vm_compute; reflexivity).
  destruct (buildUpCrosslinks_climb_ends 5 4 ex_world_metro e1 e2 ["B"; "p1"] node
              ex_world_metro_wf_index Hroot H1 H2 Hr Hd)
    as (created & why & w' & Hclimb & _ & Hrun & _).
  pose proof (Hrun 2%nat (le_n 2)) as Hrun2.
  exists created, why, w'. split; [exact Hclimb|]. split; [exact Hrun2|].
  assert (Hw' : w' = snd (buildUpCrosslinks 2 5 4 ex_world_metro))
    by (rewrite Hrun2; reflexivity).
  rewrite Hw'.
  split; [vm_compute; reflexivity|].
  split; vm_compute; eexists; reflexivity.
Defined.

(** ** The recursive passes of [NodesTree] *)

(** Induction on the hierarchy: a property holds of a node when it holds of
    all its children. *)
Lemma Node_children_ind (P : Node → Prop) :
  (∀ n, (∀ cs kc, children n = Some cs → kc ∈ cs → P (snd kc)) → P n) → ∀ n, P n.
Proof.
  intros H. fix IH 1. intros [i nm f fb cs nc]. apply H. simpl.
  destruct cs as [cs|]; [|intros ? ? [=]].
  assert (Hall : Forall (fun kc : string * Node => P (snd kc)) cs).
  { clear -IH. revert cs.
    refine (fix go (cs : list (string * Node)) :=
              match cs with
              | [] => List.Forall_nil _
              | (k, c) :: cs' => @List.Forall_cons _ _ (k, c) cs' (IH c) (go cs')
              end). }
  clear IH. intros cs' kc [= <-] Hin. rewrite Forall_forall in Hall. by apply Hall.
Qed.

Lemma filterOutRecursive_eq label n :
  filterOutRecursive label n =
  match children n with
  | None => n
  | Some cs =>
      set_children
        (Some (map (fun kc : string * Node =>
                      let (k, c) := kc in
                      match filteredBy c with
                      | None =>
                          (k, set_children
                                (children (filterOutRecursive label c))
                                (markNode label (filterOut c)))
                      | Some _ => (k, c)
                      end) cs))
        n
  end.
Proof. by destruct n. Qed.

Lemma filterInRecursive_eq label n :
  filterInRecursive label n =
  match children n with
  | None => n
  | Some cs =>
      set_children
        (Some (map (fun kc : string * Node =>
                      let (k, c) := kc in
                      if decide (filteredBy c = Some label) then
                        (k, set_children
                              (children (filterInRecursive label c))
                              (unmarkNode (filterIn c)))
                      else (k, c)) cs))
        n
  end.
Proof. by destruct n. Qed.

Lemma fresh_below_eq label n :
  fresh_below label n =
  match children n with
  | None => true
  | Some cs =>
      forallb (fun kc : string * Node =>
                 let (k, c) := kc in
                 match filteredBy c with
                 | None => negb (filtered c) && fresh_below label c
                 | Some l => negb (bool_decide (l = label))
                 end) cs
  end.
Proof. by destruct n. Qed.

Lemma map_id_on {A} (f : A → A) (l : list A) :
  (∀ x, x ∈ l → f x = x) → map f l = l.
Proof.
  induction l as [|x l IH]; intros H; simpl; [done|].
  rewrite H by by left. f_equal. apply IH. intros y Hy. apply H. by right.
Qed.

Lemma set_children_twice cs cs' n :
  set_children cs (set_children cs' n) = set_children cs n.
Proof. done. Qed.

(** The way back.  After [filterInRecursive] on a node
    [N] for the label of a filter, a descendant reached from [N] through
    nodes that all carry this label (the descendant included) is unfiltered
    and without label; every other descendant is exactly as it was. *)
Theorem filterInRecursive_releases_labelled_chain label (N : Node) (r : ref) (d : Node) :
  r ≠ [] →
  deref N r = Some d →
  (labelled_path label N r = true →
     ∃ d', deref (filterInRecursive label N) r = Some d' ∧
           filtered d' = false ∧ filteredBy d' = None) ∧
  (labelled_path label N r = false →
     deref (filterInRecursive label N) r = Some d).
Proof.
  intros Hr Hd. rewrite (filterInRecursive_deref_full label r N Hr), Hd. simpl.
  split; intros ->; [|done].
  eexists. split; [done|]. split; [|done].
  simpl. unfold filterIn. by destruct (filtered d) eqn:E.
Qed.

Lemma filterInRecursive_releases_labelled_chain_witness :
  ∃ d', deref (filterInRecursive "metro_load" (filterOutRecursive "metro_load" ex_tree))
          ["A"; "p2"; "r1"] = Some d' ∧
        filtered d' = false ∧ filteredBy d' = None.
Proof.
  refine (proj1 (filterInRecursive_releases_labelled_chain "metro_load"
            (filterOutRecursive "metro_load" ex_tree) ["A"; "p2"; "r1"]
            (mkNode (Some 7) "r1" true (Some "metro_load") None 0) _ _) _).
  - discriminate.
  - vm_compute; reflexivity.
  - vm_compute; reflexivity.
Defined.

(** Each of the two recursive passes is idempotent: run a second time with
    the same label, it changes nothing.  After [filterOutRecursive] no child
    is left without label; after [filterInRecursive] none carries the
    label. *)
Theorem recursive_passes_idempotent label (n : Node) :
  filterOutRecursive label (filterOutRecursive label n) = filterOutRecursive label n ∧
  filterInRecursive label (filterInRecursive label n) = filterInRecursive label n.
Proof.
  split.
  - rewrite (filterOutRecursive_eq label n).
    destruct (children n) as [cs|] eqn:Ecs; [|by rewrite filterOutRecursive_eq, Ecs].
    rewrite filterOutRecursive_eq. simpl. rewrite set_children_twice. f_equal. f_equal.
    apply map_id_on. intros [k c] Hin.
    apply list_elem_of_In, in_map_iff in Hin as ([k0 c0] & Heq & _).
    destruct (filteredBy c0) eqn:E0; simplify_eq; simpl; [by rewrite E0|done].
  - rewrite (filterInRecursive_eq label n).
    destruct (children n) as [cs|] eqn:Ecs; [|by rewrite filterInRecursive_eq, Ecs].
    rewrite filterInRecursive_eq. simpl. rewrite set_children_twice. f_equal. f_equal.
    apply map_id_on. intros [k c] Hin.
    apply list_elem_of_In, in_map_iff in Hin as ([k0 c0] & Heq & _).
    destruct (decide (filteredBy c0 = Some label)) as [E0|E0]; simplify_eq; simpl.
    + done.
    + by rewrite decide_False.
Qed.

Lemma filteredBy_marked cs label n :
  filteredBy (set_children cs (markNode label n)) = Some label.
Proof. done. Qed.

Lemma child_round_trip label c :
  filteredBy c = None → filtered c = false →
  filterInRecursive label (filterOutRecursive label c) = c →
  set_children
    (children (filterInRecursive label
                 (set_children (children (filterOutRecursive label c))
                    (markNode label (filterOut c)))))
    (unmarkNode (filterIn (set_children (children (filterOutRecursive label c))
                             (markNode label (filterOut c))))) = c.
Proof.
  intros El Hnf IH. rewrite filterInRecursive_children.
  change (children (set_children (children (filterOutRecursive label c))
                      (markNode label (filterOut c))))
    with (children (filterOutRecursive label c)).
  rewrite <- filterInRecursive_children, IH.
  destruct c; simpl in *. by subst.
Qed.

(** Filtering a subtree out and in again with one label is a round trip on
    a part of the hierarchy no filter has touched: [filterInRecursive] undoes
    [filterOutRecursive] when, below the node and following children without
    label, nothing is filtered and no child carries the label yet. *)
Theorem filterInRecursive_undoes_filterOutRecursive label (n : Node) :
  fresh_below label n = true →
  filterInRecursive label (filterOutRecursive label n) = n.
Proof.
  induction n as [n IH] using Node_children_ind. intros Hf.
  rewrite fresh_below_eq in Hf. rewrite (filterOutRecursive_eq label n).
  destruct (children n) as [cs|] eqn:Ecs; [|by rewrite filterInRecursive_eq, Ecs].
  rewrite filterInRecursive_eq.
  change (children (set_children ?x n)) with x. cbv beta iota.
  rewrite set_children_twice, map_map.
  rewrite forallb_forall in Hf.
  rewrite map_id_on; [destruct n; simpl in *; by subst|].
  intros [k c] Hin. specialize (IH cs (k, c) eq_refl Hin). simpl in IH.
  apply list_elem_of_In, Hf in Hin.
  destruct (filteredBy c) as [l|] eqn:El.
  - apply negb_true_iff, bool_decide_eq_false in Hin.
    rewrite El. rewrite decide_False by congruence. done.
  - apply andb_true_iff in Hin as [Hnf Hfr]. apply negb_true_iff in Hnf.
    rewrite filteredBy_marked, decide_True by done. f_equal.
    by apply child_round_trip; [..|apply IH].
Qed.

Lemma filterInRecursive_undoes_filterOutRecursive_witness :
  filterInRecursive "metro_load" (filterOutRecursive "metro_load" ex_tree) = ex_tree.
Proof.
  apply (filterInRecursive_undoes_filterOutRecursive "metro_load" ex_tree).
  vm_compute; reflexivity.
Defined.

(** ** The windows of [FilterGroup] *)

Lemma getSubArray_spec {A} (type_of : A → option string) (array : list A)
    (layer : string) :
  match getSubArray type_of array layer with
  | None => ∀ x, x ∈ array → type_of x ≠ Some layer
  | Some sub =>
      ∃ pre x rest,
        array = pre ++ sub ∧ sub = x :: rest ∧ type_of x = Some layer ∧
        (∀ y, y ∈ pre → type_of y ≠ Some layer) ∧
        (∀ y, y ∈ array → type_of y = Some layer → y ∈ sub)
  end.
Proof.
  induction array as [|x array IH]; simpl.
  - intros x Hx. by apply elem_of_nil in Hx.
  - case_decide as Hx.
    + exists [], x, array. split_and!; try done.
      intros y Hy. by apply elem_of_nil in Hy.
    + destruct (getSubArray type_of array layer) as [sub|].
      * destruct IH as (pre & y & rest & -> & -> & Hy & Hpre & Hall).
        exists (x :: pre), y, rest. split_and!; try done.
        -- intros z [->|Hz]%elem_of_cons; auto.
        -- intros z [->|Hz]%elem_of_cons Hl; [done|]. by apply Hall.
      * intros y [->|Hy]%elem_of_cons; auto.
Qed.

(** [getSubArray] returns the part of the array from the first element of
    the layer on, so every element of the layer is in it and none before it;
    it returns [undefined] exactly when no element has the layer. *)
Theorem getSubArray_window {A} (type_of : A → option string) (array : list A)
    (layer : string) :
  match getSubArray type_of array layer with
  | None => ∀ x, x ∈ array → type_of x ≠ Some layer
  | Some sub =>
      ∃ pre x rest,
        array = pre ++ sub ∧ sub = x :: rest ∧ type_of x = Some layer ∧
        (∀ y, y ∈ pre → type_of y ≠ Some layer) ∧
        (∀ y, y ∈ array → type_of y = Some layer → y ∈ sub)
  end.
Proof. apply getSubArray_spec. Qed.

Lemma getSubArray_None {A} (type_of : A → option string) (array : list A) layer :
  (∀ x, x ∈ array → type_of x ≠ Some layer) → getSubArray type_of array layer = None.
Proof.
  induction array as [|x array IH]; intros H; simpl; [done|].
  rewrite decide_False by (apply H; by left). apply IH. intros y Hy. apply H. by right.
Qed.

Section UnknownLayer.

Variable StringToNumber : string → option Z.
Variable RegExp : string → option (string → bool).

(** A filter for a layer that no record has cannot run: the window is
    [undefined] and reading its length throws a [TypeError], before any node
    or link was looked at. *)
Theorem filter_unknown_layer_throws (F : Filter) (w : World) :
  ((∀ e, e ∈ nodesList w → elt_type e ≠ layer F) →
   filterNodes StringToNumber RegExp F w = (Throw TypeError, w)) ∧
  ((∀ l, l ∈ linksList w → link_type l ≠ layer F) →
   fst (filterLinks StringToNumber RegExp F w) = Throw TypeError ∧
   linksList (snd (filterLinks StringToNumber RegExp F w)) = linksList w ∧
   nodesList (snd (filterLinks StringToNumber RegExp F w)) = nodesList w ∧
   nodesTree (snd (filterLinks StringToNumber RegExp F w)) = nodesTree w).
Proof.
  split.
  - intros H. unfold filterNodes, getSubArrayOfSortedNodes. rewrite bind_gets.
    rewrite getSubArray_None; [done|].
    intros i _. destruct (nodesList w !! i) as [e|] eqn:Ee; [|done].
    simpl. intros [= Ht]. eapply H; [|exact Ht]. by eapply list_elem_of_lookup_2.
  - intros H.
    assert (Hnone : ∀ snap, getSubArray (fun i => link_type <$> linksList w !! i)
                              snap (layer F) = None).
    { intros snap. apply getSubArray_None.
      intros i _. destruct (linksList w !! i) as [l|] eqn:El; [|done].
      simpl. intros [= Ht]. eapply H; [|exact Ht]. by eapply list_elem_of_lookup_2. }
    assert (E : ∃ w', filterLinks StringToNumber RegExp F w = (Throw TypeError, w') ∧
                      linksList w' = linksList w ∧ nodesList w' = nodesList w ∧
                      nodesTree w' = nodesTree w).
    { unfold filterLinks, getSubArrayOfSortedLinks, bind, gets, modify, ret. simpl.
      destruct (decide _); simpl; rewrite Hnone; simpl; by eexists. }
    destruct E as (w' & -> & E1 & E2 & E3). done.
Qed.

End UnknownLayer.

(** A filter for a layer ["region"] on the example, which has none. *)
Lemma filter_unknown_layer_throws_witness :
  let F := mkFilter QUANT "utilization" "region" (VNumber 0) (VNumber 5) "" false in
  filterNodes ex_StringToNumber ex_RegExp F ex_world = (Throw TypeError, ex_world) ∧
  fst (filterLinks ex_StringToNumber ex_RegExp F ex_world) = Throw TypeError.
Proof.
  intros F.
  assert (Hn : ∀ e, e ∈ nodesList ex_world → elt_type e ≠ layer F).
  { assert (E : nodesList ex_world = ex_nodesList) by (vm_compute; reflexivity).
    rewrite E. intros e He. unfold ex_nodesList in He.
    repeat (apply elem_of_cons in He as [->|He]; [discriminate|]).
    by apply elem_of_nil in He. }
  assert (Hl : ∀ l, l ∈ linksList ex_world → link_type l ≠ layer F).
  { assert (E : linksList ex_world = ex_linksList) by (vm_compute; reflexivity).
    rewrite E. intros l Hl. unfold ex_linksList in Hl.
    repeat (apply elem_of_cons in Hl as [->|Hl]; [discriminate|]).
    by apply elem_of_nil in Hl. }
  split.
  - exact (proj1 (filter_unknown_layer_throws ex_StringToNumber ex_RegExp F ex_world) Hn).
  - exact (proj1 (proj2 (filter_unknown_layer_throws ex_StringToNumber ex_RegExp F
                           ex_world) Hl)).
Defined.

(** ** The sorted snapshots *)

Lemma layer_sorted_perm {A} (type_of : A → string) (l : list A) :
  layer_sorted type_of l ≡ₚ seq 0 (length l).
Proof. apply sort_perm. Qed.

Lemma layer_sorted_sorted {A} (type_of : A → string) (l : list A) :
  (∀ a, a ∈ l → is_Some (layerOrder (type_of a))) →
  StronglySorted (fun i j => (order_at type_of l i ≤ order_at type_of l j)%Z)
    (layer_sorted type_of l).
Proof.
  intros Hty. unfold layer_sorted. apply sort_sorted. intros i j Hi Hj.
  apply elem_of_seq in Hi, Hj.
  destruct (lookup_lt_is_Some_2 l i) as [a Ha]; [lia|].
  destruct (lookup_lt_is_Some_2 l j) as [b Hb]; [lia|].
  unfold order_at. rewrite Ha, Hb. simpl.
  destruct (Hty a (list_elem_of_lookup_2 _ _ _ Ha)) as [x Hx].
  destruct (Hty b (list_elem_of_lookup_2 _ _ _ Hb)) as [y Hy].
  unfold sortByLayerFunction. by rewrite Hx, Hy.
Qed.

(** The snapshots the [FilterGroup] constructor takes hold every position of
    the node list and of the link list exactly once, and the cached length is
    the length of the link list; when every type is a key of
    [nv.layerOrder], each snapshot ascends in layer order.  The lists and the
    hierarchy are not touched. *)
Theorem FilterGroup_new_snapshots (w : World) :
  let w' := snd (FilterGroup_new w) in
  FilterGroup_new w = (Ok tt, w') ∧
  nodesTree w' = nodesTree w ∧ nodesList w' = nodesList w ∧
  linksList w' = linksList w ∧
  layer_sorted_nodes w' ≡ₚ seq 0 (length (nodesList w)) ∧
  layer_sorted_links w' ≡ₚ seq 0 (length (linksList w)) ∧
  layerSortedLinksLength w' = length (linksList w) ∧
  ((∀ e, e ∈ nodesList w → is_Some (layerOrder (elt_type e))) →
   StronglySorted
     (fun i j => (order_at elt_type (nodesList w) i ≤ order_at elt_type (nodesList w) j)%Z)
     (layer_sorted_nodes w')) ∧
  ((∀ l, l ∈ linksList w → is_Some (layerOrder (link_type l))) →
   StronglySorted
     (fun i j => (order_at link_type (linksList w) i ≤ order_at link_type (linksList w) j)%Z)
     (layer_sorted_links w')).
Proof.
  intros w'. subst w'. unfold FilterGroup_new, bind, modify. simpl.
  split_and!; try done.
  - apply layer_sorted_perm.
  - apply layer_sorted_perm.
  - apply layer_sorted_sorted.
  - apply layer_sorted_sorted.
Qed.

(** On the example every type is known, so both snapshots ascend. *)
Lemma FilterGroup_new_snapshots_witness :
  layer_sorted_nodes ex_world = [5; 6; 7; 8; 2; 3; 4; 0; 1]%nat ∧
  StronglySorted
    (fun i j => (order_at elt_type ex_nodesList i ≤ order_at elt_type ex_nodesList j)%Z)
    (layer_sorted_nodes ex_world).
Proof.
  split; [vm_compute; reflexivity|].
  refine (proj1 (proj2 (proj2 (proj2 (proj2 (proj2 (proj2 (proj2
    (FilterGroup_new_snapshots
       (mkWorld ex_tree ex_nodesList ex_linksList 12 ∅ [] None [] [] 0 [] [])))))))))
     _).
  intros e He. simpl in He. unfold ex_nodesList in He.
  repeat (apply elem_of_cons in He as [->|He]; [by eexists|]).
  by apply elem_of_nil in He.
Defined.

(** ** The cache of the sorted links *)

Lemma getSubArrayOfSortedLinks_current (layer : string) (w : World) :
  links_cache_current w →
  let r := getSubArrayOfSortedLinks layer w in
  links_cache_current (snd r) ∧
  linksList (snd r) = linksList w ∧ nodesList (snd r) = nodesList w ∧
  nodesTree (snd r) = nodesTree w ∧
  layerSortedLinksLength (snd r) = numLinks w ∧
  layer_sorted_links (snd r) ≡ₚ seq 0 (length (linksList w)) ∧
  fst r = Ok (getSubArray (fun i => link_type <$> linksList w !! i)
                (layer_sorted_links (snd r)) layer).
Proof.
  intros (Hn & Hp & Hle & Hcur) r. subst r.
  unfold getSubArrayOfSortedLinks, bind, gets, modify, ret. simpl.
  destruct (decide _) as [Hlt|Hge]; simpl.
  - split_and!; try done.
    + split_and!; try done. intros _. apply layer_sorted_perm.
    + apply layer_sorted_perm.
  - assert (Heq : layerSortedLinksLength w = numLinks w) by lia.
    split_and!; try done. by apply Hcur.
Qed.

(** [getSubArrayOfSortedLinks] on a current cache: afterwards the snapshot
    holds every position of [nv.linksList] exactly once (it is sorted again
    when links were added since it was taken), the cached length is
    [numLinks], the cache is current, and the window returned is cut from
    that snapshot.  The links themselves are not touched. *)
Theorem getSubArrayOfSortedLinks_refreshes (layer : string) (w : World) :
  links_cache_current w →
  let r := getSubArrayOfSortedLinks layer w in
  links_cache_current (snd r) ∧
  linksList (snd r) = linksList w ∧ nodesList (snd r) = nodesList w ∧
  nodesTree (snd r) = nodesTree w ∧
  layerSortedLinksLength (snd r) = numLinks w ∧
  layer_sorted_links (snd r) ≡ₚ seq 0 (length (linksList w)) ∧
  fst r = Ok (getSubArray (fun i => link_type <$> linksList w !! i)
                (layer_sorted_links (snd r)) layer).
Proof. apply getSubArrayOfSortedLinks_current. Qed.

Lemma getSubArrayOfSortedLinks_refreshes_witness :
  layer_sorted_links (snd (getSubArrayOfSortedLinks "router" ex_world))
    ≡ₚ seq 0 (length (linksList ex_world)).
Proof.
  refine (proj1 (proj2 (proj2 (proj2 (proj2 (proj2
    (getSubArrayOfSortedLinks_refreshes "router" ex_world _))))))).
  assert (H1 : numLinks ex_world = length (linksList ex_world))
    by (vm_compute; reflexivity).
  assert (H2 : newCrossLinks ex_world = []) by (vm_compute; reflexivity).
  assert (H3 : layerSortedLinksLength ex_world = numLinks ex_world)
    by (vm_compute; reflexivity).
  assert (H4 : layer_sorted_links ex_world = layer_sorted link_type ex_linksList)
    by (vm_compute; reflexivity).
  assert (H5 : linksList ex_world = ex_linksList) by (vm_compute; reflexivity).
  split; [exact H1|]. split; [exact H2|]. split; [rewrite H3; lia|].
  intros _. rewrite H4, H5. apply layer_sorted_perm.
Defined.

(** ** What an explosion leaves alone *)

Lemma elt_static_refl e : elt_static e e.
Proof. done. Qed.

Lemma Forall2_static_refl l : Forall2 elt_static l l.
Proof. induction l; by constructor. Qed.

Lemma Forall2_static_trans l1 l2 l3 :
  Forall2 elt_static l1 l2 → Forall2 elt_static l2 l3 → Forall2 elt_static l1 l3.
Proof.
  intros H. revert l3. induction H as [|a b l1 l2 Hab H IH]; intros l3 H3.
  - by inversion H3.
  - inversion H3 as [|b' c l2' l3' Hbc H3']; subst. constructor; [|by apply IH].
    destruct Hab as (?&?&?), Hbc as (?&?&?). split_and!; congruence.
Qed.

Lemma Forall2_static_alter f n l :
  (∀ e, elt_static e (f e)) → Forall2 elt_static l (alter f n l).
Proof.
  intros Hf. revert n. induction l as [|a l IH]; intros n; [constructor|].
  destruct n as [|n]; cbn; constructor; auto using Forall2_static_refl, elt_static_refl.
Qed.

Lemma explosion_frame_refl w : explosion_frame w w.
Proof. unfold explosion_frame. split_and!; try done. apply Forall2_static_refl. Qed.

Lemma explosion_frame_trans w1 w2 w3 :
  explosion_frame w1 w2 → explosion_frame w2 w3 → explosion_frame w1 w3.
Proof.
  intros (A1&A2&A3&A4&A5&A6&A7&A8&A9) (B1&B2&B3&B4&B5&B6&B7&B8&B9).
  unfold explosion_frame. split_and!; try congruence.
  - by eapply Forall2_static_trans.
  - by etrans.
  - lia.
Qed.

(** A world that differs from another only in the alerts. *)
Lemma explosion_frame_same w w' :
  nodesTree w' = nodesTree w → nodesList w' = nodesList w →
  linksList w' = linksList w → numLinks w' = numLinks w →
  newCrossLinks w' = newCrossLinks w → currentLayer w' = currentLayer w →
  layer_sorted_nodes w' = layer_sorted_nodes w →
  layer_sorted_links w' = layer_sorted_links w →
  layerSortedLinksLength w' = layerSortedLinksLength w →
  console w' = console w →
  explosion_frame w w'.
Proof.
  intros. unfold explosion_frame, all_links. split_and!; try done.
  - replace (nodesList w') with (nodesList w). apply Forall2_static_refl.
  - by replace (linksList w') with (linksList w);
      replace (newCrossLinks w') with (newCrossLinks w).
  - replace (linksList w') with (linksList w);
      replace (newCrossLinks w') with (newCrossLinks w). lia.
Qed.

Ltac explosion_leaf :=
  unfold explosion_frame, all_links; simpl; split_and!; try done;
  try (apply Forall2_static_alter; by intros []); try lia.

Ltac explosion_framing :=
  frame_using explosion_frame_refl explosion_frame_trans explosion_leaf.

Lemma getNodeByName_explosion_frame name :
  preserves explosion_frame (getNodeByName name).
Proof.
  intros w. unfold post.
  destruct (getNodeByName_spec name w)
    as (w' & -> & ? & ? & ? & ? & ? & ? & ? & ? & ? & ? & ? & _).
  by apply explosion_frame_same.
Qed.

Lemma buildCrosslinks_explosion_frame a b :
  preserves explosion_frame (buildCrosslinks_ a b).
Proof.
  intros w. eapply post_mono; [apply buildCrosslinks_effect|].
  intros [[]|e] w'; [|intros ->; apply explosion_frame_refl].
  intros (l1 & l2 & _ & _ & ->). unfold explosion_frame, all_links. simpl.
  split_and!; try done.
  - eapply Forall2_static_trans; apply Forall2_static_alter; by intros [].
  - rewrite <- !app_assoc. by apply prefix_app, prefix_app_r.
  - rewrite !length_app. simpl. lia.
Qed.

Lemma renderLinks_explosion_frame : preserves explosion_frame renderLinks.
Proof.
  intros w. unfold post, renderLinks, bind, modify, explosion_frame, all_links. simpl.
  split_and!; try done; try apply Forall2_static_refl; rewrite app_nil_r; [done|lia].
Qed.

Lemma buildUpCrosslinks_explosion_frame depth : ∀ a b,
  preserves explosion_frame (buildUpCrosslinks depth a b).
Proof.
  induction depth as [|depth IH]; intros a b;
    [apply preserves_throw, explosion_frame_refl|].
  pose proof getNodeByName_explosion_frame. pose proof buildCrosslinks_explosion_frame.
  assert (∀ x, preserves explosion_frame (node_at x))
    by (intros; apply node_at_keeps, explosion_frame_refl).
  assert (∀ x, preserves explosion_frame (elt_at x))
    by (intros; apply elt_at_keeps, explosion_frame_refl).
  simpl. unfold in_crossLinksDict. explosion_framing.
Qed.

Lemma buildDownCrosslinks_explosion_frame depth : ∀ a b,
  preserves explosion_frame (buildDownCrosslinks depth a b).
Proof.
  induction depth as [|depth IH]; intros a b;
    [apply preserves_throw, explosion_frame_refl|].
  pose proof getNodeByName_explosion_frame. pose proof buildCrosslinks_explosion_frame.
  assert (∀ x, preserves explosion_frame (node_at x))
    by (intros; apply node_at_keeps, explosion_frame_refl).
  assert (∀ x, preserves explosion_frame (elt_at x))
    by (intros; apply elt_at_keeps, explosion_frame_refl).
  simpl. unfold in_crossLinksDict. explosion_framing.
Qed.

Lemma explodeNode_explosion_frame depth i :
  preserves explosion_frame (explodeNode depth i).
Proof.
  pose proof getNodeByName_explosion_frame. pose proof renderLinks_explosion_frame.
  pose proof (buildUpCrosslinks_explosion_frame depth).
  pose proof (buildDownCrosslinks_explosion_frame depth).
  assert (∀ x, preserves explosion_frame (node_at x))
    by (intros; apply node_at_keeps, explosion_frame_refl).
  assert (∀ x, preserves explosion_frame (elt_at x))
    by (intros; apply elt_at_keeps, explosion_frame_refl).
  unfold explodeNode, explodeNode_child, explodeNode_links, set_show, set_exploded.
  explosion_framing.
Qed.

(** However an explosion ends, it has left alone the hierarchy and with it
    every [filtered] flag and label, the current layer, the sorted snapshots
    and the console; every node record is in its place with its name, type
    and attributes; every link record that existed is where it was; and
    [numLinks] has grown by the number of link records added. *)
Theorem explodeNode_frame (depth : nat) (i : Z) (w : World) :
  explosion_frame w (snd (explodeNode depth i w)).
Proof. apply explodeNode_explosion_frame. Qed.

(** An explosion that completes keeps the cache of the sorted links
    current: the next pass of a link filter sorts again exactly when
    crosslinks were added, and then sees every link. *)
Theorem explodeNode_keeps_links_cache (depth : nat) (i : Z) (w w' : World) :
  links_cache_current w →
  explodeNode depth i w = (Ok tt, w') →
  links_cache_current w'.
Proof.
  intros (Hn & Hp & Hle & Hcur) Hrun.
  pose proof (explodeNode_explosion_frame depth i w) as Hf.
  unfold post in Hf. rewrite Hrun in Hf. simpl in Hf.
  destruct Hf as (_ & _ & _ & Hs & Hc & _ & _ & Hpre & Hbal).
  assert (Hp' : newCrossLinks w' = []).
  { unfold explodeNode in Hrun.
    bind_inv Hrun e w1 H1. bind_inv Hrun x w2 H2. bind_inv Hrun n w3 H3.
    bind_inv Hrun u w4 H4. unfold renderLinks, bind, modify in Hrun. by simplify_eq. }
  unfold all_links in Hpre, Hbal. rewrite Hp, Hp', !app_nil_r in Hpre, Hbal.
  pose proof (prefix_length _ _ Hpre) as Hlen.
  split; [lia|]. split; [done|]. split; [lia|].
  intros Heq.
  assert (Hsame : linksList w' = linksList w).
  { destruct Hpre as [k Hk]. rewrite Hk. rewrite Hk, length_app in Hbal.
    destruct k; [by rewrite app_nil_r|]. simpl in Hbal. lia. }
  rewrite Hs, Hsame. apply Hcur. lia.
Qed.

Lemma explodeNode_keeps_links_cache_witness :
  links_cache_current (snd (explodeNode 10 0 ex_world_metro)).
Proof.
  apply (explodeNode_keeps_links_cache 10 0 ex_world_metro).
  - assert (H1 : numLinks ex_world_metro = length (linksList ex_world_metro))
      by (vm_compute; reflexivity).
    assert (H2 : newCrossLinks ex_world_metro = []) by (vm_compute; reflexivity).
    assert (H3 : layerSortedLinksLength ex_world_metro = numLinks ex_world_metro)
      by (vm_compute; reflexivity).
    assert (H4 : layer_sorted_links ex_world_metro = layer_sorted link_type ex_linksList)
      by (vm_compute; reflexivity).
    assert (H5 : linksList ex_world_metro = ex_linksList) by (vm_compute; reflexivity).
    split; [exact H1|]. split; [exact H2|]. split; [rewrite H3; lia|].
    intros _. rewrite H4, H5. apply layer_sorted_perm.
  - vm_compute; reflexivity.
Defined.

(** ** What [renderNodes] computes *)








(** ** What an explosion shows *)

(** An explosion that completes on a record whose node has children, in a
    well-formed world: the record itself is hidden and marked as exploded,
    every child has a record that is shown and marked as exploded, and every
    other record keeps both flags. *)
Theorem explodeNode_reveals_children (depth : nat) (i : Z) (w w' : World)
    (e : NodeElt) (r : ref) (node : Node) (cs : dict string Node) :
  wf_layers w → wf_index w →
  explodeNode depth i w = (Ok tt, w') →
  at_index (nodesList w) i = Some e →
  resolve (nodesTree w) (elt_nodeName e) = Ok (Some r) →
  deref (nodesTree w) r = Some node → children node = Some cs →
  (∃ e', at_index (nodesList w') i = Some e' ∧
         elt_show e' = false ∧ elt_exploded e' = true) ∧
  (∀ ch, ch ∈ dict_values cs → ∃ c, index ch = Some c ∧ shown_exploded w' c) ∧
  (∀ j ej, j ≠ i → j ∉ child_indices cs → at_index (nodesList w) j = Some ej →
     ∃ ej', at_index (nodesList w') j = Some ej' ∧
            elt_show ej' = elt_show ej ∧ elt_exploded ej' = elt_exploded ej).
Proof.
  intros Hl Hi H He Hr Hd Hcs.
  destruct (wf_children w i e r node cs Hl Hi He Hr Hd Hcs) as (Hty & Hni).
  set (C := child_indices cs) in *.
  rewrite (explodeNode_run _ i w e r node He Hr Hd), Hcs in H.
  bind_inv H u s1 Hbody. destruct u.
  rewrite <- bind_assoc in Hbody. bind_inv Hbody u s0 Hflags. destruct u.
  apply explodeNode_flags_inv in Hflags as (Ht0 & Hd0 & e0 & He0 & Hl0).
  rewrite He in He0. injection He0 as <-.
  set (E0 := mkNodeElt (elt_nodeName e) (elt_type e) (elt_neighbors e)
               false true (elt_attrs e)) in *.
  assert (HE0 : at_index (nodesList s0) i = Some E0)
    by (rewrite Hl0; by rewrite decide_True).
  assert (Hty0 : same_typed C s0).
  { intros j j' Hj Hj'. rewrite !Hl0.
    rewrite !decide_False by (intros ->; contradiction). by apply Hty. }
  destruct (explodeNode_children_settle C depth i cs E0 s0 s1 eq_refl Hty0 HE0 Hbody)
    as (Hext & Hch).
  assert (Hw' : nodesList w' = nodesList s1).
  { unfold renderLinks, bind, modify in H. by simplify_eq. }
  split; [|split].
  - destruct (world_ext_elt C s0 s1 i E0 Hext HE0) as (E1 & HE1 & _ & _ & F & X & _).
    exists E1. rewrite Hw'. split; [done|].
    split; [by destruct F as [?|[? _]]|by destruct X as [?|[? _]]].
  - intros ch Hin. destruct (Hch ch Hin) as (c & Hc & (ec & Hec & Hs & Hx) & _).
    exists c. split; [done|]. exists ec. by rewrite Hw'.
  - intros j ej Hj HjC Hej.
    assert (Hej0 : at_index (nodesList s0) j = Some ej)
      by (rewrite Hl0; by rewrite decide_False).
    destruct (world_ext_elt C s0 s1 j ej Hext Hej0) as (ej' & Hej' & _ & _ & F & X & _).
    exists ej'. rewrite Hw'. split; [done|].
    split; [by destruct F as [?|[? _]]|by destruct X as [?|[? _]]].
Qed.

(** The metro [A] of the example is exploded: it is hidden, its pops appear. *)
Lemma explodeNode_reveals_children_witness :
  let w' := snd (explodeNode 10 0 ex_world_metro) in
  (∃ e', at_index (nodesList w') 0 = Some e' ∧
         elt_show e' = false ∧ elt_exploded e' = true) ∧
  shown_exploded w' 2 ∧ shown_exploded w' 3.
Proof.
  intros w'.
  pose (e := mkNodeElt "A" "metro" [(1, 0%nat)] true false
               [("utilization", VNumber 5); ("capacity", VNumber 5)]).
  pose (p1 := mkNode (Some 2) "p1" false None
                (Some [("r1", mkNode (Some 5) "r1" false None None 0);
                       ("r2", mkNode (Some 6) "r2" false None None 0)]) 2).
  pose (p2 := mkNode (Some 3) "p2" false None
                (Some [("r1", mkNode (Some 7) "r1" false None None 0)]) 1).
  pose (cs := [("p1", p1); ("p2", p2)]).
  pose (node := mkNode (Some 0) "A" false None (Some cs) 2).
  assert (H : explodeNode 10 0 ex_world_metro = (Ok tt, w')) by (vm_compute; reflexivity).
  assert (He : at_index (nodesList ex_world_metro) 0 = Some e) by (vm_compute; reflexivity).
  assert (Hr : resolve (nodesTree ex_world_metro) (elt_nodeName e) = Ok (Some ["A"]))
    by (vm_compute; reflexivity).
  assert (Hd : deref (nodesTree ex_world_metro) ["A"] = Some node)
    by (vm_compute; reflexivity).
  destruct (explodeNode_reveals_children 10 0 ex_world_metro w' e ["A"] node cs
              ex_world_metro_wf_layers ex_world_metro_wf_index H He Hr Hd eq_refl)
    as (HA & HB & _).
  split; [exact HA|].
  destruct (HB p1) as (c1 & Hc1 & Hs1); [by left|].
  destruct (HB p2) as (c2 & Hc2 & Hs2); [right; by left|].
  injection Hc1 as <-. injection Hc2 as <-. by split.
Defined.

(** ** Invariants of the link records *)

Lemma keeps_links_inv_refl n0 w : keeps_links_inv n0 w w.
Proof. by intros ?. Qed.

Lemma keeps_links_inv_trans n0 w1 w2 w3 :
  keeps_links_inv n0 w1 w2 → keeps_links_inv n0 w2 w3 → keeps_links_inv n0 w1 w3.
Proof. unfold keeps_links_inv. auto. Qed.

(** Steps that leave the links, the dictionary and, of every node record,
    the type and the neighbor table as they are. *)
Lemma keeps_links_inv_same n0 w w' :
  linksList w' = linksList w → newCrossLinks w' = newCrossLinks w →
  numLinks w' = numLinks w → crossLinksDict w' = crossLinksDict w →
  (∀ j, match at_index (nodesList w) j, at_index (nodesList w') j with
        | Some e, Some e' =>
            elt_type e' = elt_type e ∧ elt_neighbors e' = elt_neighbors e
        | None, None => True
        | _, _ => False
        end) →
  keeps_links_inv n0 w w'.
Proof.
  intros Hl Hp Hn Hd Hrec (Hinv & Hnl & Hct).
  assert (Hall : all_links w' = all_links w) by (unfold all_links; congruence).
  split; [|split].
  - unfold crosslink_inv in *. by rewrite Hall, Hn, Hd.
  - intros a e' b li He' Hb. specialize (Hrec a). rewrite He' in Hrec.
    destruct (at_index (nodesList w) a) as [e|] eqn:Ee; [|done].
    destruct Hrec as [_ Hnb]. rewrite Hnb in Hb. rewrite Hall. by eapply Hnl.
  - intros id l Hid Hl'. rewrite Hall in Hl'.
    destruct (Hct id l Hid Hl') as (e1 & e2 & H1 & H2 & Hne & Hty).
    pose proof (Hrec (source l)) as R1. pose proof (Hrec (target l)) as R2.
    rewrite H1 in R1. rewrite H2 in R2.
    destruct (at_index (nodesList w') (source l)) as [e1'|]; [|done].
    destruct (at_index (nodesList w') (target l)) as [e2'|]; [|done].
    destruct R1 as [T1 _], R2 as [T2 _]. exists e1', e2'. rewrite T1, T2. done.
Qed.

Lemma same_records_refl (l : list NodeElt) :
  ∀ j, match at_index l j, at_index l j with
       | Some e, Some e' =>
           elt_type e' = elt_type e ∧ elt_neighbors e' = elt_neighbors e
       | None, None => True
       | _, _ => False
       end.
Proof. intros j. by destruct (at_index l j). Qed.

Lemma same_records_flag (f : NodeElt → NodeElt) (i : Z) (l : list NodeElt) :
  (∀ e, elt_type (f e) = elt_type e ∧ elt_neighbors (f e) = elt_neighbors e) →
  ∀ j, match at_index l j, at_index (alter f (Z.to_nat i) l) j with
       | Some e, Some e' =>
           elt_type e' = elt_type e ∧ elt_neighbors e' = elt_neighbors e
       | None, None => True
       | _, _ => False
       end.
Proof.
  intros Hf j. unfold at_index. case_decide; [|done].
  rewrite list_lookup_alter. case_decide as E; [rewrite E|];
    destruct (l !! Z.to_nat j); simpl; auto.
Qed.

(** The pair of records [buildCrosslinks_] adds, under the guard of its two
    callers, keeps the three invariants. *)
Lemma guarded_buildCrosslinks_links_inv n0 a b e1 e2 w :
  at_index (nodesList w) a = Some e1 → at_index (nodesList w) b = Some e2 →
  bool_decide (is_Some (crossLinksDict w !! cl_key a b)) = false →
  bool_decide (elt_type e1 = elt_type e2) = false →
  post (buildCrosslinks_ a b) w (fun _ w' => keeps_links_inv n0 w w').
Proof.
  intros H1 H2 Hc Ht.
  pose proof (guarded_buildCrosslinks_grow n0 a b e1 e2 w H1 H2 Hc Ht) as Hg.
  apply bool_decide_eq_false in Ht.
  assert (Hab : a ≠ b) by (intros <-; congruence).
  unfold post in *. rewrite buildCrosslinks_run in *.
  unfold crossLink2, crossLink1 in *. rewrite H1, H2 in *. simpl in *.
  intros (Hinv & Hnl & Hct). destruct (Hg Hinv) as (Hinv' & Hpre & _).
  split; [done|].
  pose proof (at_index_Some_nonneg _ _ _ H1) as Ha0.
  pose proof (at_index_Some_nonneg _ _ _ H2) as Hb0.
  destruct Hinv as (Hnum & _).
  set (l1 := mkLink a b (elt_type e1 ++ "_" ++ elt_type e2) false None []) in *.
  set (l2 := mkLink b a (elt_type e1 ++ "_" ++ elt_type e2) false None []) in *.
  set (w' := after_buildCrosslinks a b l1 l2 w) in *.
  assert (Hall : all_links w' = all_links w ++ [l1; l2]).
  { unfold all_links. simpl. by rewrite <- !app_assoc. }
  assert (Hat : ∀ j, at_index (nodesList w') j =
            if decide (j = b) then add_neighbor a (S (numLinks w)) <$> at_index (nodesList w) j
            else if decide (j = a) then add_neighbor b (numLinks w) <$> at_index (nodesList w) j
            else at_index (nodesList w) j).
  { intros j. subst w'. simpl. rewrite !at_index_alter by done.
    repeat case_decide; subst; try done. }
  assert (Hold : ∀ li l, all_links w !! li = Some l → all_links w' !! li = Some l).
  { intros li l Hl. rewrite Hall. by apply lookup_app_l_Some. }
  split.
  - intros x e' y li He' Hy. rewrite Hat in He'.
    destruct (decide (x = b)) as [->|Hxb].
    + rewrite H2 in He'. simpl in He'. simplify_eq. simpl in Hy.
      rewrite dict_get_set in Hy. case_decide.
      * simplify_eq. exists l2. split; [|done].
        rewrite Hall, lookup_app_r by lia. by replace (S (numLinks w) - length (all_links w))%nat with 1%nat by lia.
      * destruct (Hnl b e2 y li H2 Hy) as (l & Hl & ?). exists l. auto.
    + destruct (decide (x = a)) as [->|Hxa].
      * rewrite H1 in He'. simpl in He'. simplify_eq. simpl in Hy.
        rewrite dict_get_set in Hy. case_decide.
        -- simplify_eq. exists l1. split; [|done].
           rewrite Hall, lookup_app_r by lia. by replace (numLinks w - length (all_links w))%nat with 0%nat by lia.
        -- destruct (Hnl a e1 y li H1 Hy) as (l & Hl & ?). exists l. auto.
      * destruct (Hnl x e' y li He' Hy) as (l & Hl & ?). exists l. auto.
  - assert (Htype : ∀ j e, at_index (nodesList w) j = Some e →
              ∃ e', at_index (nodesList w') j = Some e' ∧ elt_type e' = elt_type e).
    { intros j e He. rewrite Hat, He. repeat case_decide; simpl; by eexists. }
    intros id l Hid Hl. rewrite Hall in Hl.
    destruct (decide (id < length (all_links w))%nat) as [Hlt|Hge].
    + rewrite lookup_app_l in Hl by done.
      destruct (Hct id l Hid Hl) as (x1 & x2 & X1 & X2 & Hne & Hty).
      destruct (Htype _ _ X1) as (x1' & X1' & T1).
      destruct (Htype _ _ X2) as (x2' & X2' & T2).
      exists x1', x2'. rewrite T1, T2. done.
    + rewrite lookup_app_r in Hl by lia.
      destruct (Htype _ _ H1) as (e1' & E1' & T1).
      destruct (Htype _ _ H2) as (e2' & E2' & T2).
      destruct (id - length (all_links w))%nat as [|[|k]] eqn:Ek; simpl in Hl;
        simplify_eq.
      * exists e1', e2'. rewrite T1, T2. split_and!; try done. by left.
      * exists e2', e1'. rewrite T1, T2. split_and!; try done; try congruence. by right.
Qed.

Section LinksInv.

Variable n0 : nat.

Ltac links_leaf :=
  apply keeps_links_inv_same; try done;
  first [ apply same_records_refl | apply same_records_flag; by intros [] ].

Ltac links_framing :=
  frame_using (keeps_links_inv_refl n0) (keeps_links_inv_trans n0) links_leaf.

Lemma getNodeByName_links_inv name : preserves (keeps_links_inv n0) (getNodeByName name).
Proof.
  intros w. unfold post.
  destruct (getNodeByName_spec name w)
    as (w' & -> & _ & Hl & ? & ? & ? & ? & _).
  apply keeps_links_inv_same; try done. simpl. rewrite Hl. apply same_records_refl.
Qed.

Lemma renderLinks_links_inv : preserves (keeps_links_inv n0) renderLinks.
Proof.
  intros w. unfold post. intros (Hinv & Hnl & Hct).
  assert (Hall : all_links (snd (renderLinks w)) = all_links w).
  { unfold renderLinks, bind, modify, all_links. simpl. by rewrite app_nil_r. }
  assert (Hnodes : nodesList (snd (renderLinks w)) = nodesList w) by done.
  split; [|split].
  - pose proof (renderLinks_grow n0 w) as G. unfold post in G. cbv beta in G.
    by destruct (G Hinv).
  - intros a e b li He Hb. rewrite Hall. rewrite Hnodes in He. by eapply Hnl.
  - intros id l Hid Hl. rewrite Hall in Hl. rewrite Hnodes. by eapply Hct.
Qed.

Lemma buildUpCrosslinks_links_inv depth : ∀ a b,
  preserves (keeps_links_inv n0) (buildUpCrosslinks depth a b).
Proof.
  induction depth as [|depth IH]; intros a b;
    [apply preserves_throw, keeps_links_inv_refl|].
  pose proof getNodeByName_links_inv.
  assert (∀ x, preserves (keeps_links_inv n0) (node_at x))
    by (intros; apply node_at_keeps, keeps_links_inv_refl).
  assert (∀ x, preserves (keeps_links_inv n0) (elt_at x))
    by (intros; apply elt_at_keeps, keeps_links_inv_refl).
  intros w. simpl. apply post_bind. unfold post at 1. rewrite elt_at_spec.
  destruct (at_index (nodesList w) a) as [e1|] eqn:E1; simpl; [|apply keeps_links_inv_refl].
  apply post_bind. unfold post at 1. rewrite elt_at_spec.
  destruct (at_index (nodesList w) b) as [e2|] eqn:E2; simpl; [|apply keeps_links_inv_refl].
  apply post_bind, post_gets.
  destruct (bool_decide (is_Some (crossLinksDict w !! cl_key a b))) eqn:Ec; simpl;
    [apply post_ret, keeps_links_inv_refl|].
  destruct (bool_decide (elt_type e1 = elt_type e2)) eqn:Et; simpl;
    [apply post_ret, keeps_links_inv_refl|].
  apply post_bind. eapply post_mono; [by eapply guarded_buildCrosslinks_links_inv|].
  intros [[]|e] w1 Hg; [|done]. eapply post_mono.
  - assert (Hrest : preserves (keeps_links_inv n0)
      (let* e := elt_at b in
       let* neighbor_node := getNodeByName (elt_nodeName e) in
       let* r := defined neighbor_node in
       let* p := node_at (Some (parent r)) in
       match index p with
       | Some new_neighborIndex => buildUpCrosslinks depth a new_neighborIndex
       | None => ret tt
       end)) by links_framing.
    apply Hrest.
  - intros r w2 Hg2. by eapply keeps_links_inv_trans.
Qed.

Lemma buildDownCrosslinks_links_inv depth : ∀ a b,
  preserves (keeps_links_inv n0) (buildDownCrosslinks depth a b).
Proof.
  induction depth as [|depth IH]; intros a b;
    [apply preserves_throw, keeps_links_inv_refl|].
  pose proof getNodeByName_links_inv.
  assert (∀ x, preserves (keeps_links_inv n0) (node_at x))
    by (intros; apply node_at_keeps, keeps_links_inv_refl).
  assert (∀ x, preserves (keeps_links_inv n0) (elt_at x))
    by (intros; apply elt_at_keeps, keeps_links_inv_refl).
  intros w. simpl. apply post_bind. unfold post at 1. rewrite elt_at_spec.
  destruct (at_index (nodesList w) a) as [e1|] eqn:E1; simpl; [|apply keeps_links_inv_refl].
  destruct b as [b|]; [|apply keeps_links_inv_refl]. apply post_bind, post_ret.
  apply post_bind. unfold post at 1. rewrite elt_at_spec.
  destruct (at_index (nodesList w) b) as [e2|] eqn:E2; simpl; [|apply keeps_links_inv_refl].
  apply post_bind, post_gets.
  destruct (elt_show e2) eqn:Es; simpl.
  - destruct (bool_decide (is_Some (crossLinksDict w !! cl_key a b))) eqn:Ec; simpl;
      [apply post_ret, keeps_links_inv_refl|].
    destruct (bool_decide (elt_type e1 = elt_type e2)) eqn:Et; simpl;
      [apply post_ret, keeps_links_inv_refl|].
    by eapply guarded_buildCrosslinks_links_inv.
  - assert (Hrest : preserves (keeps_links_inv n0)
      (let* neighbor_node := getNodeByName (elt_nodeName e2) in
       let* n := node_at neighbor_node in
       match children n with
       | Some cs =>
           forEach (dict_values cs)
             (fun c => buildDownCrosslinks depth a (index c))
       | None => ret tt
       end)) by links_framing.
    apply Hrest.
Qed.

Lemma perform_links_inv depth a : preserves (keeps_links_inv n0) (perform depth a).
Proof.
  pose proof getNodeByName_links_inv. pose proof renderLinks_links_inv.
  pose proof (buildUpCrosslinks_links_inv depth).
  pose proof (buildDownCrosslinks_links_inv depth).
  assert (∀ x, preserves (keeps_links_inv n0) (node_at x))
    by (intros; apply node_at_keeps, keeps_links_inv_refl).
  assert (∀ x, preserves (keeps_links_inv n0) (elt_at x))
    by (intros; apply elt_at_keeps, keeps_links_inv_refl).
  destruct a as [i|layer]; simpl.
  - unfold explodeNode, explodeNode_child, explodeNode_links, set_show, set_exploded.
    links_framing.
  - unfold setCurrentLayer, renderNodes, renderNodes_body, set_show, set_exploded.
    links_framing.
Qed.

Lemma run_links_inv depth acts : ∀ w, keeps_links_inv n0 w (run depth acts w).
Proof.
  induction acts as [|a acts IH]; intros w; simpl; [apply keeps_links_inv_refl|].
  eapply keeps_links_inv_trans; [apply (perform_links_inv depth a w)|apply IH].
Qed.

End LinksInv.

Lemma links_inv_initial (w0 : World) :
  crossLinksDict w0 = ∅ → newCrossLinks w0 = [] →
  numLinks w0 = length (linksList w0) → neighbors_linked w0 →
  links_inv (length (linksList w0)) w0.
Proof.
  intros Hd Hp Hn Hnl. split; [by apply crosslink_inv_initial|]. split; [done|].
  intros id l Hid Hl. unfold all_links in Hl. rewrite Hp, app_nil_r in Hl.
  apply lookup_lt_Some in Hl. lia.
Qed.

(** Start from a world without crosslinks in which the neighbor tables
    point at link records, and let the user explode nodes and pick layers in
    any order.  At every moment the entry for [b] in the neighbor table of
    the record at [a] is the position of a link record from [a] to [b],
    crosslinks included. *)
Theorem neighbors_point_at_links (depth : nat) (acts : list action) (w0 : World) :
  crossLinksDict w0 = ∅ → newCrossLinks w0 = [] →
  numLinks w0 = length (linksList w0) → neighbors_linked w0 →
  ∀ a e b li,
    at_index (nodesList (run depth acts w0)) a = Some e →
    dict_get b (elt_neighbors e) = Some li →
    ∃ l, all_links (run depth acts w0) !! li = Some l ∧ source l = a ∧ target l = b.
Proof.
  intros Hd Hp Hn Hnl.
  pose proof (run_links_inv (length (linksList w0)) depth acts w0
                (links_inv_initial w0 Hd Hp Hn Hnl)) as (_ & H & _).
  exact H.
Qed.

(** Under the same conditions every crosslink joins two node records of
    different types and is typed by the two types joined with an underscore;
    when both are layers of the hierarchy, this type is a key of
    [nv.layerOrder], so the sort of the links can compare it. *)
Theorem crosslinks_join_layers (depth : nat) (acts : list action) (w0 : World) :
  crossLinksDict w0 = ∅ → newCrossLinks w0 = [] →
  numLinks w0 = length (linksList w0) → neighbors_linked w0 →
  let w := run depth acts w0 in
  ∀ id l, (length (linksList w0) ≤ id)%nat → all_links w !! id = Some l →
    ∃ e1 e2,
      at_index (nodesList w) (source l) = Some e1 ∧
      at_index (nodesList w) (target l) = Some e2 ∧
      elt_type e1 ≠ elt_type e2 ∧
      (link_type l = (elt_type e1 ++ "_" ++ elt_type e2)%string ∨
       link_type l = (elt_type e2 ++ "_" ++ elt_type e1)%string) ∧
      (is_Some (layer_depth (elt_type e1)) → is_Some (layer_depth (elt_type e2)) →
       is_Some (layerOrder (link_type l))).
Proof.
  intros Hd Hp Hn Hnl w id l Hid Hl.
  pose proof (run_links_inv (length (linksList w0)) depth acts w0
                (links_inv_initial w0 Hd Hp Hn Hnl)) as (_ & _ & H).
  destruct (H id l Hid Hl) as (e1 & e2 & H1 & H2 & Hne & Hty).
  exists e1, e2. split_and!; try done.
  intros [d1 D1] [d2 D2]. unfold layer_depth in D1, D2.
  destruct Hty as [-> | ->]; repeat case_decide; simplify_eq;
    repeat match goal with H : elt_type _ = _ |- _ => rewrite H in * end;
    try done; by eexists.
Qed.

Lemma dict_get_In {K V} `{EqDecision K} (k : K) (d : dict K V) v :
  dict_get k d = Some v → In (k, v) d.
Proof.
  induction d as [|[k' v'] d IH]; simpl; [done|].
  case_decide as E; [intros [= ->]; subst; by left|]. intros Hg. right. by apply IH.
Qed.

Lemma neighbors_linked_from_sound links l : ∀ a i e b li,
  neighbors_linked_from links a l = true →
  l !! i = Some e → dict_get b (elt_neighbors e) = Some li →
  ∃ lk, links !! li = Some lk ∧ source lk = Z.of_nat (a + i) ∧ target lk = b.
Proof.
  induction l as [|e0 l IH]; intros a i e b li Hc Hi Hb; [done|].
  simpl in Hc. apply andb_true_iff in Hc as [Hhere Hrest].
  destruct i as [|i]; simpl in Hi.
  - simplify_eq. rewrite forallb_forall in Hhere.
    specialize (Hhere (b, li) (dict_get_In _ _ _ Hb)). simpl in Hhere.
    destruct (links !! li) as [lk|]; [|done].
    apply andb_true_iff in Hhere as [H1 H2].
    apply bool_decide_eq_true in H1, H2. exists lk. rewrite Nat.add_0_r. done.
  - destruct (IH (S a) i e b li Hrest Hi Hb) as (lk & ? & ? & ?).
    exists lk. split; [done|]. split; [|done]. by replace (a + S i)%nat with (S a + i)%nat by lia.
Qed.

Lemma neighbors_linked_check w :
  neighbors_linked_from (all_links w) 0 (nodesList w) = true → neighbors_linked w.
Proof.
  intros Hc a e b li He Hb. pose proof (at_index_Some_nonneg _ _ _ He) as Ha.
  apply at_index_lookup in He.
  destruct (neighbors_linked_from_sound _ _ 0 _ e b li Hc He Hb) as (lk & ? & Hs & ?).
  exists lk. split; [done|]. split; [|done]. rewrite Hs. simpl. lia.
Qed.

Lemma ex_world_metro_neighbors_linked : neighbors_linked ex_world_metro.
Proof. apply neighbors_linked_check. vm_compute. reflexivity. Qed.

(** After the session on the example, the router [B_p1_r1] (index 8) has a
    neighbor entry for the pop [A_p2] (index 3): it is the position of the
    crosslink between the two. *)
Lemma neighbors_point_at_links_witness :
  ∃ l, all_links (run 10 ex_session ex_world_metro) !! 12%nat = Some l ∧
       source l = 8 ∧ target l = 3.
Proof.
  assert (H1 : crossLinksDict ex_world_metro = ∅) by (vm_compute; reflexivity).
  assert (H2 : newCrossLinks ex_world_metro = []) by (vm_compute; reflexivity).
  assert (H3 : numLinks ex_world_metro = length (linksList ex_world_metro))
    by (vm_compute; reflexivity).
  refine (neighbors_point_at_links 10 ex_session ex_world_metro H1 H2 H3
            ex_world_metro_neighbors_linked 8 _ 3 12%nat _ _).
  - vm_compute; reflexivity.
  - vm_compute; reflexivity.
Defined.

(** The crosslink at position 12 of the same session joins a router and a
    pop. *)
Lemma crosslinks_join_layers_witness :
  ∃ e1 e2,
    at_index (nodesList (run 10 ex_session ex_world_metro)) 8 = Some e1 ∧
    at_index (nodesList (run 10 ex_session ex_world_metro)) 3 = Some e2 ∧
    elt_type e1 ≠ elt_type e2.
Proof.
  assert (H1 : crossLinksDict ex_world_metro = ∅) by (vm_compute; reflexivity).
  assert (H2 : newCrossLinks ex_world_metro = []) by (vm_compute; reflexivity).
  assert (H3 : numLinks ex_world_metro = length (linksList ex_world_metro))
    by (vm_compute; reflexivity).
  assert (H4 : (length (linksList ex_world_metro) ≤ 12)%nat)
    by (vm_compute; lia).
  assert (H5 : all_links (run 10 ex_session ex_world_metro) !! 12%nat
               = Some (mkLink 8 3 "router_pop" false None []))
    by (vm_compute; reflexivity).
  destruct (crosslinks_join_layers 10 ex_session ex_world_metro H1 H2 H3
              ex_world_metro_neighbors_linked 12%nat _ H4 H5)
    as (e1 & e2 & E1 & E2 & Hne & _).
  exists e1, e2. split; [exact E1|]. split; [exact E2|exact Hne].
Defined.

(** ** The predicates of the filters *)

Section PredicateFacts.

Variable StringToNumber : string → option Z.
Variable RegExp : string → option (string → bool).

Local Abbreviation isInbound' := (isInbound StringToNumber RegExp).
Local Abbreviation inbound_value' := (inbound_value StringToNumber RegExp).
Local Abbreviation accepts' := (accepts StringToNumber RegExp).

Lemma isInbound_value F v b w :
  inbound_value' F v = Some b → isInbound' F v w = (Ok b, w).
Proof.
  unfold inbound_value, isInbound, rFilter_isInbound.
  destruct (filterType F); [by intros [= <-]|].
  destruct (RegExp (regex_pattern F)) as [re|]; [|done].
  by intros [= <-].
Qed.

Lemma inbound_value_pattern F v v' :
  is_Some (inbound_value' F v) → is_Some (inbound_value' F v').
Proof.
  unfold inbound_value. destruct (filterType F); [by eexists|].
  destruct (RegExp (regex_pattern F)); simpl; [by eexists|by intros [? ?]].
Qed.

Lemma getProperty_at node property w i e :
  index node = Some i → at_index (nodesList w) i = Some e →
  getProperty node property w = (Ok (default VUndefined (elt_property e property)), w).
Proof.
  intros Hi He. unfold getProperty. rewrite Hi.
  rewrite decide_True by by eapply at_index_Some_nonneg.
  by rewrite (bind_Ok _ _ _ _ _ (elt_at_Some _ _ _ He)).
Qed.

(** The loop over the neighbors in [isNodeInboundIncludeNeighbors]. *)
Lemma over_neighbors F w : ∀ ns,
  is_Some (inbound_value' F VUndefined) →
  (∀ k, k ∈ ns → is_Some (at_index (nodesList w) k)) →
  (fix over (ns : list Z) : M bool :=
     match ns with
     | [] => ret false
     | each :: ns' =>
         let* n := elt_at each in
         let* neighborValid :=
           isInbound' F (default VUndefined (elt_property n (attribute F))) in
         if neighborValid then ret true else over ns'
     end) ns w = (Ok (existsb (accepts' F w) ns), w).
Proof.
  intros ns Hp. induction ns as [|k ns IH]; intros Hrec; [done|].
  destruct (Hrec k) as [n Hn]; [by left|].
  rewrite (bind_Ok _ _ _ _ _ (elt_at_Some _ _ _ Hn)).
  destruct (inbound_value_pattern F VUndefined
              (default VUndefined (elt_property n (attribute F))) Hp) as [b Hb].
  rewrite (bind_Ok _ _ _ _ _ (isInbound_value _ _ _ w Hb)).
  simpl. unfold accepts at 1, attribute_at. rewrite Hn, Hb. simpl.
  destruct b; [done|]. apply IH. intros k' Hk'. apply Hrec. by right.
Qed.

Lemma isNodeInbound_two_ways (F : Filter) (node : Node) (w : World)
    (i : Z) (e : NodeElt) :
  index node = Some i → at_index (nodesList w) i = Some e →
  is_Some (inbound_value' F VUndefined) →
  (∀ k, k ∈ nb_keys e → is_Some (at_index (nodesList w) k)) →
  Filter_isNodeInbound StringToNumber RegExp F node w = (Ok (accepts' F w i), w) ∧
  isNodeInboundIncludeNeighbors StringToNumber RegExp F node w =
    (Ok (accepts' F w i || existsb (accepts' F w) (nb_keys e)), w).
Proof.
  intros Hi He Hp Hrec.
  destruct (inbound_value_pattern F VUndefined
              (default VUndefined (elt_property e (attribute F))) Hp) as [b Hb].
  assert (Hacc : accepts' F w i = b).
  { unfold accepts, attribute_at. by rewrite He, Hb. }
  split.
  - unfold Filter_isNodeInbound.
    rewrite (bind_Ok _ _ _ _ _ (getProperty_at _ _ _ _ _ Hi He)).
    rewrite Hacc. by apply isInbound_value.
  - unfold isNodeInboundIncludeNeighbors.
    rewrite (bind_Ok _ _ _ _ _ (getProperty_at _ _ _ _ _ Hi He)).
    rewrite (bind_Ok _ _ _ _ _ (isInbound_value _ _ _ w Hb)).
    rewrite Hacc. destruct b; [done|]. simpl.
    rewrite bind_defined, Hi.
    rewrite (bind_Ok _ _ _ _ _ (elt_at_Some _ _ _ He)).
    by apply over_neighbors.
Qed.

Lemma isNodeInbound_value F node w j e :
  index node = Some j → at_index (nodesList w) j = Some e →
  is_Some (inbound_value' F VUndefined) →
  (includeNeighbors F = true →
   ∀ k, k ∈ nb_keys e → is_Some (at_index (nodesList w) k)) →
  isNodeInbound StringToNumber RegExp F node w
    = (Ok (node_accepts StringToNumber RegExp F w j), w).
Proof.
  intros Hj He Hp Hrec. unfold isNodeInbound, node_accepts. rewrite He.
  destruct (includeNeighbors F) eqn:Ei; simpl.
  - by apply (isNodeInbound_two_ways F node w j e); auto.
  - rewrite orb_false_r.
    destruct (inbound_value_pattern F VUndefined
                (default VUndefined (elt_property e (attribute F))) Hp) as [b Hb].
    unfold Filter_isNodeInbound.
    rewrite (bind_Ok _ _ _ _ _ (getProperty_at _ _ _ _ _ Hj He)).
    unfold accepts, attribute_at. rewrite He, Hb. by apply isInbound_value.
Qed.

(** The two ways a filter judges a node.  For a range filter, or a pattern
    filter whose pattern compiles, and a node whose record exists: the plain
    method accepts the node exactly when the filter accepts the value of its
    attribute; with neighbors included the node is accepted when that holds
    of itself or of a neighbor, so including neighbors never excludes a node
    the plain method accepts.  Neither changes the world. *)
Theorem isNodeInbound_with_neighbors (F : Filter) (node : Node) (w : World)
    (i : Z) (e : NodeElt) :
  index node = Some i → at_index (nodesList w) i = Some e →
  is_Some (inbound_value' F VUndefined) →
  (∀ k, k ∈ nb_keys e → is_Some (at_index (nodesList w) k)) →
  Filter_isNodeInbound StringToNumber RegExp F node w = (Ok (accepts' F w i), w) ∧
  isNodeInboundIncludeNeighbors StringToNumber RegExp F node w =
    (Ok (accepts' F w i || existsb (accepts' F w) (nb_keys e)), w).
Proof. apply isNodeInbound_two_ways. Qed.

End PredicateFacts.

(** On the example, the router [A_p1_r1] does not match the pattern ["r2"],
    but its neighbor [A_p1_r2] does. *)
Lemma isNodeInbound_with_neighbors_witness :
  let F := ex_nameFilter "r2" in
  let node := mkNode (Some 5) "r1" false None None 0 in
  Filter_isNodeInbound ex_StringToNumber ex_RegExp F node ex_world = (Ok false, ex_world) ∧
  isNodeInboundIncludeNeighbors ex_StringToNumber ex_RegExp F node ex_world
    = (Ok true, ex_world).
Proof.
  intros F node.
  pose (e := ex_elt "A_p1_r1" "router" [(6, 6%nat)] 2 1).
  assert (He : at_index (nodesList ex_world) 5 = Some e) by (vm_compute; reflexivity).
  assert (Hp : is_Some (inbound_value ex_StringToNumber ex_RegExp F VUndefined))
    by (vm_compute; by eexists).
  assert (Hrec : ∀ k, k ∈ nb_keys e → is_Some (at_index (nodesList ex_world) k)).
  { intros k Hk. unfold nb_keys, e in Hk. simpl in Hk.
    apply list_elem_of_singleton in Hk as ->. vm_compute. by eexists. }
  destruct (isNodeInbound_with_neighbors ex_StringToNumber ex_RegExp F node ex_world
              5 e eq_refl He Hp Hrec) as [H1 H2].
  assert (A1 : accepts ex_StringToNumber ex_RegExp F ex_world 5 = false)
    by (vm_compute; reflexivity).
  assert (A2 : existsb (accepts ex_StringToNumber ex_RegExp F ex_world) (nb_keys e) = true)
    by (vm_compute; reflexivity).
  rewrite A1, A2 in H2. rewrite A1 in H1. by split.
Defined.

(** ** The bounds of a range filter *)

Section Bounds.

Variable StringToNumber : string → option Z.
Variable RegExp : string → option (string → bool).

Lemma split_two c x y :
  occurs c x = false → occurs c y = false →
  split c (x ++ String c y)%string = [x; y].
Proof. intros Hx Hy. by rewrite split_app_sep, (split_no_sep c y). Qed.

(** The input of a slider, ["lower;upper"], becomes the bounds of the range
    filter as two strings.  When the two strings denote whole numbers, the
    filter then accepts a whole-number value of the attribute exactly when it
    lies between them, bounds included.  A node or link without the
    attribute is accepted whatever the bounds are, since every comparison
    with [undefined] is false.  A string is compared with the bounds as a
    string.  The label of the filter does not depend on the bounds. *)
Theorem qFilter_bounds_from_input (F : Filter) (lo_s hi_s : string) (lo hi : Z) :
  filterType F = QUANT →
  occurs ";"%char lo_s = false → occurs ";"%char hi_s = false →
  StringToNumber lo_s = Some lo → StringToNumber hi_s = Some hi →
  let F' := parse_input F (lo_s ++ ";" ++ hi_s)%string in
  lower F' = VString lo_s ∧ upper F' = VString hi_s ∧ label F' = label F ∧
  (∀ a, qFilter_isInbound StringToNumber F' (VNumber a)
        = bool_decide (lo ≤ a ≤ hi)%Z) ∧
  qFilter_isInbound StringToNumber F' VUndefined = true ∧
  (∀ s, qFilter_isInbound StringToNumber F' (VString s)
        = negb (String.ltb hi_s s) && negb (String.ltb s lo_s)).
Proof.
  intros Hq Hlo Hhi Nlo Nhi F'. subst F'. unfold parse_input. rewrite Hq.
  change (lo_s ++ ";" ++ hi_s)%string with (lo_s ++ String ";"%char hi_s)%string.
  rewrite split_two by done. simpl.
  split; [done|]. split; [done|]. split; [done|].
  unfold qFilter_isInbound, js_lt. simpl. rewrite Nlo, Nhi.
  split; [|split].
  - intros a. repeat case_bool_decide; simpl; try done; lia.
  - done.
  - intros s. by destruct (String.ltb hi_s s), (String.ltb s lo_s).
Qed.

End Bounds.

(** The slider input ["2;7"] on the example's utilization filter. *)
Lemma qFilter_bounds_from_input_witness :
  let F' := parse_input (ex_utilFilter 0 10) "2;7" in
  lower F' = VString "2" ∧ upper F' = VString "7" ∧
  ∀ a, qFilter_isInbound ex_StringToNumber F' (VNumber a) = bool_decide (2 ≤ a ≤ 7)%Z.
Proof.
  intros F'.
  assert (Hlo : ex_StringToNumber "2" = Some 2%Z) by (vm_compute; reflexivity).
  assert (Hhi : ex_StringToNumber "7" = Some 7%Z) by (vm_compute; reflexivity).
  destruct (qFilter_bounds_from_input ex_StringToNumber (ex_utilFilter 0 10) "2" "7" 2 7
              eq_refl eq_refl eq_refl Hlo Hhi) as (H1 & H2 & _ & H4 & _).
  split; [exact H1|]. split; [exact H2|exact H4].
Defined.

(** ** The link filters *)

(** Methods that only read: they keep every relation that a change of the
    alerts keeps. *)
Section Reads.

Variable P : World → World → Prop.
Hypothesis P_refl : ∀ w, P w w.
Hypothesis P_trans : ∀ w1 w2 w3, P w1 w2 → P w2 w3 → P w1 w3.
Hypothesis P_alerts : ∀ w a, P w (set_alerts a w).

Lemma getNodeByName_reads name : preserves P (getNodeByName name).
Proof.
  intros w. unfold post.
  destruct (getNodeByName_spec name w)
    as (w' & -> & ? & ? & ? & ? & ? & ? & ? & ? & ? & ? & ? & _). simpl.
  replace w' with (set_alerts (alerts w') w); [apply P_alerts|].
  destruct w, w'; simpl in *; by subst.
Qed.

Lemma getNodeByIndex_reads i : preserves P (getNodeByIndex i).
Proof.
  pose proof getNodeByName_reads.
  assert (∀ x, preserves P (elt_at x)) by (intros; by apply elt_at_keeps).
  unfold getNodeByIndex. frame_with P_refl P_trans.
Qed.

Lemma linkChildren_from_reads link tis ns : preserves P (linkChildren_from link tis ns).
Proof.
  induction ns as [|[tgt li] ns IHn]; simpl; [by apply preserves_ret|].
  frame_with P_refl P_trans.
Qed.

Lemma linkChildren_scan_reads link tis srcs :
  preserves P (linkChildren_scan link tis srcs).
Proof.
  pose proof (linkChildren_from_reads link tis).
  assert (∀ x, preserves P (elt_at x)) by (intros; by apply elt_at_keeps).
  induction srcs as [|src srcs IH]; simpl; [by apply preserves_ret|].
  frame_with P_refl P_trans.
Qed.

Lemma getLinkChildren_reads link : preserves P (getLinkChildren link).
Proof.
  pose proof getNodeByIndex_reads.
  assert (∀ x, preserves P (node_at x)) by (intros; by apply node_at_keeps).
  pose proof (linkChildren_scan_reads link).
  unfold getLinkChildren. frame_with P_refl P_trans.
Qed.

Lemma areLinkChildrenFilteredOut_reads link :
  preserves P (areLinkChildrenFilteredOut link).
Proof.
  pose proof getLinkChildren_reads.
  unfold areLinkChildrenFilteredOut. frame_with P_refl P_trans.
Qed.

End Reads.

Lemma link_static_refl l : link_static l l.
Proof. done. Qed.

Lemma Forall2_link_static_refl l : Forall2 link_static l l.
Proof. induction l; by constructor. Qed.

Lemma Forall2_link_static_trans l1 l2 l3 :
  Forall2 link_static l1 l2 → Forall2 link_static l2 l3 → Forall2 link_static l1 l3.
Proof.
  intros H. revert l3. induction H as [|a b l1 l2 Hab H IH]; intros l3 H3.
  - by inversion H3.
  - inversion H3 as [|b' c l2' l3' Hbc H3']; subst. constructor; [|by apply IH].
    destruct Hab as (?&?&?&?), Hbc as (?&?&?&?). split_and!; congruence.
Qed.

Lemma Forall2_link_static_alter f n l :
  (∀ e, link_static e (f e)) → Forall2 link_static l (alter f n l).
Proof.
  intros Hf. revert n. induction l as [|a l IH]; intros n; [constructor|].
  destruct n as [|n]; cbn; constructor;
    auto using Forall2_link_static_refl, link_static_refl.
Qed.

Lemma links_refiltered_refl w : links_refiltered w w.
Proof.
  unfold links_refiltered. split_and!; try done. apply Forall2_link_static_refl.
Qed.

Lemma links_refiltered_trans w1 w2 w3 :
  links_refiltered w1 w2 → links_refiltered w2 w3 → links_refiltered w1 w3.
Proof.
  intros (A1&A2&A3&A4&A5&A6&A7&A8) (B1&B2&B3&B4&B5&B6&B7&B8).
  unfold links_refiltered. split_and!; try congruence.
  by eapply Forall2_link_static_trans.
Qed.

Lemma links_kept_but_refl x w : links_kept_but x w w.
Proof. by intros j. Qed.

Lemma links_kept_but_trans x w1 w2 w3 :
  links_kept_but x w1 w2 → links_kept_but x w2 w3 → links_kept_but x w1 w3.
Proof. intros H1 H2 j Hj. rewrite H2, H1; auto. Qed.

Section LinkFilters.

Variable StringToNumber : string → option Z.
Variable RegExp : string → option (string → bool).

Local Abbreviation filterLinks' := (filterLinks StringToNumber RegExp).
Local Abbreviation filterLinks_body' := (filterLinks_body StringToNumber RegExp).

Ltac refiltered_leaf :=
  unfold links_refiltered; simpl; split_and!; try done;
  first [ apply Forall2_link_static_refl
        | apply Forall2_link_static_alter; by intros [] ].

Lemma filterLinks_body_refiltered F x :
  preserves links_refiltered (filterLinks_body' F x).
Proof.
  assert (R := links_refiltered_refl). assert (T := links_refiltered_trans).
  assert (∀ attr, preserves links_refiltered (isInbound StringToNumber RegExp F attr)).
  { intros. apply isInbound_keeps; [done|]. intros. refiltered_leaf. }
  assert (∀ link, preserves links_refiltered (areLinkChildrenFilteredOut link)).
  { intros. apply areLinkChildrenFilteredOut_reads; try done. intros. refiltered_leaf. }
  unfold filterLinks_body, isLinkInbound, set_link_filter.
  frame_using R T refiltered_leaf.
Qed.

(** However a pass of a link filter ends, it has changed nothing but the
    filter state of link records (and the sorted snapshot of the links):
    the hierarchy, the node records, [numLinks], the crosslink dictionary
    and the current layer are as before, and every link record is in its
    place with its source, target, type and attributes. *)
Theorem filterLinks_frame (F : Filter) (w : World) :
  links_refiltered w (snd (filterLinks' F w)).
Proof.
  assert (R := links_refiltered_refl). assert (T := links_refiltered_trans).
  pose proof (filterLinks_body_refiltered F).
  assert (Hf : preserves links_refiltered (filterLinks' F)).
  { unfold filterLinks, getSubArrayOfSortedLinks. frame_using R T refiltered_leaf. }
  apply Hf.
Qed.

Lemma filterLinks_body_kept_but F x :
  preserves (links_kept_but x) (filterLinks_body' F x).
Proof.
  assert (R := links_kept_but_refl x). assert (T := links_kept_but_trans x).
  assert (∀ attr, preserves (links_kept_but x) (isInbound StringToNumber RegExp F attr)).
  { intros. apply isInbound_keeps; [done|]. by intros. }
  assert (∀ link, preserves (links_kept_but x) (areLinkChildrenFilteredOut link)).
  { intros. apply areLinkChildrenFilteredOut_reads; try done. }
  unfold filterLinks_body, isLinkInbound, set_link_filter.
  frame_using R T ltac:(intros j Hj; simpl; by rewrite list_lookup_alter_ne).
Qed.

Lemma isLinkInbound_links F l w :
  linksList (snd (isLinkInbound StringToNumber RegExp F l w)) = linksList w.
Proof.
  pose proof (isInbound_keeps StringToNumber RegExp
                (fun w w' => linksList w' = linksList w) F
                (link_property l (attribute F))) as H.
  apply H; [done|]. by intros.
Qed.

(** One turn of the loop on a link of the filter's layer that another
    filter has labelled: the link is not touched. *)
Lemma filterLinks_body_foreign F li l other w :
  linksList w !! li = Some l → link_type l = layer F →
  link_filteredBy l = Some other → other ≠ label F →
  linksList (snd (filterLinks_body' F li w)) !! li = Some l.
Proof.
  intros Hl Hty Hby Hne.
  pose proof (isLinkInbound_links F l w) as Hin.
  unfold filterLinks_body, bind, gets, ret. simpl. rewrite Hl. simpl.
  rewrite decide_True by done. rewrite Hby.
  rewrite (bool_decide_eq_false_2 (Some other = Some (label F))) by congruence.
  destruct (link_filtered l); simpl.
  - destruct (isLinkInbound StringToNumber RegExp F l w) as [[b|e] s1]; simpl in *.
    + rewrite andb_false_r. simpl. by rewrite Hin.
    + by rewrite Hin.
  - destruct (isLinkInbound StringToNumber RegExp F l w) as [[b|e] s1]; simpl in *.
    + rewrite andb_false_r. simpl. by rewrite Hin.
    + by rewrite Hin.
Qed.

(** Ownership among the link filters.  A link of the layer of a filter [F]
    that carries the label of another filter is left exactly as it is by a
    pass of [F], however the pass ends. *)
Theorem filterLinks_respects_owner (F : Filter) (w : World) (li : nat) (l : Link)
    (other : string) :
  linksList w !! li = Some l → link_type l = layer F →
  link_filteredBy l = Some other → other ≠ label F →
  linksList (snd (filterLinks' F w)) !! li = Some l.
Proof.
  intros Hl Hty Hby Hne.
  assert (Hbody : ∀ x s, linksList s !! li = Some l →
            post (filterLinks_body' F x) s (fun _ s' => linksList s' !! li = Some l)).
  { intros x s Hs. destruct (decide (x = li)) as [->|Hx].
    - unfold post. by eapply filterLinks_body_foreign.
    - pose proof (filterLinks_body_kept_but F x s) as K. unfold post in *.
      cbv beta in K. rewrite K; [done|congruence]. }
  unfold filterLinks.
  assert (Hpost : post (filterLinks' F) w (fun _ s' => linksList s' !! li = Some l)).
  { unfold filterLinks. apply post_bind.
    assert (Hsub : post (getSubArrayOfSortedLinks (layer F)) w
                     (fun _ s => linksList s !! li = Some l)).
    { unfold getSubArrayOfSortedLinks, post, bind, gets, modify, ret. simpl.
      by destruct (decide _). }
    eapply post_mono; [exact Hsub|]. intros [sub|e] s Hs; [|done].
    apply post_bind, post_defined. destruct sub as [sub|]; [|done].
    eapply post_mono; [apply (forEach_invariant (fun s => linksList s !! li = Some l))|].
    - intros x s0 _ Hs0. by apply Hbody.
    - done.
    - done. }
  exact Hpost.
Qed.

End LinkFilters.

(** On the example, the link between the routers [A_p1_r2] and [A_p2_r1]
    has been taken by the utilization filter; a pass of the capacity filter
    leaves it alone. *)
Lemma filterLinks_respects_owner_witness :
  let w := snd (filterLinks ex_StringToNumber ex_RegExp (ex_utilFilter 0 5) ex_world) in
  let l := mkLink 6 7 "router" true (Some "router_utilization")
             [("utilization", VNumber 8)] in
  linksList (snd (filterLinks ex_StringToNumber ex_RegExp (ex_capFilter 0 10) w))
    !! 8%nat = Some l.
Proof.
  intros w l.
  apply (filterLinks_respects_owner ex_StringToNumber ex_RegExp (ex_capFilter 0 10) w
           8%nat l "router_utilization").
  - vm_compute; reflexivity.
  - reflexivity.
  - reflexivity.
  - discriminate.
Defined.

(** ** What a pass of a link filter decides *)

Section LinkPass.

Variable StringToNumber : string → option Z.
Variable RegExp : string → option (string → bool).

Local Abbreviation filterLinks' := (filterLinks StringToNumber RegExp).
Local Abbreviation filterLinks_body' := (filterLinks_body StringToNumber RegExp).
Local Abbreviation link_accepts' := (link_accepts StringToNumber RegExp).

Lemma link_accepts_static F l l' :
  link_static l l' → link_accepts' F l' = link_accepts' F l.
Proof.
  intros (Hs & Ht & Hty & Ha). unfold link_accepts, link_property.
  by rewrite Hs, Ht, Hty, Ha.
Qed.

(** One turn of the loop on a link of the filter's layer, when the filter
    answers. *)
Lemma filterLinks_body_target F li l w :
  linksList w !! li = Some l → link_type l = layer F →
  is_Some (inbound_value StringToNumber RegExp F VUndefined) →
  filterLinks_body' F li w =
    (Ok tt,
     if negb (link_filtered l) && negb (link_accepts' F l)
        && bool_decide (link_filteredBy l = None)
     then snd (set_link_filter li true (Some (label F)) w)
     else if link_filtered l && link_accepts' F l
             && bool_decide (link_filteredBy l = Some (label F))
     then snd (set_link_filter li false None w)
     else w).
Proof.
  intros Hl Hty Hp.
  destruct (inbound_value_pattern StringToNumber RegExp F VUndefined
              (link_property l (attribute F)) Hp) as [b Hb].
  assert (Hacc : link_accepts' F l = b) by (unfold link_accepts; by rewrite Hb).
  assert (Hin : ∀ s, isLinkInbound StringToNumber RegExp F l s = (Ok b, s)).
  { intros s. unfold isLinkInbound. by apply isInbound_value. }
  rewrite Hacc. unfold filterLinks_body, bind, gets, ret. simpl. rewrite Hl. simpl.
  rewrite decide_True by done.
  destruct (link_filtered l); simpl; rewrite (Hin w).
  - destruct b, (bool_decide (link_filteredBy l = Some (label F))); simpl; done.
  - destruct b, (bool_decide (link_filteredBy l = None)); simpl; try done.
    all: rewrite ?(Hin w); done.
Qed.

(** What a pass of a link filter decides.  Let the cache of the sorted links
    be current, and let [F] be a range filter or a pattern filter whose
    pattern compiles.  After a pass of [F] that completes, every link of
    the layer of [F] that was unfiltered without label, or filtered and
    labelled by [F], is filtered exactly when [F] rejects the value of its
    attribute, and is labelled by [F] exactly then; source, target, type and
    attributes are as before. *)
Theorem filterLinks_decides_layer (F : Filter) (w w' : World) (li : nat) (l : Link) :
  links_cache_current w →
  is_Some (inbound_value StringToNumber RegExp F VUndefined) →
  filterLinks' F w = (Ok tt, w') →
  linksList w !! li = Some l → link_type l = layer F →
  decidable_flags F (link_filtered l) (link_filteredBy l) →
  ∃ l', linksList w' !! li = Some l' ∧ link_static l l' ∧
        settled_flags F (link_accepts' F l) (link_filtered l') (link_filteredBy l').
Proof.
  intros Hcur Hp Hrun Hl Hty Hdec. unfold filterLinks in Hrun.
  bind_inv Hrun sub w1 Hsub. rewrite bind_defined in Hrun.
  destruct (getSubArrayOfSortedLinks_current (layer F) w Hcur)
    as (_ & Hl1 & _ & _ & _ & Hperm & Hres).
  rewrite Hsub in Hl1, Hperm, Hres. simpl in Hl1, Hperm, Hres.
  injection Hres as ->.
  destruct (getSubArray _ _ _) as [sub|] eqn:Esub; [|done].
  assert (Hin : li ∈ sub).
  { pose proof (getSubArray_spec (fun i => link_type <$> linksList w !! i)
                  (layer_sorted_links w1) (layer F)) as Hspec.
    rewrite Esub in Hspec. destruct Hspec as (_ & _ & _ & _ & _ & _ & _ & Hall).
    apply Hall.
    - rewrite Hperm. apply elem_of_seq. apply lookup_lt_Some in Hl. lia.
    - by rewrite Hl, <- Hty. }
  cut ((∃ ls, linksList w' !! li = Some ls ∧ link_static l ls ∧
          ((link_filtered ls = link_filtered l ∧ link_filteredBy ls = link_filteredBy l) ∨
           settled_flags F (link_accepts' F l) (link_filtered ls) (link_filteredBy ls))) ∧
       (li ∈ sub →
        ∃ ls, linksList w' !! li = Some ls ∧ link_static l ls ∧
          settled_flags F (link_accepts' F l) (link_filtered ls) (link_filteredBy ls))).
  { intros [_ H]. by apply H. }
  refine (forEach_Ok_ind (fun pre s =>
    (∃ ls, linksList s !! li = Some ls ∧ link_static l ls ∧
       ((link_filtered ls = link_filtered l ∧ link_filteredBy ls = link_filteredBy l) ∨
        settled_flags F (link_accepts' F l) (link_filtered ls) (link_filteredBy ls))) ∧
    (li ∈ pre →
     ∃ ls, linksList s !! li = Some ls ∧ link_static l ls ∧
       settled_flags F (link_accepts' F l) (link_filtered ls) (link_filteredBy ls)))
    _ _ w1 w' _ _ Hrun).
  - split; [|by intros ?%elem_of_nil].
    exists l. rewrite Hl1. split; [done|]. split; [done|]. by left.
  - intros pre x suf s s' _ [(ls & Hls & Hst & Hfl) Hpre] Hbody.
    destruct (decide (x = li)) as [->|Hx].
    + assert (Htyl : link_type ls = layer F) by (destruct Hst as (_&_&->&_); done).
      rewrite (filterLinks_body_target F li ls s Hls Htyl Hp) in Hbody.
      rewrite (link_accepts_static F l ls Hst) in Hbody.
      assert (Hgoal : ∃ ls', linksList s' !! li = Some ls' ∧ link_static l ls' ∧
                settled_flags F (link_accepts' F l) (link_filtered ls')
                  (link_filteredBy ls')).
      { assert (Hflags : decidable_flags F (link_filtered ls) (link_filteredBy ls) ∨
                  settled_flags F (link_accepts' F l) (link_filtered ls)
                    (link_filteredBy ls)).
        { destruct Hfl as [[-> ->]|?]; [by left|by right]. }
        clear Hfl Hpre. unfold decidable_flags, settled_flags in *.
        destruct (link_accepts' F l) eqn:Ea;
          destruct Hflags as [[[Hf Hb]|[Hf Hb]]|[Hf Hb]];
          rewrite Hf, Hb in Hbody; simpl in Hbody;
          rewrite ?bool_decide_eq_true_2 in Hbody by done;
          simpl in Hbody; injection Hbody as <-;
          try (exists ls; by rewrite Hf, Hb);
          (eexists; split; [simpl; rewrite list_lookup_alter_eq, Hls; done|];
           split; [by destruct Hst as (?&?&?&?)|done]). }
      split; [|done]. destruct Hgoal as (ls' & ? & ? & ?). exists ls'. auto.
    + pose proof (post_run _ _ _ _ _ (filterLinks_body_kept_but StringToNumber RegExp F x s)
                    Hbody) as K. cbv beta in K.
      split.
      * exists ls. rewrite K by done. auto.
      * intros [Hi|Hi%list_elem_of_singleton]%elem_of_app; [|done].
        destruct (Hpre Hi) as (ls' & ? & ? & ?). exists ls'. rewrite K by done. auto.
Qed.

End LinkPass.

(** The utilization filter with bounds 0 to 5 on the example: the link from
    [A_p1_r2] to [A_p2_r1], whose utilization is 8, is filtered out. *)
Lemma filterLinks_decides_layer_witness :
  let F := ex_utilFilter 0 5 in
  let w' := snd (filterLinks ex_StringToNumber ex_RegExp F ex_world) in
  ∃ l', linksList w' !! 8%nat = Some l' ∧
        link_filtered l' = true ∧ link_filteredBy l' = Some "router_utilization".
Proof.
  intros F w'.
  assert (Hcur : links_cache_current ex_world).
  { assert (H1 : numLinks ex_world = length (linksList ex_world))
      by (vm_compute; reflexivity).
    assert (H2 : newCrossLinks ex_world = []) by (vm_compute; reflexivity).
    assert (H3 : layerSortedLinksLength ex_world = numLinks ex_world)
      by (vm_compute; reflexivity).
    assert (H4 : layer_sorted_links ex_world = layer_sorted link_type ex_linksList)
      by (vm_compute; reflexivity).
    assert (H5 : linksList ex_world = ex_linksList) by (vm_compute; reflexivity).
    split; [exact H1|]. split; [exact H2|]. split; [rewrite H3; lia|].
    intros _. rewrite H4, H5. apply layer_sorted_perm. }
  assert (Hrun : filterLinks ex_StringToNumber ex_RegExp F ex_world = (Ok tt, w'))
    by (vm_compute; reflexivity).
  assert (Hl : linksList ex_world !! 8%nat = Some (ex_link 6 7 "router" 8))
    by (vm_compute; reflexivity).
  destruct (filterLinks_decides_layer ex_StringToNumber ex_RegExp F ex_world w' 8%nat
              (ex_link 6 7 "router" 8) Hcur
              (ex_intro _ _ eq_refl) Hrun Hl eq_refl (or_introl (conj eq_refl eq_refl)))
    as (l' & Hl' & _ & Hf & Hb).
  exists l'. split; [exact Hl'|]. split; [exact Hf|exact Hb].
Defined.

(** ** What a pass of a node filter decides *)

Lemma filterOutRecursive_fields label n :
  index (filterOutRecursive label n) = index n ∧
  filtered (filterOutRecursive label n) = filtered n ∧
  filteredBy (filterOutRecursive label n) = filteredBy n.
Proof. rewrite filterOutRecursive_eq. by destruct (children n). Qed.

Lemma filterInRecursive_fields label n :
  index (filterInRecursive label n) = index n ∧
  filtered (filterInRecursive label n) = filtered n ∧
  filteredBy (filterInRecursive label n) = filteredBy n.
Proof. rewrite filterInRecursive_eq. by destruct (children n). Qed.

Lemma target_out_fields label n :
  index (target_out label n) = index n ∧
  filtered (target_out label n) = true ∧ filteredBy (target_out label n) = Some label.
Proof.
  unfold target_out. cbv zeta.
  destruct (hasChildren _);
    [destruct (filterOutRecursive_fields label (markNode label (filterOut n)))
       as (-> & -> & ->)|];
    simpl; unfold filterOut; by destruct (filtered n) eqn:E.
Qed.

Lemma target_in_fields label n :
  index (target_in label n) = index n ∧
  filtered (target_in label n) = false ∧ filteredBy (target_in label n) = None.
Proof.
  unfold target_in. cbv zeta.
  destruct (hasChildren _);
    [destruct (filterInRecursive_fields label (unmarkNode (filterIn n)))
       as (-> & -> & ->)|];
    simpl; unfold filterIn; by destruct (filtered n) eqn:E.
Qed.

Lemma deref_update_at_self r f t n :
  deref t r = Some n → deref (update_at r f t) r = Some (f n).
Proof.
  intros H. pose proof (deref_update_at_above r [] f t) as K.
  rewrite app_nil_r in K. by rewrite K, H.
Qed.

Lemma prefix_same_length {A} (l1 l2 : list A) :
  l1 `prefix_of` l2 → length l1 = length l2 → l1 = l2.
Proof.
  intros [k ->] Hl. rewrite length_app in Hl. destruct k; [by rewrite app_nil_r|].
  simpl in Hl. lia.
Qed.

(** A change of a node that keeps its children leaves index and filter state
    of every other node as they are. *)
Lemma update_elsewhere_fields f ry t q N :
  (∀ n, children (f n) = children n) → q ≠ ry → deref t q = Some N →
  ∃ N', deref (update_at ry f t) q = Some N' ∧ index N' = index N ∧
        filtered N' = filtered N ∧ filteredBy N' = filteredBy N.
Proof.
  intros Hf Hne Hq. destruct (decide (ry `prefix_of` q)) as [[p ->]|Hpre].
  - assert (Hp : p ≠ []) by (intros ->; by rewrite app_nil_r in Hne).
    rewrite deref_app in Hq. destruct (deref t ry) as [n|] eqn:En; [|done].
    rewrite (deref_update_at_below ry p f t n En).
    rewrite (deref_children (f n) n p Hp (Hf n)). by exists N.
  - destruct (deref_update_at_fields ry f q t N Hpre Hq) as (N' & ? & ? & ? & ? & _).
    by exists N'.
Qed.

Section NodePass.

Variable StringToNumber : string → option Z.
Variable RegExp : string → option (string → bool).

Local Abbreviation filterNodes' := (filterNodes StringToNumber RegExp).
Local Abbreviation filterNodes_body' := (filterNodes_body StringToNumber RegExp).
Local Abbreviation filterNodes_target' := (filterNodes_target StringToNumber RegExp).
Local Abbreviation node_accepts' := (node_accepts StringToNumber RegExp).

(** The target branch on a node, when the filter answers [b]. *)
Lemma filterNodes_target_at F r xs b w :
  deref (nodesTree w) r = Some xs →
  isNodeInbound StringToNumber RegExp F xs w = (Ok b, w) →
  filterNodes_target' F (Some r) w =
    (Ok tt,
     if negb (filtered xs) && negb b && bool_decide (filteredBy xs = None)
     then set_nodesTree (update_at r (target_out (label F)) (nodesTree w)) w
     else if filtered xs && b && bool_decide (filteredBy xs = Some (label F))
     then set_nodesTree (update_at r (target_in (label F)) (nodesTree w)) w
     else w).
Proof.
  intros Hd Hin. unfold filterNodes_target.
  rewrite (bind_Ok _ _ _ _ _ (node_at_Some _ _ _ Hd)). simpl defined. rewrite bind_ret.
  unfold bind, ret, modify. destruct (filtered xs); simpl; rewrite Hin.
  - by destruct b, (bool_decide (filteredBy xs = Some (label F))).
  - destruct b, (bool_decide (filteredBy xs = None)); simpl; try done.
    all: by rewrite ?Hin.
Qed.

(** One turn of the loop that completes has found its record and its node. *)
Lemma filterNodes_body_inv F y s s' :
  filterNodes_body' F y s = (Ok tt, s') →
  ∃ ey ry ny,
    nodesList s !! y = Some ey ∧
    resolve (nodesTree s) (elt_nodeName ey) = Ok (Some ry) ∧
    deref (nodesTree s) ry = Some ny ∧
    if decide (elt_type ey = layer F)
    then filterNodes_target' F (Some ry) s = (Ok tt, s')
    else filterNodes_ancestor F (Some ry) s = (Ok tt, s').
Proof.
  unfold filterNodes_body. intros H. rewrite bind_gets in H. cbv beta in H.
  rewrite bind_defined in H.
  destruct (nodesList s !! y) as [ey|] eqn:Ey; [|done].
  apply bind_Ok_inv in H as (xo & s1 & Hg & H).
  assert (Hnode : ∃ ny s2, node_at xo s1 = (Ok ny, s2)).
  { case_decide.
    - unfold filterNodes_target in H. bind_inv H ny s2 Hn. by exists ny, s2.
    - unfold filterNodes_ancestor in H. bind_inv H ny s2 Hn. by exists ny, s2. }
  destruct Hnode as (ny & s2 & Hn).
  destruct (getNodeByName_node_at_inv _ _ _ _ _ _ Hg Hn) as (-> & -> & ry & -> & Hr & Hd).
  exists ey, ry, ny. split_and!; try done. by case_decide.
Qed.

(** What a pass of a node filter decides.  Let the node records be well
    formed, and let [F] be a range filter or a pattern filter whose pattern
    compiles.  After a pass of [F] that completes, every node of the layer
    of [F] that was unfiltered without label, or filtered and labelled by
    [F], is filtered exactly when [F] rejects it, and is labelled by [F]
    exactly then. *)
Theorem filterNodes_decides_layer (F : Filter) (w w' : World) (i : nat) (e : NodeElt)
    (r : ref) (x : Node) (j : Z) (ej : NodeElt) :
  wf_nodes w →
  is_Some (inbound_value StringToNumber RegExp F VUndefined) →
  filterNodes' F w = (Ok tt, w') →
  nodesList w !! i = Some e → elt_type e = layer F →
  resolve (nodesTree w) (elt_nodeName e) = Ok (Some r) →
  deref (nodesTree w) r = Some x →
  index x = Some j → at_index (nodesList w) j = Some ej →
  (includeNeighbors F = true →
   ∀ k, k ∈ nb_keys ej → is_Some (at_index (nodesList w) k)) →
  decidable_flags F (filtered x) (filteredBy x) →
  ∃ x', deref (nodesTree w') r = Some x' ∧
        settled_flags F (node_accepts' F w j) (filtered x') (filteredBy x').
Proof.
  intros Hwf Hp Hrun He Hty Hr Hd Hj Hej Hnb Hdec.
  pose proof (layer_sorted_nodes_sorted w Hwf) as [_ Hperm].
  destruct Hwf as [Hlayers _].
  assert (Hdepth : ∀ y ey, nodesList w !! y = Some ey →
            layer_depth (elt_type ey)
            = Some (length (split underscore (elt_nodeName ey)))).
  { intros y ey Hy. unfold wf_layers in Hlayers. rewrite Forall_forall in Hlayers.
    apply Hlayers. by eapply list_elem_of_lookup_2. }
  unfold filterNodes, getSubArrayOfSortedNodes in Hrun.
  rewrite bind_gets, bind_defined in Hrun.
  destruct (getSubArray _ _ _) as [sub|] eqn:Esub; [|done].
  assert (Hin : i ∈ sub).
  { pose proof (getSubArray_spec (fun i => elt_type <$> nodesList w !! i)
                  (layer_sorted_nodes w) (layer F)) as Hspec.
    rewrite Esub in Hspec. destruct Hspec as (_ & _ & _ & _ & _ & _ & _ & Hall).
    apply Hall.
    - rewrite Hperm. apply elem_of_seq. apply lookup_lt_Some in He. lia.
    - by rewrite He, <- Hty. }
  set (acc := node_accepts' F w j).
  set (Inv := fun (pre : list nat) (s : World) =>
    lists_kept w s ∧ same_shape (nodesTree w) (nodesTree s) ∧
    ∃ xs, deref (nodesTree s) r = Some xs ∧ index xs = Some j ∧
      ((filtered xs = filtered x ∧ filteredBy xs = filteredBy x) ∨
       settled_flags F acc (filtered xs) (filteredBy xs)) ∧
      (i ∈ pre → settled_flags F acc (filtered xs) (filteredBy xs))).
  cut (Inv sub w').
  { intros (_ & _ & xs & Hxs & _ & _ & Hset). exists xs. split; [done|]. by apply Hset. }
  refine (forEach_Ok_ind Inv _ _ w w' _ _ Hrun).
  - split; [done|]. split; [done|]. exists x. split; [done|]. split; [done|].
    split; [by left|by intros ?%elem_of_nil].
  - intros pre y suf s s' _ ([Hl1 Hl2] & Hsh & xs & Hxs & Hjs & Hfl & Hpre) Hbody.
    destruct (filterNodes_body_inv F y s s' Hbody) as (ey & ry & ny & Hey & Hry & Hny & Hstep).
    rewrite Hl1 in Hey. rewrite <- (resolve_shape _ _ _ Hsh) in Hry.
    pose proof (resolve_ref _ _ _ Hr) as Er. pose proof (resolve_ref _ _ _ Hry) as Ery.
    pose proof (Hdepth i e He) as Di. pose proof (Hdepth y ey Hey) as Dy.
    assert (Hyi : y = i → ry = r).
    { intros ->. rewrite He in Hey. injection Hey as <-. congruence. }
    case_decide as Hty_y.
    + (* a record of the filter's layer *)
      assert (Hlen : length ry = length r).
      { rewrite Er, Ery. rewrite Hty_y, <- Hty, Di in Dy. congruence. }
      destruct (decide (ry = r)) as [->|Hne].
      * assert (Hacc : isNodeInbound StringToNumber RegExp F xs s = (Ok acc, s)).
        { assert (Hacc_eq : node_accepts' F s j = acc).
          { subst acc. unfold node_accepts, accepts, attribute_at. by rewrite Hl1. }
          rewrite <- Hacc_eq.
          apply (isNodeInbound_value StringToNumber RegExp F xs s j ej);
            rewrite ?Hl1; auto. }
        rewrite (filterNodes_target_at F r xs acc s Hxs Hacc) in Hstep.
        assert (Hflags : decidable_flags F (filtered xs) (filteredBy xs) ∨
                         settled_flags F acc (filtered xs) (filteredBy xs)).
        { destruct Hfl as [[-> ->]|?]; [by left|by right]. }
        assert (Hfin : lists_kept w s' ∧ same_shape (nodesTree w) (nodesTree s') ∧
                  ∃ xs', deref (nodesTree s') r = Some xs' ∧ index xs' = Some j ∧
                         settled_flags F acc (filtered xs') (filteredBy xs')).
        { unfold decidable_flags, settled_flags in *.
          destruct acc eqn:Ea;
            destruct Hflags as [[[Hf Hb]|[Hf Hb]]|[Hf Hb]];
            rewrite Hf, Hb in Hstep; simpl in Hstep;
            rewrite ?bool_decide_eq_true_2 in Hstep by done;
            simpl in Hstep; injection Hstep as <-; simpl;
            try (split; [done|]; split; [done|]; exists xs; by rewrite Hf, Hb).
          - split; [done|]. split.
            { eapply same_shape_trans; [done|].
              apply same_shape_update_at, same_shape_target_in. }
            rewrite (deref_update_at_self _ _ _ _ Hxs). eexists. split; [done|].
            destruct (target_in_fields (label F) xs) as (-> & -> & ->). done.
          - split; [done|]. split.
            { eapply same_shape_trans; [done|].
              apply same_shape_update_at, same_shape_target_out. }
            rewrite (deref_update_at_self _ _ _ _ Hxs). eexists. split; [done|].
            destruct (target_out_fields (label F) xs) as (-> & -> & ->). done. }
        destruct Hfin as (? & ? & xs' & ? & ? & ?).
        split; [done|]. split; [done|]. exists xs'. auto.
      * pose proof (post_run _ _ _ _ _
                      (filterNodes_target_spec StringToNumber RegExp F (Some ry) s) Hstep)
          as [Hlk Ht].
        assert (Hkeep : same_shape (nodesTree w) (nodesTree s') ∧
                        deref (nodesTree s') r = Some xs).
        { assert (Hdis : ∀ f, deref (update_at ry f (nodesTree s)) r = Some xs).
          { intros f. rewrite deref_update_at_disjoint; [done| |].
            - intros Hpf. apply Hne. by apply prefix_same_length.
            - intros Hpf. apply Hne. symmetry. by apply prefix_same_length. }
          destruct Ht as [->|(r0 & node & [= <-] & Hr0 & [(_ & _ & ->)|(_ & _ & ->)])].
          - done.
          - split; [|apply Hdis]. eapply same_shape_trans; [done|].
            apply same_shape_update_at, same_shape_target_out.
          - split; [|apply Hdis]. eapply same_shape_trans; [done|].
            apply same_shape_update_at, same_shape_target_in. }
        destruct Hkeep as [Hsh' Hxs'].
        split; [destruct Hlk; split; congruence|]. split; [done|].
        exists xs. split; [done|]. split; [done|]. split; [done|].
        intros [Hi|Hi%list_elem_of_singleton]%elem_of_app; [by apply Hpre|].
        exfalso. apply Hne. by apply Hyi.
    + (* a record of another layer *)
      assert (Hne : r ≠ ry).
      { intros <-. apply Hty_y. rewrite <- Hty.
        apply (layer_depth_rank_inj _ _ _ _ Dy Di). congruence. }
      pose proof (post_run _ _ _ _ _ (filterNodes_ancestor_spec F (Some ry) s) Hstep)
        as [Hlk (r0 & [= <-] & _ & Ht)].
      assert (Hkeep : same_shape (nodesTree w) (nodesTree s') ∧
                ∃ xs', deref (nodesTree s') r = Some xs' ∧ index xs' = index xs ∧
                       filtered xs' = filtered xs ∧ filteredBy xs' = filteredBy xs).
      { split.
        - rewrite Ht. eapply same_shape_trans; [done|apply same_shape_ancestor_update].
        - rewrite Ht. unfold ancestor_update. destruct (deref (nodesTree s) ry); [|by exists xs].
          destruct (_ && _);
            [apply update_elsewhere_fields;
               [intros; apply children_filterOut_mark|done|done]|].
          destruct (_ && _);
            [apply update_elsewhere_fields;
               [intros; apply children_filterIn_unmark|done|done]|by exists xs]. }
      destruct Hkeep as [Hsh' (xs' & Hxs' & Hi' & Hf' & Hb')].
      split; [destruct Hlk; split; congruence|]. split; [done|].
      exists xs'. rewrite Hf', Hb', Hi'. split; [done|]. split; [done|]. split; [done|].
      intros [Hi|Hi%list_elem_of_singleton]%elem_of_app; [by apply Hpre|].
      exfalso. apply Hne. symmetry. by apply Hyi.
Qed.

End NodePass.

(** The utilization filter with bounds 0 to 5 on the example: the router
    [A_p1_r2], whose utilization is 8, is filtered out and labelled. *)
Lemma filterNodes_decides_layer_witness :
  let F := ex_utilFilter 0 5 in
  let w' := snd (filterNodes ex_StringToNumber ex_RegExp F ex_world) in
  ∃ x', deref (nodesTree w') ["A"; "p1"; "r2"] = Some x' ∧
        filtered x' = true ∧ filteredBy x' = Some "router_utilization".
Proof.
  intros F w'.
  pose (e := ex_elt "A_p1_r2" "router" [(5, 7%nat); (7, 8%nat)] 8 9).
  pose (x := mkNode (Some 6) "r2" false None None 0).
  assert (Hrun : filterNodes ex_StringToNumber ex_RegExp F ex_world = (Ok tt, w'))
    by (vm_compute; reflexivity).
  assert (He : nodesList ex_world !! 6%nat = Some e) by (vm_compute; reflexivity).
  assert (Hr : resolve (nodesTree ex_world) (elt_nodeName e) = Ok (Some ["A"; "p1"; "r2"]))
    by (vm_compute; reflexivity).
  assert (Hd : deref (nodesTree ex_world) ["A"; "p1"; "r2"] = Some x)
    by (vm_compute; reflexivity).
  assert (Hej : at_index (nodesList ex_world) 6 = Some e) by (vm_compute; reflexivity).
  assert (Hacc : node_accepts ex_StringToNumber ex_RegExp F ex_world 6 = false)
    by (vm_compute; reflexivity).
  destruct (filterNodes_decides_layer ex_StringToNumber ex_RegExp F ex_world w' 6%nat e
              ["A"; "p1"; "r2"] x 6 e ex_world_wf (ex_intro _ _ eq_refl) Hrun He eq_refl
              Hr Hd eq_refl Hej (fun H => False_ind _ (Bool.diff_false_true H))
              (or_introl (conj eq_refl eq_refl)))
    as (x' & Hx' & Hf & Hb).
  rewrite Hacc in Hf, Hb. exists x'. split; [exact Hx'|]. split; [exact Hf|exact Hb].
Defined.

(** ** The state vector *)

Lemma app_String x (a b : string) : (String x a ++ b)%string = String x (a ++ b)%string.
Proof. reflexivity. Qed.

Lemma app_Empty (b : string) : (EmptyString ++ b)%string = b.
Proof. reflexivity. Qed.

Lemma append_assoc_s (a b c : string) : ((a ++ b) ++ c = a ++ (b ++ c))%string.
Proof.
  induction a as [|x a IH]; [done|]. rewrite !app_String. f_equal. exact IH.
Qed.

Lemma occurs_app c (a b : string) :
  occurs c (a ++ b)%string = occurs c a || occurs c b.
Proof.
  induction a as [|x a IH]; [done|]. rewrite app_String. simpl.
  by rewrite IH, orb_assoc.
Qed.

Lemma slice_0_m1_snoc (a : string) (c : ascii) :
  slice_0_m1 (a ++ String c EmptyString)%string = a.
Proof.
  induction a as [|x a IH]; [done|].
  rewrite app_String. simpl. destruct (a ++ String c EmptyString)%string eqn:E.
  - by destruct a.
  - by rewrite <- IH.
Qed.

(** The pieces of a state vector, each a key and a value free of the two
    separators, are read back as written. *)
Lemma readState_pieces (kvs : list (string * string)) (acc : dict string (option string)) :
  Forall (fun kv => occurs "="%char (fst kv) = false ∧ occurs "="%char (snd kv) = false)
    kvs →
  fold_left
    (fun stateVector preState =>
       match split "="%char preState with
       | key :: rest => state_set key (head rest) stateVector
       | [] => stateVector
       end)
    (map (fun kv => (fst kv ++ "=" ++ snd kv)%string) kvs) acc =
  fold_left (fun stateVector kv => state_set (fst kv) (Some (snd kv)) stateVector) kvs acc.
Proof.
  intros H. revert acc. induction H as [|[k v] kvs [Hk Hv] _ IH]; intros acc; [done|].
  simpl in *.
  change ("=" ++ v)%string with (String "="%char v).
  rewrite (split_app_sep "="%char k v Hk), (split_no_sep "="%char v Hv). simpl.
  apply IH.
Qed.

Lemma split_pieces c (ps : list string) :
  ps ≠ [] → Forall (fun p => occurs c p = false) ps →
  split c (join (String c EmptyString) ps) = ps.
Proof. apply split_join. Qed.

(** Saving the state and reading it back is a round trip when neither the
    current layer, nor the bounds of the two range filters, nor the pattern
    contains ['&'] or ['=']: [readState] then returns the four entries
    [saveState] wrote, with their values.  [saveState] changes nothing. *)
Theorem readState_saveState (u c r : Filter) (w : World) :
  let v1 := ToString_opt (currentLayer w) in
  let v2 := (ToString (lower u) ++ ";" ++ ToString (upper u))%string in
  let v3 := (ToString (lower c) ++ ";" ++ ToString (upper c))%string in
  let v4 := regex_pattern r in
  Forall (fun v => occurs "&"%char v = false ∧ occurs "="%char v = false)
    [v1; v2; v3; v4] →
  ∃ s, saveState u c r w = (Ok s, w) ∧
       s = ("?currentLayer=" ++ v1 ++ "&utilFilter=" ++ v2 ++ "&capFilter=" ++ v3
            ++ "&routerNameFilter=" ++ v4)%string ∧
       readState s =
         [ ("currentLayer", Some v1); ("utilFilter", Some v2);
           ("capFilter", Some v3); ("routerNameFilter", Some v4) ].
Proof.
  intros v1 v2 v3 v4 Hv.
  apply Forall_cons in Hv as [[A1 E1] Hv]. apply Forall_cons in Hv as [[A2 E2] Hv].
  apply Forall_cons in Hv as [[A3 E3] Hv]. apply Forall_cons in Hv as [[A4 E4] _].
  set (s := ("?currentLayer=" ++ v1 ++ "&utilFilter=" ++ v2 ++ "&capFilter=" ++ v3
             ++ "&routerNameFilter=" ++ v4)%string).
  exists s. split; [|split; [done|]].
  - unfold saveState. rewrite bind_gets. unfold ret. f_equal. f_equal.
    fold v1 v2 v3 v4. cbn [fold_left fst snd].
    rewrite <- (slice_0_m1_snoc s "&"%char). f_equal.
    subst s. rewrite !append_assoc_s. reflexivity.
  - set (kvs := [("currentLayer", v1); ("utilFilter", v2); ("capFilter", v3);
                 ("routerNameFilter", v4)]).
    assert (Hs : substr_1 s
                 = join "&" (map (fun kv => (fst kv ++ "=" ++ snd kv)%string) kvs)).
    { subst s kvs. reflexivity. }
    unfold readState. rewrite Hs.
    change "&"%string with (String "&"%char EmptyString).
    rewrite split_pieces.
    + rewrite readState_pieces; [done|].
      subst kvs. repeat constructor; done.
    + done.
    + subst kvs. repeat constructor; simpl; rewrite ?occurs_app; simpl;
        rewrite ?A1, ?A2, ?A3, ?A4; done.
Qed.

(** The example world with the initial filters of [nv.init]. *)
Lemma readState_saveState_witness :
  let u := ex_utilFilter 0 10 in
  let c := ex_capFilter 0 10 in
  let r := ex_nameFilter "r1" in
  ∃ s, saveState u c r ex_world_metro = (Ok s, ex_world_metro) ∧
       s = "?currentLayer=metro&utilFilter=0;10&capFilter=0;10&routerNameFilter=r1" ∧
       readState s =
         [ ("currentLayer", Some "metro"); ("utilFilter", Some "0;10");
           ("capFilter", Some "0;10"); ("routerNameFilter", Some "r1") ].
Proof.
  intros u c r.
  assert (Hc : currentLayer ex_world_metro = Some "metro") by (vm_compute; reflexivity).
  assert (Hv : Forall (fun v => occurs "&"%char v = false ∧ occurs "="%char v = false)
                 [ToString_opt (currentLayer ex_world_metro);
                  (ToString (lower u) ++ ";" ++ ToString (upper u))%string;
                  (ToString (lower c) ++ ";" ++ ToString (upper c))%string;
                  regex_pattern r]).
  { rewrite Hc. repeat constructor. }
  destruct (readState_saveState u c r ex_world_metro Hv) as (s & Hs & Es & Hr).
  rewrite Hc in Es, Hr. exists s. split; [exact Hs|]. split; [exact Es|exact Hr].
Defined.

(** What [readState] does with a value that contains ['=']: it keeps the part
    before it.  A piece without ['='] gives a key whose value is
    [undefined], and so does the empty string, with the empty key.  The key
    [__proto__] is the exception: its assignment makes no entry. *)
Theorem readState_cuts_values (k p1 p2 : string) :
  occurs "&"%char k = false → occurs "="%char k = false →
  occurs "&"%char p1 = false → occurs "="%char p1 = false →
  occurs "&"%char p2 = false →
  readState ("?" ++ k ++ "=" ++ p1 ++ "=" ++ p2)
    = (if decide (k = "__proto__") then [] else [(k, Some p1)]) ∧
  readState ("?" ++ k) = (if decide (k = "__proto__") then [] else [(k, None)]) ∧
  readState "" = [("", None)].
Proof.
  intros Ak Ek A1 E1 A2. split; [|split; [|done]].
  - unfold readState.
    change (substr_1 ("?" ++ k ++ "=" ++ p1 ++ "=" ++ p2))
      with (k ++ String "="%char (p1 ++ String "="%char p2))%string.
    rewrite split_no_sep.
    + simpl. rewrite (split_app_sep "="%char k _ Ek), (split_app_sep "="%char p1 _ E1).
      unfold state_set. simpl. by case_decide.
    + rewrite occurs_app. simpl. rewrite occurs_app. simpl. by rewrite Ak, A1, A2.
  - unfold readState. change (substr_1 ("?" ++ k)) with k.
    rewrite split_no_sep by done. simpl. rewrite (split_no_sep "="%char k Ek).
    unfold state_set. simpl. by case_decide.
Qed.

Lemma readState_cuts_values_witness :
  readState "?routerNameFilter=a=b" = [("routerNameFilter", Some "a")] ∧
  readState "?__proto__=a=b" = [].
Proof.
  split.
  - exact (proj1 (readState_cuts_values "routerNameFilter" "a" "b"
                    eq_refl eq_refl eq_refl eq_refl eq_refl)).
  - exact (proj1 (readState_cuts_values "__proto__" "a" "b"
                    eq_refl eq_refl eq_refl eq_refl eq_refl)).
Defined.

(** ** The children of a link *)






(** ** The constructor of tree nodes *)

Section DictBuild.
Context {A V : Type} (f : A → string) (g : A → V).

Local Abbreviation build := (dict_build f g).

Lemma dict_build_cons c cs (acc : dict string V) :
  build (c :: cs) acc = build cs (dict_set (f c) (g c) acc).
Proof. done. Qed.

Lemma dict_keys_set (k : string) (v : V) (d : dict string V) :
  dict_keys (dict_set k v d) =
    if decide (k ∈ dict_keys d) then dict_keys d else dict_keys d ++ [k].
Proof.
  induction d as [|[k0 v0] d IH]; simpl; [done|].
  destruct (decide (k = k0)) as [->|Hne]; simpl.
  - rewrite decide_True; [done|by left].
  - change (dict_keys ((k0, v0) :: dict_set k v d)) with (k0 :: dict_keys (dict_set k v d)).
    change (dict_keys ((k0, v0) :: d)) with (k0 :: dict_keys d).
    rewrite IH.
    destruct (decide (k ∈ dict_keys d)) as [Hin|Hnin].
    + rewrite decide_True; [done|by right].
    + rewrite decide_False; [done|]. by intros [?|?]%elem_of_cons.
Qed.

Lemma build_keys cs : ∀ acc,
  NoDup (dict_keys acc) →
  NoDup (dict_keys (build cs acc)) ∧
  ∀ k, k ∈ dict_keys (build cs acc) ↔ k ∈ dict_keys acc ∨ k ∈ map f cs.
Proof.
  induction cs as [|c cs IH]; intros acc Hnd; [|rewrite dict_build_cons].
  - change (build [] acc) with acc. split; [done|]. intros k. split; [by left|]. by intros [?|?%elem_of_nil].
  - destruct (IH (dict_set (f c) (g c) acc)) as [IH1 IH2].
    { rewrite dict_keys_set. case_decide; [done|].
      apply NoDup_app. split; [done|]. split; [|apply NoDup_singleton].
      by intros x Hx ->%list_elem_of_singleton. }
    split; [done|]. intros k. rewrite IH2, dict_keys_set.
    change (map f (c :: cs)) with (f c :: map f cs). rewrite elem_of_cons.
    case_decide as E.
    + split; [tauto|]. intros [?|[->|?]]; tauto.
    + rewrite elem_of_app, list_elem_of_singleton. tauto.
Qed.

Lemma build_get_old cs k : ∀ acc,
  k ∉ map f cs → dict_get k (build cs acc) = dict_get k acc.
Proof.
  induction cs as [|c cs IH]; intros acc Hk; [done|].
  rewrite dict_build_cons, IH, dict_get_set.
  - rewrite decide_False; [done|]. intros ->. apply Hk. by left.
  - intros ?. apply Hk. by right.
Qed.

Lemma build_get_last cs : ∀ acc i c,
  cs !! i = Some c →
  (∀ j c', (i < j)%nat → cs !! j = Some c' → f c' ≠ f c) →
  dict_get (f c) (build cs acc) = Some (g c).
Proof.
  induction cs as [|c0 cs IH]; intros acc i c Hi Hlast; [done|].
  rewrite dict_build_cons. destruct i as [|i]; simpl in Hi.
  - injection Hi as ->. rewrite build_get_old, dict_get_set.
    + by rewrite decide_True.
    + intros (c' & Hc' & Hin)%list_elem_of_In%in_map_iff.
      apply list_elem_of_In, list_elem_of_lookup in Hin as [j Hj].
      by apply (Hlast (S j) c'); [lia| |].
  - apply (IH _ i); [done|]. intros j c' Hj Hc'.
    apply (Hlast (S j)); [lia|done].
Qed.

Lemma build_size cs :
  (length (build cs []) ≤ length cs)%nat ∧
  (length (build cs []) = length cs ↔ NoDup (map f cs)).
Proof.
  destruct (build_keys cs []) as [Hnd Hk]; [constructor|].
  assert (Hsub : dict_keys (build cs []) ⊆+ map f cs).
  { apply NoDup_submseteq; [done|]. intros k Hin. apply Hk in Hin as [Hin|Hin]; [|done].
    by apply elem_of_nil in Hin. }
  assert (Hlen : length (dict_keys (build cs [])) = length (build cs []))
    by (unfold dict_keys; apply length_map).
  pose proof (submseteq_length _ _ Hsub) as Hle.
  rewrite Hlen, length_map in Hle. split; [done|]. split.
  - intros Heq. eapply NoDup_Permutation_proper; [|exact Hnd].
    symmetry. apply submseteq_length_Permutation; [done|].
    rewrite Hlen, length_map. lia.
  - intros Hnd'. rewrite <- Hlen, <- (length_map f cs).
    apply Permutation_length, NoDup_Permutation; [done|done|].
    intros k. rewrite Hk. split; [by intros [?%elem_of_nil|?]|by right].
Qed.
End DictBuild.

(** The constructor counts in [numChildren] every child the description
    lists, but files each one under the last segment of its name: the
    dictionary [children] never has more entries than [numChildren] says,
    and has as many exactly when those last segments are pairwise different.
    A listed child that is the last one with its short name is the node
    found under that name. *)
Theorem Node_new_counts_listed_children (obj : TreeObj) (cs : list TreeObj) :
  obj_children obj = Some cs →
  ∃ d, children (Node_new obj) = Some d ∧
       numChildren (Node_new obj) = length cs ∧
       (length d ≤ length cs)%nat ∧
       (length d = length cs ↔ NoDup (map (fun c => shortName (obj_nodeName c)) cs)) ∧
       ∀ i c, cs !! i = Some c →
         (∀ j c', (i < j)%nat → cs !! j = Some c' →
                  shortName (obj_nodeName c') ≠ shortName (obj_nodeName c)) →
         dict_get (shortName (obj_nodeName c)) d = Some (Node_new c).
Proof.
  intros Hcs. destruct obj as [i nm fl fb ocs]. simpl in Hcs. subst ocs.
  eexists. split; [reflexivity|]. split; [reflexivity|].
  pose proof (build_size (fun c => shortName (obj_nodeName c)) Node_new cs) as [Hle Heq].
  split; [exact Hle|]. split; [exact Heq|].
  intros j c Hj Hlast.
  exact (build_get_last (fun c => shortName (obj_nodeName c)) Node_new cs [] j c Hj Hlast).
Qed.

(** Two listed children whose names end in the same segment: counted twice,
    filed once. *)
Lemma Node_new_counts_listed_children_witness :
  ∃ d, children (Node_new (mkTreeObj None "root" false None
                     (Some [mkTreeObj (Some 0) "A_x" false None None;
                            mkTreeObj (Some 1) "B_x" false None None]))) = Some d ∧
       numChildren (Node_new (mkTreeObj None "root" false None
                     (Some [mkTreeObj (Some 0) "A_x" false None None;
                            mkTreeObj (Some 1) "B_x" false None None]))) = 2%nat ∧
       (length d ≤ 2)%nat.
Proof.
  destruct (Node_new_counts_listed_children
              (mkTreeObj None "root" false None
                 (Some [mkTreeObj (Some 0) "A_x" false None None;
                        mkTreeObj (Some 1) "B_x" false None None]))
              [mkTreeObj (Some 0) "A_x" false None None;
               mkTreeObj (Some 1) "B_x" false None None])
    as (d & Hd & Hn & Hle & _); [reflexivity|].
  exists d. split; [exact Hd|]. split; [exact Hn|exact Hle].
Defined.

(** ** A second pass of a node filter *)

Section SecondPass.

Variable StringToNumber : string → option Z.
Variable RegExp : string → option (string → bool).

Local Abbreviation filterNodes' := (filterNodes StringToNumber RegExp).
Local Abbreviation filterNodes_body' := (filterNodes_body StringToNumber RegExp).
Local Abbreviation filterNodes_target' := (filterNodes_target StringToNumber RegExp).
Local Abbreviation isNodeInbound' := (isNodeInbound StringToNumber RegExp).
Local Abbreviation isInbound' := (isInbound StringToNumber RegExp).

(** An answer of a filter does not depend on the world, and leaves it. *)
Lemma isInbound_Ok_any F v s b s1 :
  isInbound' F v s = (Ok b, s1) → s1 = s ∧ ∀ s', isInbound' F v s' = (Ok b, s').
Proof.
  unfold isInbound, rFilter_isInbound. destruct (filterType F).
  - unfold ret. intros [= <- <-]. done.
  - destruct (RegExp (regex_pattern F)) as [re|]; [|done].
    rewrite bind_ret. simpl defined. rewrite bind_ret. unfold ret. intros [= <- <-]. done.
Qed.

Lemma elt_at_Ok_any i s e s1 :
  elt_at i s = (Ok e, s1) →
  s1 = s ∧ ∀ s', nodesList s' = nodesList s → elt_at i s' = (Ok e, s').
Proof.
  intros H. apply elt_at_Ok_inv in H as [-> H]. split; [done|].
  intros s' Hs. apply elt_at_Some. by rewrite Hs.
Qed.

Lemma getProperty_Ok_any node p s v s1 :
  getProperty node p s = (Ok v, s1) →
  s1 = s ∧ ∀ node' s', index node' = index node → nodesList s' = nodesList s →
             getProperty node' p s' = (Ok v, s').
Proof.
  unfold getProperty. intros H.
  destruct (index node) as [i|] eqn:Ei.
  - case_decide as Hi.
    + bind_inv H e s2 He. apply elt_at_Ok_any in He as [-> He].
      unfold ret in H. injection H as <- <-. split; [done|].
      intros node' s' -> Hs. rewrite decide_True by done.
      by rewrite (bind_Ok _ _ _ _ _ (He s' Hs)).
    + unfold ret in H. injection H as <- <-. split; [done|].
      intros node' s' -> Hs. by rewrite decide_False.
  - unfold ret in H. injection H as <- <-. split; [done|]. by intros node' s' -> Hs.
Qed.

(** The answer of a filter about a node depends on the index of the node
    and on the node records only, and leaves the world as it is. *)
Lemma isNodeInbound_Ok_any F node s b s1 :
  isNodeInbound' F node s = (Ok b, s1) →
  s1 = s ∧ ∀ node' s', index node' = index node → nodesList s' = nodesList s →
             isNodeInbound' F node' s' = (Ok b, s').
Proof.
  unfold isNodeInbound. destruct (includeNeighbors F).
  - unfold isNodeInboundIncludeNeighbors. intros H.
    bind_inv H attr s2 Ha. apply getProperty_Ok_any in Ha as [-> Ha].
    bind_inv H valid s2 Hv. apply isInbound_Ok_any in Hv as [-> Hv].
    destruct valid.
    + unfold ret in H. injection H as <- <-. split; [done|].
      intros node' s' Hi Hs.
      rewrite (bind_Ok _ _ _ _ _ (Ha node' s' Hi Hs)).
      by rewrite (bind_Ok _ _ _ _ _ (Hv s')).
    + rewrite bind_defined in H. destruct (index node) as [i|] eqn:Ei; [|done].
      bind_inv H e s2 He. apply elt_at_Ok_any in He as [-> He].
      cut (s1 = s ∧ ∀ s', nodesList s' = nodesList s →
             (fix over (ns : list Z) : M bool :=
                match ns with
                | [] => ret false
                | each :: ns' =>
                    let* n := elt_at each in
                    let* neighborValid :=
                      isInbound' F (default VUndefined (elt_property n (attribute F))) in
                    if neighborValid then ret true else over ns'
                end) (dict_keys (elt_neighbors e)) s' = (Ok b, s')).
      { intros [-> Hover]. split; [done|]. intros node' s' Hi Hs.
        rewrite (bind_Ok _ _ _ _ _ (Ha node' s' Hi Hs)).
        rewrite (bind_Ok _ _ _ _ _ (Hv s')). rewrite Hi, bind_defined.
        rewrite (bind_Ok _ _ _ _ _ (He s' Hs)). by apply Hover. }
      clear Ha Hv He. revert H.
      induction (dict_keys (elt_neighbors e)) as [|each ns IH]; intros H.
      * unfold ret in H. injection H as <- <-. done.
      * bind_inv H n s2 Hn. apply elt_at_Ok_any in Hn as [-> Hn].
        bind_inv H nv s2 Hnv. apply isInbound_Ok_any in Hnv as [-> Hnv].
        destruct nv.
        -- unfold ret in H. injection H as <- <-. split; [done|]. intros s' Hs.
           rewrite (bind_Ok _ _ _ _ _ (Hn s' Hs)).
           by rewrite (bind_Ok _ _ _ _ _ (Hnv s')).
        -- destruct (IH H) as [-> Hrest]. split; [done|]. intros s' Hs.
           rewrite (bind_Ok _ _ _ _ _ (Hn s' Hs)).
           rewrite (bind_Ok _ _ _ _ _ (Hnv s')). by apply Hrest.
  - unfold Filter_isNodeInbound. intros H.
    bind_inv H attr s2 Ha. apply getProperty_Ok_any in Ha as [-> Ha].
    apply isInbound_Ok_any in H as [-> Hv]. split; [done|].
    intros node' s' Hi Hs. rewrite (bind_Ok _ _ _ _ _ (Ha node' s' Hi Hs)). apply Hv.
Qed.

(** The branch for the filter's own layer, when it completes, has had an
    answer of the filter about the node. *)
Lemma filterNodes_target_answer F r xs s s' :
  deref (nodesTree s) r = Some xs →
  filterNodes_target' F (Some r) s = (Ok tt, s') →
  ∃ b, isNodeInbound' F xs s = (Ok b, s).
Proof.
  intros Hd H. unfold filterNodes_target in H.
  rewrite (bind_Ok _ _ _ _ _ (node_at_Some _ _ _ Hd)) in H.
  simpl defined in H. rewrite bind_ret in H.
  destruct (filtered xs); simpl in H.
  - rewrite bind_ret in H. bind_inv H back s2 Hb. bind_inv Hb b s3 Hin.
    destruct (isNodeInbound_Ok_any _ _ _ _ _ Hin) as [-> _]. by exists b.
  - bind_inv H out s2 Hb. bind_inv Hb b s3 Hin.
    destruct (isNodeInbound_Ok_any _ _ _ _ _ Hin) as [-> _]. by exists b.
Qed.

(** The branch for the other layers does nothing on a node that is
    filtered exactly when its children all are. *)
Lemma filterNodes_ancestor_at_rest F r A s :
  deref (nodesTree s) r = Some A →
  filtered A = areChildrenFilteredOut A →
  filterNodes_ancestor F (Some r) s = (Ok tt, s).
Proof.
  intros Hd Hf. unfold filterNodes_ancestor.
  rewrite (bind_Ok _ _ _ _ _ (node_at_Some _ _ _ Hd)). simpl defined. rewrite bind_ret.
  rewrite Hf. by destruct (areChildrenFilteredOut A).
Qed.

(** After the target branch the node is at rest. *)
Lemma target_step_at_rest F b xs :
  at_rest F b
    (if negb (filtered xs) && negb b && bool_decide (filteredBy xs = None)
     then target_out (label F) xs
     else if filtered xs && b && bool_decide (filteredBy xs = Some (label F))
     then target_in (label F) xs
     else xs).
Proof.
  unfold at_rest.
  destruct (negb (filtered xs) && negb b && bool_decide (filteredBy xs = None)) eqn:E1.
  - destruct (target_out_fields (label F) xs) as (_ & -> & ->).
    apply andb_prop in E1 as [[_ Hb%negb_true_iff]%andb_prop _]. rewrite Hb. done.
  - destruct (filtered xs && b && bool_decide (filteredBy xs = Some (label F))) eqn:E2.
    + destruct (target_in_fields (label F) xs) as (_ & -> & ->).
      apply andb_prop in E2 as [[_ Hb]%andb_prop _]. rewrite Hb. done.
    + done.
Qed.

Local Abbreviation rest_so_far' := (rest_so_far StringToNumber RegExp).

Lemma filterNodes_rest_so_far F w w' sub :
  wf_nodes w →
  getSubArray (fun i => elt_type <$> nodesList w !! i)
    (layer_sorted_nodes w) (layer F) = Some sub →
  filterNodes' F w = (Ok tt, w') →
  rest_so_far' F w sub w'.
Proof.
  intros [Hlayers _] Esub Hrun.
  assert (Hdepth : ∀ y ey, nodesList w !! y = Some ey →
            layer_depth (elt_type ey)
            = Some (length (split underscore (elt_nodeName ey)))).
  { intros y ey Hy. unfold wf_layers in Hlayers. rewrite Forall_forall in Hlayers.
    apply Hlayers. by eapply list_elem_of_lookup_2. }
  unfold filterNodes, getSubArrayOfSortedNodes in Hrun.
  rewrite bind_gets, Esub, bind_defined in Hrun.
  refine (forEach_Ok_ind (rest_so_far' F w) _ _ w w' _ _ Hrun).
  - split; [done|]. split; [done|]. by intros y ?%elem_of_nil.
  - intros pre y suf s s' _ ([Hl1 Hl2] & Hsh & Hpre) Hbody.
    destruct (filterNodes_body_inv StringToNumber RegExp F y s s' Hbody)
      as (ey & ry & ny & Hey & Hry & Hny & Hstep).
    rewrite Hl1 in Hey. rewrite <- (resolve_shape _ _ _ Hsh) in Hry.
    pose proof (resolve_ref _ _ _ Hry) as Ery.
    pose proof (Hdepth y ey Hey) as Dy.
    case_decide as Hty_y.
    + (* a record of the filter's layer *)
      destruct (filterNodes_target_answer F ry ny s s' Hny Hstep) as [b Hb].
      rewrite (filterNodes_target_at StringToNumber RegExp F ry ny b s Hny Hb) in Hstep.
      injection Hstep as Hs'.
      set (ny' := if negb (filtered ny) && negb b && bool_decide (filteredBy ny = None)
                  then target_out (label F) ny
                  else if filtered ny && b && bool_decide (filteredBy ny = Some (label F))
                  then target_in (label F) ny
                  else ny).
      assert (Hfacts : lists_kept w s' ∧ same_shape (nodesTree w) (nodesTree s') ∧
                deref (nodesTree s') ry = Some ny' ∧ index ny' = index ny ∧
                ∀ q, length q = length ry → q ≠ ry →
                     deref (nodesTree s') q = deref (nodesTree s) q).
      { subst ny'.
        assert (Hdis : ∀ f q, length q = length ry → q ≠ ry →
                  deref (update_at ry f (nodesTree s)) q = deref (nodesTree s) q).
        { intros f q Hlen Hne. apply deref_update_at_disjoint.
          - intros Hpf. apply Hne. symmetry. by apply prefix_same_length.
          - intros Hpf. apply Hne. by apply prefix_same_length. }
        destruct (negb (filtered ny) && negb b && bool_decide (filteredBy ny = None)).
        { subst s'. simpl. split; [done|]. split.
          { eapply same_shape_trans; [done|].
            apply same_shape_update_at, same_shape_target_out. }
          rewrite (deref_update_at_self _ _ _ _ Hny). split; [done|].
          split; [apply target_out_fields|]. apply Hdis. }
        destruct (filtered ny && b && bool_decide (filteredBy ny = Some (label F))).
        { subst s'. simpl. split; [done|]. split.
          { eapply same_shape_trans; [done|].
            apply same_shape_update_at, same_shape_target_in. }
          rewrite (deref_update_at_self _ _ _ _ Hny). split; [done|].
          split; [apply target_in_fields|]. apply Hdis. }
        subst s'. done. }
      destruct Hfacts as (Hlk & Hsh' & Hny' & Hidx & Hother).
      assert (Hlists : nodesList s' = nodesList s) by (destruct Hlk; congruence).
      assert (Hhere : ∃ xs b0, deref (nodesTree s') ry = Some xs ∧
                        isNodeInbound' F xs s' = (Ok b0, s') ∧ at_rest F b0 xs).
      { exists ny', b. split; [done|]. split.
        - destruct (isNodeInbound_Ok_any _ _ _ _ _ Hb) as [_ Hany]. by apply Hany.
        - apply target_step_at_rest. }
      split; [done|]. split; [done|].
      intros y0 [Hy0|Hy0%list_elem_of_singleton]%elem_of_app.
      * destruct (Hpre y0 Hy0) as (e0 & r0 & He0 & Hr0 & Ht0).
        exists e0, r0. split; [done|]. split; [done|]. intros Hty0.
        destruct (Ht0 Hty0) as (xs0 & b0 & Hxs0 & Hb0 & Hrest0).
        destruct (decide (r0 = ry)) as [->|Hne]; [done|].
        exists xs0, b0. rewrite Hother; [| |done].
        -- split; [done|]. split; [|done].
           destruct (isNodeInbound_Ok_any _ _ _ _ _ Hb0) as [_ Hany]. by apply Hany.
        -- rewrite Ery, (resolve_ref _ _ _ Hr0).
           pose proof (Hdepth y0 e0 He0) as D0. rewrite Hty0, <- Hty_y, Dy in D0.
           congruence.
      * subst y0. exists ey, ry. split; [done|]. split; [done|]. by intros _.
    + (* a record of another layer *)
      pose proof (post_run _ _ _ _ _ (filterNodes_ancestor_spec F (Some ry) s) Hstep)
        as [Hlk (r1 & [= <-] & _ & Ht)].
      assert (Hlists : nodesList s' = nodesList s) by (destruct Hlk; congruence).
      split; [destruct Hlk; split; congruence|]. split.
      { rewrite Ht. eapply same_shape_trans; [done|apply same_shape_ancestor_update]. }
      intros y0 [Hy0|Hy0%list_elem_of_singleton]%elem_of_app.
      * destruct (Hpre y0 Hy0) as (e0 & r0 & He0 & Hr0 & Ht0).
        exists e0, r0. split; [done|]. split; [done|]. intros Hty0.
        destruct (Ht0 Hty0) as (xs0 & b0 & Hxs0 & Hb0 & Hrest0).
        assert (Hne : r0 ≠ ry).
        { intros ->. apply Hty_y. rewrite <- Hty0.
          pose proof (Hdepth y0 e0 He0) as D0.
          apply (layer_depth_rank_inj _ _ _ _ Dy D0).
          rewrite <- Ery, <- (resolve_ref _ _ _ Hr0). done. }
        assert (Hkeep : ∃ xs', deref (nodesTree s') r0 = Some xs' ∧ index xs' = index xs0 ∧
                          filtered xs' = filtered xs0 ∧ filteredBy xs' = filteredBy xs0).
        { rewrite Ht. unfold ancestor_update.
          destruct (deref (nodesTree s) ry); [|by exists xs0].
          destruct (_ && _);
            [apply update_elsewhere_fields;
               [intros; apply children_filterOut_mark|done|done]|].
          destruct (_ && _);
            [apply update_elsewhere_fields;
               [intros; apply children_filterIn_unmark|done|done]|by exists xs0]. }
        destruct Hkeep as (xs' & Hxs' & Hi' & Hf' & Hb').
        exists xs', b0. split; [done|]. split.
        -- destruct (isNodeInbound_Ok_any _ _ _ _ _ Hb0) as [_ Hany]. by apply Hany.
        -- unfold at_rest. by rewrite Hf', Hb'.
      * subst y0. exists ey, ry. split; [done|]. split; [done|]. by intros ?.
Qed.

(** In a world whose node records are well formed, a pass of a node filter
    that has completed leaves a world on which the same pass, run again,
    completes and changes nothing: the nodes of the filter's layer are at
    rest, and the nodes above are filtered exactly when their children all
    are. *)
Theorem filterNodes_idempotent (F : Filter) (w w' : World) :
  wf_nodes w →
  filterNodes' F w = (Ok tt, w') →
  filterNodes' F w' = (Ok tt, w').
Proof.
  intros Hwf Hrun. pose proof Hrun as Hrun'.
  unfold filterNodes, getSubArrayOfSortedNodes in Hrun'.
  rewrite bind_gets, bind_defined in Hrun'.
  destruct (getSubArray _ _ _) as [sub|] eqn:Esub; [clear Hrun'|done].
  destruct (filterNodes_rest_so_far F w w' sub Hwf Esub Hrun) as ([Hl1 Hl2] & Hsh & Hrest).
  destruct (filterNodes_bottom_up_so_far StringToNumber RegExp F w w' sub Hwf Esub Hrun)
    as (_ & _ & Hup).
  unfold filterNodes, getSubArrayOfSortedNodes.
  rewrite bind_gets, Hl1, Hl2, Esub, bind_defined.
  apply forEach_noop, Forall_forall. intros y Hy.
  destruct (Hrest y Hy) as (ey & ry & Hey & Hry & Htarget).
  unfold filterNodes_body. rewrite bind_gets, Hl1, Hey, bind_defined.
  rewrite (resolve_shape _ _ _ Hsh) in Hry.
  rewrite (bind_Ok _ _ _ _ _ (getNodeByName_Some _ _ _ Hry)).
  case_decide as Hty.
  - destruct (Htarget Hty) as (xs & b & Hxs & Hb & [H1 H2]).
    rewrite (filterNodes_target_at StringToNumber RegExp F ry xs b w' Hxs Hb).
    by rewrite H1, H2.
  - destruct (Hup y ey Hy Hey Hty) as (r & A & Hr & HA & HfA).
    rewrite Hry in Hr. injection Hr as <-.
    by apply filterNodes_ancestor_at_rest with A.
Qed.

End SecondPass.

(** The utilization filter with bounds 0 to 5 on the example, run twice. *)
Lemma filterNodes_idempotent_witness :
  filterNodes ex_StringToNumber ex_RegExp (ex_utilFilter 0 5) ex_world_cap
    = (Ok tt, ex_world_cap_util) ∧
  filterNodes ex_StringToNumber ex_RegExp (ex_utilFilter 0 5) ex_world_cap_util
    = (Ok tt, ex_world_cap_util).
Proof.
  assert (Hwf : wf_nodes ex_world_cap) by (vm_compute; repeat constructor).
  assert (Hrun : filterNodes ex_StringToNumber ex_RegExp (ex_utilFilter 0 5) ex_world_cap
                 = (Ok tt, ex_world_cap_util)) by (vm_compute; reflexivity).
  split; [exact Hrun|].
  exact (filterNodes_idempotent ex_StringToNumber ex_RegExp (ex_utilFilter 0 5)
           ex_world_cap ex_world_cap_util Hwf Hrun).
Defined.
